(** * CalculateImageOverlap: a shallow embedding and its properties

    The development embeds the comparison engine of
    [cellprofiler/modules/calculateimageoverlap.py]:
    - [measure_image]           (pixel mode, confusion ratios),
    - [compute_rand_index]      (contingency-table Rand index),
    - [measure_objects]         (object matcher and object-level counts),
    - [compute_rand_index_ijv]  (Omega index on sparse labelings),
    and, around it, the settings of the module, [upgrade_settings], the
    measurement names and listings, and [run].

    Numeric conventions.  Arrays of pixel counts hold integer-valued
    float64 numbers; they are modelled in [Z] (every [x*(x-1)/2] taken on
    them is exact, see [choose2_exact]).  Scalars obtained by a true
    division are modelled by canonical rationals ([Qred] after every
    operation), extended with NaN and the two infinities for numpy
    scalars.  Rounding, overflow and signed zeros are not modelled. *)

From Stdlib Require Import ZArith QArith Qreduction List Bool Lia Lqa.
From Stdlib Require Import Permutation Sorted Morphisms Setoid.
From Stdlib Require String.
Import ListNotations.
Import String.StringSyntax.
Delimit Scope string_scope with string.
Open Scope Z_scope.

(* ================================================================== *)
(** * Part I: definitions                                               *)
(* ================================================================== *)

(** ** Python exceptions *)

Inductive exn : Type := IndexError | ValueError | ZeroDivisionError.

Inductive result (A : Type) : Type :=
| Ok (a : A)
| Raise (e : exn).
Arguments Ok {A} a.
Arguments Raise {A} e.

Definition bind {A B : Type} (r : result A) (k : A -> result B) : result B :=
  match r with
  | Ok a => k a
  | Raise e => Raise e
  end.

Notation "x <- r ;; k" := (bind r (fun x => k))
  (at level 61, r at next level, right associativity).

(** ** Floating-point scalars *)

(** A numpy float64 scalar: a finite value, an infinity or NaN. *)
Inductive fl : Type :=
| Fin (q : Q)
| PInf
| NInf
| NaN.

Definition Qlt_bool (x y : Q) : bool := negb (Qle_bool y x).

Definition fl_neg (x : fl) : fl :=
  match x with
  | Fin a => Fin (Qred (- a))
  | PInf => NInf
  | NInf => PInf
  | NaN => NaN
  end.

Definition fl_add (x y : fl) : fl :=
  match x, y with
  | NaN, _ | _, NaN => NaN
  | Fin a, Fin b => Fin (Qred (a + b))
  | PInf, NInf | NInf, PInf => NaN
  | PInf, _ | _, PInf => PInf
  | NInf, _ | _, NInf => NInf
  end.

Definition fl_sub (x y : fl) : fl :=
  match x, y with
  | NaN, _ | _, NaN => NaN
  | Fin a, Fin b => Fin (Qred (a - b))
  | PInf, PInf | NInf, NInf => NaN
  | PInf, _ | _, NInf => PInf
  | NInf, _ | _, PInf => NInf
  end.

(** Sign of a finite value as numpy sees it when it scales an infinity;
    [None] stands for zero. *)
Definition q_sign (a : Q) : option bool :=
  if Qeq_bool a 0 then None else Some (Qlt_bool 0 a).

Definition signed_inf (positive : bool) : fl := if positive then PInf else NInf.

Definition fl_sign (x : fl) : option (option bool) :=
  match x with
  | Fin a => Some (q_sign a)
  | PInf => Some (Some true)
  | NInf => Some (Some false)
  | NaN => None
  end.

Definition fl_mul (x y : fl) : fl :=
  match x, y with
  | NaN, _ | _, NaN => NaN
  | Fin a, Fin b => Fin (Qred (a * b))
  | _, _ =>
      match fl_sign x, fl_sign y with
      | Some (Some s), Some (Some t) => signed_inf (Bool.eqb s t)
      | _, _ => NaN
      end
  end.

(** numpy's true division: a zero divisor gives NaN or an infinity (and a
    warning), never an exception. *)
Definition fl_div (x y : fl) : fl :=
  match x, y with
  | NaN, _ | _, NaN => NaN
  | Fin a, Fin b =>
      if Qeq_bool b 0 then
        match q_sign a with
        | None => NaN
        | Some s => signed_inf s
        end
      else Fin (Qred (a / b))
  | Fin _, _ => Fin 0
  | _, Fin b =>
      match fl_sign x with
      | Some (Some s) => signed_inf (Bool.eqb s (negb (Qlt_bool b 0)))
      | _ => NaN
      end
  | _, _ => NaN
  end.

Definition fl_of_Z (z : Z) : fl := Fin (inject_Z z).

(** Python's own float division raises on a zero divisor. *)
Definition py_div (a b : Q) : result Q :=
  if Qeq_bool b 0 then Raise ZeroDivisionError else Ok (Qred (a / b)).

(** ** Grids (2-D numpy arrays) *)

Definition grid (A : Type) : Type := list (list A).

Fixpoint zip_with {A B C : Type} (f : A -> B -> C) (l : list A) (m : list B)
  : list C :=
  match l, m with
  | a :: l', b :: m' => f a b :: zip_with f l' m'
  | _, _ => []
  end.

Definition grid_map {A B : Type} (f : A -> B) (g : grid A) : grid B :=
  map (map f) g.

Definition grid_map2 {A B C : Type} (f : A -> B -> C) (g : grid A) (h : grid B)
  : grid C :=
  zip_with (zip_with f) g h.

(** Two arrays have the same shape. *)
Definition same_shape {A B : Type} (g : grid A) (h : grid B) : Prop :=
  Forall2 (fun r s => length r = length s) g h.

Definition zsum (l : list Z) : Z := fold_right Z.add 0 l.

(** [np.sum] of a boolean array. *)
Definition count_true_row (r : list bool) : Z :=
  zsum (map (fun b : bool => if b then 1 else 0) r).

Definition count_true (g : grid bool) : Z := zsum (map count_true_row g).

(** [a[~ mask] = False] *)
Definition clear_unmasked (a mask : grid bool) : grid bool :=
  grid_map2 (fun v m => if negb m then false else v) a mask.

(** [a[mask]]: the entries under a true mask cell, in row-major order. *)
Definition select_row {A : Type} (r : list A) (m : list bool) : list A :=
  concat (zip_with (fun v (b : bool) => if b then [v] else []) r m).

Definition select {A : Type} (a : grid A) (mask : grid bool) : list A :=
  concat (zip_with select_row a mask).

(** ** The measurements of one comparison *)

Record overlap_stats : Type := {
  f_factor : fl;
  precision : fl;
  recall : fl;
  false_positive_rate : fl;
  false_negative_rate : fl;
  rand_index : fl;
  adjusted_rand_index : fl
}.

(** ** compute_rand_index *)

(** [.astype(np.uint64)] *)
Definition to_u64 (z : Z) : Z := z mod 2 ^ 64.

(** [choose2]: the number of pairs of [x] things. *)
Definition choose2 (x : Z) : Z := x * (x - 1) / 2.

Definition zmax_list (l : list Z) : Z := fold_right Z.max 0 l.

Definition zeros (rows cols : nat) : grid Z := repeat (repeat 0 cols) rows.

Fixpoint upd_nth {A : Type} (n : nat) (f : A -> A) (l : list A) : list A :=
  match l, n with
  | [], _ => []
  | a :: l', O => f a :: l'
  | a :: l', S n' => a :: upd_nth n' f l'
  end.

(** [m[r, c] += v] on an in-range cell. *)
Definition madd (m : grid Z) (r c : nat) (v : Z) : grid Z :=
  upd_nth r (upd_nth c (fun x => x + v)) m.

(** [coo_matrix((ones, (rows, cols))).toarray()]: the shape is one more than
    the largest index on each axis, duplicate entries are summed. *)
Definition coo_toarray (rows cols : list Z) : grid Z :=
  fold_left (fun m rc => madd m (Z.to_nat (fst rc)) (Z.to_nat (snd rc)) 1)
            (combine rows cols)
            (zeros (S (Z.to_nat (zmax_list rows))) (S (Z.to_nat (zmax_list cols)))).

Definition msum (m : grid Z) : Z := zsum (map zsum m).

(** [np.sum(m, 1)] and [np.sum(m, 0)] *)
Definition row_sums (m : grid Z) : list Z := map zsum m.

Definition col_sums (m : grid Z) : list Z :=
  fold_right (zip_with Z.add) (repeat 0 (length (hd [] m))) m.

(** [np.sum((N_i[:, np.newaxis] - N_ij) * N_ij)] *)
Definition row_disagreement (N_ij : grid Z) : Z :=
  zsum (zip_with (fun ni row => zsum (map (fun x => (ni - x) * x) row))
                 (row_sums N_ij) N_ij).

(** [np.sum((N_j[np.newaxis, :] - N_ij) * N_ij)] *)
Definition col_disagreement (N_ij : grid Z) : Z :=
  zsum (map (fun row => zsum (zip_with (fun nj x => (nj - x) * x)
                                       (col_sums N_ij) row)) N_ij).

Definition compute_rand_index (test_labels ground_truth_labels : grid Z)
           (mask : grid bool) : fl * fl :=
  let ground_truth_labels := map to_u64 (select ground_truth_labels mask) in
  let test_labels := map to_u64 (select test_labels mask) in
  if (0 <? length test_labels)%nat then
    let N_ij := coo_toarray ground_truth_labels test_labels in
    let A := msum (grid_map choose2 N_ij) in
    let N_i := row_sums N_ij in
    let N_j := col_sums N_ij in
    let C := Qred (inject_Z (row_disagreement N_ij) / 2) in
    let D := Qred (inject_Z (col_disagreement N_ij) / 2) in
    let total := choose2 (Z.of_nat (length test_labels)) in
    let B := Qred (Qred (Qred (inject_Z total - inject_Z A) - C) - D) in
    let rand_index := fl_div (Fin (Qred (inject_Z A + B))) (fl_of_Z total) in
    let expected_index := zsum (map choose2 N_i) * zsum (map choose2 N_j) in
    let max_index :=
      Qred (inject_Z ((zsum (map choose2 N_i) + zsum (map choose2 N_j)) * total)
            / 2) in
    let adjusted_rand_index :=
      fl_div (fl_of_Z (A * total - expected_index))
             (Fin (Qred (max_index - inject_Z expected_index))) in
    (rand_index, adjusted_rand_index)
  else (NaN, NaN).

(** ** measure_image *)

Section MeasureImage.

(** [scipy.ndimage.label] with the 3x3 structuring element: the
    connected-component labelling of a mask.  It is a library function
    and stays a parameter. *)
Variable label : grid bool -> grid Z.

Definition measure_image (test_pixels ground_truth_pixels mask : grid bool)
  : result overlap_stats :=
  let false_positives :=
    clear_unmasked (grid_map2 andb test_pixels (grid_map negb ground_truth_pixels))
                   mask in
  let false_negatives :=
    clear_unmasked (grid_map2 andb (grid_map negb test_pixels) ground_truth_pixels)
                   mask in
  let true_positives :=
    clear_unmasked (grid_map2 andb test_pixels ground_truth_pixels) mask in
  let true_negatives :=
    clear_unmasked (grid_map2 andb (grid_map negb test_pixels)
                              (grid_map negb ground_truth_pixels)) mask in
  let false_positive_count := count_true false_positives in
  let true_positive_count := count_true true_positives in
  let false_negative_count := count_true false_negatives in
  let true_negative_count := count_true true_negatives in
  let labeled_pixel_count := true_positive_count + false_positive_count in
  let true_count := true_positive_count + false_negative_count in
  precision <-
    (if labeled_pixel_count =? 0 then Ok 1%Q
     else py_div (inject_Z true_positive_count) (inject_Z labeled_pixel_count)) ;;
  recall <-
    (if true_count =? 0 then Ok 1%Q
     else py_div (inject_Z true_positive_count) (inject_Z true_count)) ;;
  f_factor <-
    (if Qeq_bool (Qred (precision + recall)) 0 then Ok 0%Q
     else py_div (Qred (Qred (2 * precision) * recall))
                 (Qred (precision + recall))) ;;
  let negative_count := false_positive_count + true_negative_count in
  false_positive_rate <-
    (if negative_count =? 0 then Ok 0%Q
     else py_div (inject_Z false_positive_count) (inject_Z negative_count)) ;;
  false_negative_rate <-
    (if true_count =? 0 then Ok 0%Q
     else py_div (inject_Z false_negative_count) (inject_Z true_count)) ;;
  let ground_truth_labels := label (grid_map2 andb ground_truth_pixels mask) in
  let test_labels := label (grid_map2 andb test_pixels mask) in
  let ri := compute_rand_index test_labels ground_truth_labels mask in
  Ok {| f_factor := Fin f_factor;
        precision := Fin precision;
        recall := Fin recall;
        false_positive_rate := Fin false_positive_rate;
        false_negative_rate := Fin false_negative_rate;
        rand_index := fst ri;
        adjusted_rand_index := snd ri |}.

End MeasureImage.

(** ** compute_rand_index_ijv *)

(** A row of an ijv listing: (row, column, label). *)
Definition triple : Type := (Z * Z * Z)%type.

(** A row of the unified listing [u]: (row, column, label, source), the
    source being 0 for the ground truth and 1 for the test listing. *)
Definition row4 : Type := (Z * Z * Z * Z)%type.

Definition r_i (r : row4) : Z := fst (fst (fst r)).
Definition r_j (r : row4) : Z := snd (fst (fst r)).
Definition r_label (r : row4) : Z := snd (fst r).
Definition r_src (r : row4) : Z := snd r.

Definition t_coord (t : triple) : Z * Z := fst t.

Definition indexed {A : Type} (l : list A) : list (nat * A) :=
  combine (seq 0 (length l)) l.

(** numpy's index check on one axis of length [n]: negative indices count
    from the end, anything else out of range raises. *)
Definition np_index (n : nat) (i : Z) : result nat :=
  if (0 <=? i) && (i <? Z.of_nat n) then Ok (Z.to_nat i)
  else if (- Z.of_nat n <=? i) && (i <? 0) then Ok (Z.to_nat (i + Z.of_nat n))
  else Raise IndexError.

Definition grid_set {A : Type} (g : grid A) (r c : nat) (v : A) : grid A :=
  upd_nth r (upd_nth c (fun _ => v)) g.

(** [bkgd[ijv[:, 0], ijv[:, 1]] = False] *)
Fixpoint clear_at (bkgd : grid bool) (coords : list (Z * Z))
  : result (grid bool) :=
  match coords with
  | [] => Ok bkgd
  | (i, j) :: rest =>
      r <- np_index (length bkgd) i ;;
      c <- np_index (length (hd [] bkgd)) j ;;
      clear_at (grid_set bkgd r c false) rest
  end.

(** [np.argwhere]: the coordinates of the true cells, in row-major order. *)
Definition argwhere (g : grid bool) : list (Z * Z) :=
  concat (map (fun ir : nat * list bool =>
                 concat (map (fun jb : nat * bool =>
                                if snd jb
                                then [(Z.of_nat (fst ir), Z.of_nat (fst jb))]
                                else [])
                             (indexed (snd ir))))
              (indexed g)).

(** The listing with a label-0 row for every mask pixel it leaves bare. *)
Definition with_background (ijv : list triple) (mask : grid bool)
  : result (list triple) :=
  bkgd <- clear_at mask (map t_coord ijv) ;;
  Ok (ijv ++ map (fun p : Z * Z => (p, 0)) (argwhere bkgd)).

Definition tag (src : Z) (t : triple) : row4 := (t, src).

(** Lexicographic comparison of integer keys. *)
Fixpoint lex_leb (a b : list Z) : bool :=
  match a, b with
  | [], _ => true
  | _ :: _, [] => false
  | x :: a', y :: b' =>
      if x <? y then true else if y <? x then false else lex_leb a' b'
  end.

Fixpoint list_eqb (a b : list Z) : bool :=
  match a, b with
  | [], [] => true
  | x :: a', y :: b' => (x =? y) && list_eqb a' b'
  | _, _ => false
  end.

Section SortBy.

Context {A : Type}.
Variable key : A -> list Z.

Fixpoint insert_by (x : A) (l : list A) : list A :=
  match l with
  | [] => [x]
  | y :: l' =>
      if lex_leb (key x) (key y) then x :: l else y :: insert_by x l'
  end.

(** [a[np.lexsort(...)]] for keys that cover the whole row. *)
Definition sort_by (l : list A) : list A := fold_right insert_by [] l.

Definition same_key (x y : A) : bool := list_eqb (key x) (key y).

Fixpoint drop_repeats (prev : A) (l : list A) : list A :=
  match l with
  | [] => []
  | b :: t =>
      if same_key prev b then drop_repeats b t else b :: drop_repeats b t
  end.

(** Maximal runs of adjacent entries with the same key. *)
Fixpoint group_adj (l : list A) : list (list A) :=
  match l with
  | [] => []
  | a :: t =>
      match group_adj t with
      | (b :: g) :: gs =>
          if same_key a b then (a :: b :: g) :: gs else [a] :: (b :: g) :: gs
      | _ => [[a]]
      end
  end.

End SortBy.

(** [np.lexsort([u[:, 2], u[:, 3], u[:, 0], u[:, 1]])]: the last key is the
    primary one. *)
Definition row_key (r : row4) : list Z := [r_j r; r_i r; r_src r; r_label r].

Definition coord_key (r : row4) : list Z := [r_i r; r_j r].

(** [u = u[first, :]]: drops a row equal to its predecessor; the boolean
    index has one entry even when [u] has no row, which numpy refuses. *)
Definition unique_rows (u : list row4) : result (list row4) :=
  match u with
  | [] => Raise IndexError
  | a :: t => Ok (a :: drop_repeats row_key a t)
  end.

(** Modelled from the spec: [Indexes] (cellprofiler.cpmath.index) is not
    among the sources; its [rev_idx] sends each row of [u] to the rank of
    its coordinate, so that [np.bincount(rev_idx, u[:, 3])] adds up the
    source column per coordinate (spec 4.5, step 3: the number of test
    labels present at the coordinate). *)
Definition count_test (g : list row4) : Z := zsum (map r_src g).

Definition count_gt (g : list row4) : Z := Z.of_nat (length g) - count_test g.

(** One entry of [labels]: (count, lm[idx, :j], lm[idx, j:]). *)
Definition class : Type := (Z * list Z * list Z)%type.

Definition c_count (c : class) : Z := fst (fst c).
Definition c_first (c : class) : list Z := snd (fst c).
Definition c_second (c : class) : list Z := snd c.

(** [range(1, n + 1)] *)
Definition range1 (n : Z) : list Z := map Z.of_nat (seq 1 (Z.to_nat n)).

(** The body of the double loop over [(i, j)]. *)
Definition bucket_classes (groups : list (list row4)) (i j : Z) : list class :=
  let matching :=
    filter (fun g => (count_test g =? i) && (count_gt g =? j)) groups in
  let lm := map (map r_label) matching in
  let lm := sort_by (@rev Z) lm in
  map (fun g : list (list Z) =>
         (Z.of_nat (length g),
          firstn (Z.to_nat j) (hd [] g),
          skipn (Z.to_nat j) (hd [] g)))
      (group_adj (fun r : list Z => r) lm).

Definition classes_of_groups (groups : list (list row4)) : list class :=
  flat_map (fun i =>
              flat_map (fun j => bucket_classes groups i j)
                       (range1 (zmax_list (map count_gt groups))))
           (range1 (zmax_list (map count_test groups))).

(** Lines 570-647: from the two listings to [labels]. *)
Definition ijv_classes (gt_ijv test_ijv : list triple) (mask : grid bool)
  : result (list class) :=
  gt_ijv <- with_background gt_ijv mask ;;
  test_ijv <- with_background test_ijv mask ;;
  let u := map (tag 0) gt_ijv ++ map (tag 1) test_ijv in
  let u := sort_by row_key u in
  u <- unique_rows u ;;
  Ok (classes_of_groups (group_adj coord_key u)).

(** [np.sum(a[:, np.newaxis] == b[np.newaxis, :])] *)
Definition nhits (a b : list Z) : nat :=
  length (filter (fun p : Z * Z => fst p =? snd p) (list_prod a b)).

(** [tbl[r, c] += v] *)
Definition tbl_add (tbl : grid Z) (r c : nat) (v : Z) : result (grid Z) :=
  if (r <? length tbl)%nat && (c <? length (hd [] tbl))%nat
  then Ok (madd tbl r c v)
  else Raise IndexError.

(** The inner loop over [labels[i:]] past its first entry. *)
Fixpoint tbl_cross (c1 : class) (rest : list class) (tbl : grid Z)
  : result (grid Z) :=
  match rest with
  | [] => Ok tbl
  | c2 :: rest' =>
      tbl <- tbl_add tbl (nhits (c_first c1) (c_first c2))
                         (nhits (c_second c1) (c_second c2))
                         (c_count c1 * c_count c2) ;;
      tbl_cross c1 rest' tbl
  end.

Fixpoint tbl_loop (labels : list class) (tbl : grid Z) : result (grid Z) :=
  match labels with
  | [] => Ok tbl
  | c1 :: rest =>
      tbl <- tbl_add tbl (nhits (c_first c1) (c_first c1))
                         (nhits (c_second c1) (c_second c1))
                         (c_count c1 * (c_count c1 - 1) / 2) ;;
      tbl <- tbl_cross c1 rest tbl ;;
      tbl_loop rest tbl
  end.

(** [reduce(max, [len(t) for ...], 0)] *)
Definition max_len (l : list (list Z)) : nat :=
  fold_left Nat.max (map (@length Z) l) O.

Definition omega_table (labels : list class) : result (grid Z) :=
  let max_t_labels := max_len (map c_first labels) in
  let max_g_labels := max_len (map c_second labels) in
  tbl_loop labels (zeros (S max_t_labels) (S max_g_labels)).

Definition diag_sum (m : grid Z) : Z :=
  zsum (map (fun kr : nat * list Z => nth (fst kr) (snd kr) 0) (indexed m)).

(** Lines 675-690. *)
Definition omega_indices (tbl : grid Z) (max_t_labels max_g_labels : nat)
  : fl * fl :=
  let N := msum tbl in
  let min_JK := S (Nat.min max_t_labels max_g_labels) in
  let block := map (firstn min_JK) (firstn min_JK tbl) in
  let rand_index := fl_div (fl_of_Z (diag_sum block)) (fl_of_Z N) in
  let e_omega :=
    fl_div (fl_of_Z (zsum (zip_with Z.mul (col_sums block) (row_sums block))))
           (fl_of_Z (N ^ 2)) in
  let adjusted_rand_index :=
    fl_div (fl_sub rand_index e_omega) (fl_sub (Fin 1) e_omega) in
  (rand_index, adjusted_rand_index).

Definition rand_of_classes (labels : list class) : result (fl * fl) :=
  tbl <- omega_table labels ;;
  Ok (omega_indices tbl (max_len (map c_first labels))
                        (max_len (map c_second labels))).

Definition compute_rand_index_ijv (gt_ijv test_ijv : list triple)
           (mask : grid bool) : result (fl * fl) :=
  labels <- ijv_classes gt_ijv test_ijv mask ;;
  rand_of_classes labels.

(** ** measure_objects *)

(** Python's builtin [max] on a sequence. *)
Definition py_max (l : list Z) : result Z :=
  match l with
  | [] => Raise ValueError
  | x :: l' => Ok (fold_left Z.max l' x)
  end.

(** [range(0, n)] *)
Definition range0 (n : Z) : list Z := map Z.of_nat (seq 0 (Z.to_nat n)).

Definition coord_eqb (p q : Z * Z) : bool :=
  (fst p =? fst q) && (snd p =? snd q).

Definition coord_mem (p : Z * Z) (s : list (Z * Z)) : bool :=
  existsb (coord_eqb p) s.

(** [set(l)] as a list without repetition. *)
Fixpoint to_set (l : list (Z * Z)) : list (Z * Z) :=
  match l with
  | [] => []
  | p :: l' => if coord_mem p l' then to_set l' else p :: to_set l'
  end.

(** [set(zip(i[l == k], j[l == k]))] *)
Definition object_set (ijv : list triple) (k : Z) : list (Z * Z) :=
  to_set (map t_coord (filter (fun t : triple => snd t =? k) ijv)).

(** [len(GT_set & ID_set)] *)
Definition area_overlap (GT_set ID_set : list (Z * Z)) : Z :=
  Z.of_nat (length (filter (fun p => coord_mem p ID_set) GT_set)).

Definition set_size (s : list (Z * Z)) : Z := Z.of_nat (length s).

(** [intersect_matrix] after the double loop of lines 302-319: the row
    index is [jj] (it runs over [range(0, ID_obj)]), the column index is
    [ii] (over [range(0, GT_obj)]). *)
Definition intersect_matrix_of (gt_ijv test_ijv : list triple)
           (ID_obj GT_obj : Z) : grid Z :=
  map (fun jj =>
         map (fun ii =>
                area_overlap (object_set gt_ijv ii) (object_set test_ijv jj))
             (range0 GT_obj))
      (range0 ID_obj).

Definition FN_area_of (gt_ijv test_ijv : list triple) (ID_obj GT_obj : Z)
  : grid Z :=
  map (fun jj =>
         map (fun ii =>
                set_size (object_set gt_ijv ii)
                - area_overlap (object_set gt_ijv ii) (object_set test_ijv jj))
             (range0 GT_obj))
      (range0 ID_obj).

(** [GT_tot_area], summed. *)
Definition GT_tot_area_of (gt_ijv : list triple) (GT_obj : Z) : Z :=
  zsum (map (fun ii => set_size (object_set gt_ijv ii)) (range0 GT_obj)).

(** [np.where(l == max(l))[0][0]]: the first position that holds the
    maximum of a non-empty sequence. *)
Fixpoint first_argmax (l : list Z) : nat :=
  match l with
  | [] => O
  | x :: l' =>
      match l' with
      | [] => O
      | _ :: _ => if nth (first_argmax l') l' 0 <=? x then O
                  else S (first_argmax l')
      end
  end.

Definition list_max (l : list Z) : Z := nth (first_argmax l) l 0.

(** The body of the loop of lines 330-335, for one row of
    [intersect_matrix]. *)
Definition dominant_of_row (row : list Z) : result Z :=
  match row with
  | [] => Raise ValueError
  | _ :: _ =>
      if list_max row =? 0 then Ok (-1)
      else Ok (Z.of_nat (first_argmax row))
  end.

Fixpoint map_result {A B : Type} (f : A -> result B) (l : list A)
  : result (list B) :=
  match l with
  | [] => Ok []
  | a :: l' => b <- f a ;; bs <- map_result f l' ;; Ok (b :: bs)
  end.

Definition dominant_ids (intersect_matrix : grid Z) : result (list Z) :=
  map_result dominant_of_row intersect_matrix.

(** [intersect_matrix.T[i]] *)
Definition column (m : grid Z) (i : nat) : list Z :=
  map (fun row => nth i row 0) m.

(** [np.where(dom_ID == i)[0]] *)
Definition where_eq (dom_ID : list Z) (i : Z) : list nat :=
  map fst (filter (fun kd : nat * Z => snd kd =? i) (indexed dom_ID)).

(** The body of the loop of lines 339-348 for one [i]. *)
Definition resolve_column (dom_ID : list Z) (m : grid Z) (i : nat) : grid Z :=
  let all_id := where_eq dom_ID (Z.of_nat i) in
  if (1 <? length all_id)%nat then
    let final_id := first_argmax (column m i) in
    let nonfinal := filter (fun x => negb (x =? final_id)%nat) all_id in
    fold_left (fun m n => grid_set m n i 0) nonfinal m
  else m.

(** [len(intersect_matrix.T)] is the second dimension, [GT_obj]. *)
Definition resolve_collisions (dom_ID : list Z) (m : grid Z) (ncols : nat)
  : grid Z :=
  fold_left (resolve_column dom_ID) (seq 0 ncols) m.

(** [l[d]] with Python's negative indices. *)
Definition py_get {A : Type} (l : list A) (d : Z) : result A :=
  k <- np_index (length l) d ;;
  match nth_error l k with
  | Some a => Ok a
  | None => Raise IndexError
  end.

(** [l[a:b]] and [l[a::]] *)
Definition py_clamp (len i : Z) : Z :=
  Z.max 0 (Z.min len (if i <? 0 then i + len else i)).

Definition py_slice {A : Type} (l : list A) (a b : Z) : list A :=
  let len := Z.of_nat (length l) in
  let a := py_clamp len a in
  let b := py_clamp len b in
  firstn (Z.to_nat (b - a)) (skipn (Z.to_nat a) l).

Definition py_slice_from {A : Type} (l : list A) (a : Z) : list A :=
  skipn (Z.to_nat (py_clamp (Z.of_nat (length l)) a)) l.

(** The aggregated counts of lines 350-375. *)
Record object_counts : Type := {
  oc_TP : Z;
  oc_TN : Z;
  oc_FN : Z;
  oc_FP : Z
}.

(** The loop of lines 353-362; [TP] receives [tp] twice per pass. *)
Fixpoint tp_tn_fn_loop (rows : list (list Z * list Z * Z)) (total_pixels : Z)
  : result (list Z * list Z * list Z) :=
  match rows with
  | [] => Ok ([], [], [])
  | (m_row, fn_row, d) :: rest =>
      tp <- py_get m_row d ;;
      fn <- py_get fn_row d ;;
      let tn := total_pixels - tp in
      acc <- tp_tn_fn_loop rest total_pixels ;;
      let '(TP, TN, FN) := acc in
      Ok (tp :: tp :: TP, tn :: TN, fn :: FN)
  end.

(** The loop of lines 365-369. *)
Definition fp_list (rows : list (list Z * Z)) : list Z :=
  map (fun rd : list Z * Z =>
         zsum (py_slice (fst rd) 0 (snd rd))
         + zsum (py_slice_from (fst rd) (snd rd + 1)))
      rows.

Definition aggregate_counts (intersect_matrix FN_area : grid Z)
           (dom_ID : list Z) (total_pixels : Z) : result object_counts :=
  acc <- tp_tn_fn_loop (combine (combine intersect_matrix FN_area) dom_ID)
                       total_pixels ;;
  let '(TP, TN, FN) := acc in
  let FP := fp_list (combine intersect_matrix dom_ID) in
  Ok {| oc_TP := zsum TP; oc_TN := zsum TN; oc_FN := zsum FN; oc_FP := zsum FP |}.

(** [a[i, j] = 1] for two index arrays; numpy checks every index. *)
Fixpoint set_at (a : grid Z) (coords : list (Z * Z)) : result (grid Z) :=
  match coords with
  | [] => Ok a
  | (i, j) :: rest =>
      r <- np_index (length a) i ;;
      c <- np_index (length (hd [] a)) j ;;
      set_at (grid_set a r c 1) rest
  end.

(** A loop over labels that marks, at each pass, the coordinates
    [coords_of] gives for the label. *)
Definition mark_loop (a : grid Z) (labels : list Z)
           (coords_of : Z -> list (Z * Z)) : result (grid Z) :=
  fold_left (fun acc l => a <- acc ;; set_at a (coords_of l)) labels (Ok a).

(** The coordinates [np.where(a == v)] lists, zipped. *)
Definition cells_equal (a : grid Z) (v : Z) : list (Z * Z) :=
  concat (map (fun ir : nat * list Z =>
                 concat (map (fun jx : nat * Z =>
                                if snd jx =? v
                                then [(Z.of_nat (fst ir), Z.of_nat (fst jx))]
                                else [])
                             (indexed (snd ir))))
              (indexed a)).

(** [subscripts]: the intersection of the two sets, as a list. *)
Definition subscripts (GT_pixels ID_pixels : grid Z)
           (condition1 condition2 : Z) : list (Z * Z) :=
  filter (fun p => coord_mem p (cells_equal ID_pixels condition2))
         (cells_equal GT_pixels condition1).

(** [maskimg] *)
Definition maskimg (mask : list (Z * Z)) (img : grid Z) : result (grid Z) :=
  set_at img mask.

(** [a[i, j] = l] for the three columns of a listing: numpy checks
    every index. *)
Fixpoint assign_at (a : grid Z) (ijv : list triple) : result (grid Z) :=
  match ijv with
  | [] => Ok a
  | ((i, j), l) :: rest =>
      r <- np_index (length a) i ;;
      c <- np_index (length (hd [] a)) j ;;
      assign_at (grid_set a r c l) rest
  end.

(** What lines 289-348 leave behind. *)
Record matching : Type := {
  mt_ID_obj : Z;
  mt_GT_obj : Z;
  mt_overlap : grid Z;     (* intersect_matrix as the double loop fills it *)
  mt_FN_area : grid Z;
  mt_GT_pixels : grid Z;   (* the image marked at line 318 *)
  mt_ID_pixels : grid Z;   (* the image marked at lines 323-328 *)
  mt_dom_ID : list Z;
  mt_resolved : grid Z     (* intersect_matrix after the collision pass *)
}.

(** Lines 289-348: the overlap matrix, the two marked images, the
    dominant ids and the collision pass.  [xGT, yGT] and [xID, yID] are
    the shapes of the two images.  [np.zeros] refuses a negative
    dimension.  Every pass of the loop over [range(0, GT_obj)] marks all
    the ground-truth coordinates in [GT_pixels] (line 318), and the loop
    over [range(0, ID_obj)] marks the coordinates of each test object in
    [ID_pixels] (lines 323-328): numpy raises IndexError for a coordinate
    that is no index of the image. *)
Definition match_objects (gt_ijv test_ijv : list triple)
           (xGT yGT xID yID : nat) : result matching :=
  ID_obj <- py_max (map (fun t : triple => snd t) test_ijv) ;;
  GT_obj <- py_max (map (fun t : triple => snd t) gt_ijv) ;;
  if (ID_obj <? 0) || (GT_obj <? 0) then Raise ValueError
  else
    let intersect_matrix := intersect_matrix_of gt_ijv test_ijv ID_obj GT_obj in
    let FN_area := FN_area_of gt_ijv test_ijv ID_obj GT_obj in
    GT_pixels <- mark_loop (zeros xGT yGT) (range0 GT_obj)
                           (fun _ => map t_coord gt_ijv) ;;
    ID_pixels <- mark_loop (zeros xID yID) (range0 ID_obj)
                           (fun i => map t_coord
                                         (filter (fun t : triple => snd t =? i)
                                                 test_ijv)) ;;
    dom_ID <- dominant_ids intersect_matrix ;;
    Ok {| mt_ID_obj := ID_obj;
          mt_GT_obj := GT_obj;
          mt_overlap := intersect_matrix;
          mt_FN_area := FN_area;
          mt_GT_pixels := GT_pixels;
          mt_ID_pixels := ID_pixels;
          mt_dom_ID := dom_ID;
          mt_resolved :=
            resolve_collisions dom_ID intersect_matrix (Z.to_nat GT_obj) |}.

(** Lines 350-375 on the outcome of the matching. *)
Definition object_counts_of (mt : matching) (total_pixels : Z)
  : result object_counts :=
  aggregate_counts (mt_resolved mt) (mt_FN_area mt) (mt_dom_ID mt) total_pixels.

(** [measure_objects] on the two listings, the shapes [xGT, yGT] of the
    cropped ground-truth image and [xID, yID] of the test image, and the
    joint mask.  The ratios are numpy divisions and raise nothing.  The
    two label arrays of lines 393-396 have the shape of the mask and are
    not used afterwards; the four arrays of lines 412-436 are built
    whether or not they are displayed. *)
Definition measure_objects (gt_ijv test_ijv : list triple)
           (xGT yGT xID yID : nat) (mask : grid bool) : result overlap_stats :=
  mt <- match_objects gt_ijv test_ijv xGT yGT xID yID ;;
  let total_pixels := Z.of_nat xGT * Z.of_nat yGT in
  counts <- object_counts_of mt total_pixels ;;
  let FN := fl_of_Z (oc_FN counts) in
  let TN := fl_of_Z (oc_TN counts) in
  let TP := fl_of_Z (oc_TP counts) in
  let FP := fl_of_Z (oc_FP counts) in
  let GT_tot_area := fl_of_Z (GT_tot_area_of gt_ijv (mt_GT_obj mt)) in
  let recall := fl_div TP GT_tot_area in
  let precision := fl_div TP (fl_add TP FP) in
  let F_factor :=
    fl_div (fl_mul (Fin 2) (fl_mul precision recall)) (fl_add precision recall) in
  let false_positive_rate := fl_div FP (fl_add FP TN) in
  let false_negative_rate := fl_div FN (fl_add FN TP) in
  gt_labels <- assign_at (zeros (length mask) (length (hd [] mask))) gt_ijv ;;
  test_labels <- assign_at (zeros (length mask) (length (hd [] mask)))
                           test_ijv ;;
  ri <- compute_rand_index_ijv gt_ijv test_ijv mask ;;
  let GT_pixels := mt_GT_pixels mt in
  let ID_pixels := mt_ID_pixels mt in
  TP_pixels <- maskimg (subscripts GT_pixels ID_pixels 1 1) (zeros xGT yGT) ;;
  FN_pixels <- maskimg (subscripts GT_pixels ID_pixels 1 0) (zeros xGT yGT) ;;
  FP_pixels <- maskimg (subscripts GT_pixels ID_pixels 0 1) (zeros xGT yGT) ;;
  TN_pixels <- maskimg (subscripts GT_pixels ID_pixels 0 0) (zeros xGT yGT) ;;
  Ok {| f_factor := F_factor;
        precision := precision;
        recall := recall;
        false_positive_rate := false_positive_rate;
        false_negative_rate := false_negative_rate;
        rand_index := fst ri;
        adjusted_rand_index := snd ri |}.

(* ------------------------------------------------------------------ *)
(** ** Specification-level notions                                      *)
(* ------------------------------------------------------------------ *)

(** *** Pixel mode: the confusion counts *)

(** The cells of three equally shaped masks, side by side. *)
Definition cells3 (test gt mask : grid bool) : list (bool * bool * bool) :=
  concat (zip_with (zip_with pair) (zip_with (zip_with pair) test gt) mask).

(** The number of valid pixels whose test value is [t] and whose
    ground-truth value is [g]. *)
Definition confusion_count (t g : bool) (test gt mask : grid bool) : Z :=
  Z.of_nat (length (filter (fun c : bool * bool * bool =>
                              Bool.eqb (fst (fst c)) t
                              && Bool.eqb (snd (fst c)) g
                              && snd c)
                           (cells3 test gt mask))).

(** A guarded Python ratio of two counts, as [measure_image] writes it
    four times. *)
Definition guarded_ratio (num den : Z) (fallback : Q) : result Q :=
  if den =? 0 then Ok fallback else py_div (inject_Z num) (inject_Z den).

(** *** Contingency Rand index: the quantities of the specification *)

Definition count_where {A : Type} (P : A -> bool) (l : list A) : Z :=
  Z.of_nat (length (filter P l)).

(** A sum over the indices [0 .. n-1]. *)
Definition sum_upto (n : nat) (f : nat -> Z) : Z := zsum (map f (seq 0 n)).

(** The table of a function of two indices. *)
Definition tab (rows cols : nat) (f : nat -> nat -> Z) : grid Z :=
  map (fun i => map (f i) (seq 0 cols)) (seq 0 rows).

(** [N[i,j]]: the number of pixels with ground-truth label [i] and test
    label [j]. *)
Definition pair_count (gt test : list Z) (i j : nat) : Z :=
  count_where (fun p : Z * Z => (fst p =? Z.of_nat i) && (snd p =? Z.of_nat j))
              (combine gt test).

(** The number of pixels with label [i]: a marginal of [N]. *)
Definition label_count (l : list Z) (i : nat) : Z :=
  count_where (fun x => x =? Z.of_nat i) l.

(** The number of label values of a labelling: 0 up to its maximum. *)
Definition label_range (l : list Z) : nat := S (Z.to_nat (zmax_list l)).

Section ContingencySpec.

(** The labels of the valid pixels, ground truth and test. *)
Variables gt test : list Z.

Definition spec_A : Z :=
sum_upto (label_range gt) (fun i =>
  sum_upto (label_range test) (fun j => choose2 (pair_count gt test i j))).

(** Twice [C]: the pairs that agree in the ground truth only. *)
Definition spec_C2 : Z :=
sum_upto (label_range gt) (fun i =>
  sum_upto (label_range test) (fun j =>
    (label_count gt i - pair_count gt test i j) * pair_count gt test i j)).

(** Twice [D]: the pairs that agree in the test labelling only. *)
Definition spec_D2 : Z :=
sum_upto (label_range gt) (fun i =>
  sum_upto (label_range test) (fun j =>
    (label_count test j - pair_count gt test i j) * pair_count gt test i j)).

Definition spec_rows : Z :=
sum_upto (label_range gt) (fun i => choose2 (label_count gt i)).

Definition spec_cols : Z :=
sum_upto (label_range test) (fun j => choose2 (label_count test j)).

Definition spec_total : Z := choose2 (Z.of_nat (length test)).

Definition spec_rand_index : fl :=
let A := inject_Z spec_A in
let C := (inject_Z spec_C2 / 2)%Q in
let D := (inject_Z spec_D2 / 2)%Q in
let total := inject_Z spec_total in
let B := (total - A - C - D)%Q in
fl_div (Fin (A + B)) (Fin total).

Definition spec_adjusted_rand_index : fl :=
let A := inject_Z spec_A in
let total := inject_Z spec_total in
let expected := (inject_Z spec_rows * inject_Z spec_cols)%Q in
let max_index :=
  ((inject_Z spec_rows + inject_Z spec_cols) * total / 2)%Q in
fl_div (Fin (A * total - expected)) (Fin (max_index - expected)).

End ContingencySpec.

(** *** Pixel mode on identical masks *)

(** An all-true validity mask with the shape of [m]. *)
Definition all_valid (m : grid bool) : grid bool := grid_map (fun _ => true) m.

Definition perfect_stats (s : overlap_stats) : Prop :=
  precision s = Fin 1 /\ recall s = Fin 1 /\ f_factor s = Fin 1
  /\ rand_index s = Fin 1 /\ adjusted_rand_index s = Fin 1
  /\ false_positive_rate s = Fin 0 /\ false_negative_rate s = Fin 0.

(** The statement "every mask compared with itself under an all-true
    validity mask gets the perfect scores", for a labelling function. *)
Definition identical_masks_claim (label : grid bool -> grid Z) : Prop :=
  forall m : grid bool,
    exists s, measure_image label m m (all_valid m) = Ok s /\ perfect_stats s.

(** The labelling that gives label 1 to the whole foreground; it agrees
    with the connected-component labelling when the foreground is
    connected. *)
Definition foreground_label (m : grid bool) : grid Z :=
  grid_map (fun b : bool => if b then 1 else 0) m.

(** *** Object mode: the matcher *)

Definition cell (m : grid Z) (r c : nat) : Z := nth c (nth r m []) 0.

(** Entry [r] of [dom_ID] names object [t]. *)
Definition claims (dom_ID : list Z) (r t : nat) : bool :=
  existsb (Nat.eqb r) (where_eq dom_ID (Z.of_nat t)).

(** More than one entry of [dom_ID] names object [t]. *)
Definition collides (dom_ID : list Z) (t : nat) : bool :=
  (1 <? length (where_eq dom_ID (Z.of_nat t)))%nat.

(** Among the entries that name [t], the one with the largest overlap with
    [t], the lowest index winning a tie. *)
Definition best_claimant (m : grid Z) (dom_ID : list Z) (t : nat) : nat :=
  let cs := where_eq dom_ID (Z.of_nat t) in
  nth (first_argmax (map (fun r => cell m r t) cs)) cs O.

(** The collision rule as the specification words it: of the colliding
    entries, exactly the best one keeps its overlap with [t], the others
    lose it.  [m] is the overlap matrix before the pass, [m'] after. *)
Definition collision_claim (m : grid Z) (dom_ID : list Z) (m' : grid Z)
  : Prop :=
  forall t r : nat,
    collides dom_ID t = true -> claims dom_ID r t = true ->
    cell m' r t = if (r =? best_claimant m dom_ID t)%nat then cell m r t else 0.

(** Two listings on a 3x4 image.  Objects 2 and 3 of the second listing
    lie inside object 1 of the first, one pixel each; object 1 of the
    second listing covers two pixels of object 1 and the three pixels of
    object 2 of the first. *)
Definition collision_gt : list triple :=
  [((0, 0), 1); ((0, 1), 1); ((0, 2), 1); ((0, 3), 1);
   ((1, 0), 2); ((1, 1), 2); ((1, 2), 2); ((2, 0), 3)].

Definition collision_test : list triple :=
  [((0, 0), 1); ((0, 1), 1); ((1, 0), 1); ((1, 1), 1); ((1, 2), 1);
   ((0, 2), 2); ((0, 3), 3); ((2, 1), 4)].

(** Entry [r] loses its overlap with [c] in the collision pass: several
    entries of [dom_ID] name [c], entry [r] is one of them, and it is not
    the first maximum of the whole column [c]. *)
Definition demoted (dom_ID : list Z) (m : grid Z) (r c : nat) : bool :=
  collides dom_ID c && claims dom_ID r c
  && negb (r =? first_argmax (column m c))%nat.

(** Two listings on a 2x2 image: object 1 is the same in both, object 2
    is one pixel, at different places. *)
Definition two_objects_gt : list triple :=
  [((0, 0), 1); ((0, 1), 1); ((1, 1), 2)].

Definition two_objects_test : list triple :=
  [((0, 0), 1); ((0, 1), 1); ((1, 0), 2)].

(** [overlap(g, t)] of the specification: the number of coordinates that
    carry label [g] in the first listing and label [t] in the second. *)
Definition overlap (gt_ijv test_ijv : list triple) (g t : Z) : Z :=
  area_overlap (object_set gt_ijv g) (object_set test_ijv t).

(** *** Sparse labelings: orders on rows *)

Section KeyOrder.

Context {A : Type}.
Variable key : A -> list Z.

Definition key_le (x y : A) : Prop := lex_leb (key x) (key y) = true.

Definition key_lt (x y : A) : Prop := key_le x y /\ x <> y.

(** [u[first, :]] on a listing that has a first row. *)
Definition uniq (l : list A) : list A :=
match l with
| [] => []
| a :: t => a :: drop_repeats key a t
end.

End KeyOrder.

(** Lines 586-647 of [compute_rand_index_ijv], from the unified listing
    [u] on. *)
Definition classes_of_rows (u : list row4) : result (list class) :=
  u <- unique_rows (sort_by row_key u) ;;
  Ok (classes_of_groups (group_adj coord_key u)).

(** The unified listing of the two listings completed with their
    backgrounds. *)
Definition unified (gt_ijv test_ijv : list triple) : list row4 :=
  map (tag 0) gt_ijv ++ map (tag 1) test_ijv.

(** A row comes from one of the two listings. *)
Definition src01 (r : row4) : Prop := r_src r = 0 \/ r_src r = 1.

(** The rows of a group that come from the ground truth, and those that
    come from the test listing. *)
Definition gt_rows (g : list row4) : list row4 :=
  filter (fun r => r_src r =? 0) g.

Definition test_rows (g : list row4) : list row4 :=
  filter (fun r => r_src r =? 1) g.

(** What every entry of [labels] satisfies: no label twice in a tuple,
    and at least one coordinate in the class. *)
Definition class_ok (c : class) : Prop :=
  NoDup (c_first c) /\ NoDup (c_second c) /\ 1 <= c_count c.

(** *** Omega index: the table of the specification *)

(** The three parts of an entry of [labels], by their roles: the rows are
    sorted with the ground truth first, so the first tuple of an entry
    holds the ground-truth labels and the second the test labels. *)
Definition class_size (c : class) : Z := c_count c.
Definition class_gt (c : class) : list Z := c_first c.
Definition class_test (c : class) : list Z := c_second c.

(** Every unordered pair of classes, a class paired with itself included,
    with the number of coordinate pairs it stands for. *)
Fixpoint class_pairs (labels : list class) : list (class * class * Z) :=
  match labels with
  | [] => []
  | c1 :: rest =>
      (c1, c1, choose2 (class_size c1))
        :: map (fun c2 => (c1, c2, class_size c1 * class_size c2)) rest
        ++ class_pairs rest
  end.

(** The numbers of test labels and of ground-truth labels that the two
    classes of a pair share. *)
Definition hits_test (p : class * class * Z) : nat :=
  nhits (class_test (fst (fst p))) (class_test (snd (fst p))).

Definition hits_gt (p : class * class * Z) : nat :=
  nhits (class_gt (fst (fst p))) (class_gt (snd (fst p))).

(** The coordinate pairs of the class pairs that fall in a bucket. *)
Definition bucket (ps : list (class * class * Z)) (hg ht : nat) : Z :=
  zsum (map (fun p => if (hits_gt p =? hg)%nat && (hits_test p =? ht)%nat
                      then snd p else 0) ps).

(** [tbl[hits_test][hits_gt]] *)
Definition omega_tbl (labels : list class) (ht hg : nat) : Z :=
  bucket (class_pairs labels) hg ht.

(** The largest number of hits seen over the class pairs. *)
Definition max_observed (h : class * class * Z -> nat) (labels : list class)
  : nat :=
  fold_right Nat.max O (map h (class_pairs labels)).

Definition omega_min_JK (labels : list class) : nat :=
  S (Nat.min (max_observed hits_test labels) (max_observed hits_gt labels)).

(** The sum of all of [tbl]. *)
Definition omega_N_total (labels : list class) : Z :=
  sum_upto (S (max_observed hits_test labels)) (fun ht =>
    sum_upto (S (max_observed hits_gt labels)) (fun hg =>
      omega_tbl labels ht hg)).

Definition omega_rand_index (labels : list class) : fl :=
  fl_div (fl_of_Z (sum_upto (omega_min_JK labels)
                            (fun i => omega_tbl labels i i)))
         (fl_of_Z (omega_N_total labels)).

(** Row and column sums of the [min_JK x min_JK] block. *)
Definition omega_row_sum (labels : list class) (i : nat) : Z :=
  sum_upto (omega_min_JK labels) (fun j => omega_tbl labels i j).

Definition omega_col_sum (labels : list class) (i : nat) : Z :=
  sum_upto (omega_min_JK labels) (fun j => omega_tbl labels j i).

Definition omega_e (labels : list class) : fl :=
  fl_div (fl_of_Z (sum_upto (omega_min_JK labels)
                            (fun i => omega_row_sum labels i
                                      * omega_col_sum labels i)))
         (fl_of_Z (omega_N_total labels ^ 2)).

Definition omega_adjusted_rand_index (labels : list class) : fl :=
  fl_div (fl_sub (omega_rand_index labels) (omega_e labels))
         (fl_sub (Fin 1) (omega_e labels)).

(** The accumulation of lines 660-673, pair by pair. *)
Fixpoint add_pairs (ps : list (class * class * Z)) (tbl : grid Z)
  : result (grid Z) :=
  match ps with
  | [] => Ok tbl
  | p :: ps' =>
      tbl <- tbl_add tbl (hits_gt p) (hits_test p) (snd p) ;;
      add_pairs ps' tbl
  end.

(** The number of entries of [b] equal to [x]. *)
Definition occurrences (b : list Z) (x : Z) : nat :=
  length (filter (Z.eqb x) b).

(** A coordinate numpy accepts as an index into the mask. *)
Definition in_image (mask : grid bool) (t : triple) : Prop :=
  - Z.of_nat (length mask) <= fst (t_coord t) < Z.of_nat (length mask)
  /\ - Z.of_nat (length (hd [] mask)) <= snd (t_coord t)
     < Z.of_nat (length (hd [] mask)).

(** A relation that holds from every row of one group to every row of
    another. *)
Definition across {A : Type} (R : A -> A -> Prop) (g g' : list A) : Prop :=
  forall x y, In x g -> In y g' -> R x y.

(** *** Swapping the two listings *)

(** The same row, attributed to the other listing. *)
Definition flip (x : row4) : row4 := (fst x, 1 - snd x).

(** The rows of one coordinate after the swap: the former test rows come
    first. *)
Definition swap_group (g : list row4) : list row4 :=
  map flip (test_rows g) ++ map flip (gt_rows g).

Definition swap_class (c : class) : class := (c_count c, c_second c, c_first c).

(** The leading part of [row_key]: the coordinate, column first. *)
Definition ckey (r : row4) : list Z := [r_j r; r_i r].

(** One entry of [labels] out of a run of equal label rows, cut after
    [k] labels. *)
Definition class_of_run (k : nat) (run : list (list Z)) : class :=
  (Z.of_nat (length run), firstn k (hd [] run), skipn k (hd [] run)).

(** The classes of a bucket, from the label tuples of its coordinates:
    [f] lays the two tuples of a coordinate out in a row. *)
Definition classes_of_cells (k : nat) (f : list Z * list Z -> list Z)
           (cells : list (list Z * list Z)) : list class :=
  map (class_of_run k)
      (group_adj (fun r : list Z => r) (sort_by (@rev Z) (map f cells))).

Definition cell_eqb (c d : list Z * list Z) : bool :=
  list_eqb (fst c) (fst d) && list_eqb (snd c) (snd d).

(** The ground-truth and test label tuples of a group. *)
Definition cell_of_group (g : list row4) : list Z * list Z :=
  (map r_label (gt_rows g), map r_label (test_rows g)).

(** [n] is the number of coordinates that satisfy [P]. *)
Definition number_of_coords (P : Z * Z -> Prop) (n : Z) : Prop :=
  exists ps : list (Z * Z),
    NoDup ps /\ (forall p, In p ps <-> P p) /\ n = Z.of_nat (length ps).

(** *** Sparse labelings: the labels of a coordinate *)

(** The position numpy reads index [i] at on an axis of length [n]: a
    negative index counts from the end. *)
Definition wrap (n : nat) (i : Z) : Z :=
  if i <? 0 then i + Z.of_nat n else i.

(** Step 1 of the specification: [p] is a valid pixel of the mask and no
    triple of the listing lies on it. *)
Definition bare (ijv : list triple) (mask : grid bool) (p : Z * Z) : Prop :=
  exists r c : nat,
    p = (Z.of_nat r, Z.of_nat c)
    /\ nth c (nth r mask []) false = true
    /\ forall t, In t ijv ->
         ~ (wrap (length mask) (fst (t_coord t)) = Z.of_nat r
            /\ wrap (length (hd [] mask)) (snd (t_coord t)) = Z.of_nat c).

(** The listing, completed with the background, gives label [v] to the
    coordinate [p]. *)
Definition has_label (ijv : list triple) (mask : grid bool) (p : Z * Z)
           (v : Z) : Prop :=
  In (p, v) ijv \/ (v = 0 /\ bare ijv mask p).

(** The label tuple of a coordinate: its labels in increasing order, each
    once. *)
Definition label_tuple (ijv : list triple) (mask : grid bool) (p : Z * Z)
           (ls : list Z) : Prop :=
  StronglySorted Z.lt ls /\ forall v, In v ls <-> has_label ijv mask p v.

(** The coordinate of a group of rows of the unified listing. *)
Definition group_coord (g : list row4) : Z * Z :=
  t_coord (fst (hd (0, 0, 0, 0) g)).

(** The labels a listing holds for a coordinate, in increasing order,
    each once. *)
Definition listed_tuple (ijv : list triple) (p : Z * Z) (ls : list Z)
  : Prop :=
  StronglySorted Z.lt ls /\ forall v, In v ls <-> In (p, v) ijv.

(** Step 4 of the specification: [labels] lists the classes of two
    labelings.  A class is a pair of label tuples, neither empty, that
    some coordinate carries; it is listed once, with the number of the
    coordinates that carry the pair; and every such pair is listed. *)
Definition listed_classes (gt_ijv test_ijv : list triple) (mask : grid bool)
           (labels : list class) : Prop :=
  NoDup (map (fun c : class => (class_gt c, class_test c)) labels)
  /\ (forall cls, In cls labels ->
         class_gt cls <> [] /\ class_test cls <> []
         /\ 1 <= class_size cls
         /\ number_of_coords
              (fun p => label_tuple gt_ijv mask p (class_gt cls)
                        /\ label_tuple test_ijv mask p (class_test cls))
              (class_size cls))
  /\ (forall p a b,
         label_tuple gt_ijv mask p a -> label_tuple test_ijv mask p b ->
         a <> [] -> b <> [] ->
         exists cls,
           In cls labels /\ class_gt cls = a /\ class_test cls = b).

(* ------------------------------------------------------------------ *)
(** ** The module around the engine                                     *)
(* ------------------------------------------------------------------ *)

(** *** Constants (lines 72-87) *)

Definition C_IMAGE_OVERLAP : String.string := "Overlap"%string.
Definition FTR_F_FACTOR : String.string := "Ffactor"%string.
Definition FTR_PRECISION : String.string := "Precision"%string.
Definition FTR_RECALL : String.string := "Recall"%string.
Definition FTR_FALSE_POS_RATE : String.string := "FalsePosRate"%string.
Definition FTR_FALSE_NEG_RATE : String.string := "FalseNegRate"%string.
Definition FTR_RAND_INDEX : String.string := "RandIndex"%string.
Definition FTR_ADJUSTED_RAND_INDEX : String.string := "AdjustedRandIndex"%string.

Definition FTR_ALL : list String.string :=
  [FTR_F_FACTOR; FTR_PRECISION; FTR_RECALL;
   FTR_FALSE_POS_RATE; FTR_FALSE_NEG_RATE;
   FTR_RAND_INDEX; FTR_ADJUSTED_RAND_INDEX].

Definition O_OBJ : String.string := "Segmented objects"%string.
Definition O_IMG : String.string :=
  "Foreground/background segmentation"%string.
Definition O_ALL : list String.string := [O_OBJ; O_IMG].

(** *** Settings *)

(** The seven settings [create_settings] makes, by attribute name. *)
Inductive setting : Type :=
| Obj_or_img
| Ground_truth
| Test_img
| Object_name_GT
| Img_obj_found_in_GT
| Object_name_ID
| Img_obj_found_in_ID.

(** The values the settings hold. *)
Record module_settings : Type := {
  obj_or_img : String.string;
  ground_truth : String.string;
  test_img : String.string;
  object_name_GT : String.string;
  img_obj_found_in_GT : String.string;
  object_name_ID : String.string;
  img_obj_found_in_ID : String.string
}.

Definition settings : list setting :=
  [Obj_or_img; Ground_truth; Test_img; Object_name_GT; Img_obj_found_in_GT;
   Object_name_ID; Img_obj_found_in_ID].

(** A setting compares equal to a string when its value does. *)
Definition visible_settings (self : module_settings) : list setting :=
  let result := [Obj_or_img] in
  if String.eqb (obj_or_img self) O_IMG then
    result ++ [Ground_truth; Test_img]
  else if String.eqb (obj_or_img self) O_OBJ then
    result ++ [Object_name_GT; Img_obj_found_in_GT;
               Object_name_ID; Img_obj_found_in_ID]
  else result.

(** [upgrade_settings]: a Matlab pipeline counts as revision 1; revision
    1 had the two image names only. *)
Definition upgrade_settings (setting_values : list String.string)
           (variable_revision_number : Z) (from_matlab : bool)
  : result (list String.string * Z * bool) :=
  let '(from_matlab, variable_revision_number) :=
    if from_matlab then (false, 1) else (from_matlab, variable_revision_number)
  in
  if variable_revision_number =? 1 then
    let old_setting_values := setting_values in
    s0 <- py_get old_setting_values 0 ;;
    s1 <- py_get old_setting_values 1 ;;
    Ok ([O_IMG; s0; s1], 2, from_matlab)
  else Ok (setting_values, variable_revision_number, from_matlab).

(** *** Measurement names *)

(** What the module can raise: an exception of the engine, or the
    [UnboundLocalError] of a local read before any assignment. *)
Inductive module_exn : Type :=
| EngineError (e : exn)
| UnboundLocalError.

(** A value, or the exception raised instead. *)
Definition outcome (A : Type) : Type := (A + module_exn)%type.

Definition of_result {A : Type} (r : result A) : outcome A :=
  match r with
  | Ok a => inl a
  | Raise e => inr (EngineError e)
  end.

(** ['_'.join(parts)] *)
Definition join_underscore (parts : list String.string) : String.string :=
  String.concat "_"%string parts.

(** [measurement_name]: the two tests are made one after the other and
    [name] is assigned in neither [else]. *)
Definition measurement_name (self : module_settings) (feature : String.string)
  : outcome String.string :=
  let name : option String.string := None in
  let name :=
    if String.eqb (obj_or_img self) O_IMG
    then Some (join_underscore [C_IMAGE_OVERLAP; feature; test_img self])
    else name in
  let name :=
    if String.eqb (obj_or_img self) O_OBJ
    then Some (join_underscore
                 [C_IMAGE_OVERLAP; feature; img_obj_found_in_GT self])
    else name in
  match name with
  | Some n => inl n
  | None => inr UnboundLocalError
  end.

Section Measurements.

(** [cpmeas.IMAGE] and [cpmeas.COLTYPE_FLOAT], constants of
    cellprofiler.measurements. *)
Variables IMAGE COLTYPE_FLOAT : String.string.

Definition get_categories (object_name : String.string) : list String.string :=
if String.eqb object_name IMAGE then [C_IMAGE_OVERLAP] else [].

Definition get_measurements (object_name category : String.string)
  : list String.string :=
if String.eqb object_name IMAGE && String.eqb category C_IMAGE_OVERLAP
then FTR_ALL else [].

Definition get_measurement_images (self : module_settings)
           (object_name category measurement : String.string)
  : list String.string :=
if String.eqb object_name IMAGE && String.eqb category C_IMAGE_OVERLAP
   && existsb (String.eqb measurement) FTR_ALL
then [test_img self] else [].

Definition get_measurement_columns (self : module_settings)
  : list (String.string * String.string * String.string) :=
map (fun feature =>
       (IMAGE,
        join_underscore [C_IMAGE_OVERLAP; feature; test_img self],
        COLTYPE_FLOAT))
    FTR_ALL.

End Measurements.

(** The seven calls of [m.add_image_measurement] that end
    [measure_image] (lines 241-254) and [measure_objects] (lines
    399-411), as the list of the (name, value) pairs they record. *)
Fixpoint add_image_measurements (self : module_settings)
         (values : list (String.string * fl))
  : outcome (list (String.string * fl)) :=
  match values with
  | [] => inl []
  | (feature, v) :: rest =>
      match measurement_name self feature with
      | inr e => inr e
      | inl name =>
          match add_image_measurements self rest with
          | inr e => inr e
          | inl m => inl ((name, v) :: m)
          end
      end
  end.

Definition record_stats (self : module_settings) (s : overlap_stats)
  : outcome (list (String.string * fl)) :=
  add_image_measurements self
    [(FTR_F_FACTOR, f_factor s);
     (FTR_PRECISION, precision s);
     (FTR_RECALL, recall s);
     (FTR_FALSE_POS_RATE, false_positive_rate s);
     (FTR_FALSE_NEG_RATE, false_negative_rate s);
     (FTR_RAND_INDEX, rand_index s);
     (FTR_ADJUSTED_RAND_INDEX, adjusted_rand_index s)].

(** What [run] reads from the workspace: the two binary images and their
    joint mask (cropped alike), the two ijv listings, the shapes of the
    cropped ground-truth image and of the test image, and the joint mask
    of the two images the objects were found in. *)
Record workspace : Type := {
  ws_test_pixels : grid bool;
  ws_ground_truth_pixels : grid bool;
  ws_mask : grid bool;
  ws_objects_GT : list triple;
  ws_objects_ID : list triple;
  ws_xGT : nat;
  ws_yGT : nat;
  ws_xID : nat;
  ws_yID : nat;
  ws_objects_mask : grid bool
}.

(** [run]: the measurements recorded for one image set. *)
Definition run (label : grid bool -> grid Z) (self : module_settings)
           (ws : workspace) : outcome (list (String.string * fl)) :=
  if String.eqb (obj_or_img self) O_IMG then
    match measure_image label (ws_test_pixels ws) (ws_ground_truth_pixels ws)
                        (ws_mask ws) with
    | Ok s => record_stats self s
    | Raise e => inr (EngineError e)
    end
  else if String.eqb (obj_or_img self) O_OBJ then
    match measure_objects (ws_objects_GT ws) (ws_objects_ID ws)
                          (ws_xGT ws) (ws_yGT ws) (ws_xID ws) (ws_yID ws)
                          (ws_objects_mask ws) with
    | Ok s => record_stats self s
    | Raise e => inr (EngineError e)
    end
  else inl [].

(* ------------------------------------------------------------------ *)
(** ** Notions used by the further properties                           *)
(* ------------------------------------------------------------------ *)

(** A finite score between 0 and 1. *)
Definition unit_interval (x : fl) : Prop :=
  exists q : Q, x = Fin q /\ (0 <= q <= 1)%Q.

(** [a & mask] *)
Definition masked (a mask : grid bool) : grid bool := grid_map2 andb a mask.

(** The labels of an ijv listing. *)
Definition labels_of (ijv : list triple) : list Z :=
  map (fun t : triple => snd t) ijv.

(** The cell of a row that an entry [d] of [dom_ID] selects: Python
    reads -1 as the last position. *)
Definition chosen_cell (row : list Z) (d : Z) : Z :=
  if d =? -1 then last row 0 else nth (Z.to_nat d) row 0.

(** What the two slices [row[0:d]] and [row[d+1:]] add up to. *)
Definition other_cells (row : list Z) (d : Z) : Z :=
  if d =? -1 then 2 * zsum row - last row 0
  else zsum row - nth (Z.to_nat d) row 0.

(** A row of the overlap matrix with its row of [FN_area] and its entry
    of [dom_ID]: the entry is -1 or a position of the row. *)
Definition entry_in_range (x : list Z * list Z * Z) : Prop :=
  fst (fst x) <> []
  /\ length (snd (fst x)) = length (fst (fst x))
  /\ -1 <= snd x < Z.of_nat (length (fst (fst x))).

(** *** What [measure_image] hands to the display (lines 255-259),
    when the workspace has a frame *)

Record confusion_arrays : Type := {
  true_positives : grid bool;
  true_negatives : grid bool;
  false_positives : grid bool;
  false_negatives : grid bool
}.

Definition measure_image_display (test_pixels ground_truth_pixels mask : grid bool)
  : confusion_arrays :=
  let false_positives :=
    clear_unmasked (grid_map2 andb test_pixels (grid_map negb ground_truth_pixels))
                   mask in
  let false_negatives :=
    clear_unmasked (grid_map2 andb (grid_map negb test_pixels) ground_truth_pixels)
                   mask in
  let true_positives :=
    clear_unmasked (grid_map2 andb test_pixels ground_truth_pixels) mask in
  let true_negatives :=
    clear_unmasked (grid_map2 andb (grid_map negb test_pixels)
                              (grid_map negb ground_truth_pixels)) mask in
  {| true_positives := true_positives;
     true_negatives := true_negatives;
     false_positives := false_positives;
     false_negatives := false_negatives |}.

(** The pixel of a boolean array, [False] outside it. *)
Definition pixel (a : grid bool) (r c : nat) : bool := nth c (nth r a []) false.

Definition b2z (b : bool) : Z := if b then 1 else 0.

(** *** The arrays [measure_objects] hands to the display *)

(** [workspace.display_data] after [measure_objects] (lines 438-442),
    when the workspace has a frame. *)
Record object_display : Type := {
  od_true_positives : grid Z;
  od_true_negatives : grid Z;
  od_false_positives : grid Z;
  od_false_negatives : grid Z
}.

(** Lines 296-299, 318, 323-328 and 412-442 of [measure_objects]:
    the two marked images, the four masks and the arrays stored for the
    display.  [xGT, yGT] and [xID, yID] are the shapes of the two
    images. *)
Definition objects_display (gt_ijv test_ijv : list triple)
           (xGT yGT xID yID : nat) : result object_display :=
  ID_obj <- py_max (map (fun t : triple => snd t) test_ijv) ;;
  GT_obj <- py_max (map (fun t : triple => snd t) gt_ijv) ;;
  GT_pixels <- mark_loop (zeros xGT yGT) (range0 GT_obj)
                         (fun _ => map t_coord gt_ijv) ;;
  ID_pixels <- mark_loop (zeros xID yID) (range0 ID_obj)
                         (fun i => map t_coord
                                       (filter (fun t : triple => snd t =? i)
                                               test_ijv)) ;;
  TP_pixels <- maskimg (subscripts GT_pixels ID_pixels 1 1) (zeros xGT yGT) ;;
  FN_pixels <- maskimg (subscripts GT_pixels ID_pixels 1 0) (zeros xGT yGT) ;;
  FP_pixels <- maskimg (subscripts GT_pixels ID_pixels 0 1) (zeros xGT yGT) ;;
  TN_pixels <- maskimg (subscripts GT_pixels ID_pixels 0 0) (zeros xGT yGT) ;;
  Ok {| od_true_positives := TP_pixels;
        od_true_negatives := FN_pixels;
        od_false_positives := FP_pixels;
        od_false_negatives := TN_pixels |}.

(** Some triple of the listing lies at pixel (r, c). *)
Definition covers (ijv : list triple) (r c : nat) : bool :=
  coord_mem (Z.of_nat r, Z.of_nat c) (map t_coord ijv).

(** Some triple of the listing with a label from 0 up to [bound - 1]
    lies at pixel (r, c). *)
Definition covers_below (ijv : list triple) (bound : Z) (r c : nat) : bool :=
  coord_mem (Z.of_nat r, Z.of_nat c)
            (map t_coord
                 (filter (fun t : triple => (0 <=? snd t) && (snd t <? bound))
                         ijv)).

(** A coordinate inside an image of [x] rows and [y] columns, counted
    from 0. *)
Definition inside (x y : nat) (t : triple) : Prop :=
  0 <= fst (t_coord t) < Z.of_nat x /\ 0 <= snd (t_coord t) < Z.of_nat y.

(** A coordinate numpy accepts as an index of an image of [x] rows and
    [y] columns: a negative index counts from the end. *)
Definition valid_index (x y : nat) (t : triple) : Prop :=
  - Z.of_nat x <= fst (t_coord t) < Z.of_nat x
  /\ - Z.of_nat y <= snd (t_coord t) < Z.of_nat y.

(* ================================================================== *)
(** * Part II: properties                                                *)
(* ================================================================== *)

(* ------------------------------------------------------------------ *)
(** ** Numeric facts                                                    *)
(* ------------------------------------------------------------------ *)

Arguments Qred : simpl never.
Arguments Qplus : simpl never.
Arguments Qminus : simpl never.
Arguments Qmult : simpl never.
Arguments Qdiv : simpl never.
Arguments Qopp : simpl never.
Arguments Qeq_bool : simpl never.
Arguments Qle_bool : simpl never.
Arguments inject_Z : simpl never.

Lemma choose2_exact (x : Z) : 2 * choose2 x = x * (x - 1).
Proof.
  unfold choose2.
  assert (H : (x * (x - 1)) mod 2 = 0).
  { rewrite Z.mul_mod by lia.
    destruct (Z.mod_pos_bound x 2 ltac:(lia)) as [_ _].
    assert (Hx : x mod 2 = 0 \/ x mod 2 = 1) by (pose proof (Z.mod_pos_bound x 2); lia).
    assert (Hy : (x - 1) mod 2 = 1 - x mod 2).
    { destruct Hx as [Hx | Hx]; rewrite Hx.
      - replace (x - 1) with (1 + (x / 2 - 1) * 2).
        + rewrite Z.mod_add by lia. reflexivity.
        + pose proof (Z.div_mod x 2). lia.
      - replace (x - 1) with (0 + (x / 2) * 2).
        + rewrite Z.mod_add by lia. reflexivity.
        + pose proof (Z.div_mod x 2). lia. }
    rewrite Hy. destruct Hx as [Hx | Hx]; rewrite Hx; reflexivity. }
  pose proof (Z.div_mod (x * (x - 1)) 2). lia.
Qed.

Lemma choose2_nonneg (x : Z) : 0 <= choose2 x.
Proof.
  pose proof (choose2_exact x).
  assert (0 <= x * (x - 1)) by nia. lia.
Qed.

Lemma choose2_add (a b : Z) : choose2 (a + b) = choose2 a + choose2 b + a * b.
Proof.
  pose proof (choose2_exact (a + b)). pose proof (choose2_exact a).
  pose proof (choose2_exact b). nia.
Qed.

Lemma choose2_pos (x : Z) : 2 <= x -> 0 < choose2 x.
Proof. intros H. pose proof (choose2_exact x). nia. Qed.

Lemma choose2_small (x : Z) : 0 <= x <= 1 -> choose2 x = 0.
Proof. intros H. pose proof (choose2_exact x). nia. Qed.

Lemma Qeq_bool_false (a b : Q) : ~ a == b -> Qeq_bool a b = false.
Proof.
  intros H. destruct (Qeq_bool a b) eqn:E; [|reflexivity].
  apply Qeq_bool_iff in E. contradiction.
Qed.

Lemma Qeq_bool_true (a b : Q) : a == b -> Qeq_bool a b = true.
Proof. intros H. apply Qeq_bool_iff. exact H. Qed.

Lemma Qlt_bool_iff (a b : Q) : Qlt_bool a b = true <-> (a < b)%Q.
Proof.
  unfold Qlt_bool. rewrite negb_true_iff.
  destruct (Qle_bool b a) eqn:E.
  - apply Qle_bool_iff in E. split; [discriminate | intros H; lra].
  - split; [intros _ | reflexivity].
    destruct (Qlt_le_dec a b) as [H | H]; [exact H |].
    apply Qle_bool_iff in H. congruence.
Qed.

Lemma Qlt_bool_Qeq (a a' b b' : Q) :
  a == a' -> b == b' -> Qlt_bool a b = Qlt_bool a' b'.
Proof.
  intros Ha Hb.
  destruct (Qlt_bool a b) eqn:E1, (Qlt_bool a' b') eqn:E2; try reflexivity.
  - apply Qlt_bool_iff in E1. assert (H : (a' < b')%Q) by lra.
    apply Qlt_bool_iff in H. congruence.
  - apply Qlt_bool_iff in E2. assert (H : (a < b)%Q) by lra.
    apply Qlt_bool_iff in H. congruence.
Qed.

Lemma Qeq_bool_Qeq (a a' b b' : Q) :
  a == a' -> b == b' -> Qeq_bool a b = Qeq_bool a' b'.
Proof.
  intros Ha Hb.
  destruct (Qeq_bool a b) eqn:E1, (Qeq_bool a' b') eqn:E2; try reflexivity.
  - apply Qeq_bool_iff in E1. rewrite Qeq_bool_true in E2; [discriminate | lra].
  - apply Qeq_bool_iff in E2. rewrite Qeq_bool_true in E1; [discriminate | lra].
Qed.

Lemma q_sign_Qeq (a a' : Q) : a == a' -> q_sign a = q_sign a'.
Proof.
  intros H. unfold q_sign.
  rewrite (Qeq_bool_Qeq a a' 0 0 H (Qeq_refl 0)).
  rewrite (Qlt_bool_Qeq 0 0 a a' (Qeq_refl 0) H). reflexivity.
Qed.

(** Division does not see how its finite operands are written. *)
Lemma fl_div_Qeq (a a' b b' : Q) :
  a == a' -> b == b' -> fl_div (Fin a) (Fin b) = fl_div (Fin a') (Fin b').
Proof.
  intros Ha Hb. simpl.
  rewrite (Qeq_bool_Qeq b b' 0 0 Hb (Qeq_refl 0)).
  rewrite (q_sign_Qeq a a' Ha).
  destruct (Qeq_bool b' 0); [reflexivity |].
  f_equal. apply Qred_complete. rewrite Ha, Hb. reflexivity.
Qed.

Lemma fl_sub_Qeq (a a' b b' : Q) :
  a == a' -> b == b' -> fl_sub (Fin a) (Fin b) = fl_sub (Fin a') (Fin b').
Proof.
  intros Ha Hb. simpl. f_equal. apply Qred_complete. rewrite Ha, Hb. reflexivity.
Qed.

Lemma fl_div_zero_zero (a b : Z) : a = 0 -> b = 0 ->
  fl_div (fl_of_Z a) (fl_of_Z b) = NaN.
Proof. intros -> ->. reflexivity. Qed.

Lemma fl_div_self (a b : Q) : a == b -> ~ b == 0 ->
  fl_div (Fin a) (Fin b) = Fin 1.
Proof.
  intros Hab Hb. simpl. rewrite (Qeq_bool_false _ _ Hb).
  f_equal. change 1%Q with (Qred 1). apply Qred_complete.
  rewrite Hab. field. exact Hb.
Qed.

Lemma py_div_ok (a b : Q) : ~ b == 0 -> py_div a b = Ok (Qred (a / b)).
Proof. intros H. unfold py_div. rewrite (Qeq_bool_false _ _ H). reflexivity. Qed.

Lemma inject_Z_nonzero (z : Z) : z <> 0 -> ~ inject_Z z == 0.
Proof.
  intros H E. apply H. unfold Qeq in E. simpl in E. lia.
Qed.

Lemma Qdiv_nonneg (a b : Q) : (0 <= a)%Q -> (0 < b)%Q -> (0 <= a / b)%Q.
Proof.
  intros Ha Hb. apply Qle_shift_div_l; [exact Hb | lra].
Qed.

(* ------------------------------------------------------------------ *)
(** ** Pixel mode: the confusion counts and their ratios                *)
(* ------------------------------------------------------------------ *)

Lemma zsum_cons (x : Z) (l : list Z) : zsum (x :: l) = x + zsum l.
Proof. reflexivity. Qed.

Lemma zsum_app (l m : list Z) : zsum (l ++ m) = zsum l + zsum m.
Proof. induction l as [|x l IH]; simpl; [reflexivity | rewrite IH; lia]. Qed.

Lemma count_row_cells (p q : bool -> bool) (r1 r2 rm : list bool) :
  count_true_row
    (zip_with (fun v m => if negb m then false else v)
              (zip_with andb (map p r1) (map q r2)) rm)
  = Z.of_nat (length (filter (fun c : bool * bool * bool =>
                                p (fst (fst c)) && q (snd (fst c)) && snd c)
                             (zip_with pair (zip_with pair r1 r2) rm))).
Proof.
  revert r2 rm.
  induction r1 as [|a r1 IH]; intros [|b r2] [|m rm]; try reflexivity.
  specialize (IH r2 rm). unfold count_true_row in *.
  cbn [zip_with map filter fst snd]. rewrite zsum_cons, IH.
  destruct (p a), (q b), m; cbn [andb negb length]; lia.
Qed.

Lemma count_grid_cells (p q : bool -> bool) (test gt mask : grid bool) :
  count_true (clear_unmasked (grid_map2 andb (grid_map p test) (grid_map q gt))
                             mask)
  = Z.of_nat (length (filter (fun c : bool * bool * bool =>
                                p (fst (fst c)) && q (snd (fst c)) && snd c)
                             (cells3 test gt mask))).
Proof.
  unfold count_true, clear_unmasked, grid_map2, grid_map, cells3.
  revert gt mask.
  induction test as [|r1 test IH]; intros [|r2 gt] [|rm mask]; try reflexivity.
  simpl. rewrite IH, count_row_cells.
  rewrite filter_app, length_app. lia.
Qed.

Lemma grid_map_id {A : Type} (g : grid A) : grid_map (fun x => x) g = g.
Proof.
  unfold grid_map. induction g as [|r g IH]; simpl; [reflexivity |].
  rewrite map_id, IH. reflexivity.
Qed.

Lemma confusion_count_as (p q : bool -> bool) (t g : bool) test gt mask :
  (forall b, p b = Bool.eqb b t) -> (forall b, q b = Bool.eqb b g) ->
  Z.of_nat (length (filter (fun c : bool * bool * bool =>
                              p (fst (fst c)) && q (snd (fst c)) && snd c)
                           (cells3 test gt mask)))
  = confusion_count t g test gt mask.
Proof.
  intros Hp Hq. unfold confusion_count. do 2 f_equal.
  apply filter_ext. intros c. rewrite Hp, Hq. reflexivity.
Qed.

Lemma true_positive_count_spec test gt mask :
  count_true (clear_unmasked (grid_map2 andb test gt) mask)
  = confusion_count true true test gt mask.
Proof.
  rewrite <- (grid_map_id test) at 1. rewrite <- (grid_map_id gt) at 1.
  rewrite count_grid_cells.
  apply (confusion_count_as (fun x => x) (fun x => x)); intros []; reflexivity.
Qed.

Lemma false_positive_count_spec test gt mask :
  count_true (clear_unmasked (grid_map2 andb test (grid_map negb gt)) mask)
  = confusion_count true false test gt mask.
Proof.
  rewrite <- (grid_map_id test) at 1.
  rewrite count_grid_cells.
  apply (confusion_count_as (fun x => x) negb); intros []; reflexivity.
Qed.

Lemma false_negative_count_spec test gt mask :
  count_true (clear_unmasked (grid_map2 andb (grid_map negb test) gt) mask)
  = confusion_count false true test gt mask.
Proof.
  rewrite <- (grid_map_id gt) at 1.
  rewrite count_grid_cells.
  apply (confusion_count_as negb (fun x => x)); intros []; reflexivity.
Qed.

Lemma true_negative_count_spec test gt mask :
  count_true (clear_unmasked (grid_map2 andb (grid_map negb test)
                                        (grid_map negb gt)) mask)
  = confusion_count false false test gt mask.
Proof.
  rewrite count_grid_cells.
  apply (confusion_count_as negb negb); intros []; reflexivity.
Qed.

Lemma confusion_count_nonneg t g test gt mask :
  0 <= confusion_count t g test gt mask.
Proof. unfold confusion_count. lia. Qed.

Lemma guarded_ratio_ok (num den : Z) (fallback : Q) :
  0 <= den ->
  guarded_ratio num den fallback
  = Ok (if 0 <? den then Qred (inject_Z num / inject_Z den) else fallback).
Proof.
  intros Hden. unfold guarded_ratio.
  destruct (den =? 0) eqn:E.
  - apply Z.eqb_eq in E. subst den. reflexivity.
  - apply Z.eqb_neq in E.
    assert (H : (0 <? den) = true) by (apply Z.ltb_lt; lia).
    rewrite H. apply py_div_ok. apply inject_Z_nonzero. exact E.
Qed.

Lemma ratio_nonneg (num den : Z) (fallback : Q) :
  0 <= num -> 0 <= den -> (0 <= fallback)%Q ->
  (0 <= (if 0 <? den then Qred (inject_Z num / inject_Z den) else fallback))%Q.
Proof.
  intros Hn Hd Hf. destruct (0 <? den) eqn:E; [| exact Hf].
  apply Z.ltb_lt in E. rewrite Qred_correct.
  apply Qdiv_nonneg.
  - change 0%Q with (inject_Z 0). rewrite <- Zle_Qle. exact Hn.
  - change 0%Q with (inject_Z 0). rewrite <- Zlt_Qlt. exact E.
Qed.

Lemma f_factor_ok (P R : Q) :
  (0 <= P)%Q -> (0 <= R)%Q ->
  (if Qeq_bool (Qred (P + R)) 0 then Ok 0%Q
   else py_div (Qred (Qred (2 * P) * R)) (Qred (P + R)))
  = Ok (if Qlt_bool 0 (P + R) then Qred (2 * P * R / (P + R)) else 0%Q).
Proof.
  intros HP HR.
  destruct (Qeq_bool (Qred (P + R)) 0) eqn:E.
  - apply Qeq_bool_iff in E. rewrite Qred_correct in E.
    destruct (Qlt_bool 0 (P + R)) eqn:L; [| reflexivity].
    apply Qlt_bool_iff in L. lra.
  - assert (Hne : ~ (Qred (P + R) == 0)%Q).
    { intros H. apply Qeq_bool_iff in H. congruence. }
    rewrite (py_div_ok _ _ Hne).
    assert (L : Qlt_bool 0 (P + R) = true).
    { apply Qlt_bool_iff. rewrite Qred_correct in Hne.
      destruct (Qlt_le_dec 0 (P + R)) as [H | H]; [exact H |].
      exfalso. apply Hne. lra. }
    rewrite L. f_equal. apply Qred_complete.
    rewrite !Qred_correct. reflexivity.
Qed.

(** [measure_image] always returns, and its five ratios follow the guarded
    formulas over the confusion counts. *)
Lemma measure_image_returns
        (label : grid bool -> grid Z) (test gt mask : grid bool) :
  let tp := confusion_count true true test gt mask in
  let fp := confusion_count true false test gt mask in
  let fn := confusion_count false true test gt mask in
  let tn := confusion_count false false test gt mask in
  let P := if 0 <? tp + fp
           then Qred (inject_Z tp / inject_Z (tp + fp)) else 1%Q in
  let R := if 0 <? tp + fn
           then Qred (inject_Z tp / inject_Z (tp + fn)) else 1%Q in
  exists s : overlap_stats,
    measure_image label test gt mask = Ok s
    /\ precision s = Fin P
    /\ recall s = Fin R
    /\ f_factor s
       = Fin (if Qlt_bool 0 (P + R) then Qred (2 * P * R / (P + R)) else 0%Q)
    /\ false_positive_rate s
       = Fin (if 0 <? fp + tn
              then Qred (inject_Z fp / inject_Z (fp + tn)) else 0%Q)
    /\ false_negative_rate s
       = Fin (if 0 <? tp + fn
              then Qred (inject_Z fn / inject_Z (tp + fn)) else 0%Q)
    /\ (rand_index s, adjusted_rand_index s)
       = compute_rand_index (label (grid_map2 andb test mask))
                            (label (grid_map2 andb gt mask)) mask.
Proof.
  intros tp fp fn tn P R.
  pose proof (confusion_count_nonneg true true test gt mask) as Htp.
  pose proof (confusion_count_nonneg true false test gt mask) as Hfp.
  pose proof (confusion_count_nonneg false true test gt mask) as Hfn.
  pose proof (confusion_count_nonneg false false test gt mask) as Htn.
  fold tp in Htp. fold fp in Hfp. fold fn in Hfn. fold tn in Htn.
  assert (HP : (0 <= P)%Q) by (apply ratio_nonneg; [lia | lia | lra]).
  assert (HR : (0 <= R)%Q) by (apply ratio_nonneg; [lia | lia | lra]).
  unfold measure_image.
  rewrite true_positive_count_spec, false_positive_count_spec,
    false_negative_count_spec, true_negative_count_spec.
  fold tp fp fn tn.
  change (if tp + fp =? 0 then Ok 1%Q
          else py_div (inject_Z tp) (inject_Z (tp + fp)))
    with (guarded_ratio tp (tp + fp) 1).
  change (if tp + fn =? 0 then Ok 1%Q
          else py_div (inject_Z tp) (inject_Z (tp + fn)))
    with (guarded_ratio tp (tp + fn) 1).
  change (if fp + tn =? 0 then Ok 0%Q
          else py_div (inject_Z fp) (inject_Z (fp + tn)))
    with (guarded_ratio fp (fp + tn) 0).
  change (if tp + fn =? 0 then Ok 0%Q
          else py_div (inject_Z fn) (inject_Z (tp + fn)))
    with (guarded_ratio fn (tp + fn) 0).
  rewrite !guarded_ratio_ok by lia.
  fold P R. cbn [bind].
  rewrite (f_factor_ok P R HP HR). cbn [bind].
  eexists. split; [reflexivity |].
  cbn [precision recall f_factor false_positive_rate false_negative_rate
       rand_index adjusted_rand_index].
  repeat split; try reflexivity.
  symmetry. apply surjective_pairing.
Qed.

(** C5.  In pixel mode, with [tp], [fp], [fn], [tn] the confusion counts
    restricted to the valid pixels, [measure_image] raises no exception
    and reports: precision [tp/(tp+fp)] when [tp+fp > 0] and 1 otherwise;
    recall [tp/(tp+fn)] when [tp+fn > 0] and 1 otherwise; F-factor
    [2*P*R/(P+R)] when [P+R > 0] and 0 otherwise; false positive rate
    [fp/(fp+tn)] when [fp+tn > 0] and 0 otherwise; false negative rate
    [fn/(tp+fn)] when [tp+fn > 0] and 0 otherwise. *)
Theorem measure_image_ratios
        (label : grid bool -> grid Z) (test gt mask : grid bool) :
  let tp := confusion_count true true test gt mask in
  let fp := confusion_count true false test gt mask in
  let fn := confusion_count false true test gt mask in
  let tn := confusion_count false false test gt mask in
  let P := if 0 <? tp + fp
           then Qred (inject_Z tp / inject_Z (tp + fp)) else 1%Q in
  let R := if 0 <? tp + fn
           then Qred (inject_Z tp / inject_Z (tp + fn)) else 1%Q in
  exists s : overlap_stats,
    measure_image label test gt mask = Ok s
    /\ precision s = Fin P
    /\ recall s = Fin R
    /\ f_factor s
       = Fin (if Qlt_bool 0 (P + R) then Qred (2 * P * R / (P + R)) else 0%Q)
    /\ false_positive_rate s
       = Fin (if 0 <? fp + tn
              then Qred (inject_Z fp / inject_Z (fp + tn)) else 0%Q)
    /\ false_negative_rate s
       = Fin (if 0 <? tp + fn
              then Qred (inject_Z fn / inject_Z (tp + fn)) else 0%Q).
Proof.
  intros tp fp fn tn P R.
  destruct (measure_image_returns label test gt mask)
    as [s [Hs [H1 [H2 [H3 [H4 [H5 _]]]]]]].
  exists s. repeat split; assumption.
Qed.

(* ------------------------------------------------------------------ *)
(** ** Sums, tables and counting                                        *)
(* ------------------------------------------------------------------ *)

Lemma count_where_nil {A : Type} (P : A -> bool) : count_where P [] = 0.
Proof. reflexivity. Qed.

Lemma count_where_cons {A : Type} (P : A -> bool) (a : A) (l : list A) :
  count_where P (a :: l) = (if P a then 1 else 0) + count_where P l.
Proof.
  unfold count_where. simpl. destruct (P a); simpl length; lia.
Qed.

Lemma count_where_nonneg {A : Type} (P : A -> bool) (l : list A) :
  0 <= count_where P l.
Proof. unfold count_where. lia. Qed.

Lemma count_where_ext {A : Type} (P Q : A -> bool) (l : list A) :
  (forall a, In a l -> P a = Q a) -> count_where P l = count_where Q l.
Proof.
  intros H. unfold count_where. do 2 f_equal. apply filter_ext_in. exact H.
Qed.

Lemma sum_upto_S (n : nat) (f : nat -> Z) :
  sum_upto (S n) f = sum_upto n f + f n.
Proof.
  unfold sum_upto. rewrite seq_S, map_app, zsum_app. simpl. lia.
Qed.

Lemma sum_upto_0 (f : nat -> Z) : sum_upto 0 f = 0.
Proof. reflexivity. Qed.

Lemma sum_upto_ext (n : nat) (f g : nat -> Z) :
  (forall i, (i < n)%nat -> f i = g i) -> sum_upto n f = sum_upto n g.
Proof.
  induction n as [|n IH]; intros H; [reflexivity |].
  rewrite !sum_upto_S, IH, H by (intros; try apply H; lia). reflexivity.
Qed.

Lemma sum_upto_add (n : nat) (f g : nat -> Z) :
  sum_upto n (fun i => f i + g i) = sum_upto n f + sum_upto n g.
Proof.
  induction n as [|n IH]; [reflexivity |]. rewrite !sum_upto_S, IH. lia.
Qed.

Lemma sum_upto_zero (n : nat) : sum_upto n (fun _ => 0) = 0.
Proof. induction n as [|n IH]; [reflexivity |]. rewrite sum_upto_S, IH. lia. Qed.

Lemma sum_upto_swap (n m : nat) (f : nat -> nat -> Z) :
  sum_upto n (fun i => sum_upto m (fun j => f i j))
  = sum_upto m (fun j => sum_upto n (fun i => f i j)).
Proof.
  induction n as [|n IH].
  - rewrite sum_upto_0. symmetry. apply sum_upto_zero.
  - rewrite sum_upto_S, IH, <- sum_upto_add.
    apply sum_upto_ext. intros j _. rewrite sum_upto_S. reflexivity.
Qed.

Lemma sum_upto_nonneg (n : nat) (f : nat -> Z) :
  (forall i, (i < n)%nat -> 0 <= f i) -> 0 <= sum_upto n f.
Proof.
  induction n as [|n IH]; intros H; [rewrite sum_upto_0; lia |].
  rewrite sum_upto_S. assert (0 <= f n) by (apply H; lia).
  assert (0 <= sum_upto n f) by (apply IH; intros; apply H; lia). lia.
Qed.

Lemma sum_upto_indicator (n k : nat) (v : Z) :
  sum_upto n (fun i => if (i =? k)%nat then v else 0)
  = if (k <? n)%nat then v else 0.
Proof.
  induction n as [|n IH]; [reflexivity |].
  rewrite sum_upto_S, IH.
  destruct (Nat.eqb_spec n k) as [-> | Hne].
  - rewrite Nat.ltb_irrefl.
    assert (H : (k <? S k)%nat = true) by (apply Nat.ltb_lt; lia).
    rewrite H. lia.
  - destruct (Nat.ltb_spec k n) as [H | H].
    + assert (H' : (k <? S n)%nat = true) by (apply Nat.ltb_lt; lia).
      rewrite H'. lia.
    + assert (H' : (k <? S n)%nat = false) by (apply Nat.ltb_ge; lia).
      rewrite H'. lia.
Qed.

Lemma tab_ext (rows cols : nat) (f g : nat -> nat -> Z) :
  (forall i j, (i < rows)%nat -> (j < cols)%nat -> f i j = g i j) ->
  tab rows cols f = tab rows cols g.
Proof.
  intros H. unfold tab. apply map_ext_in. intros i Hi.
  apply in_seq in Hi. apply map_ext_in. intros j Hj. apply in_seq in Hj.
  apply H; lia.
Qed.

Lemma zeros_tab (rows cols : nat) : zeros rows cols = tab rows cols (fun _ _ => 0).
Proof.
  unfold zeros, tab.
  assert (Hrow : forall a n, repeat 0 n = map (fun _ : nat => 0) (seq a n)).
  { intros a n. revert a. induction n as [|n IH]; intros a; simpl;
      [reflexivity | f_equal; apply IH]. }
  rewrite <- (Hrow 0%nat cols).
  generalize 0%nat. induction rows as [|r IH]; intros a; simpl;
    [reflexivity | f_equal; apply IH].
Qed.

Lemma upd_nth_map_seq {A : Type} (F : A -> A) (f : nat -> A) (k a n : nat) :
  upd_nth k F (map f (seq a n))
  = map (fun i => if (i =? a + k)%nat then F (f i) else f i) (seq a n).
Proof.
  revert k a. induction n as [|n IH]; intros k a; [destruct k; reflexivity |].
  destruct k as [|k]; simpl.
  - rewrite Nat.add_0_r, Nat.eqb_refl. f_equal.
    apply map_ext_in. intros i Hi. apply in_seq in Hi.
    destruct (Nat.eqb_spec i a); [lia | reflexivity].
  - destruct (Nat.eqb_spec a (a + S k)); [lia |]. f_equal.
    rewrite IH. apply map_ext. intros i.
    replace (S a + k)%nat with (a + S k)%nat by lia. reflexivity.
Qed.

Lemma madd_tab (rows cols : nat) (f : nat -> nat -> Z) (r c : nat) (v : Z) :
  madd (tab rows cols f) r c v
  = tab rows cols (fun i j => if (i =? r)%nat && (j =? c)%nat
                              then f i j + v else f i j).
Proof.
  unfold madd, tab. rewrite upd_nth_map_seq. apply map_ext. intros i.
  simpl. destruct (i =? r)%nat; simpl; [| reflexivity].
  rewrite upd_nth_map_seq. reflexivity.
Qed.

Lemma row_sums_tab (rows cols : nat) (f : nat -> nat -> Z) :
  row_sums (tab rows cols f) = map (fun i => sum_upto cols (f i)) (seq 0 rows).
Proof. unfold row_sums, tab. rewrite map_map. reflexivity. Qed.

Lemma msum_tab (rows cols : nat) (f : nat -> nat -> Z) :
  msum (tab rows cols f) = sum_upto rows (fun i => sum_upto cols (f i)).
Proof. unfold msum. fold (row_sums (tab rows cols f)). rewrite row_sums_tab. reflexivity. Qed.

Lemma grid_map_tab (h : Z -> Z) (rows cols : nat) (f : nat -> nat -> Z) :
  grid_map h (tab rows cols f) = tab rows cols (fun i j => h (f i j)).
Proof.
  unfold grid_map, tab. rewrite map_map. apply map_ext. intros i.
  rewrite map_map. reflexivity.
Qed.

Lemma zip_with_maps {A B C D : Type} (F : B -> C -> D) (g : A -> B) (h : A -> C)
      (l : list A) :
  zip_with F (map g l) (map h l) = map (fun x => F (g x) (h x)) l.
Proof. induction l as [|x l IH]; simpl; [reflexivity | rewrite IH; reflexivity]. Qed.

Lemma col_sums_rows (cols : nat) (f : nat -> nat -> Z) (a n : nat) :
  fold_right (zip_with Z.add) (repeat 0 cols)
             (map (fun i => map (f i) (seq 0 cols)) (seq a n))
  = map (fun j => zsum (map (fun i => f i j) (seq a n))) (seq 0 cols).
Proof.
  revert a. induction n as [|n IH]; intros a.
  - simpl. generalize 0%nat. induction cols as [|c IHc]; intros b; simpl;
      [reflexivity | f_equal; apply IHc].
  - simpl. rewrite IH, zip_with_maps. reflexivity.
Qed.

Lemma col_sums_tab (rows cols : nat) (f : nat -> nat -> Z) :
  col_sums (tab (S rows) cols f)
  = map (fun j => sum_upto (S rows) (fun i => f i j)) (seq 0 cols).
Proof.
  unfold col_sums, tab.
  replace (length (hd [] (map (fun i => map (f i) (seq 0 cols)) (seq 0 (S rows)))))
    with cols by (simpl; rewrite length_map, length_seq; reflexivity).
  apply col_sums_rows.
Qed.

Lemma row_disagreement_tab (rows cols : nat) (f : nat -> nat -> Z) :
  row_disagreement (tab rows cols f)
  = sum_upto rows (fun i =>
      sum_upto cols (fun j => (sum_upto cols (f i) - f i j) * f i j)).
Proof.
  unfold row_disagreement. rewrite row_sums_tab. unfold tab.
  rewrite zip_with_maps. unfold sum_upto. f_equal. apply map_ext. intros i.
  rewrite map_map. reflexivity.
Qed.

Lemma col_disagreement_tab (rows cols : nat) (f : nat -> nat -> Z) :
  col_disagreement (tab (S rows) cols f)
  = sum_upto (S rows) (fun i =>
      sum_upto cols (fun j =>
        (sum_upto (S rows) (fun i' => f i' j) - f i j) * f i j)).
Proof.
  unfold col_disagreement. rewrite col_sums_tab. unfold tab.
  rewrite map_map. unfold sum_upto. f_equal. apply map_ext. intros i.
  rewrite zip_with_maps. reflexivity.
Qed.

Lemma coo_fold (ps : list (Z * Z)) (rows cols : nat) (f : nat -> nat -> Z) :
  fold_left (fun m rc => madd m (Z.to_nat (fst rc)) (Z.to_nat (snd rc)) 1)
            ps (tab rows cols f)
  = tab rows cols (fun i j =>
      f i j + count_where (fun p : Z * Z => (Z.to_nat (fst p) =? i)%nat
                                            && (Z.to_nat (snd p) =? j)%nat) ps).
Proof.
  revert f. induction ps as [|p ps IH]; intros f.
  - simpl. apply tab_ext. intros. rewrite count_where_nil. lia.
  - simpl fold_left. rewrite madd_tab, IH. apply tab_ext. intros i j _ _.
    rewrite count_where_cons.
    rewrite (Nat.eqb_sym (Z.to_nat (fst p)) i), (Nat.eqb_sym (Z.to_nat (snd p)) j).
    destruct ((i =? Z.to_nat (fst p))%nat && (j =? Z.to_nat (snd p))%nat); lia.
Qed.

Lemma zmax_list_upper (l : list Z) : Forall (fun x => x <= zmax_list l) l.
Proof.
  induction l as [|x l IH]; constructor.
  - simpl. lia.
  - eapply Forall_impl; [| exact IH]. simpl. intros y Hy. lia.
Qed.

Lemma zmax_list_nonneg (l : list Z) : 0 <= zmax_list l.
Proof. induction l as [|x l IH]; simpl; lia. Qed.

Lemma in_label_range (l : list Z) :
  Forall (fun x => 0 <= x) l ->
  Forall (fun x => 0 <= x < Z.of_nat (label_range l)) l.
Proof.
  intros H. pose proof (zmax_list_upper l) as Hu.
  pose proof (zmax_list_nonneg l) as Hn.
  rewrite Forall_forall in *. intros x Hx.
  specialize (H x Hx). specialize (Hu x Hx). unfold label_range. lia.
Qed.

(** The dense array built by [coo_matrix(...).toarray()] is the table of
    the pair counts. *)
Lemma coo_toarray_spec (gt test : list Z) :
  Forall (fun x => 0 <= x) gt -> Forall (fun x => 0 <= x) test ->
  coo_toarray gt test
  = tab (label_range gt) (label_range test) (pair_count gt test).
Proof.
  intros Hg Ht. unfold coo_toarray. fold (label_range gt) (label_range test).
  rewrite zeros_tab, coo_fold. apply tab_ext. intros i j _ _.
  unfold pair_count. rewrite Z.add_0_l. apply count_where_ext.
  intros [a b] Hin. simpl.
  assert (Ha : 0 <= a).
  { apply in_combine_l in Hin. rewrite Forall_forall in Hg. auto. }
  assert (Hb : 0 <= b).
  { apply in_combine_r in Hin. rewrite Forall_forall in Ht. auto. }
  f_equal.
  - destruct (Nat.eqb_spec (Z.to_nat a) i), (Z.eqb_spec a (Z.of_nat i));
      try reflexivity; lia.
  - destruct (Nat.eqb_spec (Z.to_nat b) j), (Z.eqb_spec b (Z.of_nat j));
      try reflexivity; lia.
Qed.

Lemma row_marginal (gt test : list Z) (cols i : nat) :
  length gt = length test ->
  Forall (fun x => 0 <= x < Z.of_nat cols) test ->
  sum_upto cols (pair_count gt test i) = label_count gt i.
Proof.
  revert test. induction gt as [|a gt IH]; intros [|b test] Hlen Ht;
    try discriminate.
  - unfold pair_count, label_count. simpl combine.
    rewrite count_where_nil. apply sum_upto_zero.
  - inversion Ht as [|? ? Hb Ht']; subst. simpl in Hlen.
    unfold pair_count, label_count in *. simpl combine.
    rewrite count_where_cons.
    erewrite sum_upto_ext; [| intros j _; rewrite count_where_cons; reflexivity].
    rewrite sum_upto_add, IH by (try lia; assumption). f_equal.
    simpl fst. simpl snd.
    erewrite sum_upto_ext.
    2:{ intros j _.
        instantiate (1 := fun j => if (j =? Z.to_nat b)%nat
                                   then (if a =? Z.of_nat i then 1 else 0) else 0).
        simpl.
        destruct (Nat.eqb_spec j (Z.to_nat b)), (Z.eqb_spec b (Z.of_nat j));
          try lia; destruct (a =? Z.of_nat i); reflexivity. }
    rewrite sum_upto_indicator.
    assert (H : (Z.to_nat b <? cols)%nat = true) by (apply Nat.ltb_lt; lia).
    rewrite H. reflexivity.
Qed.

Lemma pair_count_swap (gt test : list Z) (i j : nat) :
  pair_count gt test i j = pair_count test gt j i.
Proof.
  unfold pair_count. revert test.
  induction gt as [|a gt IH]; intros [|b test]; try reflexivity.
  simpl combine. rewrite !count_where_cons, IH. simpl.
  rewrite andb_comm. reflexivity.
Qed.

Lemma col_marginal (gt test : list Z) (rows j : nat) :
  length gt = length test ->
  Forall (fun x => 0 <= x < Z.of_nat rows) gt ->
  sum_upto rows (fun i => pair_count gt test i j) = label_count test j.
Proof.
  intros Hlen Hg.
  erewrite sum_upto_ext; [| intros i _; apply pair_count_swap].
  apply row_marginal; [symmetry; exact Hlen | exact Hg].
Qed.

(* ------------------------------------------------------------------ *)
(** ** compute_rand_index against the contingency-table formulas        *)
(* ------------------------------------------------------------------ *)

Lemma select_row_length {A B : Type} (r : list A) (s : list B) (m : list bool) :
  length r = length m -> length s = length m ->
  length (select_row r m) = length (select_row s m).
Proof.
  unfold select_row. revert s m.
  induction r as [|a r IH]; intros [|b s] [|c m] Hr Hs; try discriminate;
    [reflexivity |].
  simpl in *. rewrite !length_app. rewrite (IH s m) by lia.
  destruct c; reflexivity.
Qed.

Lemma select_length {A B : Type} (a : grid A) (b : grid B) (mask : grid bool) :
  same_shape a mask -> same_shape b mask ->
  length (select a mask) = length (select b mask).
Proof.
  unfold same_shape, select. intros Ha. revert b.
  induction Ha as [|r m a mask Hr Ha IH]; intros b Hb; inversion Hb; subst.
  - reflexivity.
  - simpl. rewrite !length_app. f_equal.
    + apply select_row_length; assumption.
    + apply IH. assumption.
Qed.

Lemma to_u64_nonneg (l : list Z) : Forall (fun x => 0 <= x) (map to_u64 l).
Proof.
  apply Forall_forall. intros x Hx. apply in_map_iff in Hx.
  destruct Hx as [y [<- _]]. unfold to_u64. apply Z.mod_pos_bound. lia.
Qed.

Section ContingencyFacts.

Variables gt test : list Z.
Hypothesis Hlen : length gt = length test.
Hypothesis Hgt : Forall (fun x => 0 <= x) gt.
Hypothesis Htest : Forall (fun x => 0 <= x) test.

Let N_ij := coo_toarray gt test.

Lemma N_i_spec :
  row_sums N_ij = map (label_count gt) (seq 0 (label_range gt)).
Proof.
  unfold N_ij. rewrite coo_toarray_spec, row_sums_tab by assumption.
  apply map_ext. intros i.
  apply row_marginal; [exact Hlen | apply in_label_range; exact Htest].
Qed.

Lemma N_j_spec :
  col_sums N_ij = map (label_count test) (seq 0 (label_range test)).
Proof.
  unfold N_ij. rewrite coo_toarray_spec by assumption.
  unfold label_range at 1. rewrite col_sums_tab. apply map_ext. intros j.
  apply (col_marginal gt test (label_range gt));
    [exact Hlen | apply in_label_range; exact Hgt].
Qed.

Lemma A_spec : msum (grid_map choose2 N_ij) = spec_A gt test.
Proof.
  unfold N_ij. rewrite coo_toarray_spec, grid_map_tab, msum_tab by assumption.
  reflexivity.
Qed.

Lemma C_spec : row_disagreement N_ij = spec_C2 gt test.
Proof.
  unfold N_ij. rewrite coo_toarray_spec, row_disagreement_tab by assumption.
  unfold spec_C2. apply sum_upto_ext. intros i _.
  apply sum_upto_ext. intros j _.
  rewrite row_marginal;
    [reflexivity | exact Hlen | apply in_label_range; exact Htest].
Qed.

Lemma D_spec : col_disagreement N_ij = spec_D2 gt test.
Proof.
  unfold N_ij. rewrite coo_toarray_spec by assumption.
  unfold label_range at 1. rewrite col_disagreement_tab.
  unfold spec_D2. fold (label_range gt).
  apply sum_upto_ext. intros i _. apply sum_upto_ext. intros j _.
  rewrite (col_marginal gt test (label_range gt));
    [reflexivity | exact Hlen | apply in_label_range; exact Hgt].
Qed.

Lemma rows_spec : zsum (map choose2 (row_sums N_ij)) = spec_rows gt.
Proof. rewrite N_i_spec, map_map. reflexivity. Qed.

Lemma cols_spec : zsum (map choose2 (col_sums N_ij)) = spec_cols test.
Proof. rewrite N_j_spec, map_map. reflexivity. Qed.

End ContingencyFacts.

Ltac push_inject :=
  unfold Z.sub;
  repeat (rewrite inject_Z_plus || rewrite inject_Z_mult || rewrite inject_Z_opp).

(** What [compute_rand_index] returns on two label sequences of the same
    positive length. *)
Lemma rand_index_of_labels (test_labels ground_truth_labels : grid Z)
      (mask : grid bool) :
  let gt := map to_u64 (select ground_truth_labels mask) in
  let test := map to_u64 (select test_labels mask) in
  length gt = length test -> test <> [] ->
  compute_rand_index test_labels ground_truth_labels mask
  = (spec_rand_index gt test, spec_adjusted_rand_index gt test).
Proof.
  intros gt test Hlen Hne. unfold compute_rand_index. fold gt test.
  assert (Hpos : (0 <? length test)%nat = true).
  { apply Nat.ltb_lt. destruct test; [congruence | simpl; lia]. }
  rewrite Hpos.
  pose proof (to_u64_nonneg (select ground_truth_labels mask)) as Hg.
  pose proof (to_u64_nonneg (select test_labels mask)) as Ht.
  fold gt in Hg. fold test in Ht.
  rewrite (A_spec gt test Hg Ht), (C_spec gt test Hlen Hg Ht),
    (D_spec gt test Hlen Hg Ht), (rows_spec gt test Hlen Hg Ht),
    (cols_spec gt test Hlen Hg Ht).
  fold (spec_total test).
  unfold spec_rand_index, spec_adjusted_rand_index, fl_of_Z. f_equal.
  - apply fl_div_Qeq; [| reflexivity]. rewrite !Qred_correct. reflexivity.
  - apply fl_div_Qeq.
    + push_inject. ring.
    + rewrite !Qred_correct. push_inject. reflexivity.
Qed.

Lemma select_row_count {A : Type} (r : list A) (m : list bool) :
  length r = length m ->
  Z.of_nat (length (select_row r m)) = count_true_row m.
Proof.
  unfold select_row, count_true_row. revert m.
  induction r as [|a r IH]; intros [|b m] H; try discriminate; [reflexivity |].
  simpl in H. cbn [zip_with concat map]. rewrite length_app, zsum_cons.
  rewrite <- IH by lia. destruct b; simpl length; lia.
Qed.

Lemma select_count {A : Type} (a : grid A) (mask : grid bool) :
  same_shape a mask -> Z.of_nat (length (select a mask)) = count_true mask.
Proof.
  unfold same_shape, select, count_true.
  induction 1 as [|r m a mask Hr Ha IH]; [reflexivity |].
  cbn [zip_with concat map]. rewrite length_app, zsum_cons, <- IH.
  rewrite <- (select_row_count r m Hr). lia.
Qed.

(** C6.  On label images with at least one valid pixel,
    [compute_rand_index] returns [rand_index = (A+B)/total] and
    [adjusted_rand_index = (A*total - expected)/(max_index - expected)],
    where [N[i,j]] counts the valid pixels with ground-truth label [i] and
    test label [j] (label 0 included), [A] sums [choose2 (N[i,j])], [C]
    and [D] are half the sums of [(N_i - N[i,j]) * N[i,j]] and
    [(N_j - N[i,j]) * N[i,j]] with [N_i], [N_j] the numbers of pixels with
    ground-truth label [i] and test label [j], [total] is [choose2] of the
    number of valid pixels, [B = total - A - C - D], [expected] is the
    product of the sums of [choose2] of the two marginals and [max_index]
    is half their sum times [total]. *)
Theorem compute_rand_index_formulas
        (test_labels ground_truth_labels : grid Z) (mask : grid bool) :
  same_shape test_labels mask ->
  same_shape ground_truth_labels mask ->
  0 < count_true mask ->
  compute_rand_index test_labels ground_truth_labels mask
  = (spec_rand_index (map to_u64 (select ground_truth_labels mask))
                     (map to_u64 (select test_labels mask)),
     spec_adjusted_rand_index (map to_u64 (select ground_truth_labels mask))
                              (map to_u64 (select test_labels mask)))
  /\ spec_total (map to_u64 (select test_labels mask))
     = choose2 (count_true mask).
Proof.
  intros Ht Hg Hpos. split.
  - apply rand_index_of_labels.
    + rewrite !length_map. apply select_length; assumption.
    + intros E. apply (f_equal (@length Z)) in E.
      rewrite length_map in E. pose proof (select_count _ _ Ht) as Hc.
      simpl in E. lia.
  - unfold spec_total. rewrite length_map, (select_count _ _ Ht). reflexivity.
Qed.

Lemma compute_rand_index_formulas_witness :
  compute_rand_index [[1; 1]; [0; 2]] [[1; 1]; [2; 0]]
                     [[true; true]; [true; true]]
  = (spec_rand_index [1; 1; 2; 0] [1; 1; 0; 2],
     spec_adjusted_rand_index [1; 1; 2; 0] [1; 1; 0; 2])
  /\ spec_total [1; 1; 0; 2] = choose2 4.
Proof.
  apply (compute_rand_index_formulas
           [[1; 1]; [0; 2]] [[1; 1]; [2; 0]] [[true; true]; [true; true]]).
  - repeat constructor.
  - repeat constructor.
  - reflexivity.
Defined.

(* ------------------------------------------------------------------ *)
(** ** compute_rand_index is symmetric                                  *)
(* ------------------------------------------------------------------ *)

Lemma spec_A_swap (gt test : list Z) : spec_A gt test = spec_A test gt.
Proof.
  unfold spec_A. rewrite sum_upto_swap.
  apply sum_upto_ext. intros j _. apply sum_upto_ext. intros i _.
  rewrite pair_count_swap. reflexivity.
Qed.

Lemma spec_C2_swap (gt test : list Z) : spec_C2 gt test = spec_D2 test gt.
Proof.
  unfold spec_C2, spec_D2. rewrite sum_upto_swap.
  apply sum_upto_ext. intros j _. apply sum_upto_ext. intros i _.
  rewrite pair_count_swap. reflexivity.
Qed.

Lemma spec_indices_swap (gt test : list Z) :
  length gt = length test ->
  spec_rand_index gt test = spec_rand_index test gt
  /\ spec_adjusted_rand_index gt test = spec_adjusted_rand_index test gt.
Proof.
  intros Hlen. unfold spec_rand_index, spec_adjusted_rand_index.
  rewrite (spec_A_swap gt test), (spec_C2_swap gt test).
  rewrite <- (spec_C2_swap test gt).
  unfold spec_total, spec_rows, spec_cols. rewrite Hlen.
  split; apply fl_div_Qeq; try reflexivity; field.
Qed.

(** Swapping the two label images does not change what
    [compute_rand_index] returns. *)
Lemma compute_rand_index_swap (a b : grid Z) (mask : grid bool) :
  same_shape a mask -> same_shape b mask ->
  compute_rand_index a b mask = compute_rand_index b a mask.
Proof.
  intros Ha Hb.
  assert (Hlen : length (map to_u64 (select b mask))
                 = length (map to_u64 (select a mask))).
  { rewrite !length_map. apply select_length; assumption. }
  destruct (spec_indices_swap _ _ Hlen) as [H1 H2].
  destruct (select a mask) as [|x la] eqn:Ea.
  - destruct (select b mask) as [|y lb] eqn:Eb; [| discriminate].
    unfold compute_rand_index. rewrite Ea, Eb. reflexivity.
  - rewrite <- Ea in Hlen, H1, H2.
    rewrite (rand_index_of_labels a b mask), (rand_index_of_labels b a mask).
    + rewrite H1, H2. reflexivity.
    + symmetry. exact Hlen.
    + rewrite Ea in Hlen. intros E. rewrite E in Hlen. discriminate.
    + exact Hlen.
    + rewrite Ea. discriminate.
Qed.

(* ------------------------------------------------------------------ *)
(** ** A labelling compared with itself                                 *)
(* ------------------------------------------------------------------ *)

Lemma pair_count_diag (l : list Z) (i j : nat) :
  pair_count l l i j = if (i =? j)%nat then label_count l i else 0.
Proof.
  unfold pair_count, label_count.
  induction l as [|a l IH].
  - destruct (i =? j)%nat; reflexivity.
  - simpl combine. rewrite !count_where_cons, IH. simpl.
    destruct (Nat.eqb_spec i j) as [-> | Hne].
    + rewrite andb_diag. reflexivity.
    + destruct (Z.eqb_spec a (Z.of_nat i)), (Z.eqb_spec a (Z.of_nat j));
        simpl; lia.
Qed.

Lemma sum_upto_diag (n i : nat) (v : Z) :
  (i < n)%nat -> sum_upto n (fun j => if (i =? j)%nat then v else 0) = v.
Proof.
  intros H.
  erewrite sum_upto_ext; [| intros j _; rewrite Nat.eqb_sym; reflexivity].
  rewrite sum_upto_indicator.
  apply Nat.ltb_lt in H. rewrite H. reflexivity.
Qed.

Lemma spec_A_same (l : list Z) : spec_A l l = spec_rows l.
Proof.
  unfold spec_A, spec_rows. apply sum_upto_ext. intros i Hi.
  erewrite sum_upto_ext.
  2:{ intros j _. rewrite pair_count_diag.
      instantiate (1 := fun j => if (i =? j)%nat
                                 then choose2 (label_count l i) else 0).
      simpl. destruct (i =? j)%nat; reflexivity. }
  apply sum_upto_diag. exact Hi.
Qed.

Lemma spec_C2_same (l : list Z) : spec_C2 l l = 0.
Proof.
  unfold spec_C2.
  erewrite sum_upto_ext; [apply sum_upto_zero |]. intros i _. simpl.
  erewrite sum_upto_ext; [apply sum_upto_zero |]. intros j _. simpl.
  rewrite pair_count_diag. destruct (i =? j)%nat; lia.
Qed.

Lemma spec_D2_same (l : list Z) : spec_D2 l l = 0.
Proof.
  unfold spec_D2.
  erewrite sum_upto_ext; [apply sum_upto_zero |]. intros i _. simpl.
  erewrite sum_upto_ext; [apply sum_upto_zero |]. intros j _. simpl.
  rewrite pair_count_diag.
  destruct (Nat.eqb_spec i j) as [-> | _]; lia.
Qed.

Lemma label_count_total (l : list Z) (n : nat) :
  Forall (fun x => 0 <= x < Z.of_nat n) l ->
  sum_upto n (label_count l) = Z.of_nat (length l).
Proof.
  unfold label_count. induction 1 as [|a l Ha Hl IH].
  - erewrite sum_upto_ext; [apply sum_upto_zero | reflexivity].
  - erewrite sum_upto_ext; [| intros i _; rewrite count_where_cons; reflexivity].
    rewrite sum_upto_add, IH.
    erewrite sum_upto_ext.
    2:{ intros i _.
        instantiate (1 := fun i => if (i =? Z.to_nat a)%nat then 1 else 0).
        simpl. destruct (Nat.eqb_spec i (Z.to_nat a)), (Z.eqb_spec a (Z.of_nat i));
          try reflexivity; lia. }
    rewrite sum_upto_indicator.
    assert (H : (Z.to_nat a <? n)%nat = true) by (apply Nat.ltb_lt; lia).
    rewrite H. simpl length. lia.
Qed.

Lemma sum_upto_ge_term (n : nat) (a : nat -> Z) (p : nat) :
  (forall i, (i < n)%nat -> 0 <= a i) -> (p < n)%nat -> a p <= sum_upto n a.
Proof.
  induction n as [|n IH]; intros Hpos Hp; [lia |].
  rewrite sum_upto_S.
  assert (0 <= a n) by (apply Hpos; lia).
  assert (0 <= sum_upto n a) by (apply sum_upto_nonneg; intros; apply Hpos; lia).
  destruct (Nat.eq_dec p n) as [-> | Hne]; [lia |].
  assert (a p <= sum_upto n a) by (apply IH; [intros; apply Hpos; lia | lia]).
  lia.
Qed.

(** Pairs inside the blocks of a partition are fewer than all pairs. *)
Lemma choose2_sum_le (n : nat) (a : nat -> Z) :
  (forall i, (i < n)%nat -> 0 <= a i) ->
  sum_upto n (fun i => choose2 (a i)) <= choose2 (sum_upto n a).
Proof.
  induction n as [|n IH]; intros Hpos.
  - rewrite !sum_upto_0. reflexivity.
  - rewrite !sum_upto_S, choose2_add.
    assert (0 <= a n) by (apply Hpos; lia).
    assert (0 <= sum_upto n a) by (apply sum_upto_nonneg; intros; apply Hpos; lia).
    assert (sum_upto n (fun i => choose2 (a i)) <= choose2 (sum_upto n a))
      by (apply IH; intros; apply Hpos; lia).
    nia.
Qed.

Lemma choose2_sum_gap (n : nat) (a : nat -> Z) (p q : nat) :
  (forall i, (i < n)%nat -> 0 <= a i) -> (p < q < n)%nat ->
  sum_upto n (fun i => choose2 (a i)) + a p * a q <= choose2 (sum_upto n a).
Proof.
  induction n as [|n IH]; intros Hpos Hpq; [lia |].
  rewrite !sum_upto_S, choose2_add.
  assert (Hn : 0 <= a n) by (apply Hpos; lia).
  assert (Hpos' : forall i, (i < n)%nat -> 0 <= a i) by (intros; apply Hpos; lia).
  assert (Hs : 0 <= sum_upto n a) by (apply sum_upto_nonneg; exact Hpos').
  destruct (Nat.eq_dec q n) as [-> | Hne].
  - pose proof (choose2_sum_le n a Hpos').
    assert (a p <= sum_upto n a) by (apply sum_upto_ge_term; [exact Hpos' | lia]).
    nia.
  - assert (sum_upto n (fun i => choose2 (a i)) + a p * a q
            <= choose2 (sum_upto n a)) by (apply IH; [exact Hpos' | lia]).
    nia.
Qed.

Lemma label_count_nonneg (l : list Z) (i : nat) : 0 <= label_count l i.
Proof. apply count_where_nonneg. Qed.

Lemma label_count_in (l : list Z) (v : Z) :
  In v l -> 0 <= v -> 1 <= label_count l (Z.to_nat v).
Proof.
  intros Hin Hv. unfold label_count. rewrite Z2Nat.id by exact Hv.
  induction l as [|a l IH]; [contradiction |].
  rewrite count_where_cons.
  pose proof (count_where_nonneg (fun x => x =? v) l).
  destruct Hin as [-> | Hin].
  - rewrite Z.eqb_refl. lia.
  - specialize (IH Hin). destruct (a =? v); lia.
Qed.

Section SameLabelling.

Variable l : list Z.
Hypothesis Hnonneg : Forall (fun x => 0 <= x) l.

Lemma spec_total_as_sum :
  spec_total l = choose2 (sum_upto (label_range l) (label_count l)).
Proof.
  unfold spec_total. rewrite label_count_total; [reflexivity |].
  apply in_label_range. exact Hnonneg.
Qed.

Lemma spec_rows_le_total : spec_rows l <= spec_total l.
Proof.
  rewrite spec_total_as_sum. unfold spec_rows.
  apply choose2_sum_le. intros. apply label_count_nonneg.
Qed.

Lemma spec_rows_lt_total (v w : Z) :
  In v l -> In w l -> v <> w -> spec_rows l < spec_total l.
Proof.
  intros Hv Hw Hne.
  pose proof (in_label_range l Hnonneg) as Hr. rewrite Forall_forall in Hr.
  pose proof (Hr v Hv) as Hvr. pose proof (Hr w Hw) as Hwr.
  cbv beta in Hvr, Hwr.
  pose proof (label_count_in l v Hv ltac:(lia)) as Hcv.
  pose proof (label_count_in l w Hw ltac:(lia)) as Hcw.
  rewrite spec_total_as_sum. unfold spec_rows.
  assert (Hpos : forall i, (i < label_range l)%nat -> 0 <= label_count l i)
    by (intros; apply label_count_nonneg).
  destruct (Z.lt_total v w) as [Hlt | [Heq | Hgt]]; [| contradiction |].
  - pose proof (choose2_sum_gap (label_range l) (label_count l)
                                (Z.to_nat v) (Z.to_nat w) Hpos ltac:(lia)).
    nia.
  - pose proof (choose2_sum_gap (label_range l) (label_count l)
                                (Z.to_nat w) (Z.to_nat v) Hpos ltac:(lia)).
    nia.
Qed.

Lemma spec_rows_pos (v : Z) :
  2 <= count_where (Z.eqb v) l -> 0 < spec_rows l.
Proof.
  intros Hc.
  assert (Hin : In v l).
  { unfold count_where in Hc.
    destruct (filter (Z.eqb v) l) as [|x fl] eqn:E; [simpl in Hc; lia |].
    assert (Hx : In x (filter (Z.eqb v) l)) by (rewrite E; left; reflexivity).
    apply filter_In in Hx. destruct Hx as [Hx Hxv].
    apply Z.eqb_eq in Hxv. subst x. exact Hx. }
  pose proof (in_label_range l Hnonneg) as Hr. rewrite Forall_forall in Hr.
  pose proof (Hr v Hin) as Hvr. cbv beta in Hvr.
  assert (Hlc : label_count l (Z.to_nat v) = count_where (Z.eqb v) l).
  { unfold label_count. apply count_where_ext. intros a _.
    rewrite Z2Nat.id by lia. apply Z.eqb_sym. }
  unfold spec_rows.
  assert (Hterm : choose2 (label_count l (Z.to_nat v))
                  <= sum_upto (label_range l)
                              (fun i => choose2 (label_count l i))).
  { apply (sum_upto_ge_term (label_range l)
                            (fun i => choose2 (label_count l i))).
    - intros. apply choose2_nonneg.
    - lia. }
  pose proof (choose2_pos (label_count l (Z.to_nat v)) ltac:(lia)). lia.
Qed.

Lemma spec_rand_index_same :
  (2 <= length l)%nat -> spec_rand_index l l = Fin 1.
Proof.
  intros Hn. unfold spec_rand_index.
  rewrite spec_C2_same, spec_D2_same.
  apply fl_div_self.
  - field.
  - apply inject_Z_nonzero. unfold spec_total.
    pose proof (choose2_pos (Z.of_nat (length l)) ltac:(lia)). lia.
Qed.

Lemma spec_adjusted_rand_index_same :
  0 < spec_rows l -> spec_rows l < spec_total l ->
  spec_adjusted_rand_index l l = Fin 1.
Proof.
  intros Hpos Hlt. unfold spec_adjusted_rand_index.
  rewrite spec_A_same. change (spec_cols l) with (spec_rows l).
  apply fl_div_self.
  - field.
  - assert (E : ((inject_Z (spec_rows l) + inject_Z (spec_rows l))
                 * inject_Z (spec_total l) / 2
                 - inject_Z (spec_rows l) * inject_Z (spec_rows l)
                 == inject_Z (spec_rows l * (spec_total l - spec_rows l)))%Q).
    { unfold Z.sub.
      rewrite inject_Z_mult, inject_Z_plus, inject_Z_opp. field. }
    rewrite E. apply inject_Z_nonzero. nia.
Qed.

End SameLabelling.

(* ------------------------------------------------------------------ *)
(** ** Pixel mode on identical masks                                    *)
(* ------------------------------------------------------------------ *)

Lemma row_cells_same (r : list bool) (rm : list bool) (c : bool * bool * bool) :
  In c (zip_with pair (zip_with pair r r) rm) -> fst (fst c) = snd (fst c).
Proof.
  revert rm. induction r as [|a r IH]; intros [|b rm] H; try contradiction.
  simpl in H. destruct H as [<- | H]; [reflexivity | eauto].
Qed.

Lemma cells3_same (m mask : grid bool) (c : bool * bool * bool) :
  In c (cells3 m m mask) -> fst (fst c) = snd (fst c).
Proof.
  unfold cells3. revert mask.
  induction m as [|r m IH]; intros [|rm mask] H; try contradiction.
  simpl in H. apply in_app_or in H. destruct H as [H | H].
  - eapply row_cells_same; exact H.
  - eapply IH; exact H.
Qed.

Lemma filter_none {A : Type} (P : A -> bool) (l : list A) :
  (forall x, In x l -> P x = false) -> filter P l = [].
Proof.
  induction l as [|x l IH]; intros H; [reflexivity |].
  simpl. rewrite (H x (or_introl eq_refl)). apply IH.
  intros y Hy. apply H. right. exact Hy.
Qed.

Lemma confusion_count_same_off (t g : bool) (m mask : grid bool) :
  t <> g -> confusion_count t g m m mask = 0.
Proof.
  intros Hne. unfold confusion_count. rewrite filter_none; [reflexivity |].
  intros [[a b] v] Hc. apply cells3_same in Hc. simpl in *. subst b.
  destruct a, t, g; simpl; try reflexivity; congruence.
Qed.

Lemma Qred_eq_1 (q : Q) : (q == 1)%Q -> Qred q = 1%Q.
Proof. intros H. change 1%Q with (Qred 1). apply Qred_complete. exact H. Qed.

Lemma Qred_eq_0 (q : Q) : (q == 0)%Q -> Qred q = 0%Q.
Proof. intros H. change 0%Q with (Qred 0). apply Qred_complete. exact H. Qed.

Lemma ratio_self (a : Z) :
  (if 0 <? a + 0 then Qred (inject_Z a / inject_Z (a + 0)) else 1%Q) = 1%Q.
Proof.
  destruct (0 <? a + 0) eqn:E; [| reflexivity].
  apply Z.ltb_lt in E. apply Qred_eq_1. rewrite Z.add_0_r.
  field. apply inject_Z_nonzero. lia.
Qed.

Lemma ratio_zero (den : Z) :
  (if 0 <? den then Qred (inject_Z 0 / inject_Z den) else 0%Q) = 0%Q.
Proof.
  destruct (0 <? den) eqn:E; [| reflexivity].
  apply Z.ltb_lt in E. apply Qred_eq_0.
  field. apply inject_Z_nonzero. lia.
Qed.

(** What [measure_image] returns on a mask compared with itself. *)
Lemma measure_image_same (label : grid bool -> grid Z) (m mask : grid bool) :
  exists s : overlap_stats,
    measure_image label m m mask = Ok s
    /\ precision s = Fin 1 /\ recall s = Fin 1 /\ f_factor s = Fin 1
    /\ false_positive_rate s = Fin 0 /\ false_negative_rate s = Fin 0
    /\ (rand_index s, adjusted_rand_index s)
       = compute_rand_index (label (grid_map2 andb m mask))
                            (label (grid_map2 andb m mask)) mask.
Proof.
  destruct (measure_image_returns label m m mask)
    as [s [Hs [H1 [H2 [H3 [H4 [H5 H6]]]]]]].
  rewrite (confusion_count_same_off true false m mask) in * by discriminate.
  rewrite (confusion_count_same_off false true m mask) in * by discriminate.
  rewrite ratio_self in *. rewrite ratio_zero in *.
  exists s. repeat split; assumption.
Qed.

Lemma fl_div_by_zero (a b q : Q) : (b == 0)%Q -> fl_div (Fin a) (Fin b) <> Fin q.
Proof.
  intros Hb. simpl. rewrite (Qeq_bool_true _ _ Hb).
  destruct (q_sign a) as [[|]|]; discriminate.
Qed.

(** With a single valid pixel there is no pair of pixels, and the Rand
    index is no number. *)
Lemma one_pixel_rand_index (L : grid Z) :
  fst (compute_rand_index L L [[true]]) <> Fin 1.
Proof.
  assert (Hsel : select L [[true]] = []
                 \/ exists x, select L [[true]] = [x]).
  { destruct L as [|[|x r] L].
    - left. reflexivity.
    - left. destruct L; reflexivity.
    - right. exists x. destruct r, L; reflexivity. }
  destruct Hsel as [E | [x E]].
  - unfold compute_rand_index. rewrite E. simpl. discriminate.
  - rewrite rand_index_of_labels; rewrite ?E; try reflexivity; try discriminate.
    simpl fst. unfold spec_rand_index. apply fl_div_by_zero. reflexivity.
Qed.

(** C9, as amended.  A binary mask compared in pixel mode with an identical
    copy of itself gets precision, recall and F-factor 1 and false
    positive and false negative rates 0; the Rand index is 1 as soon as
    two pixels are valid; the adjusted Rand index is 1 when, moreover,
    the component labelling gives one label to two valid pixels and
    different labels to two valid pixels. *)
Theorem identical_masks_stats
        (label : grid bool -> grid Z) (m mask : grid bool) :
  exists s : overlap_stats,
    measure_image label m m mask = Ok s
    /\ precision s = Fin 1 /\ recall s = Fin 1 /\ f_factor s = Fin 1
    /\ false_positive_rate s = Fin 0 /\ false_negative_rate s = Fin 0
    /\ ((2 <= length (select (label (grid_map2 andb m mask)) mask))%nat ->
        rand_index s = Fin 1)
    /\ ((exists v, 2 <= count_where
                          (Z.eqb v)
                          (map to_u64 (select (label (grid_map2 andb m mask)) mask))) ->
        (exists v w,
            In v (map to_u64 (select (label (grid_map2 andb m mask)) mask))
            /\ In w (map to_u64 (select (label (grid_map2 andb m mask)) mask))
            /\ v <> w) ->
        adjusted_rand_index s = Fin 1).
Proof.
  destruct (measure_image_same label m mask)
    as [s [Hs [H1 [H2 [H3 [H4 [H5 H6]]]]]]].
  exists s. repeat (split; [assumption |]).
  set (L := label (grid_map2 andb m mask)) in *.
  pose proof (to_u64_nonneg (select L mask)) as Hnn.
  split.
  - intros Hlen.
    rewrite rand_index_of_labels in H6.
    + injection H6 as Hr _. rewrite Hr.
      apply spec_rand_index_same. rewrite length_map. exact Hlen.
    + reflexivity.
    + intros E. apply (f_equal (@length Z)) in E.
      rewrite length_map in E. simpl in E. lia.
  - intros [v Hv] [v1 [v2 [Hv1 [Hv2 Hne]]]].
    rewrite rand_index_of_labels in H6.
    + injection H6 as _ Ha. rewrite Ha.
      apply spec_adjusted_rand_index_same.
      * apply (spec_rows_pos _ Hnn v Hv).
      * apply (spec_rows_lt_total _ Hnn v1 v2 Hv1 Hv2 Hne).
    + reflexivity.
    + intros E. rewrite E in Hv1. contradiction.
Qed.

Lemma identical_masks_stats_witness :
  exists s : overlap_stats,
    measure_image foreground_label
                  [[true; false]; [false; false]] [[true; false]; [false; false]]
                  (all_valid [[true; false]; [false; false]]) = Ok s
    /\ perfect_stats s.
Proof.
  destruct (identical_masks_stats foreground_label
              [[true; false]; [false; false]]
              (all_valid [[true; false]; [false; false]]))
    as [s [Hs [H1 [H2 [H3 [H4 [H5 [H6 H7]]]]]]]].
  exists s. split; [exact Hs |].
  unfold perfect_stats. repeat (split; [assumption |]).
  split; [| split; [| split; assumption]].
  - apply H6. simpl. lia.
  - apply H7.
    + exists 0. vm_compute. discriminate.
    + exists 1, 0. simpl. split; [left; reflexivity |].
      split; [right; left; reflexivity | discriminate].
Defined.

(** C9 as the specification words it fails whatever the labelling
    function: a mask of one pixel has no Rand index. *)
Lemma identical_masks_claim_fails : ~ exists label, identical_masks_claim label.
Proof.
  intros [label H]. destruct (H [[true]]) as [s [Hs Hp]].
  destruct (measure_image_same label [[true]] (all_valid [[true]]))
    as [s' [Hs' [_ [_ [_ [_ [_ H6]]]]]]].
  rewrite Hs in Hs'. injection Hs' as <-.
  destruct Hp as [_ [_ [_ [Hr _]]]].
  apply (one_pixel_rand_index (label (grid_map2 andb [[true]] (all_valid [[true]])))).
  change (all_valid [[true]]) with [[true]] in H6.
  change (grid_map2 andb [[true]] (all_valid [[true]])) with
    (grid_map2 andb [[true]] [[true]]).
  rewrite <- H6. exact Hr.
Qed.

(* ------------------------------------------------------------------ *)
(** ** Object mode: the matcher                                         *)
(* ------------------------------------------------------------------ *)

Lemma length_upd_nth {A : Type} (n : nat) (f : A -> A) (l : list A) :
  length (upd_nth n f l) = length l.
Proof.
  revert n. induction l as [|a l IH]; intros [|n]; simpl; try reflexivity.
  rewrite IH. reflexivity.
Qed.

Lemma nth_upd_nth {A : Type} (n k : nat) (f : A -> A) (l : list A) (d : A) :
  nth k (upd_nth n f l) d
  = if (k =? n)%nat && (k <? length l)%nat then f (nth k l d) else nth k l d.
Proof.
  revert n k. induction l as [|a l IH]; intros n k.
  - destruct n, k; simpl; rewrite ?andb_false_r; reflexivity.
  - destruct n as [|n], k as [|k]; simpl; try reflexivity.
    rewrite IH. reflexivity.
Qed.

Lemma cell_grid_set_zero (m : grid Z) (n i r c : nat) :
  cell (grid_set m n i 0) r c
  = if (r =? n)%nat && (c =? i)%nat then 0 else cell m r c.
Proof.
  unfold cell, grid_set. rewrite nth_upd_nth.
  destruct (Nat.eqb_spec r n) as [-> | Hr]; simpl; [| reflexivity].
  destruct (Nat.ltb_spec n (length m)) as [Hn | Hn].
  - rewrite nth_upd_nth.
    destruct (Nat.eqb_spec c i) as [-> | Hc]; simpl; [| reflexivity].
    destruct (Nat.ltb_spec i (length (nth n m []))) as [Hi | Hi];
      [reflexivity |].
    rewrite nth_overflow by exact Hi. reflexivity.
  - rewrite (nth_overflow m) by exact Hn.
    destruct (c =? i)%nat; destruct c; reflexivity.
Qed.

Lemma cell_clear_rows (ns : list nat) (m : grid Z) (i r c : nat) :
  cell (fold_left (fun m n => grid_set m n i 0) ns m) r c
  = if (c =? i)%nat && existsb (Nat.eqb r) ns then 0 else cell m r c.
Proof.
  revert m. induction ns as [|n ns IH]; intros m.
  - simpl. rewrite andb_false_r. reflexivity.
  - simpl fold_left. rewrite IH, cell_grid_set_zero. simpl existsb.
    destruct (c =? i)%nat, (r =? n)%nat, (existsb (Nat.eqb r) ns);
      reflexivity.
Qed.

Lemma length_clear_rows (ns : list nat) (m : grid Z) (i : nat) :
  length (fold_left (fun m n => grid_set m n i 0) ns m) = length m.
Proof.
  revert m. induction ns as [|n ns IH]; intros m; [reflexivity |].
  simpl. rewrite IH. apply length_upd_nth.
Qed.

Lemma existsb_filter_neq (r final : nat) (l : list nat) :
  existsb (Nat.eqb r) (filter (fun x => negb (x =? final)%nat) l)
  = existsb (Nat.eqb r) l && negb (r =? final)%nat.
Proof.
  induction l as [|x l IH]; [reflexivity |].
  simpl. destruct (Nat.eqb_spec x final) as [-> | Hx]; simpl.
  - rewrite IH. destruct (Nat.eqb_spec r final); simpl;
      [rewrite !andb_false_r; reflexivity | reflexivity].
  - rewrite IH. destruct (Nat.eqb_spec r x) as [-> | Hr]; simpl;
      [| reflexivity].
    destruct (Nat.eqb_spec x final); [contradiction | reflexivity].
Qed.

Lemma cell_resolve_column (dom_ID : list Z) (m : grid Z) (i r c : nat) :
  cell (resolve_column dom_ID m i) r c
  = if (c =? i)%nat && demoted dom_ID m r i then 0 else cell m r c.
Proof.
  unfold resolve_column, demoted, collides, claims.
  destruct (1 <? length (where_eq dom_ID (Z.of_nat i)))%nat.
  - rewrite cell_clear_rows, existsb_filter_neq. reflexivity.
  - simpl. rewrite andb_false_r. reflexivity.
Qed.

Lemma length_resolve_column (dom_ID : list Z) (m : grid Z) (i : nat) :
  length (resolve_column dom_ID m i) = length m.
Proof.
  unfold resolve_column.
  destruct (1 <? length (where_eq dom_ID (Z.of_nat i)))%nat;
    [apply length_clear_rows | reflexivity].
Qed.

Lemma map_as_seq {A B : Type} (f : A -> B) (l : list A) (d : A) :
  map f l = map (fun k => f (nth k l d)) (seq 0 (length l)).
Proof.
  induction l as [|a l IH]; [reflexivity |].
  simpl. f_equal. rewrite <- seq_shift, map_map. exact IH.
Qed.

Lemma column_cells (m : grid Z) (c : nat) :
  column m c = map (fun r => cell m r c) (seq 0 (length m)).
Proof.
  unfold column, cell.
  apply (map_as_seq (fun row : list Z => nth c row 0) m []).
Qed.

(** After the first [k] columns have been visited, the cells of those
    columns are settled and the others are as they were. *)
Lemma resolve_prefix (dom_ID : list Z) (m : grid Z) (k : nat) :
  length (fold_left (resolve_column dom_ID) (seq 0 k) m) = length m
  /\ forall r c,
      cell (fold_left (resolve_column dom_ID) (seq 0 k) m) r c
      = if (c <? k)%nat && demoted dom_ID m r c then 0 else cell m r c.
Proof.
  induction k as [|k [IHlen IHcell]].
  - split; [reflexivity |]. intros r c. reflexivity.
  - rewrite seq_S, fold_left_app. simpl fold_left.
    set (mk := fold_left (resolve_column dom_ID) (seq 0 k) m) in *.
    split; [rewrite length_resolve_column; exact IHlen |].
    intros r c. rewrite cell_resolve_column.
    assert (Hcol : column mk k = column m k).
    { rewrite !column_cells, IHlen. apply map_ext. intros r'.
      rewrite IHcell, Nat.ltb_irrefl. reflexivity. }
    assert (Hdem : demoted dom_ID mk r k = demoted dom_ID m r k).
    { unfold demoted. rewrite Hcol. reflexivity. }
    rewrite Hdem, IHcell.
    destruct (Nat.eqb_spec c k) as [-> | Hne].
    + rewrite Nat.ltb_irrefl.
      assert (H : (k <? S k)%nat = true) by (apply Nat.ltb_lt; lia).
      rewrite H. reflexivity.
    + simpl.
      destruct (Nat.ltb_spec c k) as [H | H].
      * assert (H' : (c <? S k)%nat = true) by (apply Nat.ltb_lt; lia).
        rewrite H'. reflexivity.
      * assert (H' : (c <? S k)%nat = false) by (apply Nat.ltb_ge; lia).
        rewrite H'. reflexivity.
Qed.

(** The collision pass, cell by cell. *)
Lemma resolve_collisions_cell (dom_ID : list Z) (m : grid Z)
      (ncols r c : nat) :
  (c < ncols)%nat ->
  cell (resolve_collisions dom_ID m ncols) r c
  = if demoted dom_ID m r c then 0 else cell m r c.
Proof.
  intros Hc. unfold resolve_collisions.
  destruct (resolve_prefix dom_ID m ncols) as [_ H]. rewrite H.
  apply Nat.ltb_lt in Hc. rewrite Hc. reflexivity.
Qed.

(** What [match_objects] has computed when it returns. *)
Lemma match_objects_parts (gt_ijv test_ijv : list triple)
      (xGT yGT xID yID : nat) (mt : matching) :
  match_objects gt_ijv test_ijv xGT yGT xID yID = Ok mt ->
  py_max (map (fun t : triple => snd t) test_ijv) = Ok (mt_ID_obj mt)
  /\ py_max (map (fun t : triple => snd t) gt_ijv) = Ok (mt_GT_obj mt)
  /\ 0 <= mt_ID_obj mt /\ 0 <= mt_GT_obj mt
  /\ mt_overlap mt
     = intersect_matrix_of gt_ijv test_ijv (mt_ID_obj mt) (mt_GT_obj mt)
  /\ mt_FN_area mt = FN_area_of gt_ijv test_ijv (mt_ID_obj mt) (mt_GT_obj mt)
  /\ mark_loop (zeros xGT yGT) (range0 (mt_GT_obj mt))
               (fun _ => map t_coord gt_ijv) = Ok (mt_GT_pixels mt)
  /\ mark_loop (zeros xID yID) (range0 (mt_ID_obj mt))
               (fun i => map t_coord
                             (filter (fun t : triple => snd t =? i) test_ijv))
     = Ok (mt_ID_pixels mt)
  /\ dominant_ids (mt_overlap mt) = Ok (mt_dom_ID mt)
  /\ mt_resolved mt
     = resolve_collisions (mt_dom_ID mt) (mt_overlap mt)
                          (Z.to_nat (mt_GT_obj mt)).
Proof.
  unfold match_objects. intros H.
  destruct (py_max (map (fun t : triple => snd t) test_ijv)) as [ID_obj | e];
    [| discriminate].
  destruct (py_max (map (fun t : triple => snd t) gt_ijv)) as [GT_obj | e];
    [| discriminate].
  cbn [bind] in H.
  destruct (Z.ltb_spec ID_obj 0) as [HI | HI]; [discriminate |].
  destruct (Z.ltb_spec GT_obj 0) as [HG | HG]; [discriminate |].
  cbn [orb] in H.
  destruct (mark_loop (zeros xGT yGT) (range0 GT_obj)
                      (fun _ => map t_coord gt_ijv))
    as [GT_pixels | e] eqn:HGT; [| discriminate].
  cbn [bind] in H.
  destruct (mark_loop (zeros xID yID) (range0 ID_obj)
                      (fun i => map t_coord
                                    (filter (fun t : triple => snd t =? i)
                                            test_ijv)))
    as [ID_pixels | e] eqn:HID; [| discriminate].
  cbn [bind] in H.
  destruct (dominant_ids (intersect_matrix_of gt_ijv test_ijv ID_obj GT_obj))
    as [dom_ID | e] eqn:Hdom; [| discriminate].
  cbn [bind] in H. injection H as <-. simpl. repeat split; auto.
Qed.

Lemma match_objects_inv (gt_ijv test_ijv : list triple)
      (xGT yGT xID yID : nat) (mt : matching) :
  match_objects gt_ijv test_ijv xGT yGT xID yID = Ok mt ->
  dominant_ids (mt_overlap mt) = Ok (mt_dom_ID mt)
  /\ mt_resolved mt
     = resolve_collisions (mt_dom_ID mt) (mt_overlap mt)
                          (Z.to_nat (mt_GT_obj mt)).
Proof.
  intros H. apply match_objects_parts in H.
  destruct H as [_ [_ [_ [_ [_ [_ [_ [_ [H1 H2]]]]]]]]]. split; assumption.
Qed.

(** C3, as amended.  When several entries of [dom_ID] name the same
    object [c], the pass keeps the overlap with [c] only for the entry
    that holds the first maximum of the whole column [c] of the overlap
    matrix, whether or not that entry is one of the colliding ones; every
    other colliding entry has its overlap with [c] set to zero.  No other
    cell changes, the pass is made once, and [dom_ID] stays as it was
    computed from the matrix before the pass. *)
Theorem collision_pass_spec (gt_ijv test_ijv : list triple)
        (xGT yGT xID yID : nat) (mt : matching) :
  match_objects gt_ijv test_ijv xGT yGT xID yID = Ok mt ->
  dominant_ids (mt_overlap mt) = Ok (mt_dom_ID mt)
  /\ forall r c : nat,
      (c < Z.to_nat (mt_GT_obj mt))%nat ->
      cell (mt_resolved mt) r c
      = if demoted (mt_dom_ID mt) (mt_overlap mt) r c then 0
        else cell (mt_overlap mt) r c.
Proof.
  intros H. destruct (match_objects_inv _ _ _ _ _ _ _ H) as [Hdom Hres].
  split; [exact Hdom |]. intros r c Hc. rewrite Hres.
  apply resolve_collisions_cell. exact Hc.
Qed.

Lemma collision_pass_spec_witness :
  exists mt : matching,
    match_objects collision_gt collision_test 3 4 3 4 = Ok mt
    /\ dominant_ids (mt_overlap mt) = Ok (mt_dom_ID mt)
    /\ forall r c : nat,
        (c < Z.to_nat (mt_GT_obj mt))%nat ->
        cell (mt_resolved mt) r c
        = if demoted (mt_dom_ID mt) (mt_overlap mt) r c then 0
          else cell (mt_overlap mt) r c.
Proof.
  eexists. split; [vm_compute; reflexivity |].
  apply (collision_pass_spec collision_gt collision_test 3 4 3 4).
  vm_compute. reflexivity.
Defined.

(** C3 as the specification words it fails: entries 2 and 3 of [dom_ID]
    both name object 1, entry 2 has the largest overlap with it among the
    two, and it loses that overlap all the same, because entry 1, which
    names another object, overlaps object 1 more. *)
Lemma collision_claim_fails :
  exists mt : matching,
    match_objects collision_gt collision_test 3 4 3 4 = Ok mt
    /\ mt_dom_ID mt = [-1; 2; 1; 1]
    /\ ~ collision_claim (mt_overlap mt) (mt_dom_ID mt) (mt_resolved mt).
Proof.
  eexists. split; [vm_compute; reflexivity |]. split; [reflexivity |].
  intros H. specialize (H 1%nat 2%nat eq_refl eq_refl).
  vm_compute in H. discriminate.
Qed.

(** C2, at an input where the code departs from it: one ground-truth
    object and one test object on the only pixel of an image.  Their
    overlap is 1, yet the only entry of [dom_ID] is -1 (unmatched): the
    loops visit the labels [0 .. max-1], so the object with the largest
    label is never looked at.  With three ground-truth objects and one
    test object, on an image of three pixels, [dom_ID] still has a
    single entry: its entries follow the rows of [intersect_matrix],
    which follow the test labels. *)
Theorem dominant_ids_miss_objects :
  overlap [((0, 0), 1)] [((0, 0), 1)] 1 1 = 1
  /\ (exists mt : matching,
         match_objects [((0, 0), 1)] [((0, 0), 1)] 1 1 1 1 = Ok mt
         /\ mt_overlap mt = [[0]] /\ mt_dom_ID mt = [-1])
  /\ (exists mt : matching,
         match_objects [((0, 0), 1); ((0, 1), 2); ((0, 2), 3)] [((0, 0), 1)]
                       1 3 1 3 = Ok mt
         /\ mt_dom_ID mt = [-1]).
Proof.
  split; [reflexivity |].
  split; eexists; (split; [vm_compute; reflexivity |]); repeat split.
Qed.

(** The loop of lines 353-362 appends [tp] to [TP] twice: the sum of [TP]
    is twice what the sum of [TN] accounts for. *)
Lemma tp_counted_twice (rows : list (list Z * list Z * Z)) (total_pixels : Z)
      (TP TN FN : list Z) :
  tp_tn_fn_loop rows total_pixels = Ok (TP, TN, FN) ->
  zsum TP = 2 * (Z.of_nat (length rows) * total_pixels - zsum TN).
Proof.
  revert TP TN FN. induction rows as [|[[m_row fn_row] d] rows IH];
    intros TP TN FN H.
  - injection H as <- <- <-. reflexivity.
  - simpl in H.
    destruct (py_get m_row d) as [tp | e]; [| discriminate].
    destruct (py_get fn_row d) as [fn | e]; [| discriminate].
    cbn [bind] in H.
    destruct (tp_tn_fn_loop rows total_pixels) as [[[TP' TN'] FN'] | e];
      [| discriminate].
    cbn [bind] in H. injection H as <- <- <-.
    specialize (IH TP' TN' FN' eq_refl).
    rewrite !zsum_cons, IH. simpl length. lia.
Qed.

(** C4, at an input where the code departs from it.  Object 1 of the
    ground truth shares its two pixels with object 1 of the test listing
    and no other pair of objects overlaps, so the overlaps of the
    ground-truth objects with their dominant test objects add up to 2;
    the code reports TP = 4, and a recall of 2. *)
Theorem object_counts_double_tp :
  overlap two_objects_gt two_objects_test 1 1 = 2
  /\ overlap two_objects_gt two_objects_test 1 2 = 0
  /\ overlap two_objects_gt two_objects_test 2 1 = 0
  /\ overlap two_objects_gt two_objects_test 2 2 = 0
  /\ (exists (mt : matching) (counts : object_counts),
         match_objects two_objects_gt two_objects_test 2 2 2 2 = Ok mt
         /\ object_counts_of mt (2 * 2) = Ok counts
         /\ oc_TP counts = 4)
  /\ (exists s : overlap_stats,
         measure_objects two_objects_gt two_objects_test 2 2 2 2
                         [[true; true]; [true; true]] = Ok s
         /\ recall s = Fin 2).
Proof.
  repeat (split; [reflexivity |]).
  split.
  - do 2 eexists. split; [vm_compute; reflexivity |].
    split; [vm_compute; reflexivity | reflexivity].
  - eexists. split; [vm_compute; reflexivity | reflexivity].
Qed.

(* ------------------------------------------------------------------ *)
(** ** Sorting rows and dropping repeated rows                          *)
(* ------------------------------------------------------------------ *)

Lemma list_eqb_eq (a b : list Z) : list_eqb a b = true <-> a = b.
Proof.
  revert b. induction a as [|x a IH]; intros [|y b]; simpl;
    try (split; [discriminate | discriminate]); [tauto |].
  rewrite andb_true_iff, Z.eqb_eq, IH.
  split; [intros [-> ->]; reflexivity | intros H; injection H; auto].
Qed.

Lemma lex_leb_refl (a : list Z) : lex_leb a a = true.
Proof.
  induction a as [|x a IH]; [reflexivity |].
  simpl. rewrite Z.ltb_irrefl. exact IH.
Qed.

Lemma lex_leb_total (a b : list Z) : lex_leb a b = true \/ lex_leb b a = true.
Proof.
  revert b. induction a as [|x a IH]; intros [|y b]; simpl; auto.
  destruct (Z.ltb_spec x y), (Z.ltb_spec y x); auto; lia.
Qed.

Lemma lex_leb_antisym (a b : list Z) :
  lex_leb a b = true -> lex_leb b a = true -> a = b.
Proof.
  revert b. induction a as [|x a IH]; intros [|y b]; simpl;
    try discriminate; [reflexivity |].
  destruct (Z.ltb_spec x y), (Z.ltb_spec y x); try discriminate; try lia.
  intros H1 H2. assert (x = y) by lia. subst. f_equal. auto.
Qed.

Lemma lex_leb_trans (a b c : list Z) :
  lex_leb a b = true -> lex_leb b c = true -> lex_leb a c = true.
Proof.
  revert b c. induction a as [|x a IH]; intros [|y b] [|z c]; simpl;
    try discriminate; try reflexivity.
  destruct (Z.ltb_spec x y), (Z.ltb_spec y x), (Z.ltb_spec y z),
    (Z.ltb_spec z y), (Z.ltb_spec x z), (Z.ltb_spec z x);
    try discriminate; try reflexivity; try lia.
  apply IH.
Qed.

Section Canonical.

Context {A : Type}.
Variable key : A -> list Z.
Hypothesis key_inj : forall x y, key x = key y -> x = y.

Lemma key_le_refl (x : A) : key_le key x x.
Proof. apply lex_leb_refl. Qed.

Lemma key_le_trans (x y z : A) : key_le key x y -> key_le key y z -> key_le key x z.
Proof. apply lex_leb_trans. Qed.

Lemma key_le_antisym (x y : A) : key_le key x y -> key_le key y x -> x = y.
Proof. intros H1 H2. apply key_inj. apply lex_leb_antisym; assumption. Qed.

Lemma key_lt_trans (x y z : A) : key_lt key x y -> key_lt key y z -> key_lt key x z.
Proof.
  intros [H1 N1] [H2 N2]. split; [eapply key_le_trans; eassumption |].
  intros ->. apply N1. apply key_le_antisym; assumption.
Qed.

Lemma key_lt_irrefl (x : A) : ~ key_lt key x x.
Proof. intros [_ H]. apply H. reflexivity. Qed.

Lemma same_key_eq (x y : A) : same_key key x y = true <-> x = y.
Proof.
  unfold same_key. rewrite list_eqb_eq.
  split; [apply key_inj | intros ->; reflexivity].
Qed.

Lemma insert_by_perm (x : A) (l : list A) :
  Permutation (insert_by key x l) (x :: l).
Proof.
  induction l as [|y l IH]; simpl; [apply Permutation_refl |].
  destruct (lex_leb (key x) (key y)); [apply Permutation_refl |].
  eapply Permutation_trans; [apply perm_skip; exact IH | apply perm_swap].
Qed.

Lemma sort_by_perm (l : list A) : Permutation (sort_by key l) l.
Proof.
  induction l as [|x l IH]; simpl; [apply Permutation_refl |].
  eapply Permutation_trans; [apply insert_by_perm | apply perm_skip; exact IH].
Qed.

Lemma insert_by_sorted (x : A) (l : list A) :
  StronglySorted (key_le key) l -> StronglySorted (key_le key) (insert_by key x l).
Proof.
  induction 1 as [|y l Hl IH Hy]; simpl.
  - constructor; constructor.
  - destruct (lex_leb (key x) (key y)) eqn:E.
    + constructor; [constructor; assumption |].
      constructor; [exact E |].
      eapply Forall_impl; [| exact Hy]. intros z Hz.
      eapply key_le_trans; [exact E | exact Hz].
    + constructor; [exact IH |].
      assert (Hyx : key_le key y x).
      { destruct (lex_leb_total (key x) (key y)); [congruence | assumption]. }
      rewrite Forall_forall in *. intros z Hz.
      apply (Permutation_in _ (insert_by_perm x l)) in Hz.
      destruct Hz as [<- | Hz]; [exact Hyx | apply Hy; exact Hz].
Qed.

Lemma sort_by_sorted (l : list A) : StronglySorted (key_le key) (sort_by key l).
Proof.
  induction l as [|x l IH]; simpl; [constructor | apply insert_by_sorted; exact IH].
Qed.

Lemma drop_repeats_spec (a : A) (t : list A) :
  StronglySorted (key_le key) (a :: t) ->
  StronglySorted (key_lt key) (a :: drop_repeats key a t)
  /\ (forall x, In x (a :: drop_repeats key a t) <-> In x (a :: t)).
Proof.
  revert a. induction t as [|b t IH]; intros a Hs.
  - simpl. split; [constructor; constructor | tauto].
  - inversion Hs as [|? ? Hs' Ha]; subst.
    destruct (IH b Hs') as [IHs IHin].
    simpl drop_repeats. destruct (same_key key a b) eqn:E.
    + apply same_key_eq in E. subst b. split; [exact IHs |].
      intros x. rewrite IHin. simpl. tauto.
    + assert (Hab : a <> b).
      { intros H. apply same_key_eq in H. congruence. }
      split.
      * constructor; [exact IHs |].
        rewrite Forall_forall. intros x Hx. apply IHin in Hx.
        inversion Ha as [|? ? Hle Ha']; subst.
        destruct Hx as [<- | Hx]; [split; assumption |].
        rewrite Forall_forall in Ha'. split; [apply Ha'; exact Hx |].
        intros ->. apply Hab. apply key_le_antisym; [exact Hle |].
        inversion Hs' as [|? ? _ Hb]; subst.
        rewrite Forall_forall in Hb. apply Hb. exact Hx.
      * intros x. specialize (IHin x). simpl in *. tauto.
Qed.

Lemma uniq_sorted (l : list A) :
  StronglySorted (key_le key) l -> StronglySorted (key_lt key) (uniq key l).
Proof.
  destruct l as [|a t]; intros H; [constructor |].
  apply (drop_repeats_spec a t H).
Qed.

Lemma uniq_in (l : list A) (x : A) :
  StronglySorted (key_le key) l -> In x (uniq key l) <-> In x l.
Proof.
  destruct l as [|a t]; intros H; [tauto |].
  apply (drop_repeats_spec a t H).
Qed.

(** A strictly sorted listing is determined by the rows it holds. *)
Lemma strictly_sorted_unique (l1 l2 : list A) :
  StronglySorted (key_lt key) l1 -> StronglySorted (key_lt key) l2 ->
  (forall x, In x l1 <-> In x l2) -> l1 = l2.
Proof.
  intros H1. revert l2. induction H1 as [|a l1 Hl1 IH Ha]; intros l2 H2 Hin.
  - destruct l2 as [|b l2]; [reflexivity |].
    exfalso. apply (Hin b). left. reflexivity.
  - destruct H2 as [|b l2 Hl2 Hb].
    + exfalso. apply (Hin a). left. reflexivity.
    + rewrite Forall_forall in Ha, Hb.
      assert (Hab : a = b).
      { assert (Ha2 : In a (b :: l2)) by (apply Hin; left; reflexivity).
        assert (Hb1 : In b (a :: l1)) by (apply Hin; left; reflexivity).
        destruct Ha2 as [-> | Ha2]; [reflexivity |].
        destruct Hb1 as [-> | Hb1]; [reflexivity |].
        exfalso. apply (key_lt_irrefl a).
        eapply key_lt_trans; [apply Ha; exact Hb1 | apply Hb; exact Ha2]. }
      subst b. f_equal. apply IH; [exact Hl2 |].
      intros x. split; intros Hx.
      * assert (Hx' : In x (a :: l2)) by (apply Hin; right; exact Hx).
        destruct Hx' as [<- | Hx']; [| exact Hx'].
        exfalso. apply (key_lt_irrefl a). apply Ha. exact Hx.
      * assert (Hx' : In x (a :: l1)) by (apply Hin; right; exact Hx).
        destruct Hx' as [<- | Hx']; [| exact Hx'].
        exfalso. apply (key_lt_irrefl a). apply Hb. exact Hx.
Qed.

(** Sorting and dropping the repeated rows only sees which rows occur. *)
Lemma canonical_rows (l1 l2 : list A) :
  (forall x, In x l1 <-> In x l2) ->
  uniq key (sort_by key l1) = uniq key (sort_by key l2).
Proof.
  intros Hin. apply strictly_sorted_unique.
  - apply uniq_sorted, sort_by_sorted.
  - apply uniq_sorted, sort_by_sorted.
  - intros x. rewrite !uniq_in by apply sort_by_sorted.
    split; intros Hx.
    + apply (Permutation_in _ (Permutation_sym (sort_by_perm l2))).
      apply Hin. apply (Permutation_in _ (sort_by_perm l1)). exact Hx.
    + apply (Permutation_in _ (Permutation_sym (sort_by_perm l1))).
      apply Hin. apply (Permutation_in _ (sort_by_perm l2)). exact Hx.
Qed.

End Canonical.

Lemma row_key_inj (x y : row4) : row_key x = row_key y -> x = y.
Proof.
  destruct x as [[[i j] v] s], y as [[[i' j'] v'] s'].
  unfold row_key, r_i, r_j, r_label, r_src. simpl.
  intros H. injection H as -> -> -> ->. reflexivity.
Qed.

Lemma unique_rows_uniq (u : list row4) :
  unique_rows u = match u with
                  | [] => Raise IndexError
                  | _ :: _ => Ok (uniq row_key u)
                  end.
Proof. destruct u; reflexivity. Qed.

(* ------------------------------------------------------------------ *)
(** ** The background of a listing                                      *)
(* ------------------------------------------------------------------ *)

Lemma upd_nth_ext {A : Type} (n : nat) (f g : A -> A) (l : list A) :
  (forall x, f x = g x) -> upd_nth n f l = upd_nth n g l.
Proof.
  intros H. revert n. induction l as [|a l IH]; intros [|n]; simpl;
    try reflexivity; [rewrite H | rewrite IH]; reflexivity.
Qed.

Lemma upd_nth_twice {A : Type} (n : nat) (f g : A -> A) (l : list A) :
  upd_nth n f (upd_nth n g l) = upd_nth n (fun x => f (g x)) l.
Proof.
  revert n. induction l as [|a l IH]; intros [|n]; simpl; try reflexivity.
  rewrite IH. reflexivity.
Qed.

Lemma upd_nth_comm {A : Type} (n m : nat) (f g : A -> A) (l : list A) :
  n <> m -> upd_nth n f (upd_nth m g l) = upd_nth m g (upd_nth n f l).
Proof.
  revert n m. induction l as [|a l IH]; intros [|n] [|m] H; simpl;
    try reflexivity; [contradiction |].
  rewrite IH by congruence. reflexivity.
Qed.

Lemma grid_set_same {A : Type} (g : grid A) (r c : nat) (v : A) :
  grid_set (grid_set g r c v) r c v = grid_set g r c v.
Proof.
  unfold grid_set. rewrite upd_nth_twice. apply upd_nth_ext. intros row.
  rewrite upd_nth_twice. reflexivity.
Qed.

Lemma grid_set_comm {A : Type} (g : grid A) (r c r' c' : nat) (v : A) :
  grid_set (grid_set g r c v) r' c' v = grid_set (grid_set g r' c' v) r c v.
Proof.
  unfold grid_set. destruct (Nat.eq_dec r r') as [<- | Hr].
  - rewrite !upd_nth_twice. apply upd_nth_ext. intros row.
    destruct (Nat.eq_dec c c') as [<- | Hc]; [reflexivity |].
    apply upd_nth_comm. congruence.
  - apply upd_nth_comm. congruence.
Qed.

Lemma grid_set_dims {A : Type} (g : grid A) (r c : nat) (v : A) :
  length (grid_set g r c v) = length g
  /\ length (hd [] (grid_set g r c v)) = length (hd [] g).
Proof.
  unfold grid_set. split; [apply length_upd_nth |].
  destruct g as [|row g]; [destruct r; reflexivity |].
  destruct r; simpl; [apply length_upd_nth | reflexivity].
Qed.

Lemma clear_at_app (bkgd : grid bool) (cs cs' : list (Z * Z)) :
  clear_at bkgd (cs ++ cs') = (b <- clear_at bkgd cs ;; clear_at b cs').
Proof.
  revert bkgd. induction cs as [|[i j] cs IH]; intros bkgd; [reflexivity |].
  simpl. destruct (np_index (length bkgd) i) as [r | e]; [| reflexivity].
  destruct (np_index (length (hd [] bkgd)) j) as [c | e]; [| reflexivity].
  simpl. apply IH.
Qed.

Lemma clear_at_dims (bkgd bkgd' : grid bool) (cs : list (Z * Z)) :
  clear_at bkgd cs = Ok bkgd' ->
  length bkgd' = length bkgd /\ length (hd [] bkgd') = length (hd [] bkgd).
Proof.
  revert bkgd. induction cs as [|[i j] cs IH]; intros bkgd H.
  - injection H as <-. split; reflexivity.
  - simpl in H.
    destruct (np_index (length bkgd) i) as [r | e]; [| discriminate].
    destruct (np_index (length (hd [] bkgd)) j) as [c | e]; [| discriminate].
    simpl in H. destruct (IH _ H) as [H1 H2].
    destruct (grid_set_dims bkgd r c false) as [H3 H4]. split; congruence.
Qed.

Lemma clear_at_keeps (bkgd bkgd' : grid bool) (cs : list (Z * Z)) (r c : nat) :
  clear_at bkgd cs = Ok bkgd' ->
  grid_set bkgd r c false = bkgd -> grid_set bkgd' r c false = bkgd'.
Proof.
  revert bkgd. induction cs as [|[i j] cs IH]; intros bkgd H Hrc.
  - injection H as <-. exact Hrc.
  - simpl in H.
    destruct (np_index (length bkgd) i) as [r1 | e]; [| discriminate].
    destruct (np_index (length (hd [] bkgd)) j) as [c1 | e]; [| discriminate].
    simpl in H. apply (IH _ H).
    rewrite grid_set_comm, Hrc. reflexivity.
Qed.

Lemma clear_at_member (bkgd bkgd' : grid bool) (cs : list (Z * Z)) (i j : Z) :
  clear_at bkgd cs = Ok bkgd' -> In (i, j) cs ->
  exists r c,
    np_index (length bkgd) i = Ok r
    /\ np_index (length (hd [] bkgd)) j = Ok c
    /\ grid_set bkgd' r c false = bkgd'.
Proof.
  revert bkgd. induction cs as [|[i1 j1] cs IH]; intros bkgd H Hin;
    [contradiction |].
  simpl in H.
  destruct (np_index (length bkgd) i1) as [r1 | e] eqn:Er; [| discriminate].
  destruct (np_index (length (hd [] bkgd)) j1) as [c1 | e] eqn:Ec;
    [| discriminate].
  simpl in H. destruct Hin as [Heq | Hin].
  - injection Heq as <- <-. exists r1, c1. repeat split; try assumption.
    apply (clear_at_keeps _ _ _ _ _ H). apply grid_set_same.
  - destruct (IH _ H Hin) as [r [c [Hr [Hc Hset]]]].
    destruct (grid_set_dims bkgd r1 c1 false) as [H3 H4].
    rewrite H3 in Hr. rewrite H4 in Hc. exists r, c. auto.
Qed.

(** A coordinate cleared once more leaves the background as it is. *)
Lemma clear_at_again (bkgd : grid bool) (cs : list (Z * Z)) (p : Z * Z) :
  In p cs -> clear_at bkgd (cs ++ [p]) = clear_at bkgd cs.
Proof.
  intros Hin. rewrite clear_at_app.
  destruct (clear_at bkgd cs) as [b | e] eqn:E; [| reflexivity].
  destruct p as [i j].
  destruct (clear_at_member _ _ _ _ _ E Hin) as [r [c [Hr [Hc Hset]]]].
  destruct (clear_at_dims _ _ _ E) as [H1 H2].
  simpl. rewrite H1, Hr, H2, Hc. simpl. rewrite Hset. reflexivity.
Qed.

Lemma classes_of_rows_ext (u1 u2 : list row4) :
  (forall x, In x u1 <-> In x u2) -> classes_of_rows u1 = classes_of_rows u2.
Proof.
  intros Hin. unfold classes_of_rows. rewrite !unique_rows_uniq.
  rewrite (canonical_rows row_key row_key_inj u1 u2 Hin).
  assert (Hperm1 := sort_by_perm row_key u1).
  assert (Hperm2 := sort_by_perm row_key u2).
  destruct (sort_by row_key u1) as [|a s1] eqn:E1,
           (sort_by row_key u2) as [|b s2] eqn:E2; try reflexivity.
  - exfalso. apply Permutation_nil in Hperm1. subst u1.
    assert (Hb : In b u2) by (apply (Permutation_in _ Hperm2); left; reflexivity).
    apply Hin in Hb. contradiction.
  - exfalso. apply Permutation_nil in Hperm2. subst u2.
    assert (Ha : In a u1) by (apply (Permutation_in _ Hperm1); left; reflexivity).
    apply Hin in Ha. contradiction.
Qed.

Lemma ijv_classes_unfold (gt_ijv test_ijv : list triple) (mask : grid bool) :
  ijv_classes gt_ijv test_ijv mask
  = (g <- with_background gt_ijv mask ;;
     t <- with_background test_ijv mask ;;
     classes_of_rows (unified g t)).
Proof. reflexivity. Qed.

Lemma with_background_again (ijv : list triple) (mask : grid bool) (d : triple) :
  In d ijv ->
  match with_background ijv mask, with_background (ijv ++ [d]) mask with
  | Ok a, Ok b => forall x, In x b <-> In x a
  | Raise e, Raise e' => e = e'
  | _, _ => False
  end.
Proof.
  intros Hin. unfold with_background.
  rewrite map_app. simpl map.
  rewrite clear_at_again by (apply in_map; exact Hin).
  destruct (clear_at mask (map t_coord ijv)) as [b | e]; simpl; [| reflexivity].
  intros x. rewrite !in_app_iff. simpl. split.
  - intros [[H | [<- | []]] | H]; auto.
  - intros [H | H]; auto.
Qed.

Lemma unified_in (g t : list triple) (x : row4) :
  In x (unified g t)
  <-> (In (fst x) g /\ snd x = 0) \/ (In (fst x) t /\ snd x = 1).
Proof.
  unfold unified, tag. rewrite in_app_iff, !in_map_iff.
  destruct x as [tr s]. simpl. split.
  - intros [[y [H Hy]] | [y [H Hy]]]; injection H as <- <-; auto.
  - intros [[H ->] | [H ->]]; [left | right]; exists tr; auto.
Qed.

(** C10.  Appending to either listing a triple it already holds leaves
    what [compute_rand_index_ijv] returns unchanged: the repeated row is
    dropped after the sort, before the rows are grouped. *)
Theorem duplicate_triple_ignored
        (gt_ijv test_ijv : list triple) (mask : grid bool) (d : triple) :
  (In d gt_ijv ->
   compute_rand_index_ijv (gt_ijv ++ [d]) test_ijv mask
   = compute_rand_index_ijv gt_ijv test_ijv mask)
  /\ (In d test_ijv ->
      compute_rand_index_ijv gt_ijv (test_ijv ++ [d]) mask
      = compute_rand_index_ijv gt_ijv test_ijv mask).
Proof.
  unfold compute_rand_index_ijv. rewrite !ijv_classes_unfold. split; intros Hin.
  - pose proof (with_background_again gt_ijv mask d Hin) as Hbg.
    destruct (with_background gt_ijv mask) as [a | e],
             (with_background (gt_ijv ++ [d]) mask) as [b | e'];
      try contradiction; [| subst; reflexivity].
    cbn [bind]. destruct (with_background test_ijv mask) as [t | e];
      [| reflexivity].
    cbn [bind]. rewrite (classes_of_rows_ext (unified b t) (unified a t));
      [reflexivity |].
    intros x. rewrite !unified_in, Hbg. tauto.
  - pose proof (with_background_again test_ijv mask d Hin) as Hbg.
    destruct (with_background gt_ijv mask) as [g | e]; [| reflexivity].
    cbn [bind].
    destruct (with_background test_ijv mask) as [a | e],
             (with_background (test_ijv ++ [d]) mask) as [b | e'];
      try contradiction; [| subst; reflexivity].
    cbn [bind]. rewrite (classes_of_rows_ext (unified g b) (unified g a));
      [reflexivity |].
    intros x. rewrite !unified_in, Hbg. tauto.
Qed.

Lemma duplicate_triple_ignored_witness :
  compute_rand_index_ijv (two_objects_gt ++ [((0, 1), 1)]) two_objects_test
                         [[true; true]; [true; true]]
  = compute_rand_index_ijv two_objects_gt two_objects_test
                           [[true; true]; [true; true]]
  /\ compute_rand_index_ijv two_objects_gt (two_objects_test ++ [((1, 0), 2)])
                            [[true; true]; [true; true]]
     = compute_rand_index_ijv two_objects_gt two_objects_test
                              [[true; true]; [true; true]].
Proof.
  split.
  - apply (duplicate_triple_ignored two_objects_gt two_objects_test
             [[true; true]; [true; true]] ((0, 1), 1)).
    right. left. reflexivity.
  - apply (duplicate_triple_ignored two_objects_gt two_objects_test
             [[true; true]; [true; true]] ((1, 0), 2)).
    right. right. left. reflexivity.
Defined.

(* ------------------------------------------------------------------ *)
(** ** Groups of adjacent rows                                          *)
(* ------------------------------------------------------------------ *)

Section Groups.

Context {A : Type}.
Variable key : A -> list Z.

Lemma group_adj_spec (l : list A) :
  concat (group_adj key l) = l
  /\ Forall (fun g => g <> []) (group_adj key l)
  /\ Forall (fun g => forall x y, In x g -> In y g -> key x = key y)
            (group_adj key l).
Proof.
  induction l as [|a t [IHc [IHn IHk]]]; [repeat split; constructor |].
  simpl. destruct (group_adj key t) as [|[|b g] gs] eqn:E.
  - simpl in IHc. subst t. split; [reflexivity |]. split.
    + constructor; [discriminate | constructor].
    + constructor; [| constructor].
      intros x y [<- | []] [<- | []]. reflexivity.
  - apply Forall_inv in IHn. contradiction.
  - pose proof (Forall_inv_tail IHn) as IHn'.
    pose proof (Forall_inv IHk) as Hbg. cbv beta in Hbg.
    pose proof (Forall_inv_tail IHk) as IHk'. clear IHn IHk.
    destruct (same_key key a b) eqn:Eab.
    + apply list_eqb_eq in Eab. split; [| split].
      * simpl. simpl in IHc. rewrite <- IHc. reflexivity.
      * constructor; [discriminate | exact IHn'].
      * constructor; [| exact IHk'].
        assert (Hall : forall x, In x (a :: b :: g) -> key x = key b).
        { intros x [<- | Hx]; [exact Eab |].
          apply Hbg; [exact Hx | left; reflexivity]. }
        intros x y Hx Hy. rewrite (Hall x Hx), (Hall y Hy). reflexivity.
    + split; [| split].
      * simpl. simpl in IHc. rewrite <- IHc. reflexivity.
      * constructor; [discriminate |]. constructor; [discriminate | exact IHn'].
      * constructor; [| constructor; assumption].
        intros x y [<- | []] [<- | []]. reflexivity.
Qed.

Lemma group_adj_concat (l : list A) : concat (group_adj key l) = l.
Proof. apply group_adj_spec. Qed.

Lemma group_adj_in (l : list A) (g : list A) (x : A) :
  In g (group_adj key l) -> In x g -> In x l.
Proof.
  intros Hg Hx. rewrite <- (group_adj_concat l).
  apply in_concat. exists g. split; assumption.
Qed.

Lemma group_adj_hd (l : list A) (g : list A) (d : A) :
  In g (group_adj key l) -> In (hd d g) g.
Proof.
  intros Hg. destruct (group_adj_spec l) as [_ [Hn _]].
  rewrite Forall_forall in Hn. specialize (Hn g Hg).
  destruct g; [contradiction | left; reflexivity].
Qed.

End Groups.

Lemma StronglySorted_app_inv {A : Type} (R : A -> A -> Prop) (l1 l2 : list A) :
  StronglySorted R (l1 ++ l2) -> StronglySorted R l1 /\ StronglySorted R l2.
Proof.
  induction l1 as [|a l1 IH]; simpl; intros H; [split; [constructor | exact H] |].
  inversion H as [|? ? Hs Ha]; subst. destruct (IH Hs) as [H1 H2].
  split; [| exact H2]. constructor; [exact H1 |].
  apply Forall_app in Ha. apply Ha.
Qed.

Lemma StronglySorted_concat_in {A : Type} (R : A -> A -> Prop)
      (gs : list (list A)) (g : list A) :
  StronglySorted R (concat gs) -> In g gs -> StronglySorted R g.
Proof.
  induction gs as [|h gs IH]; intros Hs Hg; [contradiction |].
  simpl in Hs. apply StronglySorted_app_inv in Hs. destruct Hs as [Hh Hgs].
  destruct Hg as [<- | Hg]; [exact Hh | apply IH; assumption].
Qed.

Lemma StronglySorted_filter {A : Type} (R : A -> A -> Prop) (P : A -> bool)
      (l : list A) :
  StronglySorted R l -> StronglySorted R (filter P l).
Proof.
  induction 1 as [|a l Hl IH Ha]; simpl; [constructor |].
  destruct (P a); [| exact IH]. constructor; [exact IH |].
  rewrite Forall_forall in *. intros x Hx. apply filter_In in Hx. apply Ha, Hx.
Qed.

Lemma strictly_sorted_NoDup {A : Type} (key : A -> list Z) (l : list A) :
  StronglySorted (key_lt key) l -> NoDup l.
Proof.
  induction 1 as [|a l Hl IH Ha]; constructor; [| exact IH].
  intros Hin. rewrite Forall_forall in Ha. destruct (Ha a Hin) as [_ H].
  apply H. reflexivity.
Qed.

(* ------------------------------------------------------------------ *)
(** ** The rows of one coordinate                                       *)
(* ------------------------------------------------------------------ *)

Lemma row_le_same_coord (r r' : row4) :
  coord_key r = coord_key r' -> key_le row_key r r' ->
  r_src r < r_src r' \/ (r_src r = r_src r' /\ r_label r <= r_label r').
Proof.
  destruct r as [[[i j] v] s], r' as [[[i' j'] v'] s'].
  unfold coord_key, key_le, row_key, r_i, r_j, r_src, r_label. simpl.
  intros H. injection H as -> ->. rewrite !Z.ltb_irrefl.
  destruct (Z.ltb_spec s s'), (Z.ltb_spec s' s); try lia; try discriminate.
  destruct (Z.ltb_spec v v'), (Z.ltb_spec v' v); try lia; try discriminate.
Qed.

Lemma row_of_parts (r r' : row4) :
  coord_key r = coord_key r' -> r_src r = r_src r' -> r_label r = r_label r' ->
  r = r'.
Proof.
  destruct r as [[[i j] v] s], r' as [[[i' j'] v'] s'].
  unfold coord_key, r_i, r_j, r_src, r_label. simpl.
  intros H -> ->. injection H as -> ->. reflexivity.
Qed.

Lemma filter_all {A : Type} (P : A -> bool) (l : list A) :
  (forall x, In x l -> P x = true) -> filter P l = l.
Proof.
  induction l as [|x l IH]; intros H; [reflexivity |].
  simpl. rewrite (H x (or_introl eq_refl)). f_equal. apply IH.
  intros y Hy. apply H. right. exact Hy.
Qed.

Lemma count_test_as_length (g : list row4) :
  Forall src01 g -> count_test g = Z.of_nat (length (test_rows g)).
Proof.
  unfold count_test, test_rows.
  induction 1 as [|r g' Hr Hg' IH]; [reflexivity |].
  simpl map. rewrite zsum_cons, IH. simpl filter.
  destruct Hr as [E | E]; rewrite E.
  - change (0 =? 1) with false. cbv iota. lia.
  - change (1 =? 1) with true. cbv iota. cbn [length]. lia.
Qed.

Section OneGroup.

Variable g : list row4.
Hypothesis Hsorted : StronglySorted (key_lt row_key) g.
Hypothesis Hcoord : forall x y, In x g -> In y g -> coord_key x = coord_key y.
Hypothesis Hsrc : Forall src01 g.

(** The ground-truth rows come first, the test rows after them. *)
Lemma group_split : g = gt_rows g ++ test_rows g.
Proof.
  unfold gt_rows, test_rows.
  induction Hsorted as [|r g' Hs IH Hr]; [reflexivity |].
  inversion Hsrc as [|? ? Hr01 Hsrc']; subst.
  assert (Hcoord' : forall x y, In x g' -> In y g' -> coord_key x = coord_key y).
  { intros x y Hx Hy. apply Hcoord; right; assumption. }
  simpl. destruct Hr01 as [E | E]; rewrite E; simpl.
  - f_equal. apply IH; assumption.
  - assert (Hall : forall x, In x g' -> r_src x = 1).
    { intros x Hx. rewrite Forall_forall in Hr, Hsrc'.
      destruct (Hr x Hx) as [Hle _].
      apply row_le_same_coord in Hle;
        [| apply Hcoord; [left; reflexivity | right; exact Hx]].
      destruct (Hsrc' x Hx); lia. }
    rewrite filter_none, filter_all; [reflexivity | |].
    + intros x Hx. rewrite (Hall x Hx). reflexivity.
    + intros x Hx. rewrite (Hall x Hx). reflexivity.
Qed.

Lemma count_test_rows : count_test g = Z.of_nat (length (test_rows g)).
Proof. apply count_test_as_length. exact Hsrc. Qed.

Lemma count_gt_rows : count_gt g = Z.of_nat (length (gt_rows g)).
Proof.
  unfold count_gt. rewrite count_test_rows.
  rewrite group_split at 1. rewrite length_app. lia.
Qed.

Lemma labels_of_source_nodup (s : Z) :
  NoDup (map r_label (filter (fun r => r_src r =? s) g)).
Proof.
  apply NoDup_map_NoDup_ForallPairs.
  - intros x y Hx Hy Hxy. apply filter_In in Hx, Hy.
    destruct Hx as [Hx Hsx], Hy as [Hy Hsy].
    apply Z.eqb_eq in Hsx, Hsy.
    apply row_of_parts; [apply Hcoord; assumption | congruence | exact Hxy].
  - apply NoDup_filter. eapply strictly_sorted_NoDup. exact Hsorted.
Qed.

Lemma group_first_labels :
  firstn (Z.to_nat (count_gt g)) (map r_label g) = map r_label (gt_rows g).
Proof.
  rewrite count_gt_rows, Nat2Z.id. rewrite group_split at 2.
  rewrite map_app, <- (length_map r_label (gt_rows g)).
  rewrite firstn_app, Nat.sub_diag, firstn_all. simpl. apply app_nil_r.
Qed.

Lemma group_second_labels :
  skipn (Z.to_nat (count_gt g)) (map r_label g) = map r_label (test_rows g).
Proof.
  rewrite count_gt_rows, Nat2Z.id. rewrite group_split at 2.
  rewrite map_app, <- (length_map r_label (gt_rows g)).
  rewrite skipn_app, Nat.sub_diag, skipn_all. reflexivity.
Qed.

End OneGroup.

(* ------------------------------------------------------------------ *)
(** ** From the rows to the classes                                     *)
(* ------------------------------------------------------------------ *)

Lemma unified_src01 (g t : list triple) : Forall src01 (unified g t).
Proof.
  apply Forall_forall. intros x Hx. apply unified_in in Hx.
  unfold src01, r_src. destruct Hx as [[_ H] | [_ H]]; auto.
Qed.

Lemma canonical_sorted (u : list row4) :
  StronglySorted (key_lt row_key) (uniq row_key (sort_by row_key u)).
Proof. apply (uniq_sorted row_key row_key_inj), sort_by_sorted. Qed.

Lemma canonical_in (u : list row4) (x : row4) :
  In x (uniq row_key (sort_by row_key u)) <-> In x u.
Proof.
  rewrite (uniq_in row_key row_key_inj) by apply sort_by_sorted.
  split; intros H.
  - apply (Permutation_in _ (sort_by_perm row_key u)). exact H.
  - apply (Permutation_in _ (Permutation_sym (sort_by_perm row_key u))). exact H.
Qed.

(** The groups of the sorted listing: one per coordinate, strictly
    sorted by source and label. *)
Lemma canonical_group (u : list row4) (grp : list row4) :
  Forall src01 u ->
  In grp (group_adj coord_key (uniq row_key (sort_by row_key u))) ->
  StronglySorted (key_lt row_key) grp
  /\ (forall x y, In x grp -> In y grp -> coord_key x = coord_key y)
  /\ Forall src01 grp.
Proof.
  intros Hsrc Hin.
  set (U := uniq row_key (sort_by row_key u)) in *.
  destruct (group_adj_spec coord_key U) as [Hc [_ Hk]].
  split; [| split].
  - apply (StronglySorted_concat_in _ (group_adj coord_key U)); [| exact Hin].
    rewrite Hc. apply canonical_sorted.
  - rewrite Forall_forall in Hk. apply Hk. exact Hin.
  - apply Forall_forall. intros x Hx.
    rewrite Forall_forall in Hsrc. apply Hsrc.
    apply canonical_in. eapply group_adj_in; eassumption.
Qed.

Lemma bucket_classes_sound (groups : list (list row4)) (i j : Z) (cls : class) :
  In cls (bucket_classes groups i j) ->
  exists grp,
    In grp groups /\ count_test grp = i /\ count_gt grp = j
    /\ c_first cls = firstn (Z.to_nat j) (map r_label grp)
    /\ c_second cls = skipn (Z.to_nat j) (map r_label grp)
    /\ 1 <= c_count cls.
Proof.
  unfold bucket_classes. intros H. apply in_map_iff in H.
  destruct H as [g' [<- Hg']].
  pose proof (group_adj_hd (fun r : list Z => r) _ g' [] Hg') as Hhd.
  pose proof (group_adj_in (fun r : list Z => r) _ g' _ Hg' Hhd) as Hin.
  apply (Permutation_in _ (sort_by_perm (@rev Z) _)) in Hin.
  apply in_map_iff in Hin. destruct Hin as [grp [Hrow Hgrp]].
  apply filter_In in Hgrp. destruct Hgrp as [Hgrp Hcnt].
  apply andb_true_iff in Hcnt. destruct Hcnt as [Hi Hj].
  apply Z.eqb_eq in Hi, Hj.
  exists grp. unfold c_first, c_second, c_count. simpl.
  rewrite <- Hrow. repeat split; try assumption; try reflexivity.
  destruct g'; [contradiction | simpl length; lia].
Qed.

Lemma classes_of_groups_sound (groups : list (list row4)) (cls : class) :
  In cls (classes_of_groups groups) ->
  exists grp,
    In grp groups
    /\ c_first cls = firstn (Z.to_nat (count_gt grp)) (map r_label grp)
    /\ c_second cls = skipn (Z.to_nat (count_gt grp)) (map r_label grp)
    /\ 1 <= c_count cls.
Proof.
  unfold classes_of_groups. intros H.
  apply in_flat_map in H. destruct H as [i [_ H]].
  apply in_flat_map in H. destruct H as [j [_ H]].
  apply bucket_classes_sound in H.
  destruct H as [grp [Hg [_ [Hj [H1 [H2 H3]]]]]].
  exists grp. rewrite Hj. auto.
Qed.

Lemma classes_of_rows_inv (u : list row4) (labels : list class) :
  classes_of_rows u = Ok labels ->
  labels = classes_of_groups
             (group_adj coord_key (uniq row_key (sort_by row_key u))).
Proof.
  unfold classes_of_rows. rewrite unique_rows_uniq.
  destruct (sort_by row_key u); [discriminate |].
  intros H. injection H as <-. reflexivity.
Qed.

(** In every entry of [labels] the first tuple lists the ground-truth
    labels of a coordinate and the second its test labels, no label
    twice. *)
Lemma classes_of_rows_roles (u : list row4) (labels : list class) (cls : class) :
  Forall src01 u -> classes_of_rows u = Ok labels -> In cls labels ->
  exists grp,
    In grp (group_adj coord_key (uniq row_key (sort_by row_key u)))
    /\ c_first cls = map r_label (gt_rows grp)
    /\ c_second cls = map r_label (test_rows grp)
    /\ 1 <= c_count cls.
Proof.
  intros Hsrc Hcls Hin. apply classes_of_rows_inv in Hcls. subst labels.
  apply classes_of_groups_sound in Hin.
  destruct Hin as [grp [Hg [H1 [H2 H3]]]].
  destruct (canonical_group u grp Hsrc Hg) as [Hs [Hc H01]].
  exists grp. split; [exact Hg |].
  rewrite H1, H2, (group_first_labels grp Hs Hc H01),
    (group_second_labels grp Hs Hc H01). auto.
Qed.

Lemma classes_of_rows_ok (u : list row4) (labels : list class) :
  Forall src01 u -> classes_of_rows u = Ok labels -> Forall class_ok labels.
Proof.
  intros Hsrc Hcls. apply Forall_forall. intros cls Hin.
  destruct (classes_of_rows_roles u labels cls Hsrc Hcls Hin)
    as [grp [Hg [H1 [H2 H3]]]].
  destruct (canonical_group u grp Hsrc Hg) as [Hs [Hc H01]].
  unfold class_ok. rewrite H1, H2. repeat split; try exact H3.
  - apply (labels_of_source_nodup grp Hs Hc 0).
  - apply (labels_of_source_nodup grp Hs Hc 1).
Qed.

Lemma ijv_classes_ok (gt_ijv test_ijv : list triple) (mask : grid bool)
      (labels : list class) :
  ijv_classes gt_ijv test_ijv mask = Ok labels -> Forall class_ok labels.
Proof.
  rewrite ijv_classes_unfold.
  destruct (with_background gt_ijv mask) as [g | e]; [| discriminate].
  destruct (with_background test_ijv mask) as [t | e]; [| discriminate].
  cbn [bind]. apply classes_of_rows_ok, unified_src01.
Qed.

(* ------------------------------------------------------------------ *)
(** ** The table of lines 659-673                                       *)
(* ------------------------------------------------------------------ *)

Lemma add_pairs_app (ps qs : list (class * class * Z)) (tbl : grid Z) :
  add_pairs (ps ++ qs) tbl = (t <- add_pairs ps tbl ;; add_pairs qs t).
Proof.
  revert tbl. induction ps as [|p ps IH]; intros tbl; [reflexivity |].
  simpl. destruct (tbl_add tbl (hits_gt p) (hits_test p) (snd p));
    [apply IH | reflexivity].
Qed.

Lemma tbl_cross_pairs (c1 : class) (rest : list class) (tbl : grid Z) :
  tbl_cross c1 rest tbl
  = add_pairs (map (fun c2 => (c1, c2, class_size c1 * class_size c2)) rest) tbl.
Proof.
  revert tbl. induction rest as [|c2 rest IH]; intros tbl; [reflexivity |].
  simpl. unfold hits_gt, hits_test, class_gt, class_test, class_size. simpl.
  destruct (tbl_add tbl _ _ _); [apply IH | reflexivity].
Qed.

(** The double loop visits the class pairs one after the other. *)
Lemma tbl_loop_pairs (labels : list class) (tbl : grid Z) :
  tbl_loop labels tbl = add_pairs (class_pairs labels) tbl.
Proof.
  revert tbl. induction labels as [|c1 rest IH]; intros tbl; [reflexivity |].
  simpl tbl_loop. simpl class_pairs. cbn [add_pairs].
  unfold hits_gt at 1, hits_test at 1, class_gt, class_test. simpl fst. simpl snd.
  unfold choose2, class_size.
  destruct (tbl_add tbl _ _ _) as [t | e]; [| reflexivity].
  cbn [bind]. rewrite add_pairs_app, tbl_cross_pairs.
  destruct (add_pairs _ t) as [t' | e]; [apply IH | reflexivity].
Qed.

Lemma length_tab (rows cols : nat) (f : nat -> nat -> Z) :
  length (tab rows cols f) = rows.
Proof. unfold tab. rewrite length_map, length_seq. reflexivity. Qed.

Lemma length_hd_tab (rows cols : nat) (f : nat -> nat -> Z) :
  length (hd [] (tab (S rows) cols f)) = cols.
Proof. unfold tab. simpl. rewrite length_map, length_seq. reflexivity. Qed.

Lemma tbl_add_tab (rows cols : nat) (f : nat -> nat -> Z) (r c : nat) (v : Z) :
  (r < rows)%nat -> (c < cols)%nat ->
  tbl_add (tab rows cols f) r c v
  = Ok (tab rows cols (fun i j => if (i =? r)%nat && (j =? c)%nat
                                  then f i j + v else f i j)).
Proof.
  intros Hr Hc. unfold tbl_add. rewrite length_tab.
  destruct rows as [|rows]; [lia |]. rewrite length_hd_tab.
  apply Nat.ltb_lt in Hr, Hc. rewrite Hr, Hc. simpl. rewrite madd_tab.
  reflexivity.
Qed.

Lemma bucket_cons (p : class * class * Z) (ps : list (class * class * Z))
      (a b : nat) :
  bucket (p :: ps) a b
  = (if (hits_gt p =? a)%nat && (hits_test p =? b)%nat then snd p else 0)
    + bucket ps a b.
Proof. reflexivity. Qed.

(** Starting from the table of [f], the accumulation ends with [f] plus
    the buckets of the pairs, when every pair of hits is a cell of the
    table. *)
Lemma add_pairs_tab (ps : list (class * class * Z)) (rows cols : nat)
      (f : nat -> nat -> Z) :
  Forall (fun p => (hits_gt p < rows)%nat /\ (hits_test p < cols)%nat) ps ->
  add_pairs ps (tab rows cols f)
  = Ok (tab rows cols (fun a b => f a b + bucket ps a b)).
Proof.
  revert f. induction ps as [|p ps IH]; intros f Hin.
  - simpl. f_equal. apply tab_ext. intros. unfold bucket. simpl. lia.
  - inversion Hin as [|? ? [Hr Hc] Hin']; subst.
    simpl add_pairs. rewrite tbl_add_tab by assumption. cbn [bind].
    rewrite IH by exact Hin'. f_equal. apply tab_ext. intros a b _ _.
    rewrite bucket_cons.
    rewrite (Nat.eqb_sym a), (Nat.eqb_sym b).
    destruct ((hits_gt p =? a)%nat && (hits_test p =? b)%nat); lia.
Qed.

(* ------------------------------------------------------------------ *)
(** ** Hits and tuple lengths                                           *)
(* ------------------------------------------------------------------ *)

Lemma nhits_cons (x : Z) (a b : list Z) :
  nhits (x :: a) b = (occurrences b x + nhits a b)%nat.
Proof.
  unfold nhits, occurrences. simpl list_prod.
  rewrite filter_app, length_app. f_equal.
  induction b as [|y b IH]; [reflexivity |].
  simpl. destruct (x =? y); simpl; rewrite IH; reflexivity.
Qed.

Lemma occurrences_NoDup (b : list Z) (x : Z) :
  NoDup b -> (occurrences b x <= 1)%nat.
Proof.
  unfold occurrences. induction 1 as [|y b Hy Hb IH]; [simpl; lia |].
  simpl. destruct (Z.eqb_spec x y) as [-> | Hne]; [| exact IH].
  rewrite filter_none; [simpl; lia |].
  intros z Hz. destruct (Z.eqb_spec y z); [subst; contradiction | reflexivity].
Qed.

Lemma occurrences_In (b : list Z) (x : Z) : In x b -> (1 <= occurrences b x)%nat.
Proof.
  unfold occurrences. induction b as [|y b IH]; [contradiction |].
  intros [-> | Hin]; simpl.
  - rewrite Z.eqb_refl. simpl. lia.
  - destruct (x =? y); [simpl; lia | apply IH; exact Hin].
Qed.

Lemma nhits_le (a b : list Z) : NoDup b -> (nhits a b <= length a)%nat.
Proof.
  intros Hb. induction a as [|x a IH]; [reflexivity |].
  rewrite nhits_cons. pose proof (occurrences_NoDup b x Hb). simpl. lia.
Qed.

Lemma nhits_ge (a b : list Z) :
  (forall x, In x a -> In x b) -> (length a <= nhits a b)%nat.
Proof.
  induction a as [|x a IH]; intros H; [simpl; lia |].
  rewrite nhits_cons.
  pose proof (occurrences_In b x (H x (or_introl eq_refl))).
  assert (length a <= nhits a b)%nat by (apply IH; intros; apply H; right; assumption).
  simpl. lia.
Qed.

Lemma nhits_self (a : list Z) : NoDup a -> nhits a a = length a.
Proof.
  intros H. apply Nat.le_antisymm; [apply nhits_le; exact H |].
  apply nhits_ge. auto.
Qed.

Lemma fold_left_max_ge (l : list nat) (a : nat) :
  (a <= fold_left Nat.max l a)%nat
  /\ Forall (fun x => (x <= fold_left Nat.max l a)%nat) l.
Proof.
  revert a. induction l as [|x l IH]; intros a; [split; [simpl; lia | constructor] |].
  simpl. destruct (IH (Nat.max a x)) as [H1 H2].
  split; [lia |]. constructor; [lia | exact H2].
Qed.

Lemma fold_left_max_le (l : list nat) (a m : nat) :
  (a <= m)%nat -> Forall (fun x => (x <= m)%nat) l ->
  (fold_left Nat.max l a <= m)%nat.
Proof.
  revert a. induction l as [|x l IH]; intros a Ha Hl; [exact Ha |].
  inversion Hl; subst. simpl. apply IH; [lia | assumption].
Qed.

Lemma max_len_ge (l : list (list Z)) (t : list Z) :
  In t l -> (length t <= max_len l)%nat.
Proof.
  intros Hin. unfold max_len.
  destruct (fold_left_max_ge (map (@length Z) l) 0) as [_ H].
  rewrite Forall_forall in H. apply H. apply in_map. exact Hin.
Qed.

Lemma max_len_le (l : list (list Z)) (m : nat) :
  (forall t, In t l -> (length t <= m)%nat) -> (max_len l <= m)%nat.
Proof.
  intros H. unfold max_len. apply fold_left_max_le; [lia |].
  apply Forall_forall. intros x Hx. apply in_map_iff in Hx.
  destruct Hx as [t [<- Ht]]. apply H. exact Ht.
Qed.

Lemma fold_right_max_ge (l : list nat) (x : nat) :
  In x l -> (x <= fold_right Nat.max O l)%nat.
Proof.
  induction l as [|y l IH]; [contradiction |].
  intros [-> | Hin]; simpl; [lia |]. specialize (IH Hin). lia.
Qed.

Lemma fold_right_max_le (l : list nat) (m : nat) :
  (forall x, In x l -> (x <= m)%nat) -> (fold_right Nat.max O l <= m)%nat.
Proof.
  induction l as [|y l IH]; intros H; simpl; [lia |].
  assert (y <= m)%nat by (apply H; left; reflexivity).
  assert (fold_right Nat.max O l <= m)%nat by (apply IH; intros; apply H; right; assumption).
  lia.
Qed.

Lemma class_pairs_members (labels : list class) (p : class * class * Z) :
  In p (class_pairs labels) ->
  In (fst (fst p)) labels /\ In (snd (fst p)) labels.
Proof.
  induction labels as [|c1 rest IH]; [contradiction |].
  simpl. intros [<- | H]; [simpl; auto |].
  apply in_app_or in H. destruct H as [H | H].
  - apply in_map_iff in H. destruct H as [c2 [<- Hc2]]. simpl. auto.
  - destruct (IH H). auto.
Qed.

Lemma class_pairs_self (labels : list class) (c : class) :
  In c labels -> In (c, c, choose2 (class_size c)) (class_pairs labels).
Proof.
  induction labels as [|c1 rest IH]; [contradiction |].
  intros [-> | H]; simpl; [left; reflexivity |].
  right. apply in_or_app. right. apply IH. exact H.
Qed.

Section ObservedHits.

Variable labels : list class.
Hypothesis Hok : Forall class_ok labels.

Lemma hits_gt_bound (p : class * class * Z) :
  In p (class_pairs labels) ->
  (hits_gt p <= max_len (map c_first labels))%nat.
Proof.
  intros Hp. destruct (class_pairs_members labels p Hp) as [H1 H2].
  rewrite Forall_forall in Hok. destruct (Hok _ H2) as [Hnd _].
  unfold hits_gt, class_gt.
  eapply Nat.le_trans; [apply nhits_le; exact Hnd |].
  apply max_len_ge. apply in_map. exact H1.
Qed.

Lemma hits_test_bound (p : class * class * Z) :
  In p (class_pairs labels) ->
  (hits_test p <= max_len (map c_second labels))%nat.
Proof.
  intros Hp. destruct (class_pairs_members labels p Hp) as [H1 H2].
  rewrite Forall_forall in Hok. destruct (Hok _ H2) as [_ [Hnd _]].
  unfold hits_test, class_test.
  eapply Nat.le_trans; [apply nhits_le; exact Hnd |].
  apply max_len_ge. apply in_map. exact H1.
Qed.

(** The largest number of shared labels seen over the class pairs is the
    length of the longest tuple: a class shares all its labels with
    itself. *)
Lemma max_observed_gt : max_observed hits_gt labels = max_len (map c_first labels).
Proof.
  unfold max_observed. apply Nat.le_antisymm.
  - apply fold_right_max_le. intros x Hx. apply in_map_iff in Hx.
    destruct Hx as [p [<- Hp]]. apply hits_gt_bound. exact Hp.
  - apply max_len_le. intros t Ht. apply in_map_iff in Ht.
    destruct Ht as [c [<- Hc]].
    rewrite Forall_forall in Hok. destruct (Hok _ Hc) as [Hnd _].
    rewrite <- (nhits_self (c_first c) Hnd).
    apply fold_right_max_ge.
    change (nhits (c_first c) (c_first c))
      with (hits_gt (c, c, choose2 (class_size c))).
    apply in_map. apply class_pairs_self. exact Hc.
Qed.

Lemma max_observed_test :
  max_observed hits_test labels = max_len (map c_second labels).
Proof.
  unfold max_observed. apply Nat.le_antisymm.
  - apply fold_right_max_le. intros x Hx. apply in_map_iff in Hx.
    destruct Hx as [p [<- Hp]]. apply hits_test_bound. exact Hp.
  - apply max_len_le. intros t Ht. apply in_map_iff in Ht.
    destruct Ht as [c [<- Hc]].
    rewrite Forall_forall in Hok. destruct (Hok _ Hc) as [_ [Hnd _]].
    rewrite <- (nhits_self (c_second c) Hnd).
    apply fold_right_max_ge.
    change (nhits (c_second c) (c_second c))
      with (hits_test (c, c, choose2 (class_size c))).
    apply in_map. apply class_pairs_self. exact Hc.
Qed.

(** The table never receives an index outside its shape. *)
Lemma omega_table_tab :
  omega_table labels
  = Ok (tab (S (max_len (map c_first labels))) (S (max_len (map c_second labels)))
            (fun a b => bucket (class_pairs labels) a b)).
Proof.
  unfold omega_table. rewrite tbl_loop_pairs, zeros_tab, add_pairs_tab.
  - reflexivity.
  - apply Forall_forall. intros p Hp.
    pose proof (hits_gt_bound p Hp). pose proof (hits_test_bound p Hp). lia.
Qed.

End ObservedHits.

(* ------------------------------------------------------------------ *)
(** ** The indices of lines 675-690                                     *)
(* ------------------------------------------------------------------ *)

Lemma nth_map_seq {B : Type} (g : nat -> B) (a n i : nat) (d : B) :
  (i < n)%nat -> nth i (map g (seq a n)) d = g (a + i)%nat.
Proof.
  revert a i. induction n as [|n IH]; intros a i Hi; [lia |].
  destruct i as [|i]; simpl.
  - rewrite Nat.add_0_r. reflexivity.
  - rewrite IH by lia. f_equal. lia.
Qed.

Lemma combine_seq_map {B : Type} (g : nat -> B) (a n : nat) :
  combine (seq a n) (map g (seq a n)) = map (fun i => (i, g i)) (seq a n).
Proof.
  revert a. induction n as [|n IH]; intros a; [reflexivity |].
  simpl. rewrite IH. reflexivity.
Qed.

Lemma firstn_seq_le (k a n : nat) :
  (k <= n)%nat -> firstn k (seq a n) = seq a k.
Proof.
  revert a n. induction k as [|k IH]; intros a n H; [reflexivity |].
  destruct n as [|n]; [lia |]. simpl. f_equal. apply IH. lia.
Qed.

Lemma block_of_tab (rows cols k : nat) (f : nat -> nat -> Z) :
  (k <= rows)%nat -> (k <= cols)%nat ->
  map (firstn k) (firstn k (tab rows cols f)) = tab k k f.
Proof.
  intros Hr Hc. unfold tab.
  rewrite firstn_map, firstn_seq_le, map_map by exact Hr.
  apply map_ext. intros i.
  rewrite firstn_map, firstn_seq_le by exact Hc. reflexivity.
Qed.

Lemma diag_sum_tab (k : nat) (f : nat -> nat -> Z) :
  diag_sum (tab k k f) = sum_upto k (fun i => f i i).
Proof.
  unfold diag_sum, indexed. rewrite length_tab. unfold tab.
  rewrite combine_seq_map, map_map. unfold sum_upto. f_equal.
  apply map_ext_in. intros i Hi. apply in_seq in Hi. simpl.
  rewrite nth_map_seq by lia. reflexivity.
Qed.

Lemma omega_indices_tab (mt mg : nat) (f : nat -> nat -> Z) :
  omega_indices (tab (S mt) (S mg) f) mt mg
  = (let k := S (Nat.min mt mg) in
     let N := sum_upto (S mt) (fun a => sum_upto (S mg) (f a)) in
     let rand := fl_div (fl_of_Z (sum_upto k (fun i => f i i))) (fl_of_Z N) in
     let e :=
       fl_div (fl_of_Z (sum_upto k (fun i =>
                                      sum_upto k (fun r => f r i)
                                      * sum_upto k (fun c => f i c))))
              (fl_of_Z (N ^ 2)) in
     (rand, fl_div (fl_sub rand e) (fl_sub (Fin 1) e))).
Proof.
  unfold omega_indices.
  rewrite block_of_tab by lia.
  rewrite msum_tab, diag_sum_tab, col_sums_tab, row_sums_tab, zip_with_maps.
  reflexivity.
Qed.

Lemma omega_tbl_bucket (labels : list class) (ht hg : nat) :
  omega_tbl labels ht hg = bucket (class_pairs labels) hg ht.
Proof. reflexivity. Qed.

(** From the classes on, the code computes the indices of the
    specification. *)
Lemma rand_of_classes_spec (labels : list class) :
  Forall class_ok labels ->
  rand_of_classes labels
  = Ok (omega_rand_index labels, omega_adjusted_rand_index labels).
Proof.
  intros Hok. unfold rand_of_classes.
  rewrite (omega_table_tab labels Hok). cbn [bind].
  rewrite omega_indices_tab. cbv zeta.
  unfold omega_adjusted_rand_index, omega_e, omega_rand_index,
    omega_row_sum, omega_col_sum, omega_N_total, omega_min_JK.
  rewrite (max_observed_gt labels Hok), (max_observed_test labels Hok).
  rewrite (Nat.min_comm (max_len (map c_second labels))).
  rewrite (sum_upto_swap (S (max_len (map c_second labels)))).
  reflexivity.
Qed.

(* ------------------------------------------------------------------ *)
(** ** No coordinate pair                                               *)
(* ------------------------------------------------------------------ *)

Lemma sum_upto_zero_terms (n : nat) (f : nat -> Z) :
  (forall i, (i < n)%nat -> 0 <= f i) -> sum_upto n f = 0 ->
  forall i, (i < n)%nat -> f i = 0.
Proof.
  induction n as [|n IH]; intros Hpos Hsum i Hi; [lia |].
  rewrite sum_upto_S in Hsum.
  assert (0 <= f n) by (apply Hpos; lia).
  assert (0 <= sum_upto n f) by (apply sum_upto_nonneg; intros; apply Hpos; lia).
  destruct (Nat.eq_dec i n) as [-> | Hne]; [lia |].
  apply IH; [intros; apply Hpos; lia | lia | lia].
Qed.

Lemma class_pairs_nonneg (labels : list class) :
  Forall class_ok labels ->
  Forall (fun p : class * class * Z => 0 <= snd p) (class_pairs labels).
Proof.
  intros Hok. induction Hok as [|c1 rest [_ [_ H1]] Hrest IH]; [constructor |].
  simpl. constructor; [simpl; apply choose2_nonneg |].
  apply Forall_app. split; [| exact IH].
  apply Forall_forall. intros p Hp. apply in_map_iff in Hp.
  destruct Hp as [c2 [<- Hc2]]. simpl.
  rewrite Forall_forall in Hrest. destruct (Hrest c2 Hc2) as [_ [_ H2]].
  unfold class_size. nia.
Qed.

Lemma bucket_nonneg (ps : list (class * class * Z)) (a b : nat) :
  Forall (fun p : class * class * Z => 0 <= snd p) ps -> 0 <= bucket ps a b.
Proof.
  induction 1 as [|p ps Hp Hps IH]; [reflexivity |].
  rewrite bucket_cons.
  destruct ((hits_gt p =? a)%nat && (hits_test p =? b)%nat); lia.
Qed.

Lemma omega_tbl_nonneg (labels : list class) (ht hg : nat) :
  Forall class_ok labels -> 0 <= omega_tbl labels ht hg.
Proof. intros H. apply bucket_nonneg, class_pairs_nonneg, H. Qed.

Lemma omega_no_pairs (labels : list class) :
  Forall class_ok labels -> omega_N_total labels = 0 ->
  omega_rand_index labels = NaN /\ omega_adjusted_rand_index labels = NaN.
Proof.
  intros Hok HN.
  assert (Hcell : forall ht hg,
             (ht < omega_min_JK labels)%nat -> (hg < omega_min_JK labels)%nat ->
             omega_tbl labels ht hg = 0).
  { intros ht hg Ht Hg. unfold omega_min_JK in Ht, Hg.
    unfold omega_N_total in HN.
    pose proof (sum_upto_zero_terms _ _
                  (fun i _ => sum_upto_nonneg _ _
                     (fun j _ => omega_tbl_nonneg labels i j Hok)) HN ht
                  ltac:(lia)) as Hrow.
    cbv beta in Hrow.
    apply (sum_upto_zero_terms _ _
             (fun j _ => omega_tbl_nonneg labels ht j Hok) Hrow hg).
    lia. }
  assert (Hrand : omega_rand_index labels = NaN).
  { unfold omega_rand_index. apply fl_div_zero_zero; [| exact HN].
    erewrite sum_upto_ext; [apply sum_upto_zero |].
    intros i Hi. apply Hcell; exact Hi. }
  assert (He : omega_e labels = NaN).
  { unfold omega_e. apply fl_div_zero_zero; [| rewrite HN; reflexivity].
    erewrite sum_upto_ext; [apply sum_upto_zero |].
    intros i Hi. cbv beta. unfold omega_row_sum.
    erewrite (sum_upto_ext _ _ (fun _ => 0));
      [rewrite sum_upto_zero; lia |].
    intros j Hj. apply Hcell; assumption. }
  split; [exact Hrand |].
  unfold omega_adjusted_rand_index. rewrite Hrand, He. reflexivity.
Qed.


(* ------------------------------------------------------------------ *)
(** ** compute_rand_index_ijv returns                                   *)
(* ------------------------------------------------------------------ *)

Lemma np_index_ok (n : nat) (i : Z) :
  - Z.of_nat n <= i < Z.of_nat n -> exists r, np_index n i = Ok r.
Proof.
  intros H. unfold np_index.
  destruct (Z.leb_spec 0 i), (Z.ltb_spec i (Z.of_nat n)); simpl;
    try (eexists; reflexivity); try lia.
  destruct (Z.leb_spec (- Z.of_nat n) i), (Z.ltb_spec i 0); simpl;
    try (eexists; reflexivity); lia.
Qed.

Lemma clear_at_ok (bkgd : grid bool) (coords : list (Z * Z)) :
  Forall (fun p : Z * Z =>
            - Z.of_nat (length bkgd) <= fst p < Z.of_nat (length bkgd)
            /\ - Z.of_nat (length (hd [] bkgd)) <= snd p
               < Z.of_nat (length (hd [] bkgd))) coords ->
  exists b, clear_at bkgd coords = Ok b.
Proof.
  revert bkgd. induction coords as [|[i j] cs IH]; intros bkgd H.
  - eexists. reflexivity.
  - inversion H as [|? ? [Hi Hj] H']; subst. simpl in Hi, Hj.
    destruct (np_index_ok _ _ Hi) as [r Hr].
    destruct (np_index_ok _ _ Hj) as [c Hc].
    simpl. rewrite Hr, Hc. simpl. apply IH.
    destruct (grid_set_dims bkgd r c false) as [H1 H2].
    rewrite H1, H2. exact H'.
Qed.

Lemma with_background_ok (ijv : list triple) (mask : grid bool) :
  Forall (in_image mask) ijv ->
  exists bg : list (Z * Z),
    with_background ijv mask = Ok (ijv ++ map (fun p : Z * Z => (p, 0)) bg)
    /\ (ijv = [] -> bg = argwhere mask).
Proof.
  intros H. unfold with_background.
  destruct (clear_at_ok mask (map t_coord ijv)) as [b Hb].
  { apply Forall_forall. intros p Hp. apply in_map_iff in Hp.
    destruct Hp as [t [<- Ht]]. rewrite Forall_forall in H. apply (H t Ht). }
  rewrite Hb. cbn [bind]. exists (argwhere b). split; [reflexivity |].
  intros ->. simpl in Hb. injection Hb as <-. reflexivity.
Qed.

Lemma indexed_in {B : Type} (l : list B) (x : B) :
  In x l -> exists i, In (i, x) (indexed l).
Proof.
  unfold indexed. generalize 0%nat.
  induction l as [|y l IH]; intros a Hin; [contradiction |].
  destruct Hin as [-> | Hin].
  - exists a. left. reflexivity.
  - destruct (IH (S a) Hin) as [i Hi]. exists i. right. exact Hi.
Qed.

Lemma count_true_row_pos (r : list bool) : 0 < count_true_row r -> In true r.
Proof.
  unfold count_true_row. induction r as [|b r IH]; simpl; [lia |].
  destruct b; [left; reflexivity |]. intros H. right. apply IH. lia.
Qed.

Lemma count_true_row_nonneg (r : list bool) : 0 <= count_true_row r.
Proof.
  unfold count_true_row. induction r as [|b r IH]; simpl; [lia |].
  destruct b; lia.
Qed.

Lemma count_true_pos (g : grid bool) :
  0 < count_true g -> exists r, In r g /\ In true r.
Proof.
  unfold count_true. induction g as [|r g IH]; simpl; [lia |].
  intros H. destruct (Z_lt_le_dec 0 (count_true_row r)) as [Hr | Hr].
  - exists r. split; [left; reflexivity | apply count_true_row_pos; exact Hr].
  - pose proof (count_true_row_nonneg r).
    destruct IH as [r' [H1 H2]]; [lia |]. exists r'. split; [right |]; assumption.
Qed.

Lemma argwhere_nonempty (g : grid bool) : 0 < count_true g -> argwhere g <> [].
Proof.
  intros H. destruct (count_true_pos g H) as [r [Hr Ht]].
  destruct (indexed_in g r Hr) as [i Hi].
  destruct (indexed_in r true Ht) as [j Hj].
  assert (Hin : In (Z.of_nat i, Z.of_nat j) (argwhere g)).
  { unfold argwhere. apply in_concat. eexists. split.
    - apply in_map_iff. exists (i, r). split; [reflexivity | exact Hi].
    - simpl. apply in_concat. eexists. split.
      + apply in_map_iff. exists (j, true). split; [reflexivity | exact Hj].
      + simpl. left. reflexivity. }
  intros E. rewrite E in Hin. contradiction.
Qed.

Lemma classes_of_rows_total (u : list row4) :
  u <> [] -> exists labels, classes_of_rows u = Ok labels.
Proof.
  intros Hne. unfold classes_of_rows. rewrite unique_rows_uniq.
  pose proof (sort_by_perm row_key u) as Hperm.
  destruct (sort_by row_key u) as [|a s].
  - apply Permutation_nil in Hperm. contradiction.
  - eexists. reflexivity.
Qed.

Lemma ijv_classes_total (gt_ijv test_ijv : list triple) (mask : grid bool) :
  Forall (in_image mask) gt_ijv -> Forall (in_image mask) test_ijv ->
  gt_ijv <> [] \/ test_ijv <> [] \/ 0 < count_true mask ->
  exists labels g t,
    with_background gt_ijv mask = Ok g
    /\ with_background test_ijv mask = Ok t
    /\ (forall x, In x g -> In x gt_ijv \/ snd x = 0)
    /\ (forall x, In x t -> In x test_ijv \/ snd x = 0)
    /\ classes_of_rows (unified g t) = Ok labels.
Proof.
  intros Hg Ht Hne.
  destruct (with_background_ok gt_ijv mask Hg) as [bg [Hbg Hbg0]].
  destruct (with_background_ok test_ijv mask Ht) as [bt [Hbt Hbt0]].
  assert (Hu : unified (gt_ijv ++ map (fun p : Z * Z => (p, 0)) bg)
                       (test_ijv ++ map (fun p : Z * Z => (p, 0)) bt) <> []).
  { unfold unified. destruct gt_ijv as [|x gt]; [| discriminate].
    destruct test_ijv as [|y test].
    - destruct Hne as [H | [H | H]]; try congruence.
      rewrite (Hbg0 eq_refl). pose proof (argwhere_nonempty mask H).
      destruct (argwhere mask); [congruence | discriminate].
    - simpl. destruct (map (tag 0) _); discriminate. }
  destruct (classes_of_rows_total _ Hu) as [labels Hl].
  exists labels. do 2 eexists.
  split; [exact Hbg |]. split; [exact Hbt |].
  split; [| split; [| exact Hl]].
  - intros x Hx. apply in_app_or in Hx. destruct Hx as [Hx | Hx]; [auto |].
    apply in_map_iff in Hx. destruct Hx as [p [<- _]]. auto.
  - intros x Hx. apply in_app_or in Hx. destruct Hx as [Hx | Hx]; [auto |].
    apply in_map_iff in Hx. destruct Hx as [p [<- _]]. auto.
Qed.

Lemma class_labels_origin (g t : list triple) (labels : list class)
      (cls : class) :
  classes_of_rows (unified g t) = Ok labels -> In cls labels ->
  (forall v, In v (class_gt cls) -> exists p, In (p, v) g)
  /\ (forall v, In v (class_test cls) -> exists p, In (p, v) t).
Proof.
  intros Hcls Hin.
  destruct (classes_of_rows_roles _ _ _ (unified_src01 g t) Hcls Hin)
    as [grp [Hgrp [H1 [H2 _]]]].
  assert (Hrow : forall x, In x grp -> In x (unified g t)).
  { intros x Hx. apply canonical_in. eapply group_adj_in; eassumption. }
  unfold class_gt, class_test. rewrite H1, H2.
  split; intros v Hv; apply in_map_iff in Hv; destruct Hv as [x [<- Hx]];
    apply filter_In in Hx; destruct Hx as [Hx Hs]; apply Z.eqb_eq in Hs;
    apply Hrow, unified_in in Hx; unfold r_src in Hs;
    destruct Hx as [[Hx Hs'] | [Hx Hs']]; try lia;
    exists (fst (fst x)); unfold r_label;
    destruct x as [[p v] s]; exact Hx.
Qed.

(* ------------------------------------------------------------------ *)
(** ** Nothing to compare                                               *)
(* ------------------------------------------------------------------ *)

Lemma select_row_no_valid {B : Type} (r : list B) (m : list bool) :
  count_true_row m = 0 -> select_row r m = [].
Proof.
  unfold select_row, count_true_row. revert m.
  induction r as [|a r IH]; intros [|b m] H; try reflexivity.
  cbn [map] in H. rewrite zsum_cons in H.
  pose proof (count_true_row_nonneg m) as Hm. unfold count_true_row in Hm.
  destruct b; [lia |]. simpl. apply IH. lia.
Qed.

Lemma select_no_valid {B : Type} (a : grid B) (mask : grid bool) :
  count_true mask = 0 -> select a mask = [].
Proof.
  unfold select, count_true. revert mask.
  induction a as [|r a IH]; intros [|m mask] H; try reflexivity.
  cbn [map] in H. rewrite zsum_cons in H.
  pose proof (count_true_row_nonneg m).
  assert (0 <= zsum (map count_true_row mask)).
  { clear. induction mask as [|x mask IH]; simpl; [lia |].
    pose proof (count_true_row_nonneg x). lia. }
  simpl. rewrite select_row_no_valid by lia. simpl. apply IH. lia.
Qed.



(* ------------------------------------------------------------------ *)
(** ** Sorted listings cut into groups                                  *)
(* ------------------------------------------------------------------ *)

Lemma StronglySorted_app_intro {A : Type} (R : A -> A -> Prop) (l1 l2 : list A) :
  StronglySorted R l1 -> StronglySorted R l2 ->
  (forall x y, In x l1 -> In y l2 -> R x y) ->
  StronglySorted R (l1 ++ l2).
Proof.
  induction 1 as [|a l1 Hl1 IH Ha]; intros H2 Hc; [exact H2 |].
  simpl. constructor.
  - apply IH; [exact H2 |]. intros x y Hx Hy. apply Hc; [right |]; assumption.
  - apply Forall_app. split; [exact Ha |].
    apply Forall_forall. intros y Hy. apply Hc; [left; reflexivity | exact Hy].
Qed.

Lemma StronglySorted_map_in {A B : Type} (R : A -> A -> Prop)
      (R' : B -> B -> Prop) (f : A -> B) (l : list A) :
  (forall x y, In x l -> In y l -> R x y -> R' (f x) (f y)) ->
  StronglySorted R l -> StronglySorted R' (map f l).
Proof.
  intros H Hs. induction Hs as [|a l Hl IH Ha]; [constructor |].
  simpl. constructor.
  - apply IH. intros x y Hx Hy. apply H; right; assumption.
  - rewrite Forall_forall in *. intros y Hy. apply in_map_iff in Hy.
    destruct Hy as [x [<- Hx]].
    apply H; [left; reflexivity | right; exact Hx | apply Ha; exact Hx].
Qed.

Lemma StronglySorted_and {A : Type} (R1 R2 : A -> A -> Prop) (l : list A) :
  StronglySorted R1 l -> StronglySorted R2 l ->
  StronglySorted (fun x y => R1 x y /\ R2 x y) l.
Proof.
  induction 1 as [|a l Hl IH Ha]; intros H2; [constructor |].
  inversion H2 as [|? ? Hl2 Ha2]; subst. constructor; [apply IH; exact Hl2 |].
  rewrite Forall_forall in *. intros y Hy. split; [apply Ha | apply Ha2]; exact Hy.
Qed.

Lemma StronglySorted_concat_cross {A : Type} (R : A -> A -> Prop)
      (gs : list (list A)) :
  StronglySorted R (concat gs) -> StronglySorted (across R) gs.
Proof.
  induction gs as [|g gs IH]; intros H; [constructor |].
  simpl in H. pose proof (StronglySorted_app_inv _ _ _ H) as [_ Hgs].
  constructor; [apply IH; exact Hgs |].
  apply Forall_forall. intros g' Hg' x y Hx Hy.
  clear IH Hgs. induction g as [|a g IHg]; [contradiction |].
  simpl in H. inversion H as [|? ? Hs Ha]; subst.
  destruct Hx as [<- | Hx]; [| apply IHg; assumption].
  rewrite Forall_forall in Ha. apply Ha. apply in_or_app. right.
  apply in_concat. exists g'. split; assumption.
Qed.

Lemma StronglySorted_concat_intro {A : Type} (R : A -> A -> Prop)
      (gs : list (list A)) :
  Forall (StronglySorted R) gs -> StronglySorted (across R) gs ->
  StronglySorted R (concat gs).
Proof.
  induction gs as [|g gs IH]; intros Hall Hc; [constructor |].
  inversion Hall as [|? ? Hg Hgs]; subst.
  inversion Hc as [|? ? Hc' Hg']; subst.
  simpl. apply StronglySorted_app_intro; [exact Hg | apply IH; assumption |].
  intros x y Hx Hy. apply in_concat in Hy. destruct Hy as [g' [Hg'' Hy]].
  rewrite Forall_forall in Hg'. apply (Hg' g' Hg'' x y Hx Hy).
Qed.

Section GroupsOfSorted.

Context {A : Type}.
Variable key : A -> list Z.
Variable R : A -> A -> Prop.
Hypothesis convex :
  forall x y z, R x y -> R y z -> key x = key z -> key x = key y.

(** Two groups of a sorted listing have different keys. *)
Lemma groups_distinct (l : list A) :
  StronglySorted R l ->
  StronglySorted (across (fun x y => key x <> key y)) (group_adj key l).
Proof.
  induction 1 as [|a t Hs IH Ha]; [constructor |].
  simpl. pose proof (group_adj_concat key t) as Hc.
  assert (Hin : forall g y, In g (group_adj key t) -> In y g -> In y t).
  { intros g y Hg Hy. eapply group_adj_in; eassumption. }
  destruct (group_adj key t) as [|[|b g] gs] eqn:E.
  - constructor; constructor.
  - constructor; constructor.
  - inversion IH as [|? ? IHgs IHb]; subst.
    destruct (same_key key a b) eqn:Eab.
    + apply list_eqb_eq in Eab. constructor; [exact IHgs |].
      rewrite Forall_forall in *. intros g' Hg' x y Hx Hy.
      destruct Hx as [<- | Hx].
      * rewrite Eab. apply (IHb g' Hg' b y); [left; reflexivity | exact Hy].
      * apply (IHb g' Hg' x y); assumption.
    + assert (Hab : key a <> key b).
      { intros H. apply list_eqb_eq in H. unfold same_key in Eab. congruence. }
      constructor; [exact IH |].
      apply Forall_forall. intros g' Hg' x y [<- | []] Hy Hxy.
      pose proof (Hin g' y Hg' Hy) as Hyt. simpl in Hyt, Hs, Ha.
      inversion Hs as [|? ? _ Hb]; subst.
      inversion Ha as [|? ? Rab _]; subst.
      destruct Hyt as [-> | Hyt]; [contradiction |].
      rewrite Forall_forall in Hb.
      apply Hab. apply (convex a b y); [exact Rab | apply Hb; exact Hyt | exact Hxy].
Qed.

Lemma group_adj_cons (a : A) (t : list A) :
  group_adj key (a :: t)
  = match group_adj key t with
    | (b :: g) :: gs =>
        if same_key key a b then (a :: b :: g) :: gs else [a] :: (b :: g) :: gs
    | _ => [[a]]
    end.
Proof. reflexivity. Qed.

(** Cutting the concatenation of well-formed groups gives the groups
    back. *)
Lemma group_adj_of_groups (gs : list (list A)) :
  Forall (fun g => g <> []) gs ->
  Forall (fun g => forall x y, In x g -> In y g -> key x = key y) gs ->
  StronglySorted (across (fun x y => key x <> key y)) gs ->
  group_adj key (concat gs) = gs.
Proof.
  induction gs as [|g1 rest IH]; intros Hne Hk Hd; [reflexivity |].
  inversion Hne as [|? ? Hg1 Hne']; subst.
  inversion Hk as [|? ? Hk1 Hk']; subst.
  inversion Hd as [|? ? Hd' Hd1]; subst.
  specialize (IH Hne' Hk' Hd'). simpl concat.
  destruct g1 as [|a g1]; [contradiction |]. clear Hg1 Hne Hk Hd.
  revert a Hk1 Hd1. induction g1 as [|a' g1 IHg]; intros a Hk1 Hd1.
  - change ([a] ++ concat rest) with (a :: concat rest).
    rewrite group_adj_cons, IH.
    destruct rest as [|[|b g] gs']; [reflexivity | |].
    + inversion Hne'. contradiction.
    + assert (Hab : same_key key a b = false).
      { destruct (same_key key a b) eqn:E; [| reflexivity].
        apply list_eqb_eq in E. exfalso.
        rewrite Forall_forall in Hd1.
        apply (Hd1 (b :: g) (or_introl eq_refl) a b);
          [left; reflexivity | left; reflexivity | exact E]. }
      rewrite Hab. reflexivity.
  - change ((a :: a' :: g1) ++ concat rest)
      with (a :: ((a' :: g1) ++ concat rest)).
    rewrite group_adj_cons, IHg.
    + assert (Haa : same_key key a a' = true).
      { apply list_eqb_eq. apply Hk1; [left | right; left]; reflexivity. }
      rewrite Haa. reflexivity.
    + intros x y Hx Hy. apply Hk1; right; assumption.
    + rewrite Forall_forall in *. intros g' Hg' x y Hx Hy.
      apply (Hd1 g' Hg'); [right; exact Hx | exact Hy].
Qed.

End GroupsOfSorted.

(* ------------------------------------------------------------------ *)
(** ** The sorted listing after the two listings are swapped            *)
(* ------------------------------------------------------------------ *)

Lemma row_le_ckey (x y : row4) :
  key_le row_key x y -> lex_leb (ckey x) (ckey y) = true.
Proof.
  destruct x as [[[i j] v] s], y as [[[i' j'] v'] s'].
  unfold key_le, row_key, ckey, r_i, r_j, r_src, r_label. simpl.
  destruct (Z.ltb_spec j j'), (Z.ltb_spec j' j); try reflexivity; try discriminate.
  destruct (Z.ltb_spec i i'), (Z.ltb_spec i' i); try reflexivity; try discriminate.
Qed.

Lemma ckey_coord (x y : row4) : ckey x = ckey y <-> coord_key x = coord_key y.
Proof.
  unfold ckey, coord_key. split; intros H; injection H as -> ->; reflexivity.
Qed.

Lemma coord_convex (x y z : row4) :
  key_lt row_key x y -> key_lt row_key y z ->
  coord_key x = coord_key z -> coord_key x = coord_key y.
Proof.
  intros [Hxy _] [Hyz _] Hxz. apply ckey_coord. apply ckey_coord in Hxz.
  apply row_le_ckey in Hxy, Hyz. rewrite <- Hxz in Hyz.
  apply lex_leb_antisym; assumption.
Qed.

Lemma row_lt_far (x y x' y' : row4) :
  key_le row_key x y -> coord_key x <> coord_key y ->
  coord_key x' = coord_key x -> coord_key y' = coord_key y ->
  key_lt row_key x' y'.
Proof.
  destruct x as [[[i j] v] s], y as [[[i2 j2] v2] s2],
           x' as [[[i3 j3] v3] s3], y' as [[[i4 j4] v4] s4].
  unfold key_lt, key_le, row_key, coord_key, r_i, r_j, r_src, r_label. simpl.
  intros Hle Hne E1 E2. injection E1 as -> ->. injection E2 as -> ->.
  destruct (Z.ltb_spec j j2), (Z.ltb_spec j2 j); try discriminate; try lia.
  - split; [reflexivity |]. intros Ex. inversion Ex. lia.
  - assert (j = j2) by lia. subst j2.
    destruct (Z.ltb_spec i i2), (Z.ltb_spec i2 i); try discriminate; try lia.
    + split; [reflexivity |]. intros Ex. inversion Ex. lia.
    + exfalso. apply Hne. f_equal. lia.
Qed.

Lemma row_lt_near (x y : row4) :
  coord_key x = coord_key y ->
  r_src x < r_src y \/ (r_src x = r_src y /\ r_label x < r_label y) ->
  key_lt row_key x y.
Proof.
  destruct x as [[[i j] v] s], y as [[[i' j'] v'] s'].
  unfold key_lt, key_le, row_key, coord_key, r_i, r_j, r_src, r_label. simpl.
  intros Ec Hsl. injection Ec as -> ->. rewrite !Z.ltb_irrefl.
  destruct Hsl as [Hsl | [-> Hsl]].
  - destruct (Z.ltb_spec s s'); [| lia].
    split; [reflexivity |]. intros Ex. inversion Ex. lia.
  - rewrite Z.ltb_irrefl. destruct (Z.ltb_spec v v'); [| lia].
    split; [reflexivity |]. intros Ex. inversion Ex. lia.
Qed.

Lemma row_lt_same_coord (x y : row4) :
  coord_key x = coord_key y -> key_lt row_key x y ->
  r_src x < r_src y \/ (r_src x = r_src y /\ r_label x < r_label y).
Proof.
  intros Hc [Hle Hne].
  destruct (row_le_same_coord x y Hc Hle) as [H | [H1 H2]]; [left; exact H |].
  right. split; [exact H1 |].
  destruct (Z.eq_dec (r_label x) (r_label y)) as [E | E]; [| lia].
  exfalso. apply Hne. apply row_of_parts; assumption.
Qed.

Lemma flip_coord (x : row4) : coord_key (flip x) = coord_key x.
Proof. destruct x as [[[i j] v] s]. reflexivity. Qed.

Lemma flip_label (x : row4) : r_label (flip x) = r_label x.
Proof. destruct x as [[[i j] v] s]. reflexivity. Qed.

Lemma flip_src (x : row4) : r_src (flip x) = 1 - r_src x.
Proof. destruct x as [[[i j] v] s]. reflexivity. Qed.

Lemma flip_flip (x : row4) : flip (flip x) = x.
Proof.
  destruct x as [[[i j] v] s]. unfold flip. cbn [fst snd]. f_equal. lia.
Qed.

Lemma in_gt_rows (g : list row4) (x : row4) :
  In x (gt_rows g) <-> In x g /\ r_src x = 0.
Proof. unfold gt_rows. rewrite filter_In, Z.eqb_eq. reflexivity. Qed.

Lemma in_test_rows (g : list row4) (x : row4) :
  In x (test_rows g) <-> In x g /\ r_src x = 1.
Proof. unfold test_rows. rewrite filter_In, Z.eqb_eq. reflexivity. Qed.

Lemma in_swap_group (g : list row4) (x : row4) :
  Forall src01 g -> In x (swap_group g) <-> In (flip x) g.
Proof.
  intros H01. unfold swap_group. rewrite in_app_iff, !in_map_iff. split.
  - intros [[y [<- Hy]] | [y [<- Hy]]]; rewrite flip_flip;
      [apply in_test_rows in Hy | apply in_gt_rows in Hy]; apply Hy.
  - intros Hx. rewrite Forall_forall in H01.
    destruct (H01 _ Hx) as [H | H].
    + right. exists (flip x). split; [apply flip_flip |].
      apply in_gt_rows. auto.
    + left. exists (flip x). split; [apply flip_flip |].
      apply in_test_rows. auto.
Qed.

Section SwapOneGroup.

Variable g : list row4.
Hypothesis Hsorted : StronglySorted (key_lt row_key) g.
Hypothesis Hcoord : forall x y, In x g -> In y g -> coord_key x = coord_key y.
Hypothesis Hsrc : Forall src01 g.

Lemma swap_group_coord (x y : row4) :
  In x (swap_group g) -> In y (swap_group g) -> coord_key x = coord_key y.
Proof.
  intros Hx Hy. apply (in_swap_group g _ Hsrc) in Hx, Hy.
  rewrite <- (flip_coord x), <- (flip_coord y). apply Hcoord; assumption.
Qed.

Lemma swap_group_src01 : Forall src01 (swap_group g).
Proof.
  apply Forall_forall. intros x Hx. apply (in_swap_group g _ Hsrc) in Hx.
  rewrite Forall_forall in Hsrc. specialize (Hsrc _ Hx).
  unfold src01 in *. rewrite flip_src in Hsrc. lia.
Qed.

Lemma swap_group_sorted : StronglySorted (key_lt row_key) (swap_group g).
Proof.
  unfold swap_group. apply StronglySorted_app_intro.
  - apply (StronglySorted_map_in (key_lt row_key)).
    + intros x y Hx Hy Hlt. apply in_test_rows in Hx, Hy.
      destruct Hx as [Hx Sx], Hy as [Hy Sy].
      apply row_lt_near; [rewrite !flip_coord; apply Hcoord; assumption |].
      apply row_lt_same_coord in Hlt; [| apply Hcoord; assumption].
      rewrite !flip_src, !flip_label. lia.
    + apply StronglySorted_filter. exact Hsorted.
  - apply (StronglySorted_map_in (key_lt row_key)).
    + intros x y Hx Hy Hlt. apply in_gt_rows in Hx, Hy.
      destruct Hx as [Hx Sx], Hy as [Hy Sy].
      apply row_lt_near; [rewrite !flip_coord; apply Hcoord; assumption |].
      apply row_lt_same_coord in Hlt; [| apply Hcoord; assumption].
      rewrite !flip_src, !flip_label. lia.
    + apply StronglySorted_filter. exact Hsorted.
  - intros x y Hx Hy. apply in_map_iff in Hx, Hy.
    destruct Hx as [x0 [<- Hx]], Hy as [y0 [<- Hy]].
    apply in_test_rows in Hx. apply in_gt_rows in Hy.
    destruct Hx as [Hx Sx], Hy as [Hy Sy].
    apply row_lt_near; [rewrite !flip_coord; apply Hcoord; assumption |].
    rewrite !flip_src. lia.
Qed.

Lemma swap_group_gt_rows : gt_rows (swap_group g) = map flip (test_rows g).
Proof.
  unfold swap_group, gt_rows at 1. rewrite filter_app.
  rewrite filter_all, filter_none; [apply app_nil_r | |].
  - intros x Hx. apply in_map_iff in Hx. destruct Hx as [x0 [<- Hx]].
    apply in_gt_rows in Hx. rewrite flip_src. destruct Hx as [_ ->]. reflexivity.
  - intros x Hx. apply in_map_iff in Hx. destruct Hx as [x0 [<- Hx]].
    apply in_test_rows in Hx. rewrite flip_src. destruct Hx as [_ ->]. reflexivity.
Qed.

Lemma swap_group_test_rows : test_rows (swap_group g) = map flip (gt_rows g).
Proof.
  unfold swap_group, test_rows at 1. rewrite filter_app.
  rewrite filter_none, filter_all; [reflexivity | |].
  - intros x Hx. apply in_map_iff in Hx. destruct Hx as [x0 [<- Hx]].
    apply in_gt_rows in Hx. rewrite flip_src. destruct Hx as [_ ->]. reflexivity.
  - intros x Hx. apply in_map_iff in Hx. destruct Hx as [x0 [<- Hx]].
    apply in_test_rows in Hx. rewrite flip_src. destruct Hx as [_ ->]. reflexivity.
Qed.

Lemma swap_group_count_test : count_test (swap_group g) = count_gt g.
Proof.
  rewrite (count_test_as_length _ swap_group_src01), swap_group_test_rows.
  rewrite length_map. symmetry. apply count_gt_rows; assumption.
Qed.

Lemma swap_group_count_gt : count_gt (swap_group g) = count_test g.
Proof.
  rewrite (count_gt_rows _ swap_group_sorted swap_group_coord swap_group_src01).
  rewrite swap_group_gt_rows, length_map. symmetry.
  apply count_test_as_length. exact Hsrc.
Qed.

Lemma map_flip_labels (l : list row4) : map r_label (map flip l) = map r_label l.
Proof. rewrite map_map. apply map_ext. intros x. apply flip_label. Qed.

Lemma swap_group_labels :
  map r_label (swap_group g)
  = map r_label (test_rows g) ++ map r_label (gt_rows g).
Proof. unfold swap_group. rewrite map_app, !map_flip_labels. reflexivity. Qed.

Lemma group_labels :
  map r_label g = map r_label (gt_rows g) ++ map r_label (test_rows g).
Proof.
  rewrite (group_split g Hsorted Hcoord Hsrc) at 1. apply map_app.
Qed.

End SwapOneGroup.

Lemma sorted_group (U grp : list row4) :
  StronglySorted (key_lt row_key) U -> Forall src01 U ->
  In grp (group_adj coord_key U) ->
  StronglySorted (key_lt row_key) grp
  /\ (forall x y, In x grp -> In y grp -> coord_key x = coord_key y)
  /\ Forall src01 grp.
Proof.
  intros Hs Hsrc Hin.
  destruct (group_adj_spec coord_key U) as [Hc [_ Hk]].
  split; [| split].
  - apply (StronglySorted_concat_in _ (group_adj coord_key U)); [| exact Hin].
    rewrite Hc. exact Hs.
  - rewrite Forall_forall in Hk. apply Hk. exact Hin.
  - apply Forall_forall. intros x Hx.
    rewrite Forall_forall in Hsrc. apply Hsrc.
    eapply group_adj_in; eassumption.
Qed.

Section SwapListing.

Variable U : list row4.
Hypothesis Hsorted : StronglySorted (key_lt row_key) U.
Hypothesis Hsrc : Forall src01 U.

Let gs := group_adj coord_key U.

Lemma swapped_in (x : row4) :
  In x (concat (map swap_group gs)) <-> In (flip x) U.
Proof.
  rewrite in_concat. split.
  - intros [g' [Hg' Hx]]. apply in_map_iff in Hg'.
    destruct Hg' as [g [<- Hg]].
    destruct (sorted_group U g Hsorted Hsrc Hg) as [_ [_ H01]].
    apply (in_swap_group g x H01) in Hx.
    eapply group_adj_in; eassumption.
  - intros Hx. rewrite <- (group_adj_concat coord_key U) in Hx.
    apply in_concat in Hx. destruct Hx as [g [Hg Hx]].
    exists (swap_group g). split; [apply in_map; exact Hg |].
    destruct (sorted_group U g Hsorted Hsrc Hg) as [_ [_ H01]].
    apply (in_swap_group g x H01). exact Hx.
Qed.

Lemma groups_across :
  StronglySorted
    (fun g g' => across (key_lt row_key) g g'
                 /\ across (fun x y => coord_key x <> coord_key y) g g') gs.
Proof.
  apply StronglySorted_and.
  - apply StronglySorted_concat_cross. unfold gs.
    rewrite group_adj_concat. exact Hsorted.
  - apply (groups_distinct coord_key (key_lt row_key) coord_convex).
    exact Hsorted.
Qed.

Lemma swapped_across_lt :
  StronglySorted (across (key_lt row_key)) (map swap_group gs).
Proof.
  eapply StronglySorted_map_in; [| exact groups_across].
  intros g g' Hg Hg' [Hlt Hne] x y Hx Hy.
  destruct (sorted_group U g Hsorted Hsrc Hg) as [_ [_ H01]].
  destruct (sorted_group U g' Hsorted Hsrc Hg') as [_ [_ H01']].
  apply (in_swap_group g x H01) in Hx. apply (in_swap_group g' y H01') in Hy.
  apply (row_lt_far (flip x) (flip y)).
  - apply (Hlt _ _ Hx Hy).
  - apply (Hne _ _ Hx Hy).
  - symmetry. apply flip_coord.
  - symmetry. apply flip_coord.
Qed.

Lemma swapped_across_coord :
  StronglySorted (across (fun x y => coord_key x <> coord_key y))
                 (map swap_group gs).
Proof.
  eapply StronglySorted_map_in; [| exact groups_across].
  intros g g' Hg Hg' [Hlt Hne] x y Hx Hy.
  destruct (sorted_group U g Hsorted Hsrc Hg) as [_ [_ H01]].
  destruct (sorted_group U g' Hsorted Hsrc Hg') as [_ [_ H01']].
  apply (in_swap_group g x H01) in Hx. apply (in_swap_group g' y H01') in Hy.
  rewrite <- (flip_coord x), <- (flip_coord y). apply (Hne _ _ Hx Hy).
Qed.

Lemma swapped_sorted :
  StronglySorted (key_lt row_key) (concat (map swap_group gs)).
Proof.
  apply StronglySorted_concat_intro; [| exact swapped_across_lt].
  apply Forall_forall. intros g' Hg'. apply in_map_iff in Hg'.
  destruct Hg' as [g [<- Hg]].
  destruct (sorted_group U g Hsorted Hsrc Hg) as [Hs [Hc H01]].
  apply swap_group_sorted; assumption.
Qed.

Lemma swapped_groups :
  group_adj coord_key (concat (map swap_group gs)) = map swap_group gs.
Proof.
  apply group_adj_of_groups; [| | exact swapped_across_coord].
  - apply Forall_forall. intros g' Hg'. apply in_map_iff in Hg'.
    destruct Hg' as [g [<- Hg]].
    destruct (sorted_group U g Hsorted Hsrc Hg) as [_ [_ H01]].
    destruct (group_adj_spec coord_key U) as [_ [Hn _]].
    rewrite Forall_forall in Hn. specialize (Hn g Hg).
    destruct g as [|x g]; [contradiction |].
    intros E.
    assert (Hx : In (flip x) (swap_group (x :: g))).
    { apply (in_swap_group _ _ H01). rewrite flip_flip. left. reflexivity. }
    rewrite E in Hx. contradiction.
  - apply Forall_forall. intros g' Hg'. apply in_map_iff in Hg'.
    destruct Hg' as [g [<- Hg]].
    destruct (sorted_group U g Hsorted Hsrc Hg) as [_ [Hc H01]].
    apply swap_group_coord; assumption.
Qed.

End SwapListing.

Lemma unified_flip (g t : list triple) (x : row4) :
  In x (unified t g) <-> In (flip x) (unified g t).
Proof.
  rewrite !unified_in. destruct x as [tr s]. unfold flip. cbn [fst snd]. split.
  - intros [[H E] | [H E]]; [right | left]; split; try assumption; lia.
  - intros [[H E] | [H E]]; [right | left]; split; try assumption; lia.
Qed.

(** With the listings swapped, the sorted listing has the same groups,
    each with its two halves exchanged. *)
Lemma swapped_canonical_groups (g t : list triple) :
  group_adj coord_key (uniq row_key (sort_by row_key (unified t g)))
  = map swap_group
        (group_adj coord_key (uniq row_key (sort_by row_key (unified g t)))).
Proof.
  set (U := uniq row_key (sort_by row_key (unified g t))).
  pose proof (canonical_sorted (unified g t)) as Hs. fold U in Hs.
  assert (H01 : Forall src01 U).
  { apply Forall_forall. intros x Hx. unfold U in Hx.
    rewrite canonical_in in Hx.
    pose proof (unified_src01 g t) as H. rewrite Forall_forall in H.
    apply H. exact Hx. }
  rewrite <- (swapped_groups U Hs H01). f_equal.
  apply (strictly_sorted_unique row_key row_key_inj).
  - apply canonical_sorted.
  - apply swapped_sorted; assumption.
  - intros x. rewrite canonical_in, unified_flip, (swapped_in U Hs H01).
    unfold U. rewrite canonical_in. reflexivity.
Qed.

(* ------------------------------------------------------------------ *)
(** ** Runs of equal rows                                               *)
(* ------------------------------------------------------------------ *)

Lemma count_where_app {A : Type} (P : A -> bool) (l m : list A) :
  count_where P (l ++ m) = count_where P l + count_where P m.
Proof.
  unfold count_where. rewrite filter_app, length_app. lia.
Qed.

Lemma count_where_perm {A : Type} (P : A -> bool) (l m : list A) :
  Permutation l m -> count_where P l = count_where P m.
Proof.
  induction 1 as [| x l m H IH | x y l | l m n H1 IH1 H2 IH2].
  - reflexivity.
  - rewrite !count_where_cons, IH. reflexivity.
  - rewrite !count_where_cons. lia.
  - congruence.
Qed.

Lemma count_where_none {A : Type} (P : A -> bool) (l : list A) :
  (forall x, In x l -> P x = false) -> count_where P l = 0.
Proof. intros H. unfold count_where. rewrite filter_none; [reflexivity | exact H]. Qed.

Lemma count_where_all {A : Type} (P : A -> bool) (l : list A) :
  (forall x, In x l -> P x = true) -> count_where P l = Z.of_nat (length l).
Proof. intros H. unfold count_where. rewrite filter_all; [reflexivity | exact H]. Qed.

Lemma count_where_pos {A : Type} (P : A -> bool) (l : list A) (x : A) :
  In x l -> P x = true -> 1 <= count_where P l.
Proof.
  induction l as [|y l IH]; [contradiction |].
  intros [-> | Hin] HP; rewrite count_where_cons.
  - rewrite HP. pose proof (count_where_nonneg P l). lia.
  - specialize (IH Hin HP). destruct (P y); lia.
Qed.

Lemma count_where_map {A B : Type} (P : B -> bool) (f : A -> B) (l : list A) :
  count_where P (map f l) = count_where (fun x => P (f x)) l.
Proof.
  induction l as [|x l IH]; [reflexivity |].
  simpl map. rewrite !count_where_cons, IH. reflexivity.
Qed.

Lemma list_eqb_refl (a : list Z) : list_eqb a a = true.
Proof. apply list_eqb_eq. reflexivity. Qed.

Lemma list_eqb_neq (a b : list Z) : a <> b -> list_eqb a b = false.
Proof.
  intros H. destruct (list_eqb a b) eqn:E; [| reflexivity].
  apply list_eqb_eq in E. contradiction.
Qed.

Lemma rev_key_inj (x y : list Z) : rev x = rev y -> x = y.
Proof.
  intros H. rewrite <- (rev_involutive x), <- (rev_involutive y), H.
  reflexivity.
Qed.

Lemma rev_convex (x y z : list Z) :
  key_le (@rev Z) x y -> key_le (@rev Z) y z -> x = z -> x = y.
Proof.
  intros Hxy Hyz ->. apply (key_le_antisym (@rev Z) rev_key_inj); assumption.
Qed.

Section Runs.

Variable L : list (list Z).

Let S := sort_by (@rev Z) L.
Let runs := group_adj (fun r : list Z => r) S.

Lemma runs_distinct : StronglySorted (across (fun x y : list Z => x <> y)) runs.
Proof.
  apply (groups_distinct (fun r : list Z => r) (key_le (@rev Z)) rev_convex).
  apply sort_by_sorted.
Qed.

Lemma run_constant (run : list (list Z)) (x : list Z) :
  In run runs -> In x run -> x = hd [] run.
Proof.
  intros Hrun Hx.
  destruct (group_adj_spec (fun r : list Z => r) S) as [_ [_ Hk]].
  rewrite Forall_forall in Hk.
  apply (Hk run Hrun x (hd [] run) Hx).
  apply (group_adj_hd (fun r : list Z => r) S). exact Hrun.
Qed.

Lemma run_in (run : list (list Z)) : In run runs -> In (hd [] run) L.
Proof.
  intros Hrun.
  apply (Permutation_in _ (sort_by_perm (@rev Z) L)).
  apply (group_adj_in (fun r : list Z => r) S run); [exact Hrun |].
  apply (group_adj_hd (fun r : list Z => r) S). exact Hrun.
Qed.

Lemma in_some_run (x : list Z) :
  In x L -> exists run, In run runs /\ hd [] run = x.
Proof.
  intros Hx.
  apply (Permutation_in _ (Permutation_sym (sort_by_perm (@rev Z) L))) in Hx.
  fold S in Hx. rewrite <- (group_adj_concat (fun r : list Z => r) S) in Hx.
  apply in_concat in Hx. destruct Hx as [run [Hrun Hx]].
  exists run. split; [exact Hrun |]. symmetry. apply run_constant; assumption.
Qed.

Lemma count_in_runs (gs : list (list (list Z))) (run : list (list Z)) :
  StronglySorted (across (fun x y : list Z => x <> y)) gs ->
  (forall g x, In g gs -> In x g -> x = hd [] g) ->
  Forall (fun g => g <> []) gs ->
  In run gs ->
  count_where (list_eqb (hd [] run)) (concat gs) = Z.of_nat (length run).
Proof.
  induction 1 as [|g1 rest Hrest IH Hg1]; intros Hconst Hne Hin; [contradiction |].
  simpl concat. rewrite count_where_app.
  assert (Hhd : forall g, In g (g1 :: rest) -> In (hd [] g) g).
  { intros g Hg. rewrite Forall_forall in Hne. specialize (Hne g Hg).
    destruct g; [contradiction | left; reflexivity]. }
  rewrite Forall_forall in Hg1.
  assert (Hcase : In run rest \/ (run = g1 /\ ~ In run rest)).
  { destruct Hin as [<- | Hin]; [| left; exact Hin].
    destruct (in_dec (list_eq_dec (list_eq_dec Z.eq_dec)) g1 rest);
      [left | right]; auto. }
  destruct Hcase as [Hr | [-> Hr]].
  - rewrite count_where_none.
    + rewrite IH; [lia | | | exact Hr].
      * intros g x Hg Hx. apply Hconst; [right |]; assumption.
      * inversion Hne; assumption.
    + intros x Hx. apply list_eqb_neq. intros E.
      apply (Hg1 run Hr x (hd [] run) Hx); [| symmetry; exact E].
      apply Hhd. right. exact Hr.
  - rewrite count_where_all.
    + rewrite count_where_none; [lia |].
      intros x Hx. apply in_concat in Hx. destruct Hx as [g [Hg Hx]].
      apply list_eqb_neq. intros E.
      apply (Hg1 g Hg (hd [] g1) x); [| exact Hx | exact E].
      apply Hhd. left. reflexivity.
    + intros x Hx. rewrite (Hconst g1 x (or_introl eq_refl) Hx).
      apply list_eqb_refl.
Qed.

(** A run is as long as its row is frequent in the bucket. *)
Lemma run_length (run : list (list Z)) :
  In run runs ->
  Z.of_nat (length run) = count_where (list_eqb (hd [] run)) L.
Proof.
  intros Hrun.
  rewrite <- (count_where_perm _ _ _ (sort_by_perm (@rev Z) L)). fold S.
  rewrite <- (group_adj_concat (fun r : list Z => r) S). fold runs.
  symmetry. apply count_in_runs; [exact runs_distinct | | | exact Hrun].
  - intros g x Hg Hx. apply run_constant; assumption.
  - apply (group_adj_spec (fun r : list Z => r) S).
Qed.

Lemma run_heads_nodup : NoDup (map (hd []) runs).
Proof.
  pose proof runs_distinct as Hd.
  assert (Hhd : forall g, In g runs -> In (hd [] g) g).
  { intros g Hg. apply (group_adj_hd (fun r : list Z => r) S). exact Hg. }
  induction Hd as [|g1 rest Hrest IH Hg1]; [constructor |].
  simpl. constructor.
  - intros Hin. apply in_map_iff in Hin. destruct Hin as [g [E Hg]].
    rewrite Forall_forall in Hg1.
    apply (Hg1 g Hg (hd [] g1) (hd [] g)).
    + apply Hhd. left. reflexivity.
    + apply Hhd. right. exact Hg.
    + symmetry. exact E.
  - apply IH. intros g Hg. apply Hhd. right. exact Hg.
Qed.

End Runs.

(* ------------------------------------------------------------------ *)
(** ** The classes of a bucket, by their label tuples                   *)
(* ------------------------------------------------------------------ *)

Lemma firstn_app_len {A : Type} (k : nat) (p q : list A) :
  length p = k -> firstn k (p ++ q) = p.
Proof.
  intros <-. rewrite firstn_app, Nat.sub_diag, firstn_all. simpl.
  apply app_nil_r.
Qed.

Lemma skipn_app_len {A : Type} (k : nat) (p q : list A) :
  length p = k -> skipn k (p ++ q) = q.
Proof.
  intros <-. rewrite skipn_app, Nat.sub_diag, skipn_all. reflexivity.
Qed.

Lemma cell_eqb_join (k : nat) (p q : list Z) (c : list Z * list Z) :
  length p = k -> length (fst c) = k ->
  list_eqb (p ++ q) (fst c ++ snd c) = cell_eqb (p, q) c.
Proof.
  intros Hp Hc. unfold cell_eqb. cbn [fst snd].
  destruct (list_eqb (p ++ q) (fst c ++ snd c)) eqn:E.
  - apply list_eqb_eq in E.
    pose proof (f_equal (firstn k) E) as E1.
    pose proof (f_equal (skipn k) E) as E2.
    rewrite !firstn_app_len in E1 by assumption.
    rewrite !skipn_app_len in E2 by assumption.
    rewrite E1, E2, !list_eqb_refl. reflexivity.
  - destruct (list_eqb p (fst c)) eqn:E1; [| reflexivity].
    destruct (list_eqb q (snd c)) eqn:E2; [| reflexivity].
    apply list_eqb_eq in E1, E2. subst p q.
    rewrite list_eqb_refl in E. discriminate.
Qed.

Lemma class_of_run_join (k : nat) (run : list (list Z)) :
  c_first (class_of_run k run) ++ c_second (class_of_run k run) = hd [] run.
Proof. apply firstn_skipn. Qed.

Section BucketCells.

Variable k : nat.
Variable cells : list (list Z * list Z).
Hypothesis Hlen : forall c, In c cells -> length (fst c) = k.

Let join (c : list Z * list Z) : list Z := fst c ++ snd c.

Lemma classes_of_cells_nodup : NoDup (classes_of_cells k join cells).
Proof.
  unfold classes_of_cells.
  apply (NoDup_map_inv (fun c : class => c_first c ++ c_second c)).
  rewrite map_map.
  rewrite (map_ext _ (hd []) (class_of_run_join k)).
  apply run_heads_nodup.
Qed.

Lemma classes_of_cells_in (n : Z) (p q : list Z) :
  In (n, p, q) (classes_of_cells k join cells)
  <-> In (p, q) cells /\ n = count_where (cell_eqb (p, q)) cells.
Proof.
  unfold classes_of_cells.
  assert (Hcount : forall c, In c cells ->
            count_where (list_eqb (join c)) (map join cells)
            = count_where (cell_eqb c) cells).
  { intros [p0 q0] Hc. rewrite count_where_map. apply count_where_ext.
    intros c' Hc'. unfold join. cbn [fst snd].
    apply (cell_eqb_join k); [apply (Hlen _ Hc) | apply (Hlen _ Hc')]. }
  split.
  - intros Hin. apply in_map_iff in Hin. destruct Hin as [run [E Hrun]].
    pose proof (run_in _ run Hrun) as Hhd.
    apply in_map_iff in Hhd. destruct Hhd as [[p0 q0] [Ej Hc]].
    pose proof (run_length _ run Hrun) as Hl.
    unfold class_of_run in E. rewrite <- Ej in E, Hl.
    unfold join in E. cbn [fst snd] in E.
    rewrite firstn_app_len, skipn_app_len in E by apply (Hlen _ Hc).
    injection E as En Ep Eq. subst p q. split; [exact Hc |].
    rewrite <- En, Hl. apply (Hcount _ Hc).
  - intros [Hc ->].
    destruct (in_some_run (map join cells) (join (p, q))) as [run [Hrun Hhd]].
    { apply in_map. exact Hc. }
    apply in_map_iff. exists run. split; [| exact Hrun].
    unfold class_of_run. rewrite (run_length _ run Hrun), Hhd.
    rewrite (Hcount _ Hc). unfold join. cbn [fst snd].
    rewrite firstn_app_len, skipn_app_len by apply (Hlen _ Hc).
    reflexivity.
Qed.

End BucketCells.

Lemma swap_class_swap (c : class) : swap_class (swap_class c) = c.
Proof. destruct c as [[n p] q]. reflexivity. Qed.

(** Laying the two tuples out in the other order exchanges the two
    tuples of every class of the bucket, nothing else. *)
Lemma classes_of_cells_swap (i j : nat) (cells : list (list Z * list Z)) :
  (forall c, In c cells -> length (fst c) = i /\ length (snd c) = j) ->
  Permutation
    (classes_of_cells j (fun c => snd c ++ fst c) cells)
    (map swap_class (classes_of_cells i (fun c => fst c ++ snd c) cells)).
Proof.
  intros Hlen.
  set (swp := fun c : list Z * list Z => (snd c, fst c)).
  assert (E : classes_of_cells j (fun c => snd c ++ fst c) cells
              = classes_of_cells j (fun c => fst c ++ snd c) (map swp cells)).
  { unfold classes_of_cells. rewrite map_map. reflexivity. }
  rewrite E.
  assert (Hlen' : forall c, In c (map swp cells) -> length (fst c) = j).
  { intros c Hc. apply in_map_iff in Hc. destruct Hc as [c0 [<- Hc0]].
    apply (Hlen c0 Hc0). }
  assert (Hlen0 : forall c, In c cells -> length (fst c) = i).
  { intros c Hc. apply (Hlen c Hc). }
  apply NoDup_Permutation.
  - apply classes_of_cells_nodup.
  - apply (NoDup_map_inv swap_class). rewrite map_map.
    rewrite (map_ext _ (fun c => c) swap_class_swap), map_id.
    apply classes_of_cells_nodup.
  - intros [[n p] q].
    rewrite (classes_of_cells_in j (map swp cells) Hlen').
    assert (Hr : In (n, p, q)
                   (map swap_class
                      (classes_of_cells i (fun c => fst c ++ snd c) cells))
                 <-> In (n, q, p)
                        (classes_of_cells i (fun c => fst c ++ snd c) cells)).
    { rewrite in_map_iff. split.
      - intros [[[n0 p0] q0] [Ec Hc]]. unfold swap_class in Ec.
        cbn in Ec. injection Ec as -> -> ->. exact Hc.
      - intros Hc. exists (n, q, p). split; [reflexivity | exact Hc]. }
    rewrite Hr, (classes_of_cells_in i cells Hlen0).
    assert (Hin : In (p, q) (map swp cells) <-> In (q, p) cells).
    { rewrite in_map_iff. split.
      - intros [[a b] [Ec Hc]]. unfold swp in Ec. cbn in Ec.
        injection Ec as -> ->. exact Hc.
      - intros Hc. exists (q, p). split; [reflexivity | exact Hc]. }
    assert (Hcnt : count_where (cell_eqb (p, q)) (map swp cells)
                   = count_where (cell_eqb (q, p)) cells).
    { rewrite count_where_map. apply count_where_ext. intros c _.
      unfold cell_eqb, swp. cbn [fst snd]. apply andb_comm. }
    rewrite Hin, Hcnt. reflexivity.
Qed.

(* ------------------------------------------------------------------ *)
(** ** The buckets of the swapped listing                               *)
(* ------------------------------------------------------------------ *)

Lemma filter_map_comm {A B : Type} (P : B -> bool) (f : A -> B) (l : list A) :
  filter P (map f l) = map f (filter (fun x => P (f x)) l).
Proof.
  induction l as [|x l IH]; [reflexivity |].
  simpl. destruct (P (f x)); simpl; rewrite IH; reflexivity.
Qed.

Section SwapBuckets.

Variable gs : list (list row4).
Hypothesis Hgs : forall g, In g gs ->
  StronglySorted (key_lt row_key) g
  /\ (forall x y, In x g -> In y g -> coord_key x = coord_key y)
  /\ Forall src01 g.

Lemma bucket_cells (i j : Z) :
  bucket_classes gs i j
  = classes_of_cells (Z.to_nat j) (fun c => fst c ++ snd c)
      (map cell_of_group
           (filter (fun g => (count_test g =? i) && (count_gt g =? j)) gs)).
Proof.
  unfold bucket_classes, classes_of_cells. rewrite map_map.
  set (M := filter (fun g => (count_test g =? i) && (count_gt g =? j)) gs).
  assert (E : map (map r_label) M
              = map (fun g => fst (cell_of_group g) ++ snd (cell_of_group g)) M).
  { apply map_ext_in. intros g Hg.
    apply filter_In in Hg. destruct Hg as [Hg _].
    destruct (Hgs g Hg) as [Hs [Hc H01]].
    apply group_labels; assumption. }
  rewrite E. reflexivity.
Qed.

Lemma swapped_bucket_cells (i j : Z) :
  bucket_classes (map swap_group gs) i j
  = classes_of_cells (Z.to_nat j) (fun c => snd c ++ fst c)
      (map cell_of_group
           (filter (fun g => (count_test g =? j) && (count_gt g =? i)) gs)).
Proof.
  unfold bucket_classes, classes_of_cells.
  rewrite filter_map_comm, !map_map.
  assert (E : filter (fun g => (count_test (swap_group g) =? i)
                               && (count_gt (swap_group g) =? j)) gs
              = filter (fun g => (count_test g =? j) && (count_gt g =? i)) gs).
  { apply filter_ext_in. intros g Hg. destruct (Hgs g Hg) as [Hs [Hc H01]].
    rewrite (swap_group_count_test g Hs Hc H01).
    rewrite (swap_group_count_gt g Hs Hc H01). apply andb_comm. }
  rewrite E.
  set (M := filter (fun g => (count_test g =? j) && (count_gt g =? i)) gs).
  assert (E' : map (fun g => map r_label (swap_group g)) M
               = map (fun g => snd (cell_of_group g) ++ fst (cell_of_group g)) M).
  { apply map_ext. intros g. apply swap_group_labels. }
  rewrite E'. reflexivity.
Qed.

Lemma swapped_bucket (i j : Z) :
  Permutation (bucket_classes (map swap_group gs) i j)
              (map swap_class (bucket_classes gs j i)).
Proof.
  rewrite swapped_bucket_cells, bucket_cells.
  apply classes_of_cells_swap.
  intros c Hc. apply in_map_iff in Hc. destruct Hc as [g [<- Hg]].
  apply filter_In in Hg. destruct Hg as [Hg HP].
  apply andb_prop in HP. destruct HP as [Ht Hgt].
  apply Z.eqb_eq in Ht, Hgt.
  destruct (Hgs g Hg) as [Hs [Hc H01]].
  unfold cell_of_group. cbn [fst snd]. rewrite !length_map.
  rewrite <- Ht, <- Hgt.
  rewrite (count_gt_rows g Hs Hc H01), (count_test_rows g H01), !Nat2Z.id.
  split; reflexivity.
Qed.

End SwapBuckets.

(* ------------------------------------------------------------------ *)
(** ** The classes of the swapped listing                               *)
(* ------------------------------------------------------------------ *)

Lemma flat_map_perm_ext {A B : Type} (f g : A -> list B) (l : list A) :
  (forall x, In x l -> Permutation (f x) (g x)) ->
  Permutation (flat_map f l) (flat_map g l).
Proof.
  induction l as [|x l IH]; intros H; [constructor |].
  simpl. apply Permutation_app.
  - apply H. left. reflexivity.
  - apply IH. intros y Hy. apply H. right. exact Hy.
Qed.

Lemma flat_map_nil {A B : Type} (l : list A) :
  flat_map (fun _ : A => @nil B) l = [].
Proof. induction l as [|x l IH]; [reflexivity | exact IH]. Qed.

Lemma flat_map_app_perm {A B : Type} (f g : A -> list B) (l : list A) :
  Permutation (flat_map (fun x => f x ++ g x) l)
              (flat_map f l ++ flat_map g l).
Proof.
  induction l as [|x l IH]; [constructor |].
  simpl. rewrite IH. rewrite <- !app_assoc. apply Permutation_app_head.
  rewrite !app_assoc. apply Permutation_app_tail. apply Permutation_app_comm.
Qed.

Lemma flat_map_swap {A B C : Type} (f : A -> B -> list C)
      (xs : list A) (ys : list B) :
  Permutation (flat_map (fun x => flat_map (fun y => f x y) ys) xs)
              (flat_map (fun y => flat_map (fun x => f x y) xs) ys).
Proof.
  induction xs as [|x xs IH].
  - simpl. rewrite flat_map_nil. constructor.
  - simpl. rewrite IH. symmetry.
    apply (flat_map_app_perm (fun y => f x y)
                             (fun y => flat_map (fun x0 => f x0 y) xs)).
Qed.

Lemma map_flat_map {A B C : Type} (h : B -> C) (f : A -> list B) (l : list A) :
  map h (flat_map f l) = flat_map (fun x => map h (f x)) l.
Proof.
  induction l as [|x l IH]; [reflexivity |].
  simpl. rewrite map_app, IH. reflexivity.
Qed.

Section SwapClasses.

Variable gs : list (list row4).
Hypothesis Hgs : forall g, In g gs ->
  StronglySorted (key_lt row_key) g
  /\ (forall x y, In x g -> In y g -> coord_key x = coord_key y)
  /\ Forall src01 g.

Lemma swapped_counts :
  map count_gt (map swap_group gs) = map count_test gs
  /\ map count_test (map swap_group gs) = map count_gt gs.
Proof.
  rewrite !map_map. split; apply map_ext_in; intros g Hg;
    destruct (Hgs g Hg) as [Hs [Hc H01]].
  - apply swap_group_count_gt; assumption.
  - apply swap_group_count_test; assumption.
Qed.

Lemma swapped_classes :
  Permutation (classes_of_groups (map swap_group gs))
              (map swap_class (classes_of_groups gs)).
Proof.
  unfold classes_of_groups. destruct swapped_counts as [E1 E2].
  rewrite E1, E2, map_flat_map.
  set (T := range1 (zmax_list (map count_test gs))).
  set (G := range1 (zmax_list (map count_gt gs))).
  apply Permutation_trans
    with (flat_map (fun i => flat_map
                               (fun j => map swap_class (bucket_classes gs j i))
                               T) G).
  - apply flat_map_perm_ext. intros i _.
    apply flat_map_perm_ext. intros j _.
    apply swapped_bucket. exact Hgs.
  - rewrite (flat_map_swap
               (fun i j => map swap_class (bucket_classes gs j i)) G T).
    apply flat_map_perm_ext. intros j _.
    rewrite map_flat_map. reflexivity.
Qed.

End SwapClasses.

Lemma unified_empty (g t : list triple) : unified g t = [] -> unified t g = [].
Proof.
  unfold unified. intros H. apply app_eq_nil in H. destruct H as [H1 H2].
  apply map_eq_nil in H1, H2. subst. reflexivity.
Qed.

(** Exchanging the two listings exchanges the two tuples of every entry
    of [labels], up to the order of the entries. *)
Lemma classes_of_rows_swap (g t : list triple) (labels : list class) :
  classes_of_rows (unified g t) = Ok labels ->
  exists labels',
    classes_of_rows (unified t g) = Ok labels'
    /\ Permutation labels' (map swap_class labels).
Proof.
  intros H.
  assert (Hne : unified t g <> []).
  { intros E. apply unified_empty in E. rewrite E in H. discriminate. }
  destruct (classes_of_rows_total _ Hne) as [labels' H'].
  exists labels'. split; [exact H' |].
  apply classes_of_rows_inv in H. apply classes_of_rows_inv in H'.
  subst labels labels'. rewrite swapped_canonical_groups.
  apply swapped_classes. intros grp Hgrp.
  apply (canonical_group (unified g t)); [apply unified_src01 | exact Hgrp].
Qed.

(* ------------------------------------------------------------------ *)
(** ** The table of the swapped classes                                 *)
(* ------------------------------------------------------------------ *)

Lemma occurrences_cons (y : Z) (b : list Z) (x : Z) :
  occurrences (y :: b) x
  = ((if (x =? y)%Z then 1 else 0) + occurrences b x)%nat.
Proof. unfold occurrences. simpl. destruct (x =? y); reflexivity. Qed.

Lemma nhits_nil_r (a : list Z) : nhits a [] = O.
Proof.
  induction a as [|x a IH]; [reflexivity |].
  rewrite nhits_cons, IH. reflexivity.
Qed.

Lemma nhits_cons_r (x : Z) (a b : list Z) :
  nhits b (x :: a) = (occurrences b x + nhits b a)%nat.
Proof.
  induction b as [|y b IH]; [reflexivity |].
  rewrite !nhits_cons, IH, !occurrences_cons, (Z.eqb_sym y x). lia.
Qed.

Lemma nhits_comm (a b : list Z) : nhits a b = nhits b a.
Proof.
  induction a as [|x a IH].
  - rewrite nhits_nil_r. reflexivity.
  - rewrite nhits_cons, nhits_cons_r, IH. reflexivity.
Qed.

Lemma zsum_perm (l l' : list Z) : Permutation l l' -> zsum l = zsum l'.
Proof.
  induction 1 as [| x l l' H IH | x y l | l l' l'' H1 IH1 H2 IH2].
  - reflexivity.
  - rewrite !zsum_cons, IH. reflexivity.
  - rewrite !zsum_cons. lia.
  - congruence.
Qed.

Lemma bucket_app (ps qs : list (class * class * Z)) (a b : nat) :
  bucket (ps ++ qs) a b = bucket ps a b + bucket qs a b.
Proof. unfold bucket. rewrite map_app, zsum_app. reflexivity. Qed.

Lemma bucket_perm (ps qs : list (class * class * Z)) (a b : nat) :
  Permutation ps qs -> bucket ps a b = bucket qs a b.
Proof. intros H. unfold bucket. apply zsum_perm, Permutation_map, H. Qed.

Lemma class_pairs_cons (c : class) (l : list class) :
  class_pairs (c :: l)
  = (c, c, choose2 (class_size c))
      :: map (fun c2 => (c, c2, class_size c * class_size c2)) l
      ++ class_pairs l.
Proof. reflexivity. Qed.

Lemma bucket_class_pairs_perm (l l' : list class) (a b : nat) :
  Permutation l l' ->
  bucket (class_pairs l) a b = bucket (class_pairs l') a b.
Proof.
  induction 1 as [| x l l' H IH | x y l | l l' l'' H1 IH1 H2 IH2].
  - reflexivity.
  - rewrite !class_pairs_cons, !bucket_cons, !bucket_app, IH.
    rewrite (bucket_perm _ _ a b
               (Permutation_map
                  (fun c2 => (x, c2, class_size x * class_size c2)) H)).
    reflexivity.
  - rewrite !class_pairs_cons. cbn [map].
    rewrite !bucket_cons, !bucket_app, !bucket_cons, !bucket_app.
    unfold hits_gt, hits_test. cbn [fst snd].
    rewrite (nhits_comm (class_gt y) (class_gt x)).
    rewrite (nhits_comm (class_test y) (class_test x)).
    rewrite (Z.mul_comm (class_size y) (class_size x)). lia.
  - congruence.
Qed.

Lemma class_pairs_swap (l : list class) :
  class_pairs (map swap_class l)
  = map (fun p : class * class * Z =>
           (swap_class (fst (fst p)), swap_class (snd (fst p)), snd p))
        (class_pairs l).
Proof.
  induction l as [|c l IH]; [reflexivity |].
  cbn [map]. rewrite !class_pairs_cons, IH. cbn [map fst snd].
  rewrite map_app, !map_map. reflexivity.
Qed.

Lemma bucket_swap (ps : list (class * class * Z)) (a b : nat) :
  bucket (map (fun p : class * class * Z =>
                 (swap_class (fst (fst p)), swap_class (snd (fst p)), snd p))
              ps) a b
  = bucket ps b a.
Proof.
  induction ps as [|p ps IH]; [reflexivity |].
  cbn [map]. rewrite !bucket_cons, IH. f_equal.
  destruct p as [[c1 c2] n]. unfold hits_gt, hits_test. cbn [fst snd].
  change (class_gt (swap_class c1)) with (class_test c1).
  change (class_gt (swap_class c2)) with (class_test c2).
  change (class_test (swap_class c1)) with (class_gt c1).
  change (class_test (swap_class c2)) with (class_gt c2).
  rewrite andb_comm. reflexivity.
Qed.

Lemma class_ok_swap (c : class) : class_ok c -> class_ok (swap_class c).
Proof. intros [H1 [H2 H3]]. repeat split; assumption. Qed.

Lemma max_len_perm (l l' : list (list Z)) :
  Permutation l l' -> max_len l = max_len l'.
Proof.
  intros H. apply Nat.le_antisymm; apply max_len_le; intros t Ht;
    apply max_len_ge.
  - apply (Permutation_in _ H). exact Ht.
  - apply (Permutation_in _ (Permutation_sym H)). exact Ht.
Qed.

Section SwappedTable.

Variables labels labels' : list class.
Hypothesis Hok : Forall class_ok labels.
Hypothesis Hperm : Permutation labels' (map swap_class labels).

Lemma swapped_ok : Forall class_ok labels'.
Proof.
  apply (Permutation_Forall (Permutation_sym Hperm)).
  apply Forall_forall. intros c Hc. apply in_map_iff in Hc.
  destruct Hc as [c0 [<- Hc0]]. apply class_ok_swap.
  rewrite Forall_forall in Hok. apply Hok. exact Hc0.
Qed.

Lemma swapped_tbl (ht hg : nat) :
  omega_tbl labels' ht hg = omega_tbl labels hg ht.
Proof.
  unfold omega_tbl.
  rewrite (bucket_class_pairs_perm _ _ hg ht Hperm).
  rewrite class_pairs_swap. apply bucket_swap.
Qed.

Lemma swapped_max_test :
  max_observed hits_test labels' = max_observed hits_gt labels.
Proof.
  rewrite (max_observed_test labels' swapped_ok), (max_observed_gt labels Hok).
  rewrite (max_len_perm _ _ (Permutation_map c_second Hperm)).
  rewrite map_map. reflexivity.
Qed.

Lemma swapped_max_gt :
  max_observed hits_gt labels' = max_observed hits_test labels.
Proof.
  rewrite (max_observed_gt labels' swapped_ok), (max_observed_test labels Hok).
  rewrite (max_len_perm _ _ (Permutation_map c_first Hperm)).
  rewrite map_map. reflexivity.
Qed.

Lemma swapped_min_JK : omega_min_JK labels' = omega_min_JK labels.
Proof.
  unfold omega_min_JK. rewrite swapped_max_test, swapped_max_gt.
  rewrite Nat.min_comm. reflexivity.
Qed.

Lemma swapped_N_total : omega_N_total labels' = omega_N_total labels.
Proof.
  unfold omega_N_total. rewrite swapped_max_test, swapped_max_gt.
  rewrite sum_upto_swap. apply sum_upto_ext. intros i _.
  apply sum_upto_ext. intros j _. apply swapped_tbl.
Qed.

Lemma swapped_rand_index : omega_rand_index labels' = omega_rand_index labels.
Proof.
  unfold omega_rand_index. rewrite swapped_min_JK, swapped_N_total.
  do 2 f_equal. apply sum_upto_ext. intros i _. apply swapped_tbl.
Qed.

Lemma swapped_e : omega_e labels' = omega_e labels.
Proof.
  unfold omega_e. rewrite swapped_min_JK, swapped_N_total.
  do 2 f_equal. apply sum_upto_ext. intros i _.
  unfold omega_row_sum, omega_col_sum. rewrite swapped_min_JK.
  rewrite Z.mul_comm. f_equal; apply sum_upto_ext; intros j _;
    apply swapped_tbl.
Qed.

Lemma swapped_adjusted_rand_index :
  omega_adjusted_rand_index labels' = omega_adjusted_rand_index labels.
Proof.
  unfold omega_adjusted_rand_index.
  rewrite swapped_rand_index, swapped_e. reflexivity.
Qed.

End SwappedTable.

(* ------------------------------------------------------------------ *)
(** ** Object mode: marking an image                                    *)
(* ------------------------------------------------------------------ *)

Lemma grid_set_tab (rows cols : nat) (f : nat -> nat -> Z) (r c : nat) (v : Z) :
  grid_set (tab rows cols f) r c v
  = tab rows cols (fun i j => if (i =? r)%nat && (j =? c)%nat
                              then v else f i j).
Proof.
  unfold grid_set, tab. rewrite upd_nth_map_seq. apply map_ext. intros i.
  simpl. destruct (i =? r)%nat; simpl; [| reflexivity].
  rewrite upd_nth_map_seq. reflexivity.
Qed.

Lemma cell_tab (rows cols : nat) (f : nat -> nat -> Z) (r c : nat) :
  (r < rows)%nat -> (c < cols)%nat -> cell (tab rows cols f) r c = f r c.
Proof.
  intros Hr Hc. unfold cell, tab.
  rewrite (nth_map_seq _ 0 rows r []) by exact Hr.
  rewrite (nth_map_seq _ 0 cols c 0) by exact Hc. reflexivity.
Qed.

Lemma np_index_nonneg (n : nat) (i : Z) :
  0 <= i < Z.of_nat n -> np_index n i = Ok (Z.to_nat i).
Proof.
  intros H. unfold np_index.
  assert (E : (0 <=? i) && (i <? Z.of_nat n) = true).
  { apply andb_true_intro. split; [apply Z.leb_le | apply Z.ltb_lt]; lia. }
  rewrite E. reflexivity.
Qed.

Lemma coord_eqb_eq (p q : Z * Z) : coord_eqb p q = true <-> p = q.
Proof.
  destruct p as [a b], q as [c d]. unfold coord_eqb. cbn [fst snd].
  rewrite andb_true_iff, !Z.eqb_eq. split.
  - intros [-> ->]. reflexivity.
  - intros E. injection E as -> ->. auto.
Qed.

Lemma coord_mem_In (p : Z * Z) (l : list (Z * Z)) :
  coord_mem p l = true <-> In p l.
Proof.
  unfold coord_mem. rewrite existsb_exists. split.
  - intros [q [Hq E]]. apply coord_eqb_eq in E. subst q. exact Hq.
  - intros H. exists p. split; [exact H | apply coord_eqb_eq; reflexivity].
Qed.

Lemma bool_eq_iff (a b : bool) : (a = true <-> b = true) -> a = b.
Proof. destruct a, b; intros [H1 H2]; auto; symmetry; auto. Qed.

Lemma set_at_tab (rows cols : nat) (f : nat -> nat -> Z)
      (coords : list (Z * Z)) :
  Forall (fun p : Z * Z => 0 <= fst p < Z.of_nat rows
                           /\ 0 <= snd p < Z.of_nat cols) coords ->
  set_at (tab rows cols f) coords
  = Ok (tab rows cols
            (fun i j => if coord_mem (Z.of_nat i, Z.of_nat j) coords
                        then 1 else f i j)).
Proof.
  intros H. revert f. induction H as [|[i j] rest [Hi Hj] Hrest IH]; intros f.
  - reflexivity.
  - cbn [fst snd] in Hi, Hj. cbn [set_at].
    rewrite length_tab, (np_index_nonneg rows i Hi). cbn [bind].
    destruct rows as [|rows']; [lia |].
    rewrite length_hd_tab, (np_index_nonneg cols j Hj). cbn [bind].
    rewrite grid_set_tab, IH. f_equal. apply tab_ext. intros a b Ha Hb.
    unfold coord_mem. cbn [existsb]. unfold coord_eqb at 2. cbn [fst snd].
    destruct (Nat.eqb_spec a (Z.to_nat i)) as [Ea | Ea];
      destruct (Nat.eqb_spec b (Z.to_nat j)) as [Eb | Eb];
      destruct (Z.eqb_spec (Z.of_nat a) i) as [Ea' | Ea'];
      destruct (Z.eqb_spec (Z.of_nat b) j) as [Eb' | Eb'];
      cbn [andb orb]; try lia;
      destruct (existsb (coord_eqb (Z.of_nat a, Z.of_nat b)) rest);
      reflexivity.
Qed.

Lemma mark_loop_tab (rows cols : nat) (labels : list Z)
      (coords_of : Z -> list (Z * Z)) (f : nat -> nat -> Z) :
  (forall l, In l labels ->
             Forall (fun p : Z * Z => 0 <= fst p < Z.of_nat rows
                                      /\ 0 <= snd p < Z.of_nat cols)
                    (coords_of l)) ->
  mark_loop (tab rows cols f) labels coords_of
  = Ok (tab rows cols
            (fun i j =>
               if existsb (fun l => coord_mem (Z.of_nat i, Z.of_nat j)
                                              (coords_of l)) labels
               then 1 else f i j)).
Proof.
  unfold mark_loop. revert f.
  induction labels as [|l labels IH]; intros f H; [reflexivity |].
  cbn [fold_left bind].
  rewrite (set_at_tab rows cols f (coords_of l))
    by (apply H; left; reflexivity).
  rewrite IH by (intros l' Hl'; apply H; right; exact Hl').
  f_equal. apply tab_ext. intros i j _ _. cbn [existsb].
  destruct (coord_mem (Z.of_nat i, Z.of_nat j) (coords_of l));
    destruct (existsb _ labels); reflexivity.
Qed.

Lemma indexed_map_seq {B : Type} (g : nat -> B) (n : nat) :
  indexed (map g (seq 0 n)) = map (fun i => (i, g i)) (seq 0 n).
Proof.
  unfold indexed. rewrite length_map, length_seq. apply combine_seq_map.
Qed.

Lemma cells_equal_tab (rows cols : nat) (f : nat -> nat -> Z) (v : Z)
      (p : Z * Z) :
  In p (cells_equal (tab rows cols f) v)
  <-> exists i j, p = (Z.of_nat i, Z.of_nat j)
                  /\ (i < rows)%nat /\ (j < cols)%nat /\ f i j = v.
Proof.
  unfold cells_equal, tab. rewrite indexed_map_seq, map_map. cbn [fst snd].
  split.
  - intros H. apply in_concat in H. destruct H as [l [Hl Hp]].
    apply in_map_iff in Hl. destruct Hl as [i [<- Hi]].
    apply in_seq in Hi. rewrite indexed_map_seq, map_map in Hp.
    cbn [fst snd] in Hp. apply in_concat in Hp. destruct Hp as [l' [Hl' Hp]].
    apply in_map_iff in Hl'. destruct Hl' as [j [<- Hj]].
    apply in_seq in Hj.
    destruct (Z.eqb_spec (f i j) v) as [E | E]; [| contradiction].
    destruct Hp as [<- | []]. exists i, j. repeat split; lia.
  - intros [i [j [-> [Hi [Hj E]]]]].
    apply in_concat. eexists. split.
    + apply in_map_iff. exists i. split; [reflexivity | apply in_seq; lia].
    + rewrite indexed_map_seq, map_map. cbn [fst snd].
      apply in_concat. eexists. split.
      * apply in_map_iff. exists j. split; [reflexivity | apply in_seq; lia].
      * cbn beta. rewrite E, Z.eqb_refl. left. reflexivity.
Qed.

(** A valid index of an axis of length [n], negative ones included. *)
Lemma np_index_valid (n : nat) (i : Z) :
  - Z.of_nat n <= i < Z.of_nat n ->
  exists r, np_index n i = Ok r /\ (r < n)%nat.
Proof.
  intros H. unfold np_index.
  destruct (Z.leb_spec 0 i), (Z.ltb_spec i (Z.of_nat n)); cbn [andb];
    try (eexists; split; [reflexivity | lia]); try lia.
  destruct (Z.leb_spec (- Z.of_nat n) i), (Z.ltb_spec i 0); cbn [andb];
    try (eexists; split; [reflexivity | lia]); lia.
Qed.

(** Marking keeps the shape of the image. *)
Lemma set_at_shape (rows cols : nat) (coords : list (Z * Z))
      (f : nat -> nat -> Z) (a : grid Z) :
  set_at (tab rows cols f) coords = Ok a ->
  exists f', a = tab rows cols f'.
Proof.
  revert f. induction coords as [|[i j] rest IH]; intros f H.
  - injection H as <-. exists f. reflexivity.
  - cbn [set_at] in H.
    destruct (np_index (length (tab rows cols f)) i) as [r | e];
      [| discriminate].
    destruct (np_index (length (hd [] (tab rows cols f))) j) as [c | e];
      [| discriminate].
    cbn [bind] in H. rewrite grid_set_tab in H. apply (IH _ H).
Qed.

Lemma mark_fold_raise (e : exn) (labels : list Z)
      (coords_of : Z -> list (Z * Z)) :
  fold_left (fun acc l => a <- acc ;; set_at a (coords_of l)) labels (Raise e)
  = Raise e.
Proof. induction labels as [|l labels IH]; [reflexivity | exact IH]. Qed.

Lemma mark_loop_shape (rows cols : nat) (labels : list Z)
      (coords_of : Z -> list (Z * Z)) (f : nat -> nat -> Z) (a : grid Z) :
  mark_loop (tab rows cols f) labels coords_of = Ok a ->
  exists f', a = tab rows cols f'.
Proof.
  unfold mark_loop. revert f.
  induction labels as [|l labels IH]; intros f H.
  - injection H as <-. exists f. reflexivity.
  - cbn [fold_left bind] in H.
    destruct (set_at (tab rows cols f) (coords_of l)) as [b | e] eqn:E.
    + destruct (set_at_shape _ _ _ _ _ E) as [f' ->]. apply (IH _ H).
    + rewrite mark_fold_raise in H. discriminate.
Qed.

Lemma set_at_ok (rows cols : nat) (coords : list (Z * Z))
      (f : nat -> nat -> Z) :
  Forall (fun p : Z * Z => - Z.of_nat rows <= fst p < Z.of_nat rows
                           /\ - Z.of_nat cols <= snd p < Z.of_nat cols)
         coords ->
  exists a, set_at (tab rows cols f) coords = Ok a.
Proof.
  intros H. revert f. induction H as [|[i j] rest [Hi Hj] Hrest IH]; intros f.
  - eexists. reflexivity.
  - cbn [fst snd] in Hi, Hj. cbn [set_at]. rewrite length_tab.
    destruct (np_index_valid rows i Hi) as [r [Hr _]]. rewrite Hr.
    cbn [bind]. destruct rows as [|rows']; [lia |].
    rewrite length_hd_tab.
    destruct (np_index_valid cols j Hj) as [c [Hc _]]. rewrite Hc.
    cbn [bind]. rewrite grid_set_tab. apply IH.
Qed.

Lemma mark_loop_ok (rows cols : nat) (labels : list Z)
      (coords_of : Z -> list (Z * Z)) (f : nat -> nat -> Z) :
  (forall l, In l labels ->
             Forall (fun p : Z * Z =>
                       - Z.of_nat rows <= fst p < Z.of_nat rows
                       /\ - Z.of_nat cols <= snd p < Z.of_nat cols)
                    (coords_of l)) ->
  exists a, mark_loop (tab rows cols f) labels coords_of = Ok a.
Proof.
  unfold mark_loop. revert f.
  induction labels as [|l labels IH]; intros f H; [eexists; reflexivity |].
  cbn [fold_left bind].
  destruct (set_at_ok rows cols (coords_of l) f) as [b Hb];
    [apply H; left; reflexivity |].
  rewrite Hb. destruct (set_at_shape _ _ _ _ _ Hb) as [f' ->].
  apply IH. intros l' Hl'. apply H. right. exact Hl'.
Qed.

Lemma assign_at_ok (rows cols : nat) (ijv : list triple)
      (f : nat -> nat -> Z) :
  Forall (fun t : triple =>
            - Z.of_nat rows <= fst (t_coord t) < Z.of_nat rows
            /\ - Z.of_nat cols <= snd (t_coord t) < Z.of_nat cols) ijv ->
  exists a, assign_at (tab rows cols f) ijv = Ok a.
Proof.
  intros H. revert f.
  induction H as [|[[i j] l] rest [Hi Hj] Hrest IH]; intros f.
  - eexists. reflexivity.
  - unfold t_coord in Hi, Hj. cbn [fst snd] in Hi, Hj.
    cbn [assign_at]. rewrite length_tab.
    destruct (np_index_valid rows i Hi) as [r [Hr _]]. rewrite Hr.
    cbn [bind]. destruct rows as [|rows']; [lia |].
    rewrite length_hd_tab.
    destruct (np_index_valid cols j Hj) as [c [Hc _]]. rewrite Hc.
    cbn [bind]. rewrite grid_set_tab. apply IH.
Qed.

Lemma assign_labels_ok (mask : grid bool) (ijv : list triple) :
  Forall (in_image mask) ijv ->
  exists a,
    assign_at (zeros (length mask) (length (hd [] mask))) ijv = Ok a.
Proof. intros H. rewrite zeros_tab. apply assign_at_ok. exact H. Qed.

(** The four arrays of lines 412-436 are built without an exception:
    the coordinates [subscripts] lists are positions of [GT_pixels]. *)
Lemma subscripts_in_first (rows cols rows' cols' : nat)
      (g h : nat -> nat -> Z) (c1 c2 : Z) :
  Forall (fun p : Z * Z => 0 <= fst p < Z.of_nat rows
                           /\ 0 <= snd p < Z.of_nat cols)
         (subscripts (tab rows cols g) (tab rows' cols' h) c1 c2).
Proof.
  apply Forall_forall. intros p Hp. unfold subscripts in Hp.
  apply filter_In in Hp. destruct Hp as [Hp _].
  apply cells_equal_tab in Hp. destruct Hp as [i [j [-> [Hi [Hj _]]]]].
  cbn [fst snd]. lia.
Qed.

Lemma maskimg_returns (rows cols rows' cols' : nat)
      (g h : nat -> nat -> Z) (c1 c2 : Z) :
  exists a,
    maskimg (subscripts (tab rows cols g) (tab rows' cols' h) c1 c2)
            (zeros rows cols) = Ok a.
Proof.
  unfold maskimg. rewrite zeros_tab.
  rewrite set_at_tab by apply subscripts_in_first. eexists. reflexivity.
Qed.

Lemma display_after_matching (gt_ijv test_ijv : list triple)
      (xGT yGT xID yID : nat) (mt : matching) (c1 c2 : Z) :
  match_objects gt_ijv test_ijv xGT yGT xID yID = Ok mt ->
  exists a,
    maskimg (subscripts (mt_GT_pixels mt) (mt_ID_pixels mt) c1 c2)
            (zeros xGT yGT) = Ok a.
Proof.
  intros H. apply match_objects_parts in H.
  destruct H as [_ [_ [_ [_ [_ [_ [HGT [HID _]]]]]]]].
  rewrite zeros_tab in HGT, HID.
  destruct (mark_loop_shape _ _ _ _ _ _ HGT) as [g ->].
  destruct (mark_loop_shape _ _ _ _ _ _ HID) as [h ->].
  apply maskimg_returns.
Qed.

(** [measure_objects] returns as soon as the matching and the counts
    do and the coordinates index the mask; the measurements are the
    ratios of the counts and the two indices of
    [compute_rand_index_ijv]. *)
Lemma measure_objects_from_parts (gt_ijv test_ijv : list triple)
      (xGT yGT xID yID : nat) (mask : grid bool) (mt : matching)
      (counts : object_counts) (ri : fl * fl) :
  match_objects gt_ijv test_ijv xGT yGT xID yID = Ok mt ->
  object_counts_of mt (Z.of_nat xGT * Z.of_nat yGT) = Ok counts ->
  Forall (in_image mask) gt_ijv -> Forall (in_image mask) test_ijv ->
  compute_rand_index_ijv gt_ijv test_ijv mask = Ok ri ->
  let FN := fl_of_Z (oc_FN counts) in
  let TN := fl_of_Z (oc_TN counts) in
  let TP := fl_of_Z (oc_TP counts) in
  let FP := fl_of_Z (oc_FP counts) in
  exists s : overlap_stats,
    measure_objects gt_ijv test_ijv xGT yGT xID yID mask = Ok s
    /\ recall s
       = fl_div TP (fl_of_Z (GT_tot_area_of gt_ijv (mt_GT_obj mt)))
    /\ precision s = fl_div TP (fl_add TP FP)
    /\ f_factor s
       = fl_div (fl_mul (Fin 2) (fl_mul (precision s) (recall s)))
                (fl_add (precision s) (recall s))
    /\ false_positive_rate s = fl_div FP (fl_add FP TN)
    /\ false_negative_rate s = fl_div FN (fl_add FN TP)
    /\ rand_index s = fst ri
    /\ adjusted_rand_index s = snd ri.
Proof.
  intros Hmt Hc Hg Ht Hri. cbv zeta.
  destruct (assign_labels_ok mask gt_ijv Hg) as [lg Hlg].
  destruct (assign_labels_ok mask test_ijv Ht) as [lt Hlt].
  destruct (display_after_matching _ _ _ _ _ _ _ 1 1 Hmt) as [a1 H1].
  destruct (display_after_matching _ _ _ _ _ _ _ 1 0 Hmt) as [a2 H2].
  destruct (display_after_matching _ _ _ _ _ _ _ 0 1 Hmt) as [a3 H3].
  destruct (display_after_matching _ _ _ _ _ _ _ 0 0 Hmt) as [a4 H4].
  unfold measure_objects. rewrite Hmt. cbn [bind]. rewrite Hc. cbn [bind].
  rewrite Hlg. cbn [bind]. rewrite Hlt. cbn [bind]. rewrite Hri. cbn [bind].
  rewrite H1. cbn [bind]. rewrite H2. cbn [bind]. rewrite H3. cbn [bind].
  rewrite H4. cbn [bind].
  eexists. split; [reflexivity |]. repeat split.
Qed.

(* ------------------------------------------------------------------ *)
(** ** Sparse labelings: the classes, coordinate by coordinate          *)
(* ------------------------------------------------------------------ *)

(* The background. *)

Lemma np_index_wrap (n : nat) (i : Z) (k : nat) :
  np_index n i = Ok k -> Z.of_nat k = wrap n i.
Proof.
  unfold np_index, wrap.
  destruct ((0 <=? i) && (i <? Z.of_nat n)) eqn:E1.
  - apply andb_prop in E1. destruct E1 as [A B].
    apply Z.leb_le in A. apply Z.ltb_lt in B.
    intros H. injection H as <-. destruct (Z.ltb_spec i 0); lia.
  - destruct ((- Z.of_nat n <=? i) && (i <? 0)) eqn:E2; [| discriminate].
    apply andb_prop in E2. destruct E2 as [A B].
    apply Z.leb_le in A. apply Z.ltb_lt in B.
    intros H. injection H as <-. destruct (Z.ltb_spec i 0); lia.
Qed.

Lemma pixel_grid_set (b : grid bool) (r c r' c' : nat) :
  nth c' (nth r' (grid_set b r c false) []) false
  = if (r' =? r)%nat && (c' =? c)%nat then false
    else nth c' (nth r' b []) false.
Proof.
  unfold grid_set. rewrite nth_upd_nth.
  destruct (Nat.eqb_spec r' r) as [-> | Hr]; cbn [andb]; [| reflexivity].
  destruct (Nat.ltb_spec r (length b)) as [Hl | Hl].
  - rewrite nth_upd_nth.
    destruct (Nat.eqb_spec c' c) as [-> | Hc]; cbn [andb]; [| reflexivity].
    destruct (Nat.ltb_spec c (length (nth r b []))) as [Hl' | Hl'];
      [reflexivity |].
    apply nth_overflow. exact Hl'.
  - rewrite (nth_overflow b [] Hl).
    destruct (c' =? c)%nat; destruct c'; reflexivity.
Qed.

Lemma clear_at_pixel (bkgd b : grid bool) (cs : list (Z * Z)) (r c : nat) :
  clear_at bkgd cs = Ok b ->
  nth c (nth r b []) false = true
  <-> nth c (nth r bkgd []) false = true
      /\ forall q, In q cs ->
           ~ (wrap (length bkgd) (fst q) = Z.of_nat r
              /\ wrap (length (hd [] bkgd)) (snd q) = Z.of_nat c).
Proof.
  revert bkgd. induction cs as [|[i j] cs IH]; intros bkgd H.
  - injection H as <-. split; [intros H; split; [exact H | intros q []] |].
    intros [H _]. exact H.
  - cbn [clear_at] in H.
    destruct (np_index (length bkgd) i) as [r1 | e] eqn:Er; [| discriminate].
    destruct (np_index (length (hd [] bkgd)) j) as [c1 | e] eqn:Ec;
      [| discriminate].
    cbn [bind] in H. apply np_index_wrap in Er, Ec.
    destruct (grid_set_dims bkgd r1 c1 false) as [D1 D2].
    rewrite (IH _ H), D1, D2, pixel_grid_set. clear IH H.
    destruct (Nat.eqb_spec r r1) as [-> | Hr];
      destruct (Nat.eqb_spec c c1) as [-> | Hc]; cbn [andb].
    + split; [intros [Hf _]; discriminate |].
      intros [_ Hq]. exfalso. apply (Hq (i, j) (or_introl eq_refl)).
      cbn [fst snd]. split; congruence.
    + split.
      * intros [Hp Hq]. split; [exact Hp |]. intros q [<- | Hin];
          [cbn [fst snd]; intros [_ E]; apply Hc; lia | apply Hq; exact Hin].
      * intros [Hp Hq]. split; [exact Hp |]. intros q Hin. apply Hq.
        right. exact Hin.
    + split.
      * intros [Hp Hq]. split; [exact Hp |]. intros q [<- | Hin];
          [cbn [fst snd]; intros [E _]; apply Hr; lia | apply Hq; exact Hin].
      * intros [Hp Hq]. split; [exact Hp |]. intros q Hin. apply Hq.
        right. exact Hin.
    + split.
      * intros [Hp Hq]. split; [exact Hp |]. intros q [<- | Hin];
          [cbn [fst snd]; intros [E _]; apply Hr; lia | apply Hq; exact Hin].
      * intros [Hp Hq]. split; [exact Hp |]. intros q Hin. apply Hq.
        right. exact Hin.
Qed.

Lemma in_combine_seq {B : Type} (l : list B) (a i : nat) (x d : B) :
  In (i, x) (combine (seq a (length l)) l)
  <-> (a <= i < a + length l)%nat /\ nth (i - a) l d = x.
Proof.
  revert a. induction l as [|y l IH]; intros a.
  - simpl. split; [contradiction | lia].
  - cbn [length seq combine In]. rewrite IH. split.
    + intros [E | [H1 H2]].
      * injection E as <- <-. rewrite Nat.sub_diag. split; [lia | reflexivity].
      * split; [lia |]. replace (i - a)%nat with (S (i - S a)) by lia.
        exact H2.
    + intros [H1 H2]. destruct (Nat.eq_dec i a) as [-> | Hne].
      * left. rewrite Nat.sub_diag in H2. simpl in H2. subst. reflexivity.
      * right. split; [lia |].
        replace (i - a)%nat with (S (i - S a)) in H2 by lia. exact H2.
Qed.

Lemma in_indexed {B : Type} (l : list B) (i : nat) (x d : B) :
  In (i, x) (indexed l) <-> (i < length l)%nat /\ nth i l d = x.
Proof.
  unfold indexed. rewrite (in_combine_seq l 0 i x d), Nat.sub_0_r.
  split; intros [H1 H2]; split; auto; lia.
Qed.

Lemma argwhere_In (g : grid bool) (p : Z * Z) :
  In p (argwhere g)
  <-> exists r c : nat,
        p = (Z.of_nat r, Z.of_nat c) /\ nth c (nth r g []) false = true.
Proof.
  unfold argwhere. rewrite in_concat. split.
  - intros [l [Hl Hp]]. apply in_map_iff in Hl.
    destruct Hl as [[r row] [<- Hr]]. cbn [fst snd] in Hp.
    apply (in_indexed g r row []) in Hr. destruct Hr as [_ <-].
    apply in_concat in Hp. destruct Hp as [l' [Hl' Hp]].
    apply in_map_iff in Hl'. destruct Hl' as [[c x] [<- Hc]].
    cbn [fst snd] in Hp. apply (in_indexed _ c x false) in Hc.
    destruct Hc as [_ <-].
    destruct (nth c (nth r g []) false) eqn:E; [| contradiction].
    destruct Hp as [<- | []]. exists r, c. split; [reflexivity | exact E].
  - intros [r [c [-> E]]].
    assert (Hr : (r < length g)%nat).
    { destruct (Nat.ltb_spec r (length g)) as [H | H]; [exact H |].
      rewrite (nth_overflow g [] H) in E. destruct c; discriminate. }
    assert (Hc : (c < length (nth r g []))%nat).
    { destruct (Nat.ltb_spec c (length (nth r g []))) as [H | H]; [exact H |].
      rewrite (nth_overflow _ false H) in E. discriminate. }
    eexists. split.
    + apply in_map_iff. exists (r, nth r g []). split; [reflexivity |].
      apply (in_indexed g r _ []). split; [exact Hr | reflexivity].
    + cbn [fst snd]. apply in_concat. eexists. split.
      * apply in_map_iff. exists (c, true). split; [reflexivity |].
        apply (in_indexed _ c true false). split; [exact Hc | exact E].
      * cbn [fst snd]. left. reflexivity.
Qed.

(** The completed listing holds the triples of the listing and a
    label 0 at every bare pixel of the mask. *)
Lemma with_background_spec (ijv g : list triple) (mask : grid bool)
      (p : Z * Z) (v : Z) :
  with_background ijv mask = Ok g ->
  In (p, v) g <-> has_label ijv mask p v.
Proof.
  unfold with_background. intros H.
  destruct (clear_at mask (map t_coord ijv)) as [b | e] eqn:E;
    [| discriminate].
  cbn [bind] in H. injection H as <-.
  unfold has_label, bare. rewrite in_app_iff, in_map_iff.
  assert (Hb : In p (argwhere b)
               <-> exists r c : nat,
                     p = (Z.of_nat r, Z.of_nat c)
                     /\ nth c (nth r mask []) false = true
                     /\ forall t, In t ijv ->
                          ~ (wrap (length mask) (fst (t_coord t)) = Z.of_nat r
                             /\ wrap (length (hd [] mask)) (snd (t_coord t))
                                = Z.of_nat c)).
  { rewrite argwhere_In. split; intros [r [c [Hp Hpix]]]; exists r, c;
      (split; [exact Hp |]).
    - apply (clear_at_pixel _ _ _ r c E) in Hpix. destruct Hpix as [H1 H2].
      split; [exact H1 |]. intros t Ht. apply H2. apply in_map. exact Ht.
    - destruct Hpix as [H1 H2]. apply (clear_at_pixel _ _ _ r c E).
      split; [exact H1 |]. intros q Hq. apply in_map_iff in Hq.
      destruct Hq as [t [<- Ht]]. apply H2. exact Ht. }
  split.
  - intros [H | [q [Hq Hin]]]; [left; exact H |].
    injection Hq as -> <-. right. split; [reflexivity |]. apply Hb. exact Hin.
  - intros [H | [-> H]]; [left; exact H |].
    right. exists p. split; [reflexivity | apply Hb; exact H].
Qed.

(* The groups of the sorted listing, one per coordinate. *)

Lemma coord_key_eq (x y : row4) :
  coord_key x = coord_key y <-> t_coord (fst x) = t_coord (fst y).
Proof.
  destruct x as [[[i j] v] s], y as [[[i' j'] v'] s'].
  unfold coord_key, t_coord, r_i, r_j. cbn [fst snd]. split.
  - intros H. injection H as -> ->. reflexivity.
  - intros H. injection H as -> ->. reflexivity.
Qed.

Lemma sorted_members {A : Type} (R : A -> A -> Prop) (l : list A) (a b : A) :
  StronglySorted R l -> In a l -> In b l -> a = b \/ R a b \/ R b a.
Proof.
  induction 1 as [|x l Hl IH Hx]; intros Ha Hb; [contradiction |].
  rewrite Forall_forall in Hx.
  destruct Ha as [<- | Ha], Hb as [<- | Hb]; auto.
Qed.

Lemma coords_nodup (l : list (list row4)) :
  StronglySorted (across (fun x y => coord_key x <> coord_key y)) l ->
  Forall (fun g => g <> []) l ->
  NoDup (map group_coord l).
Proof.
  induction 1 as [|g l Hl IH Hg]; intros Hne; [constructor |].
  inversion Hne as [|? ? Hg0 Hne']; subst.
  cbn [map]. constructor; [| apply IH; exact Hne'].
  intros Hin. apply in_map_iff in Hin. destruct Hin as [g' [E Hg']].
  rewrite Forall_forall in Hg, Hne'.
  specialize (Hne' g' Hg').
  destruct g as [|x g]; [contradiction |].
  destruct g' as [|y g']; [contradiction |].
  apply (Hg _ Hg' x y); [left; reflexivity | left; reflexivity |].
  apply coord_key_eq. unfold group_coord in E. cbn [hd] in E. congruence.
Qed.

Section GroupCoordinates.

Variable U : list row4.
Hypothesis Hsorted : StronglySorted (key_lt row_key) U.
Hypothesis Hsrc : Forall src01 U.

Let gs := group_adj coord_key U.

Lemma group_nonempty (grp : list row4) : In grp gs -> grp <> [].
Proof.
  intros H. destruct (group_adj_spec coord_key U) as [_ [Hn _]].
  rewrite Forall_forall in Hn. apply Hn. exact H.
Qed.

Lemma group_same_coord (grp : list row4) (x : row4) :
  In grp gs -> In x grp -> t_coord (fst x) = group_coord grp.
Proof.
  intros Hg Hx. destruct (group_adj_spec coord_key U) as [_ [_ Hk]].
  rewrite Forall_forall in Hk. apply coord_key_eq.
  apply (Hk grp Hg); [exact Hx |].
  apply (group_adj_hd coord_key U). exact Hg.
Qed.

Lemma row_in_group (x : row4) :
  In x U -> exists grp, In grp gs /\ In x grp.
Proof.
  intros Hx. rewrite <- (group_adj_concat coord_key U) in Hx.
  apply in_concat in Hx. exact Hx.
Qed.

Lemma group_of_coord (grp : list row4) (y : row4) :
  In grp gs -> In y U -> t_coord (fst y) = group_coord grp -> In y grp.
Proof.
  intros Hg Hy Hc. destruct (row_in_group y Hy) as [grp' [Hg' Hy']].
  pose proof (groups_distinct coord_key (key_lt row_key) coord_convex U Hsorted)
    as Hd.
  fold gs in Hd.
  assert (Hhd : In (hd (0, 0, 0, 0) grp) grp).
  { apply (group_adj_hd coord_key U). exact Hg. }
  assert (Hk : coord_key (hd (0, 0, 0, 0) grp) = coord_key y).
  { apply coord_key_eq. symmetry. exact Hc. }
  destruct (sorted_members _ gs grp grp' Hd Hg Hg') as [-> | [H | H]].
  - exact Hy'.
  - exfalso. apply (H _ y Hhd Hy'). exact Hk.
  - exfalso. apply (H y _ Hy' Hhd). symmetry. exact Hk.
Qed.

Lemma group_coords_nodup : NoDup (map group_coord gs).
Proof.
  apply coords_nodup.
  - apply (groups_distinct coord_key (key_lt row_key) coord_convex).
    exact Hsorted.
  - apply Forall_forall. intros g Hg. apply group_nonempty. exact Hg.
Qed.

Lemma group_source_labels (grp : list row4) (s v : Z) :
  In grp gs ->
  In v (map r_label (filter (fun r => r_src r =? s) grp))
  <-> In (group_coord grp, v, s) U.
Proof.
  intros Hg. rewrite in_map_iff. split.
  - intros [x [<- Hx]]. apply filter_In in Hx. destruct Hx as [Hx Hs].
    apply Z.eqb_eq in Hs.
    pose proof (group_same_coord grp x Hg Hx) as Hc.
    pose proof (group_adj_in coord_key U grp x Hg Hx) as HxU.
    destruct x as [[p l] s']. unfold r_src, r_label, t_coord in *.
    cbn [fst snd] in *. subst. exact HxU.
  - intros H. exists (group_coord grp, v, s). split; [reflexivity |].
    apply filter_In. split; [| unfold r_src; cbn [snd]; apply Z.eqb_refl].
    apply (group_of_coord grp _ Hg H). reflexivity.
Qed.

Lemma group_source_sorted (grp : list row4) (s : Z) :
  In grp gs ->
  StronglySorted Z.lt (map r_label (filter (fun r => r_src r =? s) grp)).
Proof.
  intros Hg.
  destruct (sorted_group U grp Hsorted Hsrc Hg) as [Hs [Hc _]].
  apply (StronglySorted_map_in (key_lt row_key)).
  - intros x y Hx Hy Hxy. apply filter_In in Hx, Hy.
    destruct Hx as [Hx Hsx], Hy as [Hy Hsy]. apply Z.eqb_eq in Hsx, Hsy.
    destruct (row_lt_same_coord x y (Hc x y Hx Hy) Hxy) as [H | [_ H]];
      [lia | exact H].
  - apply StronglySorted_filter. exact Hs.
Qed.

End GroupCoordinates.

(* Tuples of labels. *)

Lemma sorted_tuple_unique (a b : list Z) :
  StronglySorted Z.lt a -> StronglySorted Z.lt b ->
  (forall v, In v a <-> In v b) -> a = b.
Proof.
  intros Ha. revert b. induction Ha as [|x a Ha IH Hx]; intros b Hb Hin.
  - destruct b as [|y b]; [reflexivity |].
    exfalso. apply (Hin y). left. reflexivity.
  - destruct Hb as [|y b Hb Hy].
    + exfalso. apply (Hin x). left. reflexivity.
    + rewrite Forall_forall in Hx, Hy.
      assert (E : x = y).
      { assert (H1 : In x (y :: b)) by (apply Hin; left; reflexivity).
        assert (H2 : In y (x :: a)) by (apply Hin; left; reflexivity).
        destruct H1 as [H1 | H1]; [symmetry; exact H1 |].
        destruct H2 as [H2 | H2]; [exact H2 |].
        specialize (Hx y H2). specialize (Hy x H1). lia. }
      subst y. f_equal. apply IH; [exact Hb |].
      intros v. split; intros Hv.
      * assert (H1 : In v (x :: b)) by (apply Hin; right; exact Hv).
        destruct H1 as [H1 | H1]; [| exact H1].
        specialize (Hx v Hv). lia.
      * assert (H1 : In v (x :: a)) by (apply Hin; right; exact Hv).
        destruct H1 as [H1 | H1]; [| exact H1].
        specialize (Hy v Hv). lia.
Qed.

Lemma listed_tuple_unique (ijv : list triple) (p : Z * Z) (a b : list Z) :
  listed_tuple ijv p a -> listed_tuple ijv p b -> a = b.
Proof.
  intros [Ha Hina] [Hb Hinb]. apply sorted_tuple_unique; try assumption.
  intros v. rewrite Hina, Hinb. reflexivity.
Qed.

Lemma label_tuple_listed (ijv g : list triple) (mask : grid bool)
      (p : Z * Z) (ls : list Z) :
  with_background ijv mask = Ok g ->
  label_tuple ijv mask p ls <-> listed_tuple g p ls.
Proof.
  intros H. unfold label_tuple, listed_tuple.
  split; intros [Hs Hin]; (split; [exact Hs |]); intros v;
    rewrite Hin; [symmetry |]; apply (with_background_spec _ _ _ _ _ H).
Qed.

Lemma cell_eqb_eq (c d : list Z * list Z) : cell_eqb c d = true <-> c = d.
Proof.
  destruct c as [a b], d as [a' b']. unfold cell_eqb. cbn [fst snd].
  rewrite andb_true_iff, !list_eqb_eq. split.
  - intros [-> ->]. reflexivity.
  - intros H. injection H as -> ->. auto.
Qed.

Lemma in_range1 (n i : Z) : In i (range1 n) <-> 1 <= i <= n.
Proof.
  unfold range1. rewrite in_map_iff. split.
  - intros [k [<- Hk]]. apply in_seq in Hk. lia.
  - intros H. exists (Z.to_nat i). split; [lia | apply in_seq; lia].
Qed.

Lemma NoDup_flat_map {A B : Type} (f : A -> list B) (l : list A) :
  NoDup l -> (forall a, In a l -> NoDup (f a)) ->
  (forall a b x, In a l -> In b l -> In x (f a) -> In x (f b) -> a = b) ->
  NoDup (flat_map f l).
Proof.
  induction 1 as [|a l Ha Hl IH]; intros Hf Hdis; [constructor |].
  cbn [flat_map]. apply NoDup_app.
  - apply Hf. left. reflexivity.
  - apply IH.
    + intros b Hb. apply Hf. right. exact Hb.
    + intros b c x Hb Hc. apply Hdis; right; assumption.
  - intros x Hx Hx'. apply in_flat_map in Hx'. destruct Hx' as [b [Hb Hxb]].
    apply Ha. rewrite (Hdis a b x); auto; [left; reflexivity | right; exact Hb].
Qed.

Lemma NoDup_map_on {A B : Type} (f : A -> B) (l : list A) :
  NoDup l -> (forall x y, In x l -> In y l -> f x = f y -> x = y) ->
  NoDup (map f l).
Proof.
  induction 1 as [|a l Ha Hl IH]; intros Hinj; [constructor |].
  cbn [map]. constructor.
  - intros Hin. apply in_map_iff in Hin. destruct Hin as [b [E Hb]].
    apply Ha. rewrite (Hinj a b); auto; [left; reflexivity | right; exact Hb].
  - apply IH. intros x y Hx Hy. apply Hinj; right; assumption.
Qed.

Lemma range1_nodup (n : Z) : NoDup (range1 n).
Proof.
  unfold range1. apply NoDup_map_on; [apply seq_NoDup |].
  intros a b _ _ H. apply Nat2Z.inj. exact H.
Qed.

Lemma NoDup_map_filter {A B : Type} (f : A -> B) (P : A -> bool)
      (l : list A) :
  NoDup (map f l) -> NoDup (map f (filter P l)).
Proof.
  induction l as [|a l IH]; intros H; [constructor |].
  cbn [map] in H. inversion H as [|? ? Ha Hl]; subst.
  cbn [filter]. destruct (P a); [| apply IH; exact Hl].
  cbn [map]. constructor; [| apply IH; exact Hl].
  intros Hin. apply Ha. apply in_map_iff in Hin. destruct Hin as [b [E Hb]].
  apply filter_In in Hb. rewrite <- E. apply in_map. apply Hb.
Qed.

Lemma filter_filter_sub {A : Type} (P Q : A -> bool) (l : list A) :
  (forall x, In x l -> P x = true -> Q x = true) ->
  filter P (filter Q l) = filter P l.
Proof.
  induction l as [|a l IH]; intros H; [reflexivity |].
  cbn [filter]. destruct (Q a) eqn:EQ.
  - cbn [filter]. destruct (P a); [f_equal |]; apply IH;
      intros x Hx; apply H; right; exact Hx.
  - destruct (P a) eqn:EP.
    + rewrite (H a (or_introl eq_refl) EP) in EQ. discriminate.
    + apply IH. intros x Hx. apply H. right. exact Hx.
Qed.

(* The classes of two completed listings. *)

Section ClassesByCoordinate.

Variables g t : list triple.

Let U := uniq row_key (sort_by row_key (unified g t)).
Let gs := group_adj coord_key U.

Lemma unified_rows_sorted : StronglySorted (key_lt row_key) U.
Proof. apply canonical_sorted. Qed.

Lemma unified_rows_src : Forall src01 U.
Proof.
  apply Forall_forall. intros x Hx. unfold U in Hx.
  apply (proj1 (canonical_in (unified g t) x)) in Hx.
  pose proof (unified_src01 g t) as H. rewrite Forall_forall in H.
  apply H. exact Hx.
Qed.

Lemma unified_groups (grp : list row4) :
  In grp gs ->
  StronglySorted (key_lt row_key) grp
  /\ (forall x y, In x grp -> In y grp -> coord_key x = coord_key y)
  /\ Forall src01 grp.
Proof.
  apply sorted_group; [apply unified_rows_sorted | apply unified_rows_src].
Qed.

Lemma in_unified_rows (p : Z * Z) (v s : Z) :
  In (p, v, s) U <-> (In (p, v) g /\ s = 0) \/ (In (p, v) t /\ s = 1).
Proof.
  unfold U. rewrite canonical_in, unified_in. cbn [fst snd]. reflexivity.
Qed.

Lemma group_tuples (grp : list row4) :
  In grp gs ->
  listed_tuple g (group_coord grp) (fst (cell_of_group grp))
  /\ listed_tuple t (group_coord grp) (snd (cell_of_group grp)).
Proof.
  intros Hg. unfold cell_of_group, gt_rows, test_rows. cbn [fst snd].
  split; (split;
          [apply (group_source_sorted U unified_rows_sorted unified_rows_src);
           exact Hg |]);
    intros v;
    rewrite (group_source_labels U unified_rows_sorted grp _ v Hg),
      in_unified_rows; split; intros H.
  - destruct H as [[H _] | [_ H]]; [exact H | discriminate].
  - left. split; [exact H | reflexivity].
  - destruct H as [[_ H] | [H _]]; [discriminate | exact H].
  - right. split; [exact H | reflexivity].
Qed.

Lemma group_lengths (grp : list row4) :
  In grp gs ->
  count_gt grp = Z.of_nat (length (fst (cell_of_group grp)))
  /\ count_test grp = Z.of_nat (length (snd (cell_of_group grp))).
Proof.
  intros Hg. destruct (unified_groups grp Hg) as [Hs [Hc H01]].
  unfold cell_of_group. cbn [fst snd]. rewrite !length_map. split.
  - apply count_gt_rows; assumption.
  - apply count_test_rows; assumption.
Qed.

Lemma group_with_tuples (p : Z * Z) (a b : list Z) :
  listed_tuple g p a -> listed_tuple t p b -> a <> [] ->
  exists grp, In grp gs /\ group_coord grp = p /\ cell_of_group grp = (a, b).
Proof.
  intros Ha Hb Hne. destruct a as [|v a']; [contradiction |].
  assert (Hv : In (p, v) g) by (apply Ha; left; reflexivity).
  assert (HU : In (p, v, 0) U).
  { apply in_unified_rows. left. split; [exact Hv | reflexivity]. }
  destruct (row_in_group U _ HU) as [grp [Hg Hx]].
  pose proof (group_same_coord U grp _ Hg Hx) as Hc.
  unfold t_coord in Hc. cbn [fst] in Hc.
  exists grp. split; [exact Hg |]. split; [symmetry; exact Hc |].
  destruct (group_tuples grp Hg) as [H1 H2]. rewrite <- Hc in H1, H2.
  rewrite (surjective_pairing (cell_of_group grp)). f_equal.
  - apply (listed_tuple_unique g p); assumption.
  - apply (listed_tuple_unique t p); assumption.
Qed.

Lemma in_bucket (n : Z) (A B : list Z) (i j : Z) :
  In (n, A, B) (bucket_classes gs i j)
  <-> (exists grp, In grp gs /\ cell_of_group grp = (A, B))
      /\ i = Z.of_nat (length B) /\ j = Z.of_nat (length A)
      /\ n = Z.of_nat
               (length (filter (fun grp => cell_eqb (A, B) (cell_of_group grp))
                               gs)).
Proof.
  rewrite (bucket_cells gs unified_groups i j).
  set (Q := fun grp : list row4 => (count_test grp =? i) && (count_gt grp =? j)).
  assert (Hlen : forall c, In c (map cell_of_group (filter Q gs)) ->
                           length (fst c) = Z.to_nat j).
  { intros c Hc. apply in_map_iff in Hc. destruct Hc as [grp [<- Hgrp]].
    apply filter_In in Hgrp. destruct Hgrp as [Hgrp HQ].
    unfold Q in HQ. apply andb_prop in HQ. destruct HQ as [_ HQ].
    apply Z.eqb_eq in HQ. destruct (group_lengths grp Hgrp) as [H1 _]. lia. }
  rewrite (classes_of_cells_in _ _ Hlen n A B).
  rewrite count_where_map. unfold count_where.
  assert (Hsub : forall grp, In grp gs ->
                   cell_of_group grp = (A, B) ->
                   i = Z.of_nat (length B) -> j = Z.of_nat (length A) ->
                   Q grp = true).
  { intros grp Hgrp E -> ->. destruct (group_lengths grp Hgrp) as [H1 H2].
    rewrite E in H1, H2. cbn [fst snd] in H1, H2. unfold Q.
    rewrite H1, H2, !Z.eqb_refl. reflexivity. }
  split.
  - intros [Hin Hn]. apply in_map_iff in Hin. destruct Hin as [grp [E Hgrp]].
    apply filter_In in Hgrp. destruct Hgrp as [Hgrp HQ].
    unfold Q in HQ. apply andb_prop in HQ. destruct HQ as [HQ1 HQ2].
    apply Z.eqb_eq in HQ1, HQ2.
    destruct (group_lengths grp Hgrp) as [H1 H2].
    rewrite E in H1, H2. cbn [fst snd] in H1, H2.
    assert (Ei : i = Z.of_nat (length B)) by lia.
    assert (Ej : j = Z.of_nat (length A)) by lia.
    split; [exists grp; split; assumption |].
    split; [exact Ei |]. split; [exact Ej |].
    rewrite Hn. f_equal. f_equal. apply filter_filter_sub.
    intros x Hx HP. apply cell_eqb_eq in HP. apply Hsub; auto.
  - intros [[grp [Hgrp E]] [Ei [Ej Hn]]]. split.
    + apply in_map_iff. exists grp. split; [exact E |].
      apply filter_In. split; [exact Hgrp | apply Hsub; assumption].
    + rewrite Hn. f_equal. f_equal. symmetry. apply filter_filter_sub.
      intros x Hx HP. apply cell_eqb_eq in HP. apply Hsub; auto.
Qed.

Lemma in_classes (n : Z) (A B : list Z) :
  In (n, A, B) (classes_of_groups gs)
  <-> A <> [] /\ B <> []
      /\ (exists grp, In grp gs /\ cell_of_group grp = (A, B))
      /\ n = Z.of_nat
               (length (filter (fun grp => cell_eqb (A, B) (cell_of_group grp))
                               gs)).
Proof.
  unfold classes_of_groups. rewrite in_flat_map. split.
  - intros [i [Hi H]]. apply in_flat_map in H. destruct H as [j [Hj H]].
    apply in_range1 in Hi, Hj. apply in_bucket in H.
    destruct H as [Hex [Ei [Ej Hn]]].
    split; [intros ->; simpl in Ej; lia |].
    split; [intros ->; simpl in Ei; lia |].
    split; assumption.
  - intros [HA [HB [[grp [Hgrp E]] Hn]]].
    destruct (group_lengths grp Hgrp) as [H1 H2].
    rewrite E in H1, H2. cbn [fst snd] in H1, H2.
    exists (Z.of_nat (length B)). split.
    + apply in_range1. split; [destruct B; [contradiction | simpl; lia] |].
      rewrite <- H2. pose proof (zmax_list_upper (map count_test gs)) as Hu.
      rewrite Forall_forall in Hu. apply Hu. apply in_map. exact Hgrp.
    + apply in_flat_map. exists (Z.of_nat (length A)). split.
      * apply in_range1. split; [destruct A; [contradiction | simpl; lia] |].
        rewrite <- H1. pose proof (zmax_list_upper (map count_gt gs)) as Hu.
        rewrite Forall_forall in Hu. apply Hu. apply in_map. exact Hgrp.
      * apply in_bucket. split; [exists grp; split; assumption |].
        split; [reflexivity |]. split; [reflexivity | exact Hn].
Qed.

Lemma classes_nodup :
  NoDup (map (fun c : class => (class_gt c, class_test c))
             (classes_of_groups gs)).
Proof.
  apply NoDup_map_on.
  - unfold classes_of_groups. apply NoDup_flat_map.
    + apply range1_nodup.
    + intros i _. apply NoDup_flat_map.
      * apply range1_nodup.
      * intros j _. rewrite (bucket_cells gs unified_groups i j).
        apply classes_of_cells_nodup.
      * intros j j' [[n A] B] _ _ H H'. apply in_bucket in H, H'.
        destruct H as [_ [_ [-> _]]]. destruct H' as [_ [_ [-> _]]].
        reflexivity.
    + intros i i' [[n A] B] _ _ H H'.
      apply in_flat_map in H, H'.
      destruct H as [j [_ H]]. destruct H' as [j' [_ H']].
      apply in_bucket in H, H'.
      destruct H as [_ [-> _]]. destruct H' as [_ [-> _]]. reflexivity.
  - intros [[n A] B] [[n' A'] B'] H H' E.
    unfold class_gt, class_test, c_first, c_second in E. cbn [fst snd] in E.
    injection E as <- <-.
    apply in_classes in H, H'.
    destruct H as [_ [_ [_ ->]]]. destruct H' as [_ [_ [_ ->]]]. reflexivity.
Qed.

(** What [labels] holds: one class for each pair of label tuples that
    some coordinate carries, neither tuple empty, with the number of the
    coordinates that carry the pair. *)
Lemma classes_by_coordinate (labels : list class) :
  classes_of_rows (unified g t) = Ok labels ->
  NoDup (map (fun c : class => (class_gt c, class_test c)) labels)
  /\ (forall cls, In cls labels ->
        class_gt cls <> [] /\ class_test cls <> []
        /\ number_of_coords
             (fun p => listed_tuple g p (class_gt cls)
                       /\ listed_tuple t p (class_test cls))
             (class_size cls))
  /\ (forall p a b,
        listed_tuple g p a -> listed_tuple t p b -> a <> [] -> b <> [] ->
        exists cls, In cls labels /\ class_gt cls = a /\ class_test cls = b).
Proof.
  intros H. apply classes_of_rows_inv in H. fold U in H. fold gs in H.
  subst labels. split; [apply classes_nodup |]. split.
  - intros [[n A] B] Hin. apply in_classes in Hin.
    destruct Hin as [HA [HB [_ Hn]]].
    unfold class_gt, class_test, class_size, c_first, c_second, c_count.
    cbn [fst snd]. split; [exact HA |]. split; [exact HB |].
    exists (map group_coord
                (filter (fun grp => cell_eqb (A, B) (cell_of_group grp)) gs)).
    split; [apply NoDup_map_filter, group_coords_nodup, unified_rows_sorted |].
    split; [| rewrite length_map; exact Hn].
    intros p. rewrite in_map_iff. split.
    + intros [grp [<- Hgrp]]. apply filter_In in Hgrp.
      destruct Hgrp as [Hgrp E]. apply cell_eqb_eq in E.
      destruct (group_tuples grp Hgrp) as [H1 H2].
      rewrite <- E in H1, H2. cbn [fst snd] in H1, H2. split; assumption.
    + intros [H1 H2].
      destruct (group_with_tuples p A B H1 H2 HA) as [grp [Hgrp [Hc E]]].
      exists grp. split; [exact Hc |]. apply filter_In.
      split; [exact Hgrp |]. apply cell_eqb_eq. symmetry. exact E.
  - intros p a b Ha Hb Hna Hnb.
    destruct (group_with_tuples p a b Ha Hb Hna) as [grp [Hgrp [_ E]]].
    eexists (_, a, b). split; [| split; reflexivity].
    apply in_classes. split; [exact Hna |]. split; [exact Hnb |].
    split; [exists grp; split; assumption | reflexivity].
Qed.

End ClassesByCoordinate.

(* The indices do not depend on the order the classes are listed in. *)

Lemma omega_perm (labels labels' : list class) :
  Forall class_ok labels -> Permutation labels' labels ->
  omega_rand_index labels' = omega_rand_index labels
  /\ omega_adjusted_rand_index labels' = omega_adjusted_rand_index labels.
Proof.
  intros Hok Hperm.
  assert (Hp1 : Permutation (map swap_class labels) (map swap_class labels))
    by apply Permutation_refl.
  pose proof (swapped_ok labels _ Hok Hp1) as Hok2.
  assert (Hp2 : Permutation labels'
                            (map swap_class (map swap_class labels))).
  { rewrite map_map, (map_ext _ (fun c => c) swap_class_swap), map_id.
    exact Hperm. }
  split.
  - rewrite (swapped_rand_index _ _ Hok2 Hp2).
    apply (swapped_rand_index _ _ Hok Hp1).
  - rewrite (swapped_adjusted_rand_index _ _ Hok2 Hp2).
    apply (swapped_adjusted_rand_index _ _ Hok Hp1).
Qed.

Lemma number_of_coords_unique (P : Z * Z -> Prop) (n m : Z) :
  number_of_coords P n -> number_of_coords P m -> n = m.
Proof.
  intros [ps [H1 [H2 ->]]] [qs [H3 [H4 ->]]]. f_equal.
  apply Permutation_length. apply NoDup_Permutation; try assumption.
  intros p. rewrite H2, H4. reflexivity.
Qed.

Lemma listed_classes_in (gt_ijv test_ijv : list triple) (mask : grid bool)
      (labels labels' : list class) (cls : class) :
  listed_classes gt_ijv test_ijv mask labels ->
  listed_classes gt_ijv test_ijv mask labels' ->
  In cls labels -> In cls labels'.
Proof.
  intros [_ [Hs _]] [_ [Hs' Hc']] Hin.
  destruct (Hs cls Hin) as [HA [HB [H1 Hn]]].
  assert (Hp : exists p,
             label_tuple gt_ijv mask p (class_gt cls)
             /\ label_tuple test_ijv mask p (class_test cls)).
  { destruct Hn as [ps [_ [Hps Hlen]]]. destruct ps as [|p ps].
    - simpl in Hlen. lia.
    - exists p. apply Hps. left. reflexivity. }
  destruct Hp as [p [Hg Ht]].
  destruct (Hc' p _ _ Hg Ht HA HB) as [cls' [Hin' [Eg Et]]].
  destruct (Hs' cls' Hin') as [_ [_ [_ Hn']]]. rewrite Eg, Et in Hn'.
  pose proof (number_of_coords_unique _ _ _ Hn Hn') as En.
  assert (E : cls = cls').
  { destruct cls as [[n A] B], cls' as [[n' A'] B'].
    unfold class_gt, class_test, class_size, c_first, c_second, c_count in *.
    cbn [fst snd] in *. congruence. }
  rewrite E. exact Hin'.
Qed.

Lemma listed_classes_perm (gt_ijv test_ijv : list triple) (mask : grid bool)
      (labels labels' : list class) :
  listed_classes gt_ijv test_ijv mask labels ->
  listed_classes gt_ijv test_ijv mask labels' ->
  Permutation labels' labels.
Proof.
  intros H H'. apply NoDup_Permutation.
  - destruct H' as [Hn _]. apply NoDup_map_inv in Hn. exact Hn.
  - destruct H as [Hn _]. apply NoDup_map_inv in Hn. exact Hn.
  - intros cls. split;
      apply (listed_classes_in gt_ijv test_ijv mask); assumption.
Qed.

(** The classes the code collects are those of the specification. *)
Lemma ijv_classes_listed (gt_ijv test_ijv : list triple) (mask : grid bool)
      (labels : list class) :
  ijv_classes gt_ijv test_ijv mask = Ok labels ->
  listed_classes gt_ijv test_ijv mask labels.
Proof.
  intros Hcls. pose proof (ijv_classes_ok _ _ _ _ Hcls) as Hok.
  rewrite ijv_classes_unfold in Hcls.
  destruct (with_background gt_ijv mask) as [g | e] eqn:Hg; [| discriminate].
  destruct (with_background test_ijv mask) as [t | e] eqn:Ht;
    [| discriminate].
  cbn [bind] in Hcls.
  destruct (classes_by_coordinate g t labels Hcls) as [Hn [Hs Hc]].
  split; [exact Hn |]. split.
  - intros cls Hin. destruct (Hs cls Hin) as [HA [HB [ps [H1 [H2 H3]]]]].
    split; [exact HA |]. split; [exact HB |]. split.
    + rewrite Forall_forall in Hok. apply (Hok cls Hin).
    + exists ps. split; [exact H1 |]. split; [| exact H3].
      intros p. rewrite H2.
      rewrite (label_tuple_listed gt_ijv g mask p _ Hg).
      rewrite (label_tuple_listed test_ijv t mask p _ Ht). reflexivity.
  - intros p a b Ha Hb. apply (Hc p).
    + apply (label_tuple_listed gt_ijv g mask p _ Hg). exact Ha.
    + apply (label_tuple_listed test_ijv t mask p _ Ht). exact Hb.
Qed.

(** C1.  On two listings whose coordinates index the mask, with at least
    one row to work on, [compute_rand_index_ijv] returns
    [rand_index = (sum of tbl[i][i], i < min_JK) / N_total] and
    [adjusted_rand_index = (rand_index - e_omega) / (1 - e_omega)] with
    [e_omega = (sum of row_sum(tbl)[i] * col_sum(tbl)[i]) / N_total^2] on
    the [min_JK x min_JK] block.  Here [tbl[hits_test][hits_gt]] adds up,
    over the unordered pairs of classes, [choose2] of the class size for a
    class paired with itself and the product of the sizes otherwise,
    under the numbers of test labels and of ground-truth labels the two
    classes share; [N_total] is the sum of all of [tbl]; [min_JK] is one
    more than the smaller of the largest [hits_test] and the largest
    [hits_gt] seen.  The classes are those of the two labelings: one for
    each pair of label tuples, neither empty, that some coordinate
    carries (label 0 standing for the background of a valid pixel), with
    the number of coordinates that carry the pair as its size.  The code
    collects exactly these classes, and the formulas give what it
    returns for any listing of them, in any order. *)
Theorem omega_index_formulas
        (gt_ijv test_ijv : list triple) (mask : grid bool) :
  Forall (in_image mask) gt_ijv ->
  Forall (in_image mask) test_ijv ->
  gt_ijv <> [] \/ test_ijv <> [] \/ 0 < count_true mask ->
  (exists labels : list class,
      ijv_classes gt_ijv test_ijv mask = Ok labels
      /\ listed_classes gt_ijv test_ijv mask labels)
  /\ forall labels : list class,
       listed_classes gt_ijv test_ijv mask labels ->
       compute_rand_index_ijv gt_ijv test_ijv mask
       = Ok (omega_rand_index labels, omega_adjusted_rand_index labels).
Proof.
  intros Hg Ht Hne.
  destruct (ijv_classes_total gt_ijv test_ijv mask Hg Ht Hne)
    as [labels0 [g [t [Hbg [Hbt [_ [_ Hl]]]]]]].
  assert (Hcls : ijv_classes gt_ijv test_ijv mask = Ok labels0).
  { rewrite ijv_classes_unfold, Hbg, Hbt. exact Hl. }
  pose proof (ijv_classes_ok _ _ _ _ Hcls) as Hok.
  pose proof (ijv_classes_listed _ _ _ _ Hcls) as Hlisted.
  split; [exists labels0; split; assumption |].
  intros labels Hlab.
  pose proof (listed_classes_perm _ _ _ _ _ Hlisted Hlab) as Hperm.
  destruct (omega_perm labels0 labels Hok Hperm) as [E1 E2].
  unfold compute_rand_index_ijv. rewrite Hcls. cbn [bind].
  rewrite (rand_of_classes_spec labels0 Hok), E1, E2. reflexivity.
Qed.

Lemma omega_index_formulas_witness :
  (exists labels : list class,
      ijv_classes two_objects_gt two_objects_test [[true; true]; [true; true]]
      = Ok labels
      /\ listed_classes two_objects_gt two_objects_test
                        [[true; true]; [true; true]] labels)
  /\ forall labels : list class,
       listed_classes two_objects_gt two_objects_test
                      [[true; true]; [true; true]] labels ->
       compute_rand_index_ijv two_objects_gt two_objects_test
                              [[true; true]; [true; true]]
       = Ok (omega_rand_index labels, omega_adjusted_rand_index labels).
Proof.
  apply (omega_index_formulas two_objects_gt two_objects_test
                              [[true; true]; [true; true]]).
  - unfold in_image, two_objects_gt. repeat constructor; simpl; lia.
  - unfold in_image, two_objects_test. repeat constructor; simpl; lia.
  - left. discriminate.
Defined.

(* ------------------------------------------------------------------ *)
(** ** Pixel mode: ranges, exchange of the two images, the mask         *)
(* ------------------------------------------------------------------ *)

Lemma ratio_le_1 (num den : Z) (fallback : Q) :
  0 <= num <= den -> (fallback <= 1)%Q ->
  ((if 0 <? den then Qred (inject_Z num / inject_Z den) else fallback) <= 1)%Q.
Proof.
  intros Hn Hf. destruct (0 <? den) eqn:E; [| exact Hf].
  apply Z.ltb_lt in E. rewrite Qred_correct.
  apply Qle_shift_div_r.
  - change 0%Q with (inject_Z 0). rewrite <- Zlt_Qlt. exact E.
  - rewrite Qmult_1_l. rewrite <- Zle_Qle. lia.
Qed.

Lemma f_factor_range (P R : Q) :
  (0 <= P <= 1)%Q -> (0 <= R <= 1)%Q ->
  (0 <= (if Qlt_bool 0 (P + R) then Qred (2 * P * R / (P + R)) else 0) <= 1)%Q.
Proof.
  intros HP HR. destruct (Qlt_bool 0 (P + R)) eqn:E; [| lra].
  apply Qlt_bool_iff in E. rewrite Qred_correct. split.
  - apply Qdiv_nonneg; [| exact E].
    apply Qmult_le_0_compat; [| lra].
    apply Qmult_le_0_compat; lra.
  - apply Qle_shift_div_r; [exact E |].
    assert (H1 : (P * R <= P)%Q).
    { rewrite (Qmult_comm P R). rewrite <- (Qmult_1_l P) at 2.
      apply Qmult_le_compat_r; lra. }
    assert (H2 : (P * R <= R)%Q).
    { rewrite <- (Qmult_1_l R) at 2. apply Qmult_le_compat_r; lra. }
    lra.
Qed.

(** X1.  Every ratio [measure_image] reports (precision, recall,
    F-factor, false positive rate, false negative rate) is a finite
    number between 0 and 1, whatever the three arrays are. *)
Theorem measure_image_unit_interval
        (label : grid bool -> grid Z) (test gt mask : grid bool) :
  exists s : overlap_stats,
    measure_image label test gt mask = Ok s
    /\ unit_interval (precision s)
    /\ unit_interval (recall s)
    /\ unit_interval (f_factor s)
    /\ unit_interval (false_positive_rate s)
    /\ unit_interval (false_negative_rate s).
Proof.
  destruct (measure_image_returns label test gt mask)
    as [s [Hs [H1 [H2 [H3 [H4 [H5 _]]]]]]].
  pose proof (confusion_count_nonneg true true test gt mask) as Htp.
  pose proof (confusion_count_nonneg true false test gt mask) as Hfp.
  pose proof (confusion_count_nonneg false true test gt mask) as Hfn.
  pose proof (confusion_count_nonneg false false test gt mask) as Htn.
  set (tp := confusion_count true true test gt mask) in *.
  set (fp := confusion_count true false test gt mask) in *.
  set (fn := confusion_count false true test gt mask) in *.
  set (tn := confusion_count false false test gt mask) in *.
  assert (HP : (0 <= (if 0 <? tp + fp
                      then Qred (inject_Z tp / inject_Z (tp + fp)) else 1)
                <= 1)%Q).
  { split; [apply ratio_nonneg | apply ratio_le_1]; try lia; lra. }
  assert (HR : (0 <= (if 0 <? tp + fn
                      then Qred (inject_Z tp / inject_Z (tp + fn)) else 1)
                <= 1)%Q).
  { split; [apply ratio_nonneg | apply ratio_le_1]; try lia; lra. }
  exists s. split; [exact Hs |].
  repeat split.
  - eexists. split; [exact H1 | exact HP].
  - eexists. split; [exact H2 | exact HR].
  - eexists. split; [exact H3 | apply f_factor_range; assumption].
  - eexists. split; [exact H4 |].
    split; [apply ratio_nonneg | apply ratio_le_1]; try lia; lra.
  - eexists. split; [exact H5 |].
    split; [apply ratio_nonneg | apply ratio_le_1]; try lia; lra.
Qed.

(** X2.  Recall and false negative rate always add up to 1: both are
    taken over the actual positives, and when there is none the two
    fallbacks are 1 and 0. *)
Theorem recall_and_false_negative_rate
        (label : grid bool -> grid Z) (test gt mask : grid bool) :
  exists (s : overlap_stats) (r n : Q),
    measure_image label test gt mask = Ok s
    /\ recall s = Fin r
    /\ false_negative_rate s = Fin n
    /\ (r + n == 1)%Q.
Proof.
  destruct (measure_image_returns label test gt mask)
    as [s [Hs [_ [H2 [_ [_ [H5 _]]]]]]].
  pose proof (confusion_count_nonneg true true test gt mask) as Htp.
  pose proof (confusion_count_nonneg false true test gt mask) as Hfn.
  set (tp := confusion_count true true test gt mask) in *.
  set (fn := confusion_count false true test gt mask) in *.
  exists s. eexists. eexists. split; [exact Hs |].
  split; [exact H2 |]. split; [exact H5 |].
  destruct (0 <? tp + fn) eqn:E; [| reflexivity].
  apply Z.ltb_lt in E. rewrite !Qred_correct, inject_Z_plus.
  assert (Hne : ~ (inject_Z tp + inject_Z fn == 0)%Q).
  { rewrite <- inject_Z_plus. apply inject_Z_nonzero. lia. }
  field. exact Hne.
Qed.

(* The cells of the two images, exchanged. *)

Lemma cells3_row_swap (r1 r2 rm : list bool) :
  zip_with pair (zip_with pair r2 r1) rm
  = map (fun c : bool * bool * bool => (snd (fst c), fst (fst c), snd c))
        (zip_with pair (zip_with pair r1 r2) rm).
Proof.
  revert r2 rm.
  induction r1 as [|a r1 IH]; intros [|b r2] [|m rm]; try reflexivity.
  cbn [zip_with map fst snd]. rewrite IH. reflexivity.
Qed.

Lemma cells3_swap (a b mask : grid bool) :
  cells3 b a mask
  = map (fun c : bool * bool * bool => (snd (fst c), fst (fst c), snd c))
        (cells3 a b mask).
Proof.
  unfold cells3. revert b mask.
  induction a as [|r1 a IH]; intros [|r2 b] [|rm mask]; try reflexivity.
  cbn [zip_with concat]. rewrite map_app, <- IH, cells3_row_swap.
  reflexivity.
Qed.

Lemma length_filter_map {A B : Type} (P : B -> bool) (f : A -> B) (l : list A) :
  length (filter P (map f l)) = length (filter (fun x => P (f x)) l).
Proof.
  induction l as [|x l IH]; [reflexivity |].
  simpl. destruct (P (f x)); simpl; rewrite IH; reflexivity.
Qed.

Lemma confusion_count_swap (t g : bool) (a b mask : grid bool) :
  confusion_count t g a b mask = confusion_count g t b a mask.
Proof.
  unfold confusion_count. rewrite (cells3_swap a b mask), length_filter_map.
  do 2 f_equal. apply filter_ext. intros [[x y] m]. cbn [fst snd].
  destruct (Bool.eqb x t), (Bool.eqb y g), m; reflexivity.
Qed.

(** X3.  Exchanging the test image and the ground truth exchanges
    precision and recall and leaves the F-factor unchanged. *)
Theorem measure_image_exchange
        (label : grid bool -> grid Z) (a b mask : grid bool) :
  exists s s' : overlap_stats,
    measure_image label a b mask = Ok s
    /\ measure_image label b a mask = Ok s'
    /\ precision s' = recall s
    /\ recall s' = precision s
    /\ f_factor s' = f_factor s.
Proof.
  destruct (measure_image_returns label a b mask)
    as [s [Hs [H1 [H2 [H3 _]]]]].
  destruct (measure_image_returns label b a mask)
    as [s' [Hs' [H1' [H2' [H3' _]]]]].
  rewrite <- (confusion_count_swap true true a b mask) in H1', H2', H3'.
  rewrite <- (confusion_count_swap false true a b mask) in H1', H3'.
  rewrite <- (confusion_count_swap true false a b mask) in H2', H3'.
  exists s, s'. split; [exact Hs |]. split; [exact Hs' |].
  split; [rewrite H1', H2; reflexivity |].
  split; [rewrite H2', H1; reflexivity |].
  rewrite H3', H3.
  set (P := if 0 <? confusion_count true true a b mask
                   + confusion_count true false a b mask
            then Qred (inject_Z (confusion_count true true a b mask)
                       / inject_Z (confusion_count true true a b mask
                                   + confusion_count true false a b mask))
            else 1%Q).
  set (R := if 0 <? confusion_count true true a b mask
                   + confusion_count false true a b mask
            then Qred (inject_Z (confusion_count true true a b mask)
                       / inject_Z (confusion_count true true a b mask
                                   + confusion_count false true a b mask))
            else 1%Q).
  rewrite (Qlt_bool_Qeq 0 0 (R + P) (P + R) (Qeq_refl 0) (Qplus_comm R P)).
  destruct (Qlt_bool 0 (P + R)); [| reflexivity].
  f_equal. apply Qred_complete.
  rewrite (Qplus_comm R P). unfold Qdiv.
  apply Qmult_comp; [ring | reflexivity].
Qed.

(* Pixels outside the mask. *)

Lemma masked_row (p q : bool -> bool) (r1 r2 rm : list bool) :
  zip_with (fun v m => if negb m then false else v)
           (zip_with andb (map p (zip_with andb r1 rm))
                          (map q (zip_with andb r2 rm))) rm
  = zip_with (fun v m => if negb m then false else v)
             (zip_with andb (map p r1) (map q r2)) rm.
Proof.
  revert r2 rm.
  induction r1 as [|a r1 IH]; intros r2 rm; [reflexivity |].
  destruct rm as [|m rm]; [destruct r2; reflexivity |].
  destruct r2 as [|b r2]; [reflexivity |].
  cbn [zip_with map]. rewrite IH.
  destruct m; [rewrite !andb_true_r |]; reflexivity.
Qed.

Lemma masked_cells (p q : bool -> bool) (a b mask : grid bool) :
  clear_unmasked (grid_map2 andb (grid_map p (masked a mask))
                                 (grid_map q (masked b mask))) mask
  = clear_unmasked (grid_map2 andb (grid_map p a) (grid_map q b)) mask.
Proof.
  unfold clear_unmasked, masked, grid_map2, grid_map. revert b mask.
  induction a as [|r1 a IH]; intros b mask; [reflexivity |].
  destruct mask as [|rm mask]; [destruct b; reflexivity |].
  destruct b as [|r2 b]; [reflexivity |].
  cbn [zip_with map]. rewrite IH, masked_row. reflexivity.
Qed.

Lemma masked_row_again (r rm : list bool) :
  zip_with andb (zip_with andb r rm) rm = zip_with andb r rm.
Proof.
  revert rm. induction r as [|a r IH]; intros [|m rm]; try reflexivity.
  cbn [zip_with]. rewrite IH. destruct a, m; reflexivity.
Qed.

Lemma masked_again (a mask : grid bool) :
  masked (masked a mask) mask = masked a mask.
Proof.
  unfold masked, grid_map2. revert mask.
  induction a as [|r a IH]; intros [|rm mask]; try reflexivity.
  cbn [zip_with]. rewrite IH, masked_row_again. reflexivity.
Qed.

(** X4.  Pixels outside the mask never count: [measure_image] gives the
    same answer, measurement by measurement, when both images are
    cleared outside the mask beforehand. *)
Theorem measure_image_ignores_unmasked
        (label : grid bool -> grid Z) (test gt mask : grid bool) :
  measure_image label (masked test mask) (masked gt mask) mask
  = measure_image label test gt mask.
Proof.
  unfold measure_image.
  pose proof (masked_cells (fun x => x) (fun x => x) test gt mask) as Htp.
  pose proof (masked_cells (fun x => x) negb test gt mask) as Hfp.
  pose proof (masked_cells negb (fun x => x) test gt mask) as Hfn.
  pose proof (masked_cells negb negb test gt mask) as Htn.
  repeat rewrite grid_map_id in Htp.
  repeat rewrite grid_map_id in Hfp.
  repeat rewrite grid_map_id in Hfn.
  rewrite Htp, Hfp, Hfn, Htn.
  pose proof (masked_again gt mask) as Hg.
  pose proof (masked_again test mask) as Ht.
  unfold masked in Hg, Ht. unfold masked.
  rewrite Hg, Ht. reflexivity.
Qed.

(** X5.  [compute_rand_index] is symmetric: exchanging the two label
    images changes neither index. *)
Theorem rand_index_symmetric (a b : grid Z) (mask : grid bool) :
  same_shape a mask -> same_shape b mask ->
  compute_rand_index a b mask = compute_rand_index b a mask.
Proof. apply compute_rand_index_swap. Qed.

Lemma rand_index_symmetric_witness :
  compute_rand_index [[1; 1]; [0; 2]] [[1; 1]; [2; 0]]
                     [[true; true]; [true; false]]
  = compute_rand_index [[1; 1]; [2; 0]] [[1; 1]; [0; 2]]
                       [[true; true]; [true; false]].
Proof.
  apply (rand_index_symmetric [[1; 1]; [0; 2]] [[1; 1]; [2; 0]]
                              [[true; true]; [true; false]]).
  - repeat constructor.
  - repeat constructor.
Defined.

(* ------------------------------------------------------------------ *)
(** ** The module: settings, upgrades and measurement names             *)
(* ------------------------------------------------------------------ *)

Lemma mode_cases (mode : String.string) :
  (mode = O_IMG /\ String.eqb mode O_IMG = true
   /\ String.eqb mode O_OBJ = false)
  \/ (mode = O_OBJ /\ String.eqb mode O_IMG = false
      /\ String.eqb mode O_OBJ = true)
  \/ (mode <> O_IMG /\ mode <> O_OBJ /\ String.eqb mode O_IMG = false
      /\ String.eqb mode O_OBJ = false).
Proof.
  destruct (String.eqb mode O_IMG) eqn:E1.
  - apply String.eqb_eq in E1. subst mode. left. auto.
  - apply String.eqb_neq in E1.
    destruct (String.eqb mode O_OBJ) eqn:E2.
    + apply String.eqb_eq in E2. subst mode. right. left. auto.
    + apply String.eqb_neq in E2. right. right. auto.
Qed.

(** X6.  Whatever the mode, the visible settings are settings of the
    module, none twice, with the mode choice first; and every setting
    of the module is shown in one of the two modes of [O_ALL]. *)
Theorem visible_settings_cover :
  (forall self : module_settings,
      hd_error (visible_settings self) = Some Obj_or_img
      /\ incl (visible_settings self) settings
      /\ NoDup (visible_settings self))
  /\ (forall s : setting,
         In s settings ->
         exists mode, In mode O_ALL
                      /\ forall self, obj_or_img self = mode ->
                                      In s (visible_settings self)).
Proof.
  split.
  - intros self. unfold visible_settings.
    destruct (String.eqb (obj_or_img self) O_IMG);
      [| destruct (String.eqb (obj_or_img self) O_OBJ)];
      (split; [reflexivity |]; split;
       [intros s Hs; unfold settings; simpl in Hs |- *; tauto
       | repeat constructor; simpl; intuition discriminate]).
  - intros s Hs.
    assert (Himg : forall self, obj_or_img self = O_IMG ->
                                visible_settings self
                                = [Obj_or_img; Ground_truth; Test_img]).
    { intros self E. unfold visible_settings. rewrite E. reflexivity. }
    assert (Hobj : forall self, obj_or_img self = O_OBJ ->
                                visible_settings self
                                = [Obj_or_img; Object_name_GT;
                                   Img_obj_found_in_GT; Object_name_ID;
                                   Img_obj_found_in_ID]).
    { intros self E. unfold visible_settings. rewrite E. reflexivity. }
    destruct s.
    + exists O_IMG. split; [right; left; reflexivity |].
      intros self E. rewrite (Himg self E). simpl.
      repeat (first [left; reflexivity | right]).
    + exists O_IMG. split; [right; left; reflexivity |].
      intros self E. rewrite (Himg self E). simpl.
      repeat (first [left; reflexivity | right]).
    + exists O_IMG. split; [right; left; reflexivity |].
      intros self E. rewrite (Himg self E). simpl.
      repeat (first [left; reflexivity | right]).
    + exists O_OBJ. split; [left; reflexivity |].
      intros self E. rewrite (Hobj self E). simpl.
      repeat (first [left; reflexivity | right]).
    + exists O_OBJ. split; [left; reflexivity |].
      intros self E. rewrite (Hobj self E). simpl.
      repeat (first [left; reflexivity | right]).
    + exists O_OBJ. split; [left; reflexivity |].
      intros self E. rewrite (Hobj self E). simpl.
      repeat (first [left; reflexivity | right]).
    + exists O_OBJ. split; [left; reflexivity |].
      intros self E. rewrite (Hobj self E). simpl.
      repeat (first [left; reflexivity | right]).
Qed.

Lemma py_get_0 {A : Type} (a : A) (l : list A) : py_get (a :: l) 0 = Ok a.
Proof.
  unfold py_get, np_index.
  assert (H : (0 <=? 0) && (0 <? Z.of_nat (length (a :: l))) = true).
  { apply andb_true_intro. split; [reflexivity |].
    apply Z.ltb_lt. simpl length. lia. }
  rewrite H. reflexivity.
Qed.

Lemma py_get_1 {A : Type} (a b : A) (l : list A) :
  py_get (a :: b :: l) 1 = Ok b.
Proof.
  unfold py_get, np_index.
  assert (H : (0 <=? 1) && (1 <? Z.of_nat (length (a :: b :: l))) = true).
  { apply andb_true_intro. split; [reflexivity |].
    apply Z.ltb_lt. simpl length. lia. }
  rewrite H. reflexivity.
Qed.

Lemma upgrade_from_one (setting_values : list String.string) (from_matlab : bool) :
  upgrade_settings setting_values 1 from_matlab
  = match setting_values with
    | a :: b :: _ => Ok ([O_IMG; a; b], 2, false)
    | _ => Raise IndexError
    end.
Proof.
  unfold upgrade_settings.
  assert (E : (if from_matlab then (false, 1) else (from_matlab, 1))
              = (false, 1)) by (destruct from_matlab; reflexivity).
  rewrite E. cbn [Z.eqb Pos.eqb].
  destruct setting_values as [|a [|b l]].
  - reflexivity.
  - rewrite py_get_0. reflexivity.
  - rewrite py_get_0, py_get_1. reflexivity.
Qed.

(** X7.  A list of revision 1, or one that comes from Matlab whatever
    its revision, upgrades to revision 2 in image mode: the result is
    [O_IMG] followed by the first two values, any further value is
    dropped and the Matlab flag is cleared.  With fewer than two values
    the upgrade raises [IndexError]. *)
Theorem upgrade_settings_revision_one
        (setting_values : list String.string)
        (variable_revision_number : Z) (from_matlab : bool) :
  from_matlab = true \/ variable_revision_number = 1 ->
  upgrade_settings setting_values variable_revision_number from_matlab
  = match setting_values with
    | a :: b :: _ => Ok ([O_IMG; a; b], 2, false)
    | _ => Raise IndexError
    end.
Proof.
  intros [-> | ->]; [| apply upgrade_from_one].
  rewrite <- (upgrade_from_one setting_values true). reflexivity.
Qed.

Lemma upgrade_settings_revision_one_witness :
  upgrade_settings ["gt"%string; "test"%string; "more"%string] 7 true
  = Ok ([O_IMG; "gt"%string; "test"%string], 2, false).
Proof.
  apply (upgrade_settings_revision_one
           ["gt"%string; "test"%string; "more"%string] 7 true).
  left. reflexivity.
Defined.

(** X8.  Upgrading is idempotent: whatever [upgrade_settings] returns
    is returned unchanged when it is upgraded again; lists of another
    revision than 1 that do not come from Matlab are returned as they
    are. *)
Theorem upgrade_settings_idempotent
        (setting_values : list String.string)
        (variable_revision_number : Z) (from_matlab : bool)
        (out : list String.string * Z * bool) :
  upgrade_settings setting_values variable_revision_number from_matlab
  = Ok out ->
  upgrade_settings (fst (fst out)) (snd (fst out)) (snd out) = Ok out
  /\ (from_matlab = false -> variable_revision_number <> 1 ->
      out = (setting_values, variable_revision_number, from_matlab)).
Proof.
  intros H.
  destruct from_matlab.
  - change (upgrade_settings setting_values variable_revision_number true)
      with (upgrade_settings setting_values 1 true) in H.
    rewrite upgrade_from_one in H.
    destruct setting_values as [|a [|b l]]; try discriminate.
    injection H as <-. split; [reflexivity | discriminate].
  - destruct (Z.eq_dec variable_revision_number 1) as [-> | Hne].
    + rewrite upgrade_from_one in H.
      destruct setting_values as [|a [|b l]]; try discriminate.
      injection H as <-. split; [reflexivity | intros _ Hc; congruence].
    + unfold upgrade_settings in H.
      apply Z.eqb_neq in Hne. rewrite Hne in H. injection H as <-.
      split; [| reflexivity].
      cbn [fst snd]. unfold upgrade_settings. rewrite Hne. reflexivity.
Qed.

Lemma upgrade_settings_idempotent_witness :
  upgrade_settings [O_IMG; "gt"%string; "test"%string] 2 false
  = Ok ([O_IMG; "gt"%string; "test"%string], 2, false)
  /\ (false = false -> 1 <> 1 ->
      ([O_IMG; "gt"%string; "test"%string], 2, false)
      = (["gt"%string; "test"%string], 1, false)).
Proof.
  apply (upgrade_settings_idempotent
           ["gt"%string; "test"%string] 1 false
           ([O_IMG; "gt"%string; "test"%string], 2, false)).
  reflexivity.
Defined.

(* ------------------------------------------------------------------ *)
(** ** Measurement names, declared columns and what [run] records       *)
(* ------------------------------------------------------------------ *)

Lemma measurement_name_image (self : module_settings) (feature : String.string) :
  obj_or_img self = O_IMG ->
  measurement_name self feature
  = inl (join_underscore [C_IMAGE_OVERLAP; feature; test_img self]).
Proof. intros E. unfold measurement_name. rewrite E. reflexivity. Qed.

Lemma measurement_name_objects (self : module_settings) (feature : String.string) :
  obj_or_img self = O_OBJ ->
  measurement_name self feature
  = inl (join_underscore [C_IMAGE_OVERLAP; feature; img_obj_found_in_GT self]).
Proof. intros E. unfold measurement_name. rewrite E. reflexivity. Qed.

Lemma measurement_name_other (self : module_settings) (feature : String.string) :
  obj_or_img self <> O_IMG -> obj_or_img self <> O_OBJ ->
  measurement_name self feature = inr UnboundLocalError.
Proof.
  intros H1 H2. unfold measurement_name.
  apply String.eqb_neq in H1, H2. rewrite H1, H2. reflexivity.
Qed.

(** X9.  [measurement_name] fails with [UnboundLocalError] exactly when
    the mode is neither of the two choices; otherwise the name is
    [Overlap_<feature>_<image>], the image being the test image in image
    mode and the image the ground-truth objects were found in in object
    mode. *)
Theorem measurement_name_cases (self : module_settings) (feature : String.string) :
  (measurement_name self feature = inr UnboundLocalError
   <-> obj_or_img self <> O_IMG /\ obj_or_img self <> O_OBJ)
  /\ (obj_or_img self = O_IMG ->
      measurement_name self feature
      = inl (String.append "Overlap_"
               (String.append feature
                  (String.append "_" (test_img self)))))
  /\ (obj_or_img self = O_OBJ ->
      measurement_name self feature
      = inl (String.append "Overlap_"
               (String.append feature
                  (String.append "_" (img_obj_found_in_GT self))))).
Proof.
  split; [| split].
  - destruct (mode_cases (obj_or_img self))
      as [[E _] | [[E _] | [H1 [H2 _]]]].
    + rewrite (measurement_name_image self feature E). split.
      * discriminate.
      * intros [H _]. contradiction.
    + rewrite (measurement_name_objects self feature E). split.
      * discriminate.
      * intros [_ H]. contradiction.
    + rewrite (measurement_name_other self feature H1 H2). tauto.
  - intros E. rewrite (measurement_name_image self feature E). reflexivity.
  - intros E. rewrite (measurement_name_objects self feature E). reflexivity.
Qed.

Lemma append_inv_head (a b c : String.string) :
  String.append a b = String.append a c -> b = c.
Proof.
  induction a as [|x a IH]; simpl; intros H; [exact H |].
  injection H as H. apply IH. exact H.
Qed.

Lemma join_inv_last (feature x y : String.string) :
  join_underscore [C_IMAGE_OVERLAP; feature; x]
  = join_underscore [C_IMAGE_OVERLAP; feature; y] -> x = y.
Proof.
  unfold join_underscore. cbn [String.concat]. intros H.
  apply append_inv_head in H. apply append_inv_head in H.
  apply append_inv_head in H. apply append_inv_head in H. exact H.
Qed.

(** The names of the declared columns. *)
Lemma column_names (IMAGE COLTYPE_FLOAT : String.string) (self : module_settings) :
  map (fun c : String.string * String.string * String.string => snd (fst c))
      (get_measurement_columns IMAGE COLTYPE_FLOAT self)
  = map (fun feature =>
           join_underscore [C_IMAGE_OVERLAP; feature; test_img self])
        FTR_ALL.
Proof. unfold get_measurement_columns. rewrite map_map. reflexivity. Qed.

(** X10.  The columns [get_measurement_columns] declares are named after
    the test image.  In image mode they are the seven names
    [measurement_name] gives, in the order of [FTR_ALL]; in object mode
    they are those names only when the test image setting holds the
    same value as the setting for the image the ground-truth objects
    were found in. *)
Theorem declared_columns_and_names
        (IMAGE COLTYPE_FLOAT : String.string) (self : module_settings) :
  let declared :=
    map (fun c : String.string * String.string * String.string =>
           inl (snd (fst c)) : outcome String.string)
        (get_measurement_columns IMAGE COLTYPE_FLOAT self) in
  (obj_or_img self = O_IMG ->
   declared = map (measurement_name self) FTR_ALL)
  /\ (obj_or_img self = O_OBJ ->
      (declared = map (measurement_name self) FTR_ALL
       <-> test_img self = img_obj_found_in_GT self)).
Proof.
  intros declared.
  assert (Hd : declared
               = map (fun feature =>
                        inl (join_underscore
                               [C_IMAGE_OVERLAP; feature; test_img self]))
                     FTR_ALL).
  { unfold declared, get_measurement_columns. rewrite map_map. reflexivity. }
  split.
  - intros E. rewrite Hd. apply map_ext. intros f.
    symmetry. apply measurement_name_image. exact E.
  - intros E. rewrite Hd. split.
    + intros H. unfold FTR_ALL in H. cbn [map] in H.
      injection H as H _.
      rewrite (measurement_name_objects self _ E) in H.
      apply (join_inv_last FTR_F_FACTOR). congruence.
    + intros H. apply map_ext. intros f.
      rewrite (measurement_name_objects self f E), H. reflexivity.
Qed.

Lemma column_names_nodup (x : String.string) :
  NoDup (map (fun feature => join_underscore [C_IMAGE_OVERLAP; feature; x])
             FTR_ALL).
Proof.
  unfold FTR_ALL, join_underscore. cbn [map String.concat].
  unfold C_IMAGE_OVERLAP, FTR_F_FACTOR, FTR_PRECISION, FTR_RECALL,
    FTR_FALSE_POS_RATE, FTR_FALSE_NEG_RATE, FTR_RAND_INDEX,
    FTR_ADJUSTED_RAND_INDEX.
  cbn [String.append].
  repeat (constructor; [simpl; intuition congruence |]).
  constructor.
Qed.

Lemma record_stats_image (self : module_settings) (s : overlap_stats) :
  obj_or_img self = O_IMG ->
  record_stats self s
  = inl (combine
           (map (fun feature =>
                   join_underscore [C_IMAGE_OVERLAP; feature; test_img self])
                FTR_ALL)
           [f_factor s; precision s; recall s; false_positive_rate s;
            false_negative_rate s; rand_index s; adjusted_rand_index s]).
Proof.
  intros E. unfold record_stats. cbn [add_image_measurements].
  rewrite !(measurement_name_image self _ E). reflexivity.
Qed.

(** X11.  In image mode [run] never raises and records exactly seven
    measurements: the statistics of [measure_image], under the names of
    the declared columns and in their order, no name twice.  In a mode
    that is neither choice it records nothing. *)
Theorem run_records_declared_columns
        (IMAGE COLTYPE_FLOAT : String.string)
        (label : grid bool -> grid Z) (self : module_settings)
        (ws : workspace) :
  (obj_or_img self = O_IMG ->
   exists s : overlap_stats,
     measure_image label (ws_test_pixels ws) (ws_ground_truth_pixels ws)
                   (ws_mask ws) = Ok s
     /\ run label self ws
        = inl (combine
                 (map (fun c : String.string * String.string * String.string =>
                         snd (fst c))
                      (get_measurement_columns IMAGE COLTYPE_FLOAT self))
                 [f_factor s; precision s; recall s; false_positive_rate s;
                  false_negative_rate s; rand_index s;
                  adjusted_rand_index s])
     /\ NoDup (map (fun c : String.string * String.string * String.string =>
                      snd (fst c))
                   (get_measurement_columns IMAGE COLTYPE_FLOAT self)))
  /\ (obj_or_img self <> O_IMG -> obj_or_img self <> O_OBJ ->
      run label self ws = inl []).
Proof.
  split.
  - intros E.
    destruct (measure_image_returns label (ws_test_pixels ws)
                (ws_ground_truth_pixels ws) (ws_mask ws)) as [s [Hs _]].
    exists s. split; [exact Hs |]. rewrite column_names. split.
    + unfold run. rewrite E, Hs. cbn [String.eqb].
      change (String.eqb O_IMG O_IMG) with true. cbv iota.
      apply record_stats_image. exact E.
    + apply column_names_nodup.
  - intros H1 H2. unfold run.
    apply String.eqb_neq in H1, H2. rewrite H1, H2. reflexivity.
Qed.

Lemma in_FTR_ALL (measurement : String.string) :
  existsb (String.eqb measurement) FTR_ALL = true <-> In measurement FTR_ALL.
Proof.
  rewrite existsb_exists. split.
  - intros [x [Hx E]]. apply String.eqb_eq in E. subst x. exact Hx.
  - intros H. exists measurement. split; [exact H | apply String.eqb_refl].
Qed.

(** X12.  The three listing functions agree: [get_measurement_images]
    answers with the test image exactly for a measurement
    [get_measurements] lists under a category [get_categories] lists
    for that object name, and with nothing otherwise; the measurements
    listed are those of [FTR_ALL], for the image-level [Overlap]
    category only. *)
Theorem measurement_listings_agree
        (IMAGE : String.string) (self : module_settings)
        (object_name category measurement : String.string) :
  (In category (get_categories IMAGE object_name)
   <-> object_name = IMAGE /\ category = C_IMAGE_OVERLAP)
  /\ (In measurement (get_measurements IMAGE object_name category)
      <-> In category (get_categories IMAGE object_name)
          /\ In measurement FTR_ALL)
  /\ (In measurement (get_measurements IMAGE object_name category) ->
      get_measurement_images IMAGE self object_name category measurement
      = [test_img self])
  /\ (~ In measurement (get_measurements IMAGE object_name category) ->
      get_measurement_images IMAGE self object_name category measurement
      = []).
Proof.
  unfold get_categories, get_measurements, get_measurement_images.
  destruct (String.eqb object_name IMAGE) eqn:E1.
  - apply String.eqb_eq in E1. subst object_name.
    destruct (String.eqb category C_IMAGE_OVERLAP) eqn:E2.
    + apply String.eqb_eq in E2. subst category. cbn [andb].
      split; [| split; [| split]].
      * split; [intros _; auto | intros _; left; reflexivity].
      * split; [intros H; split; [left; reflexivity | exact H]
               | intros [_ H]; exact H].
      * intros H. apply in_FTR_ALL in H. rewrite H. reflexivity.
      * intros H.
        destruct (existsb (String.eqb measurement) FTR_ALL) eqn:E;
          [| reflexivity].
        apply in_FTR_ALL in E. contradiction.
    + apply String.eqb_neq in E2. cbn [andb].
      split; [| split; [| split]].
      * split; [intros [H | []]; symmetry in H; contradiction
               | intros [_ H]; contradiction].
      * split; [intros [] | intros [[H | []] _]; symmetry in H; contradiction].
      * intros [].
      * reflexivity.
  - apply String.eqb_neq in E1. cbn [andb].
    split; [| split; [| split]].
    + split; [intros [] | intros [H _]; contradiction].
    + split; [intros [] | intros [[] _]].
    + intros [].
    + reflexivity.
Qed.

(* ------------------------------------------------------------------ *)
(** ** Object mode: the matrix, the dominant ids and the counts         *)
(* ------------------------------------------------------------------ *)

Lemma py_max_spec (l : list Z) (m : Z) :
  py_max l = Ok m -> In m l /\ Forall (fun x => x <= m) l.
Proof.
  destruct l as [|x l]; [discriminate |]. simpl. intros H. injection H as <-.
  assert (G : forall (l : list Z) (a : Z),
             (fold_left Z.max l a = a \/ In (fold_left Z.max l a) l)
             /\ a <= fold_left Z.max l a
             /\ Forall (fun x => x <= fold_left Z.max l a) l).
  { clear. induction l as [|y l IH]; intros a; simpl.
    - split; [left; reflexivity | split; [lia | constructor]].
    - destruct (IH (Z.max a y)) as [H1 [H2 H3]]. split; [| split].
      + destruct H1 as [H1 | H1]; [| right; right; exact H1].
        destruct (Z.max_spec a y) as [[_ E] | [_ E]]; rewrite E in *.
        * right. left. symmetry. exact H1.
        * left. exact H1.
      + lia.
      + constructor; [lia | exact H3]. }
  destruct (G l x) as [H1 [H2 H3]]. split.
  - destruct H1 as [H1 | H1]; [left; symmetry; exact H1 | right; exact H1].
  - constructor; assumption.
Qed.

Lemma py_max_nonempty (l : list Z) : l <> [] -> exists m, py_max l = Ok m.
Proof. destruct l; [contradiction | intros _; eexists; reflexivity]. Qed.

Lemma measure_objects_empty (gt_ijv test_ijv : list triple)
      (xGT yGT xID yID : nat) (mask : grid bool) :
  gt_ijv = [] \/ test_ijv = [] ->
  measure_objects gt_ijv test_ijv xGT yGT xID yID mask = Raise ValueError.
Proof.
  intros H. unfold measure_objects, match_objects.
  destruct test_ijv as [|t test_ijv]; [reflexivity |].
  destruct H as [-> | H]; [| discriminate].
  reflexivity.
Qed.

(** X13.  In object mode an image set without ground-truth objects, or
    without test objects, makes [run] raise [ValueError]: [max] is taken
    of an empty sequence of labels, and nothing is recorded. *)
Theorem run_without_objects
        (label : grid bool -> grid Z) (self : module_settings)
        (ws : workspace) :
  obj_or_img self = O_OBJ ->
  ws_objects_GT ws = [] \/ ws_objects_ID ws = [] ->
  run label self ws = inr (EngineError ValueError).
Proof.
  intros E H. unfold run. rewrite E.
  change (String.eqb O_OBJ O_IMG) with false.
  change (String.eqb O_OBJ O_OBJ) with true. cbv iota.
  rewrite (measure_objects_empty _ _ _ _ _ _ _ H). reflexivity.
Qed.

Lemma run_without_objects_witness :
  run (fun g => grid_map (fun _ => 0) g)
      {| obj_or_img := O_OBJ; ground_truth := "None"%string; test_img := "None"%string;
         object_name_GT := "Nuclei"%string; img_obj_found_in_GT := "DNA"%string;
         object_name_ID := "Cells"%string; img_obj_found_in_ID := "DNA"%string |}
      {| ws_test_pixels := []; ws_ground_truth_pixels := []; ws_mask := [];
         ws_objects_GT := [((0, 0), 1)]; ws_objects_ID := [];
         ws_xGT := 1; ws_yGT := 1; ws_xID := 1; ws_yID := 1;
         ws_objects_mask := [[true]] |}
  = inr (EngineError ValueError).
Proof.
  apply (run_without_objects
           (fun g => grid_map (fun _ => 0) g)
           {| obj_or_img := O_OBJ; ground_truth := "None"%string; test_img := "None"%string;
              object_name_GT := "Nuclei"%string; img_obj_found_in_GT := "DNA"%string;
              object_name_ID := "Cells"%string; img_obj_found_in_ID := "DNA"%string |}
           {| ws_test_pixels := []; ws_ground_truth_pixels := []; ws_mask := [];
              ws_objects_GT := [((0, 0), 1)]; ws_objects_ID := [];
              ws_xGT := 1; ws_yGT := 1; ws_xID := 1; ws_yID := 1;
         ws_objects_mask := [[true]] |}).
  - reflexivity.
  - right. reflexivity.
Defined.

(* The first maximum of a row. *)

Lemma first_argmax_cons (x y : Z) (l : list Z) :
  first_argmax (x :: y :: l)
  = if nth (first_argmax (y :: l)) (y :: l) 0 <=? x then O
    else S (first_argmax (y :: l)).
Proof. reflexivity. Qed.

Lemma first_argmax_spec (l : list Z) :
  l <> [] ->
  (first_argmax l < length l)%nat
  /\ (forall i, (i < length l)%nat -> nth i l 0 <= nth (first_argmax l) l 0)
  /\ (forall i, (i < first_argmax l)%nat ->
                nth i l 0 < nth (first_argmax l) l 0).
Proof.
  induction l as [|x l IH]; [contradiction |]. intros _.
  destruct l as [|y l].
  - simpl. split; [lia |]. split.
    + intros i Hi. assert (i = 0)%nat by lia. subst i. simpl. lia.
    + intros i Hi. lia.
  - destruct (IH ltac:(discriminate)) as [H1 [H2 H3]].
    rewrite first_argmax_cons.
    remember (y :: l) as l' eqn:El'. clear El' IH.
    remember (first_argmax l') as k eqn:Ek. clear Ek.
    destruct (Z.leb_spec (nth k l' 0) x) as [Hle | Hlt].
    + split; [simpl; lia |]. split.
      * intros [|i] Hi; [simpl; lia |].
        simpl in Hi. specialize (H2 i ltac:(lia)). simpl. lia.
      * intros i Hi. lia.
    + split; [simpl; lia |]. split.
      * intros [|i] Hi; simpl; [lia |].
        simpl in Hi. apply H2. lia.
      * intros [|i] Hi; simpl; [lia |].
        apply H3. lia.
Qed.

(** The entry of [dom_ID] for a row of overlaps. *)
Lemma dominant_of_row_spec (row : list Z) :
  row <> [] -> Forall (fun x => 0 <= x) row ->
  exists d : Z,
    dominant_of_row row = Ok d
    /\ -1 <= d < Z.of_nat (length row)
    /\ (d = -1 <-> forall i, (i < length row)%nat -> nth i row 0 = 0)
    /\ (d <> -1 ->
        forall i, (i < length row)%nat ->
                  nth i row 0 <= nth (Z.to_nat d) row 0
                  /\ ((i < Z.to_nat d)%nat ->
                      nth i row 0 < nth (Z.to_nat d) row 0)).
Proof.
  intros Hne Hpos.
  destruct (first_argmax_spec row Hne) as [H1 [H2 H3]].
  assert (Hnn : forall i, (i < length row)%nat -> 0 <= nth i row 0).
  { intros i Hi. rewrite Forall_forall in Hpos. apply Hpos.
    apply nth_In. exact Hi. }
  unfold dominant_of_row. destruct row as [|x row]; [contradiction |].
  set (l := x :: row) in *.
  match goal with
  | |- context [?a =? 0] => destruct (Z.eqb_spec a 0) as [E | E]
  end;
    change (nth (first_argmax l) l 0 = 0) in E
    || change (nth (first_argmax l) l 0 <> 0) in E.
  - exists (-1). split; [reflexivity |]. split; [lia |]. split.
    + split; [| reflexivity]. intros _ i Hi.
      specialize (H2 i Hi). specialize (Hnn i Hi). lia.
    + intros H. contradiction.
  - exists (Z.of_nat (first_argmax l)). split; [reflexivity |].
    split; [lia |]. split.
    + split; [lia |]. intros H. exfalso. apply E. apply H. exact H1.
    + intros _ i Hi. rewrite Nat2Z.id. split; [apply H2; exact Hi |].
      apply H3.
Qed.

Lemma map_result_spec {A B : Type} (f : A -> result B) (l : list A) (bs : list B) :
  map_result f l = Ok bs -> Forall2 (fun a b => f a = Ok b) l bs.
Proof.
  revert bs. induction l as [|a l IH]; intros bs H.
  - injection H as <-. constructor.
  - simpl in H. destruct (f a) as [b | e] eqn:E; [| discriminate].
    cbn [bind] in H.
    destruct (map_result f l) as [bs' | e]; [| discriminate].
    cbn [bind] in H. injection H as <-. constructor; [exact E |].
    apply IH. reflexivity.
Qed.

Lemma map_result_total {A B : Type} (f : A -> result B) (l : list A) :
  (forall a, In a l -> exists b, f a = Ok b) ->
  exists bs, map_result f l = Ok bs.
Proof.
  induction l as [|a l IH]; intros H; [eexists; reflexivity |].
  destruct (H a (or_introl eq_refl)) as [b Hb].
  destruct IH as [bs Hbs]; [intros a' Ha'; apply H; right; exact Ha' |].
  exists (b :: bs). simpl. rewrite Hb. cbn [bind]. rewrite Hbs. reflexivity.
Qed.

Lemma length_range0 (n : Z) : length (range0 n) = Z.to_nat n.
Proof. unfold range0. rewrite length_map, length_seq. reflexivity. Qed.

Lemma nth_range0 (n : Z) (i : nat) (d : Z) :
  (i < Z.to_nat n)%nat -> nth i (range0 n) d = Z.of_nat i.
Proof. intros H. unfold range0. rewrite nth_map_seq by exact H. reflexivity. Qed.

Lemma nth_map_in {A B : Type} (f : A -> B) (l : list A) (i : nat) (d : A) (e : B) :
  (i < length l)%nat -> nth i (map f l) e = f (nth i l d).
Proof.
  revert i. induction l as [|a l IH]; intros i Hi; [simpl in Hi; lia |].
  destruct i as [|i]; [reflexivity |]. simpl. apply IH. simpl in Hi. lia.
Qed.

Lemma area_overlap_bounds (GT_set ID_set : list (Z * Z)) :
  0 <= area_overlap GT_set ID_set <= set_size GT_set.
Proof.
  unfold area_overlap, set_size.
  pose proof (filter_length_le (fun p => coord_mem p ID_set) GT_set). lia.
Qed.

Lemma overlap_cell (gt_ijv test_ijv : list triple) (ID_obj GT_obj : Z)
      (r c : nat) :
  (r < Z.to_nat ID_obj)%nat -> (c < Z.to_nat GT_obj)%nat ->
  cell (intersect_matrix_of gt_ijv test_ijv ID_obj GT_obj) r c
  = overlap gt_ijv test_ijv (Z.of_nat c) (Z.of_nat r).
Proof.
  intros Hr Hc. unfold cell, intersect_matrix_of, overlap.
  rewrite (nth_map_in _ _ r 0) by (rewrite length_range0; exact Hr).
  rewrite (nth_map_in _ _ c 0) by (rewrite length_range0; exact Hc).
  rewrite !nth_range0 by assumption. reflexivity.
Qed.

Lemma FN_area_cell (gt_ijv test_ijv : list triple) (ID_obj GT_obj : Z)
      (r c : nat) :
  (r < Z.to_nat ID_obj)%nat -> (c < Z.to_nat GT_obj)%nat ->
  cell (FN_area_of gt_ijv test_ijv ID_obj GT_obj) r c
  = set_size (object_set gt_ijv (Z.of_nat c))
    - overlap gt_ijv test_ijv (Z.of_nat c) (Z.of_nat r).
Proof.
  intros Hr Hc. unfold cell, FN_area_of, overlap.
  rewrite (nth_map_in _ _ r 0) by (rewrite length_range0; exact Hr).
  rewrite (nth_map_in _ _ c 0) by (rewrite length_range0; exact Hc).
  rewrite !nth_range0 by assumption. reflexivity.
Qed.

Lemma overlap_rows (gt_ijv test_ijv : list triple) (ID_obj GT_obj : Z)
      (row : list Z) :
  In row (intersect_matrix_of gt_ijv test_ijv ID_obj GT_obj) ->
  length row = Z.to_nat GT_obj /\ Forall (fun x => 0 <= x) row.
Proof.
  unfold intersect_matrix_of. intros H. apply in_map_iff in H.
  destruct H as [jj [<- _]]. split.
  - rewrite length_map, length_range0. reflexivity.
  - apply Forall_forall. intros x Hx. apply in_map_iff in Hx.
    destruct Hx as [ii [<- _]]. apply area_overlap_bounds.
Qed.

Lemma to_set_In (l : list (Z * Z)) (p : Z * Z) : In p (to_set l) <-> In p l.
Proof.
  induction l as [|q l IH]; [reflexivity |].
  cbn [to_set]. destruct (coord_mem q l) eqn:E.
  - rewrite IH. apply coord_mem_In in E. split; [right; assumption |].
    intros [<- | H]; assumption.
  - cbn [In]. rewrite IH. reflexivity.
Qed.

Lemma to_set_NoDup (l : list (Z * Z)) : NoDup (to_set l).
Proof.
  induction l as [|q l IH]; [constructor |].
  cbn [to_set]. destruct (coord_mem q l) eqn:E; [exact IH |].
  constructor; [| exact IH]. rewrite to_set_In. intros H.
  apply coord_mem_In in H. congruence.
Qed.

Lemma object_set_In (ijv : list triple) (k : Z) (p : Z * Z) :
  In p (object_set ijv k) <-> In (p, k) ijv.
Proof.
  unfold object_set. rewrite to_set_In, in_map_iff. split.
  - intros [[q l] [<- H]]. apply filter_In in H. destruct H as [H E].
    cbn [snd] in E. apply Z.eqb_eq in E. subst l. exact H.
  - intros H. exists (p, k). split; [reflexivity |].
    apply filter_In. split; [exact H | apply Z.eqb_refl].
Qed.

Lemma length_filter_negb {A : Type} (f : A -> bool) (l : list A) :
  (length (filter f l) + length (filter (fun x => negb (f x)) l))%nat
  = length l.
Proof.
  induction l as [|a l IH]; [reflexivity |].
  simpl. destruct (f a); simpl; lia.
Qed.

(** The two matrices cell by cell: the shared coordinates of the two
    objects, and the coordinates of the ground-truth object that the
    test object leaves out. *)
Lemma overlap_counts (gt_ijv test_ijv : list triple) (g t : Z) :
  number_of_coords (fun p => In (p, g) gt_ijv /\ In (p, t) test_ijv)
                   (area_overlap (object_set gt_ijv g) (object_set test_ijv t))
  /\ number_of_coords
       (fun p => In (p, g) gt_ijv /\ ~ In (p, t) test_ijv)
       (set_size (object_set gt_ijv g)
        - area_overlap (object_set gt_ijv g) (object_set test_ijv t)).
Proof.
  unfold area_overlap, set_size. split.
  - exists (filter (fun p => coord_mem p (object_set test_ijv t))
                   (object_set gt_ijv g)).
    split; [apply NoDup_filter, to_set_NoDup |]. split; [| reflexivity].
    intros p. rewrite filter_In, coord_mem_In, !object_set_In. reflexivity.
  - exists (filter (fun p => negb (coord_mem p (object_set test_ijv t)))
                   (object_set gt_ijv g)).
    split; [apply NoDup_filter, to_set_NoDup |]. split.
    + intros p. rewrite filter_In, negb_true_iff, !object_set_In.
      rewrite <- (object_set_In test_ijv t p), <- coord_mem_In.
      destruct (coord_mem p (object_set test_ijv t)); split;
        intros [H1 H2]; split; auto; try discriminate.
      exfalso. apply H2. reflexivity.
    + pose proof (length_filter_negb
                    (fun p => coord_mem p (object_set test_ijv t))
                    (object_set gt_ijv g)). lia.
Qed.

Lemma valid_coords (x y : nat) (ijv : list triple) :
  Forall (valid_index x y) ijv ->
  Forall (fun p : Z * Z => - Z.of_nat x <= fst p < Z.of_nat x
                           /\ - Z.of_nat y <= snd p < Z.of_nat y)
         (map t_coord ijv).
Proof.
  intros H. apply Forall_forall. intros p Hp. apply in_map_iff in Hp.
  destruct Hp as [t [<- Ht]]. rewrite Forall_forall in H. apply (H t Ht).
Qed.

(** What the matching stage returns on labelled listings whose
    coordinates index the two images. *)
Lemma match_objects_returns (gt_ijv test_ijv : list triple)
      (xGT yGT xID yID : nat) :
  gt_ijv <> [] -> test_ijv <> [] ->
  Forall (fun l => 1 <= l) (labels_of gt_ijv) ->
  Forall (fun l => 1 <= l) (labels_of test_ijv) ->
  Forall (valid_index xGT yGT) gt_ijv ->
  Forall (valid_index xID yID) test_ijv ->
  exists mt : matching,
    match_objects gt_ijv test_ijv xGT yGT xID yID = Ok mt
    /\ In (mt_ID_obj mt) (labels_of test_ijv)
    /\ Forall (fun l => l <= mt_ID_obj mt) (labels_of test_ijv)
    /\ In (mt_GT_obj mt) (labels_of gt_ijv)
    /\ Forall (fun l => l <= mt_GT_obj mt) (labels_of gt_ijv)
    /\ length (mt_overlap mt) = Z.to_nat (mt_ID_obj mt)
    /\ Forall (fun row => length row = Z.to_nat (mt_GT_obj mt))
              (mt_overlap mt)
    /\ length (mt_dom_ID mt) = Z.to_nat (mt_ID_obj mt)
    /\ Forall (fun d => -1 <= d < mt_GT_obj mt) (mt_dom_ID mt)
    /\ forall r c : nat,
        (r < Z.to_nat (mt_ID_obj mt))%nat ->
        (c < Z.to_nat (mt_GT_obj mt))%nat ->
        number_of_coords
          (fun p => In (p, Z.of_nat c) gt_ijv /\ In (p, Z.of_nat r) test_ijv)
          (cell (mt_overlap mt) r c)
        /\ number_of_coords
             (fun p => In (p, Z.of_nat c) gt_ijv
                       /\ ~ In (p, Z.of_nat r) test_ijv)
             (cell (mt_FN_area mt) r c).
Proof.
  intros Hg Ht Hgl Htl Hgv Htv. unfold match_objects.
  fold (labels_of test_ijv). fold (labels_of gt_ijv).
  destruct (py_max_nonempty (labels_of test_ijv)) as [ID_obj HID].
  { destruct test_ijv; [contradiction | discriminate]. }
  destruct (py_max_nonempty (labels_of gt_ijv)) as [GT_obj HGT].
  { destruct gt_ijv; [contradiction | discriminate]. }
  rewrite HID, HGT. cbn [bind].
  destruct (py_max_spec _ _ HID) as [HIDin HIDmax].
  destruct (py_max_spec _ _ HGT) as [HGTin HGTmax].
  assert (HID1 : 1 <= ID_obj).
  { rewrite Forall_forall in Htl. apply Htl. exact HIDin. }
  assert (HGT1 : 1 <= GT_obj).
  { rewrite Forall_forall in Hgl. apply Hgl. exact HGTin. }
  assert (Hneg : (ID_obj <? 0) || (GT_obj <? 0) = false).
  { apply orb_false_intro; apply Z.ltb_ge; lia. }
  rewrite Hneg. rewrite !zeros_tab.
  destruct (mark_loop_ok xGT yGT (range0 GT_obj)
                         (fun _ => map t_coord gt_ijv) (fun _ _ => 0))
    as [GT_pixels HGTp].
  { intros l _. apply valid_coords. exact Hgv. }
  rewrite HGTp. cbn [bind].
  destruct (mark_loop_ok xID yID (range0 ID_obj)
                         (fun i => map t_coord
                                       (filter (fun t : triple => snd t =? i)
                                               test_ijv)) (fun _ _ => 0))
    as [ID_pixels HIDp].
  { intros l _. apply valid_coords. apply Forall_forall. intros t Ht'.
    apply filter_In in Ht'. destruct Ht' as [Ht' _].
    rewrite Forall_forall in Htv. apply Htv. exact Ht'. }
  rewrite HIDp. cbn [bind].
  set (M := intersect_matrix_of gt_ijv test_ijv ID_obj GT_obj).
  destruct (map_result_total dominant_of_row M) as [dom_ID Hdom].
  { intros row Hrow. destruct (overlap_rows _ _ _ _ _ Hrow) as [Hl Hp].
    destruct (dominant_of_row_spec row) as [d [Hd _]]; [| exact Hp |].
    - intros ->. simpl in Hl. lia.
    - exists d. exact Hd. }
  unfold dominant_ids. fold M. rewrite Hdom. cbn [bind].
  eexists. split; [reflexivity |].
  cbn [mt_ID_obj mt_GT_obj mt_overlap mt_FN_area mt_dom_ID mt_resolved].
  pose proof (map_result_spec _ _ _ Hdom) as HF.
  assert (HlenM : length M = Z.to_nat ID_obj).
  { unfold M, intersect_matrix_of. rewrite length_map, length_range0.
    reflexivity. }
  split; [exact HIDin |]. split; [exact HIDmax |].
  split; [exact HGTin |]. split; [exact HGTmax |].
  split; [exact HlenM |].
  split.
  { apply Forall_forall. intros row Hrow.
    apply (overlap_rows _ _ _ _ _ Hrow). }
  split.
  { rewrite <- HlenM. symmetry. apply (Forall2_length HF). }
  split.
  { assert (HM : forall row, In row M ->
                   length row = Z.to_nat GT_obj
                   /\ Forall (fun x => 0 <= x) row).
    { intros row Hrow. apply (overlap_rows _ _ _ _ _ Hrow). }
    clear - HF HM HGT1. induction HF as [|row d M dom_ID Hd HF IH];
      [constructor |].
    constructor.
    - destruct (HM row (or_introl eq_refl)) as [Hl Hp].
      destruct (dominant_of_row_spec row) as [d' [Hd' [Hr _]]];
        [| exact Hp |].
      + intros ->. simpl in Hl. lia.
      + rewrite Hd in Hd'. injection Hd' as <-. rewrite Hl in Hr. lia.
    - apply IH. intros row' Hrow'. apply HM. right. exact Hrow'. }
  intros r c Hr Hc.
  unfold M. rewrite overlap_cell, FN_area_cell by assumption.
  unfold overlap. apply overlap_counts.
Qed.

(** X14.  For two listings that are not empty, whose labels are at
    least 1 and whose coordinates are indices of the two images, the
    matching stage returns: the overlap matrix has one row for each test
    label from 0 up to the largest less one and one column for each
    ground-truth label from 0 up to the largest less one (the objects
    with the largest labels have no row and no column), its cell (r, c)
    is the number of coordinates that carry label c in the ground truth
    and label r in the test listing, the matching cell of [FN_area] is
    the number of coordinates that carry label c in the ground truth and
    do not carry label r in the test listing, and [dom_ID] has one entry
    per row, each -1 or a column index. *)
Theorem match_objects_shape (gt_ijv test_ijv : list triple)
        (xGT yGT xID yID : nat) :
  gt_ijv <> [] -> test_ijv <> [] ->
  Forall (fun l => 1 <= l) (labels_of gt_ijv) ->
  Forall (fun l => 1 <= l) (labels_of test_ijv) ->
  Forall (valid_index xGT yGT) gt_ijv ->
  Forall (valid_index xID yID) test_ijv ->
  exists mt : matching,
    match_objects gt_ijv test_ijv xGT yGT xID yID = Ok mt
    /\ In (mt_ID_obj mt) (labels_of test_ijv)
    /\ Forall (fun l => l <= mt_ID_obj mt) (labels_of test_ijv)
    /\ In (mt_GT_obj mt) (labels_of gt_ijv)
    /\ Forall (fun l => l <= mt_GT_obj mt) (labels_of gt_ijv)
    /\ length (mt_overlap mt) = Z.to_nat (mt_ID_obj mt)
    /\ Forall (fun row => length row = Z.to_nat (mt_GT_obj mt))
              (mt_overlap mt)
    /\ length (mt_dom_ID mt) = Z.to_nat (mt_ID_obj mt)
    /\ Forall (fun d => -1 <= d < mt_GT_obj mt) (mt_dom_ID mt)
    /\ forall r c : nat,
        (r < Z.to_nat (mt_ID_obj mt))%nat ->
        (c < Z.to_nat (mt_GT_obj mt))%nat ->
        number_of_coords
          (fun p => In (p, Z.of_nat c) gt_ijv /\ In (p, Z.of_nat r) test_ijv)
          (cell (mt_overlap mt) r c)
        /\ number_of_coords
             (fun p => In (p, Z.of_nat c) gt_ijv
                       /\ ~ In (p, Z.of_nat r) test_ijv)
             (cell (mt_FN_area mt) r c).
Proof. apply match_objects_returns. Qed.

Lemma match_objects_shape_witness :
  exists mt : matching,
    match_objects two_objects_gt two_objects_test 2 2 2 2 = Ok mt
    /\ In (mt_ID_obj mt) (labels_of two_objects_test)
    /\ Forall (fun l => l <= mt_ID_obj mt) (labels_of two_objects_test)
    /\ In (mt_GT_obj mt) (labels_of two_objects_gt)
    /\ Forall (fun l => l <= mt_GT_obj mt) (labels_of two_objects_gt)
    /\ length (mt_overlap mt) = Z.to_nat (mt_ID_obj mt)
    /\ Forall (fun row => length row = Z.to_nat (mt_GT_obj mt))
              (mt_overlap mt)
    /\ length (mt_dom_ID mt) = Z.to_nat (mt_ID_obj mt)
    /\ Forall (fun d => -1 <= d < mt_GT_obj mt) (mt_dom_ID mt)
    /\ forall r c : nat,
        (r < Z.to_nat (mt_ID_obj mt))%nat ->
        (c < Z.to_nat (mt_GT_obj mt))%nat ->
        number_of_coords
          (fun p => In (p, Z.of_nat c) two_objects_gt
                    /\ In (p, Z.of_nat r) two_objects_test)
          (cell (mt_overlap mt) r c)
        /\ number_of_coords
             (fun p => In (p, Z.of_nat c) two_objects_gt
                       /\ ~ In (p, Z.of_nat r) two_objects_test)
             (cell (mt_FN_area mt) r c).
Proof.
  apply (match_objects_shape two_objects_gt two_objects_test 2 2 2 2).
  - discriminate.
  - discriminate.
  - repeat constructor; discriminate.
  - repeat constructor; discriminate.
  - repeat constructor; cbn; lia.
  - repeat constructor; cbn; lia.
Defined.

(* ------------------------------------------------------------------ *)
(** ** Object mode: dominance and the counts in closed form             *)
(* ------------------------------------------------------------------ *)

Lemma match_objects_overlap (gt_ijv test_ijv : list triple)
      (xGT yGT xID yID : nat) (mt : matching) :
  match_objects gt_ijv test_ijv xGT yGT xID yID = Ok mt ->
  mt_overlap mt
  = intersect_matrix_of gt_ijv test_ijv (mt_ID_obj mt) (mt_GT_obj mt).
Proof.
  intros H. apply match_objects_parts in H.
  destruct H as [_ [_ [_ [_ [H _]]]]]. exact H.
Qed.

Lemma Forall2_nth_both {A B : Type} (P : A -> B -> Prop) (l : list A)
      (l' : list B) (r : nat) (d : A) (d' : B) :
  Forall2 P l l' -> (r < length l')%nat -> P (nth r l d) (nth r l' d').
Proof.
  intros H. revert r. induction H as [|a b l l' Hab H IH]; intros r Hr.
  - simpl in Hr. lia.
  - destruct r as [|r]; [exact Hab |]. simpl. apply IH. simpl in Hr. lia.
Qed.

(** X15.  Every entry of [dom_ID] is right for its row of the overlap
    matrix: it is -1 exactly when the row holds no overlap at all, and
    otherwise it is the position of the largest overlap of the row, the
    lowest such position when several cells hold it. *)
Theorem dominant_entry_first_maximum
        (gt_ijv test_ijv : list triple) (xGT yGT xID yID : nat)
        (mt : matching) (r : nat) :
  match_objects gt_ijv test_ijv xGT yGT xID yID = Ok mt ->
  (r < length (mt_dom_ID mt))%nat ->
  let d := nth r (mt_dom_ID mt) 0 in
  let width := length (nth r (mt_overlap mt) []) in
  -1 <= d < Z.of_nat width
  /\ (d = -1 <->
      forall c, (c < width)%nat -> cell (mt_overlap mt) r c = 0)
  /\ (d <> -1 ->
      forall c, (c < width)%nat ->
                cell (mt_overlap mt) r c
                <= cell (mt_overlap mt) r (Z.to_nat d)
                /\ ((c < Z.to_nat d)%nat ->
                    cell (mt_overlap mt) r c
                    < cell (mt_overlap mt) r (Z.to_nat d))).
Proof.
  intros H Hr d width.
  destruct (match_objects_inv _ _ _ _ _ _ _ H) as [Hdom _].
  pose proof (match_objects_overlap _ _ _ _ _ _ _ H) as HM.
  pose proof (map_result_spec _ _ _ Hdom) as HF.
  pose proof (Forall2_nth_both _ _ _ r [] 0 HF Hr) as Hd.
  cbv beta in Hd. fold d in Hd.
  assert (Hin : In (nth r (mt_overlap mt) []) (mt_overlap mt)).
  { apply nth_In. rewrite (Forall2_length HF). exact Hr. }
  set (row := nth r (mt_overlap mt) []) in *.
  rewrite HM in Hin.
  destruct (overlap_rows _ _ _ _ _ Hin) as [_ Hpos].
  assert (Hne : row <> []).
  { intros E. rewrite E in Hd. discriminate. }
  destruct (dominant_of_row_spec row Hne Hpos) as [d' [Hd' [H1 [H2 H3]]]].
  rewrite Hd in Hd'. injection Hd' as <-.
  unfold cell. fold row. fold width in H1, H2, H3.
  split; [exact H1 |]. split; [exact H2 | exact H3].
Qed.

Lemma dominant_entry_first_maximum_witness :
  exists mt : matching,
    match_objects collision_gt collision_test 3 4 3 4 = Ok mt
    /\ let d := nth 1 (mt_dom_ID mt) 0 in
       let width := length (nth 1 (mt_overlap mt) []) in
       -1 <= d < Z.of_nat width
       /\ (d = -1 <->
           forall c, (c < width)%nat -> cell (mt_overlap mt) 1 c = 0)
       /\ (d <> -1 ->
           forall c, (c < width)%nat ->
                     cell (mt_overlap mt) 1 c
                     <= cell (mt_overlap mt) 1 (Z.to_nat d)
                     /\ ((c < Z.to_nat d)%nat ->
                         cell (mt_overlap mt) 1 c
                         < cell (mt_overlap mt) 1 (Z.to_nat d))).
Proof.
  eexists. split; [vm_compute; reflexivity |].
  apply (dominant_entry_first_maximum collision_gt collision_test 3 4 3 4).
  - vm_compute. reflexivity.
  - simpl. lia.
Defined.

(* The counts, row by row. *)

Lemma zsum_firstn_skipn (l : list Z) (k : nat) :
  (k < length l)%nat ->
  zsum (firstn k l) + zsum (skipn (S k) l) = zsum l - nth k l 0.
Proof.
  revert k. induction l as [|x l IH]; intros k Hk; [simpl in Hk; lia |].
  destruct k as [|k].
  - simpl. lia.
  - simpl in Hk. specialize (IH k ltac:(lia)).
    change (firstn (S k) (x :: l)) with (x :: firstn k l).
    change (skipn (S (S k)) (x :: l)) with (skipn (S k) l).
    change (nth (S k) (x :: l) 0) with (nth k l 0).
    rewrite !zsum_cons. lia.
Qed.

Lemma zsum_removelast (l : list Z) :
  l <> [] -> zsum (firstn (length l - 1) l) = zsum l - last l 0.
Proof.
  intros Hne. pose proof (app_removelast_last 0 Hne) as E.
  remember (removelast l) as a eqn:Ea. remember (last l 0) as b eqn:Eb.
  clear Ea Eb. subst l.
  rewrite length_app. simpl length.
  replace (length a + 1 - 1)%nat with (length a) by lia.
  rewrite firstn_app, firstn_all, Nat.sub_diag. simpl firstn.
  rewrite app_nil_r, zsum_app. simpl. lia.
Qed.

Lemma nth_last (l : list Z) :
  l <> [] -> nth (length l - 1) l 0 = last l 0.
Proof.
  intros Hne. pose proof (app_removelast_last 0 Hne) as E.
  remember (removelast l) as a eqn:Ea. remember (last l 0) as b eqn:Eb.
  clear Ea Eb. subst l.
  rewrite length_app. simpl length.
  replace (length a + 1 - 1)%nat with (length a) by lia.
  rewrite app_nth2 by lia. rewrite Nat.sub_diag. reflexivity.
Qed.

Lemma py_get_chosen (row : list Z) (d : Z) :
  row <> [] -> -1 <= d < Z.of_nat (length row) ->
  py_get row d = Ok (chosen_cell row d).
Proof.
  intros Hne Hd. unfold py_get, np_index, chosen_cell.
  assert (Hlen : (0 < length row)%nat).
  { destruct row; [contradiction | simpl; lia]. }
  destruct (Z.eqb_spec d (-1)) as [-> | Hd1].
  - assert (E1 : (0 <=? -1) && (-1 <? Z.of_nat (length row)) = false)
      by reflexivity.
    assert (E2 : (- Z.of_nat (length row) <=? -1) && (-1 <? 0) = true).
    { apply andb_true_intro. split; [apply Z.leb_le; lia | reflexivity]. }
    rewrite E1, E2. cbn [bind].
    replace (Z.to_nat (-1 + Z.of_nat (length row))) with (length row - 1)%nat
      by lia.
    rewrite (nth_error_nth' row 0) by lia.
    rewrite (nth_last row Hne). reflexivity.
  - assert (E1 : (0 <=? d) && (d <? Z.of_nat (length row)) = true).
    { apply andb_true_intro. split; [apply Z.leb_le | apply Z.ltb_lt]; lia. }
    rewrite E1. cbn [bind].
    rewrite (nth_error_nth' row 0) by lia. reflexivity.
Qed.

Lemma fp_other_cells (row : list Z) (d : Z) :
  row <> [] -> -1 <= d < Z.of_nat (length row) ->
  zsum (py_slice row 0 d) + zsum (py_slice_from row (d + 1))
  = other_cells row d.
Proof.
  intros Hne Hd. unfold py_slice, py_slice_from, py_clamp, other_cells.
  assert (Hlen : (0 < length row)%nat).
  { destruct row; [contradiction | simpl; lia]. }
  destruct (Z.eqb_spec d (-1)) as [-> | Hd1].
  - change (0 <? 0) with false. change (-1 <? 0) with true.
    change (-1 + 1) with 0. change (0 <? 0) with false. cbv iota.
    replace (Z.max 0 (Z.min (Z.of_nat (length row)) 0)) with 0 by lia.
    replace (Z.max 0 (Z.min (Z.of_nat (length row))
                            (-1 + Z.of_nat (length row))))
      with (Z.of_nat (length row) - 1) by lia.
    change (Z.to_nat 0) with O. change (skipn 0 row) with row.
    replace (Z.to_nat (Z.of_nat (length row) - 1 - 0))
      with (length row - 1)%nat by lia.
    rewrite zsum_removelast by exact Hne. lia.
  - change (0 <? 0) with false. cbv iota.
    assert (E1 : (d <? 0) = false) by (apply Z.ltb_ge; lia).
    assert (E2 : (d + 1 <? 0) = false) by (apply Z.ltb_ge; lia).
    rewrite E1, E2.
    replace (Z.max 0 (Z.min (Z.of_nat (length row)) 0)) with 0 by lia.
    replace (Z.max 0 (Z.min (Z.of_nat (length row)) d)) with d by lia.
    replace (Z.max 0 (Z.min (Z.of_nat (length row)) (d + 1)))
      with (d + 1) by lia.
    change (Z.to_nat 0) with O. change (skipn 0 row) with row.
    replace (Z.to_nat (d - 0)) with (Z.to_nat d) by lia.
    replace (Z.to_nat (d + 1)) with (S (Z.to_nat d)) by lia.
    apply zsum_firstn_skipn. lia.
Qed.

Lemma tp_tn_fn_closed (rows : list (list Z * list Z * Z)) (total_pixels : Z) :
  Forall entry_in_range rows ->
  tp_tn_fn_loop rows total_pixels
  = Ok (flat_map (fun x => [chosen_cell (fst (fst x)) (snd x);
                            chosen_cell (fst (fst x)) (snd x)]) rows,
        map (fun x => total_pixels - chosen_cell (fst (fst x)) (snd x)) rows,
        map (fun x => chosen_cell (snd (fst x)) (snd x)) rows).
Proof.
  induction 1 as [|[[m_row fn_row] d] rows [Hne [Hl Hd]] _ IH];
    [reflexivity |].
  cbn [fst snd] in Hne, Hl, Hd.
  cbn [tp_tn_fn_loop]. rewrite (py_get_chosen m_row d Hne Hd).
  rewrite (py_get_chosen fn_row d).
  - cbn [bind]. rewrite IH. reflexivity.
  - intros ->. simpl in Hl. destruct m_row; [contradiction | discriminate].
  - rewrite Hl. exact Hd.
Qed.

Lemma zsum_flat_map_twice {A : Type} (f : A -> Z) (l : list A) :
  zsum (flat_map (fun x => [f x; f x]) l) = 2 * zsum (map f l).
Proof.
  induction l as [|x l IH]; [reflexivity |].
  cbn [flat_map map app]. rewrite !zsum_cons, IH. lia.
Qed.

Lemma combine_fst {A B : Type} (l : list A) (l' : list B) :
  length l = length l' -> map fst (combine l l') = l.
Proof.
  revert l'. induction l as [|a l IH]; intros [|b l'] H; try reflexivity;
    try discriminate.
  simpl. rewrite IH; [reflexivity | simpl in H; lia].
Qed.

Lemma combine3_rows {A : Type} (f : list Z -> Z -> A)
      (m F : grid Z) (dom : list Z) :
  length F = length m -> length dom = length m ->
  map (fun x : list Z * list Z * Z => f (fst (fst x)) (snd x))
      (combine (combine m F) dom)
  = map (fun x : list Z * Z => f (fst x) (snd x)) (combine m dom).
Proof.
  revert F dom.
  induction m as [|r m IH]; intros [|fr F] [|d dom] H1 H2;
    try reflexivity; try discriminate.
  simpl. f_equal. apply IH; simpl in *; lia.
Qed.

Lemma combine3_fn_rows {A : Type} (f : list Z -> Z -> A)
      (m F : grid Z) (dom : list Z) :
  length F = length m -> length dom = length m ->
  map (fun x : list Z * list Z * Z => f (snd (fst x)) (snd x))
      (combine (combine m F) dom)
  = map (fun x : list Z * Z => f (fst x) (snd x)) (combine F dom).
Proof.
  revert F dom.
  induction m as [|r m IH]; intros [|fr F] [|d dom] H1 H2;
    try reflexivity; try discriminate.
  simpl. f_equal. apply IH; simpl in *; lia.
Qed.

Lemma combine3_in (m F : grid Z) (dom : list Z) (row : list Z) (d : Z) :
  length F = length m -> length dom = length m ->
  In (row, d) (combine m dom) ->
  exists fr, In (row, fr, d) (combine (combine m F) dom).
Proof.
  revert F dom.
  induction m as [|r m IH]; intros [|fr F] [|d0 dom] H1 H2 Hin;
    try contradiction; try discriminate.
  simpl in Hin. destruct Hin as [Hin | Hin].
  - injection Hin as -> ->. exists fr. left. reflexivity.
  - destruct (IH F dom) as [fr' Hfr']; simpl in *; try lia; try exact Hin.
    exists fr'. right. exact Hfr'.
Qed.

(** X16.  The counts of lines 350-375 in closed form, for rows whose
    entry of [dom_ID] is -1 or a position of the row.  The cell an entry
    selects is the cell at that position, and for an unmatched entry
    (-1) the last cell of the row, which is counted as if it were a
    match.  TP is twice the sum of the selected cells, TN the sum of
    [total_pixels] less the selected cell, FN the sum of the selected
    cells of [FN_area], and FP the sum over the rows of the other cells
    of the row; for an unmatched entry the two slices overlap and FP
    receives twice the row less its last cell. *)
Theorem aggregate_counts_closed_form
        (intersect_matrix FN_area : grid Z) (dom_ID : list Z)
        (total_pixels : Z) :
  length FN_area = length intersect_matrix ->
  length dom_ID = length intersect_matrix ->
  Forall entry_in_range (combine (combine intersect_matrix FN_area) dom_ID) ->
  aggregate_counts intersect_matrix FN_area dom_ID total_pixels
  = Ok {| oc_TP := 2 * zsum (map (fun x => chosen_cell (fst x) (snd x))
                                 (combine intersect_matrix dom_ID));
          oc_TN := zsum (map (fun x => total_pixels
                                       - chosen_cell (fst x) (snd x))
                             (combine intersect_matrix dom_ID));
          oc_FN := zsum (map (fun x => chosen_cell (fst x) (snd x))
                             (combine FN_area dom_ID));
          oc_FP := zsum (map (fun x => other_cells (fst x) (snd x))
                             (combine intersect_matrix dom_ID)) |}.
Proof.
  intros HlF Hld Hok. unfold aggregate_counts.
  rewrite (tp_tn_fn_closed _ _ Hok). cbn [bind].
  rewrite zsum_flat_map_twice.
  rewrite (combine3_rows chosen_cell _ _ _ HlF Hld).
  rewrite (combine3_rows (fun row d => total_pixels - chosen_cell row d)
                         _ _ _ HlF Hld).
  rewrite (combine3_fn_rows chosen_cell _ _ _ HlF Hld).
  assert (Hfp : fp_list (combine intersect_matrix dom_ID)
                = map (fun x => other_cells (fst x) (snd x))
                      (combine intersect_matrix dom_ID)).
  { unfold fp_list. apply map_ext_in. intros [row d] Hin. cbn [fst snd].
    destruct (combine3_in _ FN_area _ _ _ HlF Hld Hin) as [fr Hx].
    rewrite Forall_forall in Hok.
    destruct (Hok _ Hx) as [Hne [_ Hd]]. cbn [fst snd] in Hne, Hd.
    apply fp_other_cells; assumption. }
  rewrite Hfp. reflexivity.
Qed.

Lemma aggregate_counts_closed_form_witness :
  aggregate_counts [[3; 1; 2]; [0; 0; 0]] [[1; 4; 0]; [4; 5; 2]] [0; -1] 20
  = Ok {| oc_TP := 2 * zsum (map (fun x => chosen_cell (fst x) (snd x))
                                 (combine [[3; 1; 2]; [0; 0; 0]] [0; -1]));
          oc_TN := zsum (map (fun x => 20 - chosen_cell (fst x) (snd x))
                             (combine [[3; 1; 2]; [0; 0; 0]] [0; -1]));
          oc_FN := zsum (map (fun x => chosen_cell (fst x) (snd x))
                             (combine [[1; 4; 0]; [4; 5; 2]] [0; -1]));
          oc_FP := zsum (map (fun x => other_cells (fst x) (snd x))
                             (combine [[3; 1; 2]; [0; 0; 0]] [0; -1])) |}.
Proof.
  apply (aggregate_counts_closed_form
           [[3; 1; 2]; [0; 0; 0]] [[1; 4; 0]; [4; 5; 2]] [0; -1] 20).
  - reflexivity.
  - reflexivity.
  - repeat constructor; simpl; try discriminate; lia.
Defined.

(* ------------------------------------------------------------------ *)
(** ** Sparse labelings: range of the index, and when it is returned    *)
(* ------------------------------------------------------------------ *)

Lemma sum_upto_le (n : nat) (f g : nat -> Z) :
  (forall i, (i < n)%nat -> f i <= g i) -> sum_upto n f <= sum_upto n g.
Proof.
  induction n as [|n IH]; intros H; [rewrite !sum_upto_0; lia |].
  rewrite !sum_upto_S.
  assert (f n <= g n) by (apply H; lia).
  assert (sum_upto n f <= sum_upto n g) by (apply IH; intros; apply H; lia).
  lia.
Qed.

Lemma sum_upto_extend (n m : nat) (f : nat -> Z) :
  (n <= m)%nat -> (forall i, 0 <= f i) -> sum_upto n f <= sum_upto m f.
Proof.
  intros Hnm Hpos. induction Hnm as [|m Hnm IH]; [lia |].
  rewrite sum_upto_S. specialize (Hpos m). lia.
Qed.

Lemma diag_le_total (f : nat -> nat -> Z) (k a b : nat) :
  (k <= a)%nat -> (k <= b)%nat -> (forall i j, 0 <= f i j) ->
  0 <= sum_upto k (fun i => f i i)
  <= sum_upto a (fun i => sum_upto b (f i)).
Proof.
  intros Ha Hb Hpos. split.
  - apply sum_upto_nonneg. intros i _. apply Hpos.
  - apply Z.le_trans with (sum_upto k (fun i => sum_upto b (f i))).
    + apply sum_upto_le. intros i Hi.
      apply (sum_upto_ge_term b (f i) i); [intros j _; apply Hpos | lia].
    + apply sum_upto_extend; [exact Ha |].
      intros i. apply sum_upto_nonneg. intros j _. apply Hpos.
Qed.

Lemma omega_diag_bounds (labels : list class) :
  Forall class_ok labels ->
  0 <= sum_upto (omega_min_JK labels) (fun i => omega_tbl labels i i)
  <= omega_N_total labels.
Proof.
  intros Hok. unfold omega_N_total, omega_min_JK.
  apply (diag_le_total (omega_tbl labels)); try lia.
  intros i j. apply omega_tbl_nonneg. exact Hok.
Qed.

Lemma fl_div_unit (a b : Z) :
  0 <= a <= b -> 0 < b -> unit_interval (fl_div (fl_of_Z a) (fl_of_Z b)).
Proof.
  intros Ha Hb. unfold fl_of_Z. cbn [fl_div].
  rewrite (Qeq_bool_false (inject_Z b) 0)
    by (apply inject_Z_nonzero; lia).
  eexists. split; [reflexivity |]. rewrite Qred_correct.
  assert (Hb' : (0 < inject_Z b)%Q).
  { change 0%Q with (inject_Z 0). rewrite <- Zlt_Qlt. exact Hb. }
  split.
  - apply Qdiv_nonneg; [| exact Hb'].
    change 0%Q with (inject_Z 0). rewrite <- Zle_Qle. lia.
  - apply Qle_shift_div_r; [exact Hb' |].
    rewrite Qmult_1_l, <- Zle_Qle. lia.
Qed.

Lemma compute_rand_index_ijv_inv (gt_ijv test_ijv : list triple)
      (mask : grid bool) (r : fl * fl) :
  compute_rand_index_ijv gt_ijv test_ijv mask = Ok r ->
  exists labels,
    ijv_classes gt_ijv test_ijv mask = Ok labels
    /\ Forall class_ok labels
    /\ r = (omega_rand_index labels, omega_adjusted_rand_index labels).
Proof.
  unfold compute_rand_index_ijv. intros H.
  destruct (ijv_classes gt_ijv test_ijv mask) as [labels | e] eqn:E;
    [| discriminate].
  cbn [bind] in H. pose proof (ijv_classes_ok _ _ _ _ E) as Hok.
  rewrite (rand_of_classes_spec labels Hok) in H. injection H as <-.
  exists labels. auto.
Qed.

(** X17.  Whenever [compute_rand_index_ijv] returns, its Rand index is
    NaN or a finite number between 0 and 1; it is NaN only when no
    pair of coordinates was counted, and then the adjusted index is NaN
    as well. *)
Theorem ijv_rand_index_range
        (gt_ijv test_ijv : list triple) (mask : grid bool) (r : fl * fl) :
  compute_rand_index_ijv gt_ijv test_ijv mask = Ok r ->
  (fst r = NaN \/ unit_interval (fst r))
  /\ (fst r = NaN -> snd r = NaN).
Proof.
  intros H.
  destruct (compute_rand_index_ijv_inv _ _ _ _ H) as [labels [_ [Hok ->]]].
  cbn [fst snd].
  pose proof (omega_diag_bounds labels Hok) as Hd.
  destruct (Z.eq_dec (omega_N_total labels) 0) as [E | E].
  - destruct (omega_no_pairs labels Hok E) as [H1 H2].
    split; [left; exact H1 | intros _; exact H2].
  - assert (Hu : unit_interval (omega_rand_index labels)).
    { unfold omega_rand_index. apply fl_div_unit; lia. }
    split; [right; exact Hu |].
    intros Hn. destruct Hu as [q [Hq _]]. rewrite Hq in Hn. discriminate.
Qed.

Lemma ijv_rand_index_range_witness :
  (fst (Fin 1, NaN) = NaN \/ unit_interval (fst (Fin 1, NaN)))
  /\ (fst (Fin 1, NaN) = NaN -> snd (Fin 1, NaN) = NaN).
Proof.
  apply (ijv_rand_index_range [((0, 0), 1); ((0, 1), 2)]
                              [((0, 0), 1); ((0, 1), 2)]
                              [[true; true]] (Fin 1, NaN)).
  vm_compute. reflexivity.
Defined.

(* When the index is returned. *)

Lemma np_index_inv (n : nat) (i : Z) :
  (forall r, np_index n i = Ok r -> - Z.of_nat n <= i < Z.of_nat n)
  /\ (forall e, np_index n i = Raise e -> e = IndexError).
Proof.
  unfold np_index.
  destruct (Z.leb_spec 0 i), (Z.ltb_spec i (Z.of_nat n)); cbn [andb];
    try (split; [intros r _; lia | intros e; discriminate]).
  - destruct (Z.leb_spec (- Z.of_nat n) i), (Z.ltb_spec i 0); cbn [andb];
      try (split; [intros r _; lia | intros e; discriminate]);
      (split; [intros r; discriminate | intros e He; congruence]).
  - destruct (Z.leb_spec (- Z.of_nat n) i), (Z.ltb_spec i 0); cbn [andb];
      try (split; [intros r _; lia | intros e; discriminate]);
      (split; [intros r; discriminate | intros e He; congruence]).
  - destruct (Z.leb_spec (- Z.of_nat n) i), (Z.ltb_spec i 0); cbn [andb];
      try (split; [intros r _; lia | intros e; discriminate]);
      (split; [intros r; discriminate | intros e He; congruence]).
Qed.

Lemma clear_at_inv (bkgd : grid bool) (coords : list (Z * Z)) :
  (forall b, clear_at bkgd coords = Ok b ->
             Forall (fun p : Z * Z =>
                       - Z.of_nat (length bkgd) <= fst p < Z.of_nat (length bkgd)
                       /\ - Z.of_nat (length (hd [] bkgd)) <= snd p
                          < Z.of_nat (length (hd [] bkgd))) coords)
  /\ (forall e, clear_at bkgd coords = Raise e -> e = IndexError).
Proof.
  revert bkgd. induction coords as [|[i j] cs IH]; intros bkgd.
  - split; [intros b _; constructor | intros e; discriminate].
  - cbn [clear_at].
    destruct (np_index_inv (length bkgd) i) as [Hi1 Hi2].
    destruct (np_index_inv (length (hd [] bkgd)) j) as [Hj1 Hj2].
    destruct (np_index (length bkgd) i) as [r | e1];
      [| split; [intros b; discriminate
                | intros e He; cbn [bind] in He; injection He as <-;
                  apply Hi2; reflexivity]].
    destruct (np_index (length (hd [] bkgd)) j) as [c | e2];
      [| split; [intros b; discriminate
                | intros e He; cbn [bind] in He; injection He as <-;
                  apply Hj2; reflexivity]].
    cbn [bind].
    destruct (IH (grid_set bkgd r c false)) as [IH1 IH2].
    destruct (grid_set_dims bkgd r c false) as [D1 D2].
    rewrite D1, D2 in IH1. split.
    + intros b Hb. constructor; [| apply (IH1 b Hb)].
      cbn [fst snd]. split; [apply (Hi1 r) | apply (Hj1 c)]; reflexivity.
    + exact IH2.
Qed.

Lemma with_background_inv (ijv : list triple) (mask : grid bool) :
  (forall l, with_background ijv mask = Ok l -> Forall (in_image mask) ijv)
  /\ (forall e, with_background ijv mask = Raise e -> e = IndexError).
Proof.
  unfold with_background.
  destruct (clear_at_inv mask (map t_coord ijv)) as [H1 H2].
  destruct (clear_at mask (map t_coord ijv)) as [b | e0]; cbn [bind].
  - split; [| intros e; discriminate].
    intros l _. specialize (H1 b eq_refl).
    rewrite Forall_forall in H1. apply Forall_forall. intros t Ht.
    apply (H1 (t_coord t)). apply in_map. exact Ht.
  - split; [intros l; discriminate |].
    intros e He. injection He as <-. apply H2. reflexivity.
Qed.

Lemma count_true_row_true (r : list bool) : In true r -> 0 < count_true_row r.
Proof.
  unfold count_true_row. induction r as [|b r IH]; [contradiction |].
  intros [-> | H]; cbn [map]; rewrite zsum_cons.
  - pose proof (count_true_row_nonneg r) as Hn. unfold count_true_row in Hn. lia.
  - specialize (IH H). destruct b; lia.
Qed.

Lemma count_true_nonneg (g : grid bool) : 0 <= count_true g.
Proof.
  unfold count_true. induction g as [|r g IH]; [simpl; lia |].
  cbn [map]. rewrite zsum_cons. pose proof (count_true_row_nonneg r). lia.
Qed.

Lemma count_true_true (g : grid bool) (r : list bool) :
  In r g -> In true r -> 0 < count_true g.
Proof.
  induction g as [|r0 g IH]; [contradiction |].
  intros [-> | Hr] Ht; unfold count_true; cbn [map]; rewrite zsum_cons.
  - pose proof (count_true_row_true r Ht). pose proof (count_true_nonneg g) as Hn.
    unfold count_true in Hn. lia.
  - specialize (IH Hr Ht). unfold count_true in IH.
    pose proof (count_true_row_nonneg r0). lia.
Qed.

Lemma indexed_snd {B : Type} (l : list B) (i : nat) (x : B) :
  In (i, x) (indexed l) -> In x l.
Proof. unfold indexed. intros H. apply in_combine_r in H. exact H. Qed.

Lemma argwhere_empty (g : grid bool) : count_true g = 0 -> argwhere g = [].
Proof.
  intros H. destruct (argwhere g) as [|p l] eqn:E; [reflexivity |].
  exfalso.
  assert (Hin : In p (argwhere g)) by (rewrite E; left; reflexivity).
  unfold argwhere in Hin. apply in_concat in Hin.
  destruct Hin as [row [Hrow Hp]]. apply in_map_iff in Hrow.
  destruct Hrow as [[i r] [<- Hir]]. cbn [fst snd] in Hp.
  apply in_concat in Hp. destruct Hp as [cellp [Hc Hp]].
  apply in_map_iff in Hc. destruct Hc as [[j b] [<- Hjb]].
  cbn [fst snd] in Hp. destruct b; [| contradiction].
  apply indexed_snd in Hir, Hjb.
  pose proof (count_true_true g r Hir Hjb). lia.
Qed.

Lemma classes_of_rows_inv_raise (u : list row4) :
  (forall labels, classes_of_rows u = Ok labels -> u <> [])
  /\ (forall e, classes_of_rows u = Raise e -> e = IndexError).
Proof.
  unfold classes_of_rows. destruct u as [|a u].
  - split; [intros labels; discriminate |].
    intros e He. cbn in He. injection He as <-. reflexivity.
  - split; [intros labels _; discriminate |].
    intros e He. destruct (classes_of_rows_total (a :: u)) as [l Hl];
      [discriminate |].
    unfold classes_of_rows in Hl. rewrite Hl in He. discriminate.
Qed.

(** When [compute_rand_index_ijv] returns, and what it raises. *)
Lemma compute_rand_index_ijv_returns
        (gt_ijv test_ijv : list triple) (mask : grid bool) :
  ((exists r, compute_rand_index_ijv gt_ijv test_ijv mask = Ok r)
   <-> Forall (in_image mask) gt_ijv
       /\ Forall (in_image mask) test_ijv
       /\ (gt_ijv <> [] \/ test_ijv <> [] \/ 0 < count_true mask))
  /\ (forall e, compute_rand_index_ijv gt_ijv test_ijv mask = Raise e ->
                e = IndexError).
Proof.
  split; [split |].
  - intros [r H].
    destruct (compute_rand_index_ijv_inv _ _ _ _ H) as [labels [Hl _]].
    rewrite ijv_classes_unfold in Hl.
    destruct (with_background_inv gt_ijv mask) as [Hg _].
    destruct (with_background_inv test_ijv mask) as [Ht _].
    destruct (with_background gt_ijv mask) as [g | e] eqn:Eg; [| discriminate].
    destruct (with_background test_ijv mask) as [t | e] eqn:Et;
      [| discriminate].
    cbn [bind] in Hl.
    split; [apply (Hg g eq_refl) |]. split; [apply (Ht t eq_refl) |].
    destruct gt_ijv as [|x gt_ijv]; [| left; discriminate].
    destruct test_ijv as [|y test_ijv]; [| right; left; discriminate].
    right. right.
    destruct (Z_lt_le_dec 0 (count_true mask)) as [Hpos | Hle]; [exact Hpos |].
    exfalso. pose proof (count_true_nonneg mask) as Hn.
    assert (E0 : count_true mask = 0) by lia.
    unfold with_background in Eg, Et. cbn in Eg, Et.
    rewrite (argwhere_empty mask E0) in Eg, Et.
    injection Eg as <-. injection Et as <-.
    destruct (classes_of_rows_inv_raise (unified [] [])) as [Hne _].
    apply (Hne labels Hl). reflexivity.
  - intros [Hg [Ht Hne]].
    destruct (ijv_classes_total _ _ _ Hg Ht Hne)
      as [labels [g [t [Eg [Et [_ [_ Hl]]]]]]].
    assert (Hc : ijv_classes gt_ijv test_ijv mask = Ok labels).
    { rewrite ijv_classes_unfold, Eg, Et. exact Hl. }
    pose proof (ijv_classes_ok _ _ _ _ Hc) as Hok.
    eexists. unfold compute_rand_index_ijv. rewrite Hc. cbn [bind].
    apply (rand_of_classes_spec labels Hok).
  - intros e H. unfold compute_rand_index_ijv in H.
    destruct (ijv_classes gt_ijv test_ijv mask) as [labels | e0] eqn:Hc.
    + cbn [bind] in H. pose proof (ijv_classes_ok _ _ _ _ Hc) as Hok.
      rewrite (rand_of_classes_spec labels Hok) in H. discriminate.
    + cbn [bind] in H. injection H as <-.
      rewrite ijv_classes_unfold in Hc.
      destruct (with_background_inv gt_ijv mask) as [_ Hg].
      destruct (with_background_inv test_ijv mask) as [_ Ht].
      destruct (with_background gt_ijv mask) as [g | e1];
        [| cbn [bind] in Hc; injection Hc as <-; apply Hg; reflexivity].
      destruct (with_background test_ijv mask) as [t | e2];
        [| cbn [bind] in Hc; injection Hc as <-; apply Ht; reflexivity].
      cbn [bind] in Hc.
      destruct (classes_of_rows_inv_raise (unified g t)) as [_ Hr].
      apply Hr. exact Hc.
Qed.

(** X18.  [compute_rand_index_ijv] returns exactly when every
    coordinate of the two listings is an index numpy accepts for the
    mask (negative indices count from the end) and there is at least one
    row to sort: a triple in one of the listings or a true pixel in the
    mask.  In every other case the exception is [IndexError]; it raises
    no other. *)
Theorem ijv_returns_iff
        (gt_ijv test_ijv : list triple) (mask : grid bool) :
  ((exists r, compute_rand_index_ijv gt_ijv test_ijv mask = Ok r)
   <-> Forall (in_image mask) gt_ijv
       /\ Forall (in_image mask) test_ijv
       /\ (gt_ijv <> [] \/ test_ijv <> [] \/ 0 < count_true mask))
  /\ (forall e, compute_rand_index_ijv gt_ijv test_ijv mask = Raise e ->
                e = IndexError).
Proof. apply compute_rand_index_ijv_returns. Qed.

(* ------------------------------------------------------------------ *)
(** ** Sparse labelings: the two listings can be exchanged              *)
(* ------------------------------------------------------------------ *)

Lemma ijv_classes_swap (gt_ijv test_ijv : list triple) (mask : grid bool)
      (labels : list class) :
  ijv_classes gt_ijv test_ijv mask = Ok labels ->
  exists labels',
    ijv_classes test_ijv gt_ijv mask = Ok labels'
    /\ Permutation labels' (map swap_class labels).
Proof.
  rewrite !ijv_classes_unfold.
  destruct (with_background gt_ijv mask) as [g | e]; [| discriminate].
  destruct (with_background test_ijv mask) as [t | e]; [| discriminate].
  cbn [bind]. apply classes_of_rows_swap.
Qed.

Lemma compute_rand_index_ijv_swap_ok
      (gt_ijv test_ijv : list triple) (mask : grid bool) (r : fl * fl) :
  compute_rand_index_ijv gt_ijv test_ijv mask = Ok r ->
  compute_rand_index_ijv test_ijv gt_ijv mask = Ok r.
Proof.
  intros H.
  destruct (compute_rand_index_ijv_inv _ _ _ _ H) as [labels [Hc [Hok ->]]].
  destruct (ijv_classes_swap _ _ _ _ Hc) as [labels' [Hc' Hperm]].
  unfold compute_rand_index_ijv. rewrite Hc'. cbn [bind].
  rewrite (rand_of_classes_spec labels' (swapped_ok labels labels' Hok Hperm)).
  rewrite (swapped_rand_index labels labels' Hok Hperm).
  rewrite (swapped_adjusted_rand_index labels labels' Hok Hperm).
  reflexivity.
Qed.

(** Exchanging the two listings changes nothing, errors included. *)
Lemma compute_rand_index_ijv_swap
      (gt_ijv test_ijv : list triple) (mask : grid bool) :
  compute_rand_index_ijv gt_ijv test_ijv mask
  = compute_rand_index_ijv test_ijv gt_ijv mask.
Proof.
  destruct (compute_rand_index_ijv gt_ijv test_ijv mask) as [r | e] eqn:E.
  - symmetry. apply compute_rand_index_ijv_swap_ok. exact E.
  - destruct (compute_rand_index_ijv test_ijv gt_ijv mask) as [r' | e'] eqn:E'.
    + apply compute_rand_index_ijv_swap_ok in E'. congruence.
    + destruct (compute_rand_index_ijv_returns gt_ijv test_ijv mask)
        as [_ H1].
      destruct (compute_rand_index_ijv_returns test_ijv gt_ijv mask)
        as [_ H2].
      rewrite (H1 e E), (H2 e' E'). reflexivity.
Qed.

(** X19.  [compute_rand_index_ijv] is symmetric in its two listings:
    exchanging the ground-truth and the test listing gives the same
    Rand index and the same adjusted Rand index, and when one order
    raises [IndexError] so does the other. *)
Theorem ijv_rand_index_symmetric
        (gt_ijv test_ijv : list triple) (mask : grid bool) :
  compute_rand_index_ijv gt_ijv test_ijv mask
  = compute_rand_index_ijv test_ijv gt_ijv mask.
Proof. apply compute_rand_index_ijv_swap. Qed.

(** C8.  Both implementations of the Rand index are symmetric in their
    two labelings: exchanging the two label arrays given to
    [compute_rand_index], both of the shape of the mask, or the two
    listings given to [compute_rand_index_ijv], gives the same Rand
    index and the same adjusted Rand index. *)
Theorem rand_indices_symmetric :
  (forall (a b : grid Z) (mask : grid bool),
      same_shape a mask -> same_shape b mask ->
      compute_rand_index a b mask = compute_rand_index b a mask)
  /\ (forall (gt_ijv test_ijv : list triple) (mask : grid bool),
         compute_rand_index_ijv gt_ijv test_ijv mask
         = compute_rand_index_ijv test_ijv gt_ijv mask).
Proof.
  split.
  - intros a b mask Ha Hb. apply compute_rand_index_swap; assumption.
  - intros gt_ijv test_ijv mask. apply compute_rand_index_ijv_swap.
Qed.

Lemma rand_indices_symmetric_witness :
  compute_rand_index [[1; 1]; [0; 2]] [[1; 2]; [2; 0]]
                     [[true; true]; [true; true]]
  = compute_rand_index [[1; 2]; [2; 0]] [[1; 1]; [0; 2]]
                       [[true; true]; [true; true]]
  /\ compute_rand_index_ijv two_objects_gt two_objects_test
                            [[true; true]; [true; true]]
     = compute_rand_index_ijv two_objects_test two_objects_gt
                              [[true; true]; [true; true]].
Proof.
  destruct rand_indices_symmetric as [H1 H2]. split.
  - apply H1; repeat constructor.
  - apply H2.
Defined.


(* ------------------------------------------------------------------ *)
(** ** Sparse labelings: a listing compared with itself                 *)
(* ------------------------------------------------------------------ *)

Lemma fixed_by_map {A : Type} (f : A -> A) (l : list A) :
  l = map f l -> forall x, In x l -> x = f x.
Proof.
  induction l as [|a l IH]; intros E x Hx; [contradiction |].
  cbn [map] in E. injection E as Ea El.
  destruct Hx as [<- | Hx]; [exact Ea | apply IH; assumption].
Qed.

(** Compared with itself, a listing gives classes whose two tuples are
    the same. *)
Lemma classes_of_rows_same (g : list triple) (labels : list class) :
  classes_of_rows (unified g g) = Ok labels ->
  forall cls, In cls labels -> class_gt cls = class_test cls.
Proof.
  intros H cls Hin.
  destruct (classes_of_rows_roles _ _ _ (unified_src01 g g) H Hin)
    as [grp [Hgrp [H1 [H2 _]]]].
  destruct (canonical_group _ _ (unified_src01 g g) Hgrp) as [Hs [Hc H01]].
  pose proof (fixed_by_map swap_group _ (swapped_canonical_groups g g) grp Hgrp)
    as Hfix.
  unfold class_gt, class_test. rewrite H1, H2.
  rewrite Hfix at 1. rewrite (swap_group_gt_rows grp).
  apply map_flip_labels.
Qed.

Lemma sum_upto_single (n k : nat) (f : nat -> Z) :
  (k < n)%nat -> (forall j, (j < n)%nat -> j <> k -> f j = 0) ->
  sum_upto n f = f k.
Proof.
  intros Hk H.
  rewrite (sum_upto_ext n f (fun j => if (j =? k)%nat then f k else 0)).
  - rewrite sum_upto_indicator. apply Nat.ltb_lt in Hk. rewrite Hk. reflexivity.
  - intros j Hj. destruct (Nat.eqb_spec j k) as [-> | Hne]; [reflexivity |].
    apply H; assumption.
Qed.

Section SameTuples.

Variable labels : list class.
Hypothesis Hok : Forall class_ok labels.
Hypothesis Hsame : forall cls, In cls labels -> class_gt cls = class_test cls.

Lemma same_hits (p : class * class * Z) :
  In p (class_pairs labels) -> hits_gt p = hits_test p.
Proof.
  intros Hp. destruct (class_pairs_members labels p Hp) as [H1 H2].
  unfold hits_gt, hits_test. rewrite (Hsame _ H1), (Hsame _ H2). reflexivity.
Qed.

Lemma off_diagonal (ht hg : nat) : ht <> hg -> omega_tbl labels ht hg = 0.
Proof.
  intros Hne. unfold omega_tbl.
  assert (G : forall ps, (forall p, In p ps -> hits_gt p = hits_test p) ->
                         bucket ps hg ht = 0).
  { induction ps as [|p ps IH]; intros H; [reflexivity |].
    rewrite bucket_cons, IH by (intros q Hq; apply H; right; exact Hq).
    rewrite (H p (or_introl eq_refl)).
    destruct (Nat.eqb_spec (hits_test p) hg) as [E1 | E1];
      destruct (Nat.eqb_spec (hits_test p) ht) as [E2 | E2];
      cbn [andb]; try reflexivity.
    exfalso. apply Hne. congruence. }
  apply G. exact same_hits.
Qed.

Lemma same_max :
  max_observed hits_test labels = max_observed hits_gt labels.
Proof.
  rewrite (max_observed_test labels Hok), (max_observed_gt labels Hok).
  f_equal. apply map_ext_in. intros c Hc. symmetry. apply (Hsame c Hc).
Qed.

Lemma diagonal_is_total :
  sum_upto (omega_min_JK labels) (fun i => omega_tbl labels i i)
  = omega_N_total labels.
Proof.
  unfold omega_N_total, omega_min_JK. rewrite same_max, Nat.min_id.
  apply sum_upto_ext. intros i Hi. symmetry.
  apply (sum_upto_single _ i (fun hg => omega_tbl labels i hg) Hi).
  intros j _ Hne. apply off_diagonal. congruence.
Qed.

Lemma same_rand_index :
  omega_rand_index labels = NaN \/ omega_rand_index labels = Fin 1.
Proof.
  unfold omega_rand_index. rewrite diagonal_is_total.
  destruct (Z.eq_dec (omega_N_total labels) 0) as [E | E].
  - left. apply fl_div_zero_zero; exact E.
  - right. apply fl_div_self; [reflexivity | apply inject_Z_nonzero; exact E].
Qed.

End SameTuples.

(** X20.  A listing compared with itself agrees with itself: whenever
    [compute_rand_index_ijv] returns on twice the same listing, the Rand
    index is 1, or NaN when no pair of coordinates was counted. *)
Theorem ijv_self_comparison
        (ijv : list triple) (mask : grid bool) (r : fl * fl) :
  compute_rand_index_ijv ijv ijv mask = Ok r ->
  fst r = Fin 1 \/ fst r = NaN.
Proof.
  intros H.
  destruct (compute_rand_index_ijv_inv _ _ _ _ H) as [labels [Hc [Hok ->]]].
  cbn [fst].
  rewrite ijv_classes_unfold in Hc.
  destruct (with_background ijv mask) as [g | e]; [| discriminate].
  cbn [bind] in Hc.
  destruct (same_rand_index labels Hok (classes_of_rows_same g labels Hc))
    as [E | E]; [right | left]; exact E.
Qed.

Lemma ijv_self_comparison_witness :
  fst (Fin 1, Fin 1) = Fin 1 \/ fst (Fin 1, Fin 1) = NaN.
Proof.
  apply (ijv_self_comparison [((0, 0), 1); ((0, 1), 1); ((1, 0), 2)]
                             [[true; true]; [true; true]] (Fin 1, Fin 1)).
  vm_compute. reflexivity.
Defined.

(* ------------------------------------------------------------------ *)
(** ** The contingency Rand index lies between 0 and 1                  *)
(* ------------------------------------------------------------------ *)

Lemma sum_upto_all_zero (n : nat) (f : nat -> Z) :
  (forall i, (i < n)%nat -> f i = 0) -> sum_upto n f = 0.
Proof.
  intros H. rewrite (sum_upto_ext n f (fun _ => 0) H). apply sum_upto_zero.
Qed.

(** A sum over the cells of the table, each weighted by its count, is a
    sum over the pixels. *)
Lemma weighted_cells (F : nat -> nat -> Z) (L : list (Z * Z)) (R1 R2 : nat) :
  Forall (fun p : Z * Z => 0 <= fst p < Z.of_nat R1
                           /\ 0 <= snd p < Z.of_nat R2) L ->
  sum_upto R1 (fun i =>
    sum_upto R2 (fun j =>
      F i j * count_where (fun p : Z * Z => (fst p =? Z.of_nat i)
                                            && (snd p =? Z.of_nat j)) L))
  = zsum (map (fun p : Z * Z => F (Z.to_nat (fst p)) (Z.to_nat (snd p))) L).
Proof.
  induction 1 as [|[g t] L [Hg Ht] HL IH].
  - apply sum_upto_all_zero. intros i _. apply sum_upto_all_zero. intros j _.
    rewrite count_where_nil. lia.
  - cbn [fst snd] in Hg, Ht. cbn [map fst snd]. rewrite zsum_cons, <- IH.
    assert (E1 : F (Z.to_nat g) (Z.to_nat t)
                 = sum_upto R1 (fun i => if (g =? Z.of_nat i)
                                         then F i (Z.to_nat t) else 0)).
    { rewrite (sum_upto_single R1 (Z.to_nat g)).
      - rewrite Z2Nat.id, Z.eqb_refl by lia. reflexivity.
      - lia.
      - intros i Hi Hne.
        destruct (Z.eqb_spec g (Z.of_nat i)); [| reflexivity].
        exfalso. apply Hne. lia. }
    rewrite E1, <- sum_upto_add. apply sum_upto_ext. intros i Hi.
    destruct (Z.eqb_spec g (Z.of_nat i)) as [Eg | Eg].
    + assert (E2 : F i (Z.to_nat t)
                   = sum_upto R2 (fun j => if (t =? Z.of_nat j)
                                           then F i j else 0)).
      { rewrite (sum_upto_single R2 (Z.to_nat t)).
        - rewrite Z2Nat.id, Z.eqb_refl by lia. reflexivity.
        - lia.
        - intros j Hj Hne.
          destruct (Z.eqb_spec t (Z.of_nat j)); [| reflexivity].
          exfalso. apply Hne. lia. }
      rewrite E2, <- sum_upto_add. apply sum_upto_ext. intros j Hj.
      rewrite count_where_cons. cbn [fst snd].
      rewrite <- Eg, Z.eqb_refl. cbn [andb].
      destruct (t =? Z.of_nat j); lia.
    + rewrite Z.add_0_l. apply sum_upto_ext. intros j Hj.
      rewrite count_where_cons. cbn [fst snd].
      destruct (Z.eqb_spec g (Z.of_nat i)); [contradiction |].
      cbn [andb]. lia.
Qed.

Lemma combine_snd {A B : Type} (l : list A) (l' : list B) :
  length l = length l' -> map snd (combine l l') = l'.
Proof.
  revert l'. induction l as [|a l IH]; intros [|b l'] H; try reflexivity;
    try discriminate.
  simpl. rewrite IH; [reflexivity | simpl in H; lia].
Qed.

(** Pixels with a given ground-truth label, with a given test label, and
    with both. *)
Lemma inclusion_exclusion (L : list (Z * Z)) (g t : Z) :
  let a := count_where (fun q : Z * Z => fst q =? g) L in
  let b := count_where (fun q : Z * Z => snd q =? t) L in
  let c := count_where (fun q : Z * Z => (fst q =? g) && (snd q =? t)) L in
  c <= a /\ c <= b /\ a + b - c <= Z.of_nat (length L).
Proof.
  induction L as [|q L IH]; [cbv; repeat split; discriminate |].
  cbv zeta in *. rewrite !count_where_cons.
  destruct IH as [H1 [H2 H3]].
  change (length (q :: L)) with (S (length L)).
  destruct (fst q =? g), (snd q =? t); cbn [andb]; lia.
Qed.

Section PairsOfPixels.

Variables gt test : list Z.
Hypothesis Hlen : length gt = length test.
Hypothesis Hgt : Forall (fun x => 0 <= x) gt.
Hypothesis Htest : Forall (fun x => 0 <= x) test.

Let L := combine gt test.

Lemma pixels_in_range :
  Forall (fun p : Z * Z => 0 <= fst p < Z.of_nat (label_range gt)
                           /\ 0 <= snd p < Z.of_nat (label_range test)) L.
Proof.
  pose proof (in_label_range gt Hgt) as H1.
  pose proof (in_label_range test Htest) as H2.
  rewrite Forall_forall in *. intros [g t] Hp. cbn [fst snd]. split.
  - apply H1. apply (in_combine_l _ _ _ _ Hp).
  - apply H2. apply (in_combine_r _ _ _ _ Hp).
Qed.

Lemma label_count_gt (g : Z) :
  0 <= g ->
  label_count gt (Z.to_nat g) = count_where (fun q : Z * Z => fst q =? g) L.
Proof.
  intros Hg. unfold label_count. rewrite Z2Nat.id by exact Hg.
  rewrite <- (combine_fst gt test Hlen) at 1. fold L.
  apply count_where_map.
Qed.

Lemma label_count_test (t : Z) :
  0 <= t ->
  label_count test (Z.to_nat t) = count_where (fun q : Z * Z => snd q =? t) L.
Proof.
  intros Ht. unfold label_count. rewrite Z2Nat.id by exact Ht.
  rewrite <- (combine_snd gt test Hlen) at 1. fold L.
  apply count_where_map.
Qed.

Lemma pair_count_pixels (g t : Z) :
  0 <= g -> 0 <= t ->
  pair_count gt test (Z.to_nat g) (Z.to_nat t)
  = count_where (fun q : Z * Z => (fst q =? g) && (snd q =? t)) L.
Proof.
  intros Hg Ht. unfold pair_count. rewrite !Z2Nat.id by assumption.
  reflexivity.
Qed.

(** The pairs that agree in one labelling only, pixel by pixel. *)
Lemma disagreements_as_pixels :
  spec_C2 gt test + spec_D2 gt test
  = zsum (map (fun p : Z * Z =>
                 (label_count gt (Z.to_nat (fst p))
                  - pair_count gt test (Z.to_nat (fst p)) (Z.to_nat (snd p)))
                 + (label_count test (Z.to_nat (snd p))
                    - pair_count gt test (Z.to_nat (fst p))
                                 (Z.to_nat (snd p)))) L).
Proof.
  rewrite <- (weighted_cells
                (fun i j => (label_count gt i - pair_count gt test i j)
                            + (label_count test j - pair_count gt test i j))
                L _ _ pixels_in_range).
  unfold spec_C2, spec_D2. rewrite <- sum_upto_add.
  apply sum_upto_ext. intros i _. rewrite <- sum_upto_add.
  apply sum_upto_ext. intros j _.
  change (count_where (fun p : Z * Z => (fst p =? Z.of_nat i)
                                        && (snd p =? Z.of_nat j)) L)
    with (pair_count gt test i j).
  lia.
Qed.

Lemma zsum_bounds {A : Type} (f : A -> Z) (l : list A) (m : Z) :
  (forall x, In x l -> 0 <= f x <= m) ->
  0 <= zsum (map f l) <= Z.of_nat (length l) * m.
Proof.
  induction l as [|x l IH]; intros H; [simpl; lia |].
  cbn [map]. rewrite zsum_cons. change (length (x :: l)) with (S (length l)).
  assert (0 <= f x <= m) by (apply H; left; reflexivity).
  assert (0 <= zsum (map f l) <= Z.of_nat (length l) * m)
    by (apply IH; intros; apply H; right; assumption).
  lia.
Qed.

Lemma disagreements_bounds :
  0 <= spec_C2 gt test + spec_D2 gt test <= 2 * spec_total test.
Proof.
  rewrite disagreements_as_pixels. unfold spec_total.
  rewrite choose2_exact.
  assert (HlenL : length L = length test).
  { unfold L. rewrite length_combine, Hlen. apply Nat.min_id. }
  rewrite <- HlenL.
  apply zsum_bounds. intros [g t] Hp. cbn [fst snd].
  pose proof pixels_in_range as Hr. rewrite Forall_forall in Hr.
  destruct (Hr _ Hp) as [Hg Ht]. cbn [fst snd] in Hg, Ht.
  rewrite (label_count_gt g), (label_count_test t), (pair_count_pixels g t)
    by lia.
  destruct (inclusion_exclusion L g t) as [H1 [H2 H3]].
  assert (H4 : 1 <= count_where (fun q : Z * Z => (fst q =? g) && (snd q =? t)) L).
  { apply (count_where_pos _ _ (g, t) Hp). cbn [fst snd].
    rewrite !Z.eqb_refl. reflexivity. }
  lia.
Qed.

Lemma unit_ratio (v T : Q) :
  (0 <= v)%Q -> (v <= T)%Q ->
  fl_div (Fin v) (Fin T) = NaN \/ unit_interval (fl_div (Fin v) (Fin T)).
Proof.
  intros Hv0 Hv1. cbn [fl_div].
  destruct (Qeq_bool T 0) eqn:E.
  - left. apply Qeq_bool_iff in E. unfold q_sign.
    rewrite (Qeq_bool_true v 0); [reflexivity | lra].
  - right. eexists. split; [reflexivity |]. rewrite Qred_correct.
    assert (Hne : ~ (T == 0)%Q).
    { intros H. apply Qeq_bool_iff in H. congruence. }
    assert (Hpos : (0 < T)%Q) by lra.
    split.
    + apply Qdiv_nonneg; assumption.
    + apply Qle_shift_div_r; [exact Hpos | lra].
Qed.

Lemma spec_rand_index_range :
  spec_rand_index gt test = NaN \/ unit_interval (spec_rand_index gt test).
Proof.
  pose proof disagreements_bounds as Hb.
  unfold spec_rand_index. cbv zeta.
  assert (H0 : (0 <= inject_Z (spec_C2 gt test + spec_D2 gt test))%Q).
  { change 0%Q with (inject_Z 0). rewrite <- Zle_Qle. lia. }
  assert (H1 : (inject_Z (spec_C2 gt test + spec_D2 gt test)
                <= 2 * inject_Z (spec_total test))%Q).
  { change 2%Q with (inject_Z 2). rewrite <- inject_Z_mult, <- Zle_Qle. lia. }
  rewrite inject_Z_plus in H0, H1.
  apply unit_ratio.
  - generalize dependent (inject_Z (spec_C2 gt test)).
    generalize (inject_Z (spec_D2 gt test)) (inject_Z (spec_total test))
               (inject_Z (spec_A gt test)).
    intros d t a c H0 H1. unfold Qdiv. change (/ 2)%Q with (1 # 2)%Q. lra.
  - generalize dependent (inject_Z (spec_C2 gt test)).
    generalize (inject_Z (spec_D2 gt test)) (inject_Z (spec_total test))
               (inject_Z (spec_A gt test)).
    intros d t a c H0 H1. unfold Qdiv. change (/ 2)%Q with (1 # 2)%Q. lra.
Qed.

End PairsOfPixels.

(** X21.  For two label arrays of the shape of the mask, the Rand index
    [compute_rand_index] returns is NaN (fewer than two valid pixels) or
    a finite number between 0 and 1. *)
Theorem rand_index_range (test_labels ground_truth_labels : grid Z)
        (mask : grid bool) :
  same_shape test_labels mask -> same_shape ground_truth_labels mask ->
  fst (compute_rand_index test_labels ground_truth_labels mask) = NaN
  \/ unit_interval
       (fst (compute_rand_index test_labels ground_truth_labels mask)).
Proof.
  intros Ht Hg.
  assert (Hlen : length (map to_u64 (select ground_truth_labels mask))
                 = length (map to_u64 (select test_labels mask))).
  { rewrite !length_map. apply select_length; assumption. }
  destruct (select test_labels mask) as [|x l] eqn:E.
  - left. unfold compute_rand_index. rewrite E. reflexivity.
  - rewrite <- E in *.
    rewrite (rand_index_of_labels test_labels ground_truth_labels mask Hlen)
      by (rewrite E; discriminate).
    cbn [fst]. apply spec_rand_index_range.
    + exact Hlen.
    + apply to_u64_nonneg.
    + apply to_u64_nonneg.
Qed.

Lemma rand_index_range_witness :
  fst (compute_rand_index [[1; 1]; [0; 2]] [[1; 1]; [2; 0]]
                          [[true; true]; [true; true]]) = NaN
  \/ unit_interval
       (fst (compute_rand_index [[1; 1]; [0; 2]] [[1; 1]; [2; 0]]
                                [[true; true]; [true; true]])).
Proof.
  apply (rand_index_range [[1; 1]; [0; 2]] [[1; 1]; [2; 0]]
                          [[true; true]; [true; true]]).
  - repeat constructor.
  - repeat constructor.
Defined.

(* ------------------------------------------------------------------ *)
(** ** Pixel mode: the four displayed arrays                            *)
(* ------------------------------------------------------------------ *)

Lemma confusion_row (p q : bool -> bool) (r1 r2 rm : list bool) (c : nat) :
  length r1 = length rm -> length r2 = length rm ->
  nth c (zip_with (fun v m => if negb m then false else v)
                  (zip_with andb (map p r1) (map q r2)) rm) false
  = p (nth c r1 false) && q (nth c r2 false) && nth c rm false.
Proof.
  revert r2 rm c.
  induction r1 as [|a r1 IH]; intros [|b r2] [|m rm] c H1 H2;
    try discriminate.
  - destruct c; simpl; rewrite andb_false_r; reflexivity.
  - destruct c as [|c].
    + simpl. destruct m; [rewrite andb_true_r |rewrite andb_false_r];
        reflexivity.
    + simpl. apply IH; simpl in *; lia.
Qed.

Lemma confusion_cell (p q : bool -> bool) (test gt mask : grid bool)
      (r c : nat) :
  same_shape test mask -> same_shape gt mask ->
  pixel (clear_unmasked (grid_map2 andb (grid_map p test) (grid_map q gt))
                        mask) r c
  = p (pixel test r c) && q (pixel gt r c) && pixel mask r c.
Proof.
  unfold pixel, clear_unmasked, grid_map2, grid_map, same_shape.
  intros Ht. revert gt r.
  induction Ht as [|r1 rm test mask Hr Ht IH]; intros gt r Hg;
    inversion Hg as [|r2 rm' gt' mask' Hr2 Hg']; subst.
  - destruct r, c; simpl; rewrite andb_false_r; reflexivity.
  - destruct r as [|r].
    + cbn [map zip_with nth]. apply confusion_row; assumption.
    + cbn [map zip_with nth]. apply IH. exact Hg'.
Qed.

(** X22.  The four arrays [measure_image] hands to the display split
    the valid pixels: for images of the shape of the mask, a pixel under
    the mask is set in exactly one of true positives, false positives,
    false negatives and true negatives, the one its two values name, and
    a pixel outside the mask is set in none. *)
Theorem displayed_arrays_partition (test gt mask : grid bool) (r c : nat) :
  same_shape test mask -> same_shape gt mask ->
  let d := measure_image_display test gt mask in
  pixel (true_positives d) r c
  = pixel test r c && pixel gt r c && pixel mask r c
  /\ pixel (false_positives d) r c
     = pixel test r c && negb (pixel gt r c) && pixel mask r c
  /\ pixel (false_negatives d) r c
     = negb (pixel test r c) && pixel gt r c && pixel mask r c
  /\ pixel (true_negatives d) r c
     = negb (pixel test r c) && negb (pixel gt r c) && pixel mask r c
  /\ b2z (pixel (true_positives d) r c) + b2z (pixel (false_positives d) r c)
     + b2z (pixel (false_negatives d) r c) + b2z (pixel (true_negatives d) r c)
     = b2z (pixel mask r c).
Proof.
  intros Ht Hg d.
  pose proof (confusion_cell (fun x => x) (fun x => x) test gt mask r c Ht Hg)
    as Htp.
  pose proof (confusion_cell (fun x => x) negb test gt mask r c Ht Hg) as Hfp.
  pose proof (confusion_cell negb (fun x => x) test gt mask r c Ht Hg) as Hfn.
  pose proof (confusion_cell negb negb test gt mask r c Ht Hg) as Htn.
  repeat rewrite grid_map_id in Htp.
  repeat rewrite grid_map_id in Hfp.
  repeat rewrite grid_map_id in Hfn.
  unfold d, measure_image_display.
  cbn [true_positives false_positives false_negatives true_negatives].
  rewrite Htp, Hfp, Hfn, Htn.
  repeat split.
  destruct (pixel test r c), (pixel gt r c), (pixel mask r c); reflexivity.
Qed.

Lemma displayed_arrays_partition_witness :
  let d := measure_image_display [[true; false]; [true; false]]
                                 [[true; true]; [false; false]]
                                 [[true; true]; [true; false]] in
  pixel (true_positives d) 0 1
  = pixel [[true; false]; [true; false]] 0 1
    && pixel [[true; true]; [false; false]] 0 1
    && pixel [[true; true]; [true; false]] 0 1
  /\ pixel (false_positives d) 0 1
     = pixel [[true; false]; [true; false]] 0 1
       && negb (pixel [[true; true]; [false; false]] 0 1)
       && pixel [[true; true]; [true; false]] 0 1
  /\ pixel (false_negatives d) 0 1
     = negb (pixel [[true; false]; [true; false]] 0 1)
       && pixel [[true; true]; [false; false]] 0 1
       && pixel [[true; true]; [true; false]] 0 1
  /\ pixel (true_negatives d) 0 1
     = negb (pixel [[true; false]; [true; false]] 0 1)
       && negb (pixel [[true; true]; [false; false]] 0 1)
       && pixel [[true; true]; [true; false]] 0 1
  /\ b2z (pixel (true_positives d) 0 1) + b2z (pixel (false_positives d) 0 1)
     + b2z (pixel (false_negatives d) 0 1) + b2z (pixel (true_negatives d) 0 1)
     = b2z (pixel [[true; true]; [true; false]] 0 1).
Proof.
  apply (displayed_arrays_partition [[true; false]; [true; false]]
                                    [[true; true]; [false; false]]
                                    [[true; true]; [true; false]] 0 1).
  - repeat constructor.
  - repeat constructor.
Defined.

(* ------------------------------------------------------------------ *)
(** ** Object mode: one object in each listing                          *)
(* ------------------------------------------------------------------ *)

Lemma py_max_all_one (l : list Z) :
  l <> [] -> Forall (fun x => x = 1) l -> py_max l = Ok 1.
Proof.
  intros Hne H. destruct l as [|x l]; [contradiction |].
  inversion H as [|? ? Hx Hl]; subst. simpl. f_equal.
  clear Hne H. induction Hl as [|y l Hy Hl IH]; [reflexivity |].
  subst y. simpl. exact IH.
Qed.

Lemma object_set_other_label (ijv : list triple) (k : Z) :
  Forall (fun l => l = 1) (labels_of ijv) -> k <> 1 -> object_set ijv k = [].
Proof.
  intros H Hk. unfold object_set.
  rewrite filter_none; [reflexivity |].
  intros t Ht. apply Z.eqb_neq. intros E. apply Hk. rewrite <- E.
  rewrite Forall_forall in H. apply H. unfold labels_of.
  apply in_map. exact Ht.
Qed.

Lemma no_label_zero (ijv : list triple) :
  Forall (fun l => l = 1) (labels_of ijv) ->
  filter (fun t : triple => snd t =? 0) ijv = [].
Proof.
  intros H. apply filter_none. intros t Ht. apply Z.eqb_neq.
  rewrite Forall_forall in H.
  rewrite (H (snd t)) by (unfold labels_of; apply in_map; exact Ht).
  discriminate.
Qed.

(** The matching of two listings that hold one object each. *)
Lemma match_single_objects (gt_ijv test_ijv : list triple)
      (xGT yGT xID yID : nat) :
  gt_ijv <> [] -> test_ijv <> [] ->
  Forall (fun l => l = 1) (labels_of gt_ijv) ->
  Forall (fun l => l = 1) (labels_of test_ijv) ->
  Forall (valid_index xGT yGT) gt_ijv ->
  exists mt : matching,
    match_objects gt_ijv test_ijv xGT yGT xID yID = Ok mt
    /\ mt_GT_obj mt = 1
    /\ mt_resolved mt = [[0]] /\ mt_FN_area mt = [[0]]
    /\ mt_dom_ID mt = [-1].
Proof.
  intros Hg Ht Hgl Htl Hgv. unfold match_objects.
  fold (labels_of test_ijv). fold (labels_of gt_ijv).
  rewrite (py_max_all_one (labels_of test_ijv)), (py_max_all_one (labels_of gt_ijv));
    try assumption;
    try (unfold labels_of; intros E; apply map_eq_nil in E; contradiction).
  cbn [bind]. change ((1 <? 0) || (1 <? 0)) with false. cbv iota.
  unfold intersect_matrix_of, FN_area_of.
  change (range0 1) with [0]. cbn [map].
  rewrite (object_set_other_label gt_ijv 0 Hgl) by discriminate.
  rewrite (object_set_other_label test_ijv 0 Htl) by discriminate.
  change (area_overlap [] []) with 0. change (set_size []) with 0.
  change (0 - 0) with 0.
  rewrite !zeros_tab.
  destruct (mark_loop_ok xGT yGT [0] (fun _ => map t_coord gt_ijv)
                         (fun _ _ => 0)) as [GT_pixels HGT].
  { intros l _. apply valid_coords. exact Hgv. }
  rewrite HGT. cbn [bind].
  unfold mark_loop. cbn [fold_left bind].
  rewrite (no_label_zero test_ijv Htl). cbn [map set_at bind].
  change (dominant_ids [[0]]) with (@Ok (list Z) [-1]). cbn [bind].
  eexists. split; [reflexivity |].
  cbn [mt_resolved mt_FN_area mt_dom_ID mt_GT_obj].
  repeat split.
Qed.

(** X23.  With one object in each listing (every label is 1), object
    mode reports NaN for precision, recall, F-factor and false negative
    rate, however the two objects overlap: the only row and the only
    column of the overlap matrix stand for label 0, every count but TN is
    0 and the ratios are 0/0.  The false positive rate is 0 (for an image
    that has pixels), and the two Rand indices are those of
    [compute_rand_index_ijv].  The ground-truth coordinates are indices
    of the ground-truth image, which is marked once; no test object is
    drawn. *)
Theorem single_objects_give_nan
        (gt_ijv test_ijv : list triple) (xGT yGT xID yID : nat)
        (mask : grid bool) (ri : fl * fl) :
  gt_ijv <> [] -> test_ijv <> [] ->
  Forall (fun l => l = 1) (labels_of gt_ijv) ->
  Forall (fun l => l = 1) (labels_of test_ijv) ->
  Forall (valid_index xGT yGT) gt_ijv ->
  compute_rand_index_ijv gt_ijv test_ijv mask = Ok ri ->
  exists s : overlap_stats,
    measure_objects gt_ijv test_ijv xGT yGT xID yID mask = Ok s
    /\ precision s = NaN
    /\ recall s = NaN
    /\ f_factor s = NaN
    /\ false_negative_rate s = NaN
    /\ ((xGT * yGT)%nat <> 0%nat -> false_positive_rate s = Fin 0)
    /\ rand_index s = fst ri
    /\ adjusted_rand_index s = snd ri.
Proof.
  intros Hg Ht Hgl Htl Hgv Hri.
  destruct (match_single_objects gt_ijv test_ijv xGT yGT xID yID
                                 Hg Ht Hgl Htl Hgv)
    as [mt [Hmt [HGT [Hres [HFN Hdom]]]]].
  destruct (compute_rand_index_ijv_returns gt_ijv test_ijv mask)
    as [[Hin _] _].
  destruct (Hin (ex_intro _ ri Hri)) as [Hgm [Htm _]].
  set (total := Z.of_nat xGT * Z.of_nat yGT).
  assert (Hc : object_counts_of mt total
               = Ok {| oc_TP := 0; oc_TN := total; oc_FN := 0; oc_FP := 0 |}).
  { unfold object_counts_of. rewrite Hres, HFN, Hdom.
    unfold aggregate_counts. cbn. repeat f_equal. lia. }
  destruct (measure_objects_from_parts _ _ _ _ _ _ _ _ _ _ Hmt Hc Hgm Htm Hri)
    as [s [Hs [Hrec [Hprec [Hf [Hfpr [Hfnr [Hr1 Hr2]]]]]]]].
  cbn [oc_TP oc_TN oc_FN oc_FP] in *.
  assert (Harea : GT_tot_area_of gt_ijv (mt_GT_obj mt) = 0).
  { rewrite HGT. unfold GT_tot_area_of. change (range0 1) with [0]. cbn [map].
    rewrite (object_set_other_label gt_ijv 0 Hgl) by discriminate.
    reflexivity. }
  rewrite Harea in Hrec.
  exists s. split; [exact Hs |].
  assert (Hp : precision s = NaN) by (rewrite Hprec; reflexivity).
  assert (Hrc : recall s = NaN) by (rewrite Hrec; reflexivity).
  split; [exact Hp |]. split; [exact Hrc |].
  split; [rewrite Hf, Hp, Hrc; reflexivity |].
  split; [rewrite Hfnr; reflexivity |].
  split; [| split; assumption].
  intros Hpix. rewrite Hfpr. unfold fl_of_Z. cbn [fl_add fl_div].
  assert (Hne : ~ (Qred (inject_Z 0 + inject_Z total) == 0)%Q).
  { rewrite Qred_correct, <- inject_Z_plus. apply inject_Z_nonzero.
    unfold total. lia. }
  rewrite (Qeq_bool_false _ _ Hne). reflexivity.
Qed.

Lemma single_objects_give_nan_witness :
  exists s : overlap_stats,
    measure_objects [((0, 0), 1); ((0, 1), 1)] [((0, 0), 1); ((0, 1), 1)]
                    1 2 1 2 [[true; true]] = Ok s
    /\ precision s = NaN
    /\ recall s = NaN
    /\ f_factor s = NaN
    /\ false_negative_rate s = NaN
    /\ ((1 * 2)%nat <> 0%nat -> false_positive_rate s = Fin 0)
    /\ rand_index s = fst (Fin 1, NaN)
    /\ adjusted_rand_index s = snd (Fin 1, NaN).
Proof.
  apply (single_objects_give_nan
           [((0, 0), 1); ((0, 1), 1)] [((0, 0), 1); ((0, 1), 1)] 1 2 1 2
           [[true; true]] (Fin 1, NaN)).
  - discriminate.
  - discriminate.
  - repeat constructor.
  - repeat constructor.
  - repeat constructor; cbn; lia.
  - vm_compute. reflexivity.
Defined.

(* ------------------------------------------------------------------ *)
(** ** Object mode: the four displayed arrays                           *)
(* ------------------------------------------------------------------ *)

Lemma subscripts_tab (rows cols : nat) (g h : nat -> nat -> Z) (c1 c2 : Z)
      (r c : nat) :
  (r < rows)%nat -> (c < cols)%nat ->
  coord_mem (Z.of_nat r, Z.of_nat c)
            (subscripts (tab rows cols g) (tab rows cols h) c1 c2)
  = (g r c =? c1) && (h r c =? c2).
Proof.
  intros Hr Hc. apply bool_eq_iff.
  rewrite coord_mem_In, andb_true_iff, !Z.eqb_eq.
  unfold subscripts. rewrite filter_In, coord_mem_In, !cells_equal_tab.
  split.
  - intros [[i [j [E [_ [_ H1]]]]] [i' [j' [E' [_ [_ H2]]]]]].
    injection E as Ei Ej. injection E' as Ei' Ej'.
    apply Nat2Z.inj in Ei, Ej, Ei', Ej'. subst i j i' j'. auto.
  - intros [H1 H2]. split; exists r, c; auto.
Qed.

Lemma subscripts_inside (rows cols : nat) (g h : nat -> nat -> Z) (c1 c2 : Z) :
  Forall (fun p : Z * Z => 0 <= fst p < Z.of_nat rows
                           /\ 0 <= snd p < Z.of_nat cols)
         (subscripts (tab rows cols g) (tab rows cols h) c1 c2).
Proof.
  apply Forall_forall. intros p Hp. unfold subscripts in Hp.
  apply filter_In in Hp. destruct Hp as [Hp _].
  apply cells_equal_tab in Hp. destruct Hp as [i [j [-> [Hi [Hj _]]]]].
  cbn [fst snd]. lia.
Qed.

Lemma maskimg_tab (rows cols : nat) (g h : nat -> nat -> Z) (c1 c2 : Z) :
  maskimg (subscripts (tab rows cols g) (tab rows cols h) c1 c2)
          (zeros rows cols)
  = Ok (tab rows cols (fun i j => b2z ((g i j =? c1) && (h i j =? c2)))).
Proof.
  unfold maskimg. rewrite zeros_tab.
  rewrite set_at_tab by apply subscripts_inside.
  f_equal. apply tab_ext. intros i j Hi Hj.
  rewrite subscripts_tab by assumption. reflexivity.
Qed.

Lemma in_range0 (n l : Z) : In l (range0 n) <-> 0 <= l < n.
Proof.
  unfold range0. rewrite in_map_iff. split.
  - intros [k [<- Hk]]. apply in_seq in Hk. lia.
  - intros H. exists (Z.to_nat l). split; [lia | apply in_seq; lia].
Qed.

Lemma marked_gt (gt_ijv : list triple) (GT_obj : Z) (r c : nat) :
  1 <= GT_obj ->
  existsb (fun _ : Z => coord_mem (Z.of_nat r, Z.of_nat c)
                                  (map t_coord gt_ijv)) (range0 GT_obj)
  = covers gt_ijv r c.
Proof.
  intros H. unfold covers. apply bool_eq_iff. rewrite existsb_exists. split.
  - intros [l [_ E]]. exact E.
  - intros E. exists 0. split; [apply in_range0; lia | exact E].
Qed.

Lemma marked_test (test_ijv : list triple) (ID_obj : Z) (r c : nat) :
  existsb (fun i : Z =>
             coord_mem (Z.of_nat r, Z.of_nat c)
                       (map t_coord (filter (fun t : triple => snd t =? i)
                                            test_ijv))) (range0 ID_obj)
  = covers_below test_ijv ID_obj r c.
Proof.
  unfold covers_below. apply bool_eq_iff.
  rewrite existsb_exists, coord_mem_In, in_map_iff. split.
  - intros [l [Hl E]]. apply in_range0 in Hl.
    apply coord_mem_In, in_map_iff in E. destruct E as [t [Et Ht]].
    apply filter_In in Ht. destruct Ht as [Ht El]. apply Z.eqb_eq in El.
    exists t. split; [exact Et |]. apply filter_In. split; [exact Ht |].
    apply andb_true_intro. split; [apply Z.leb_le | apply Z.ltb_lt]; lia.
  - intros [t [Et Ht]]. apply filter_In in Ht. destruct Ht as [Ht Hb].
    apply andb_prop in Hb. destruct Hb as [H0 H1].
    apply Z.leb_le in H0. apply Z.ltb_lt in H1.
    exists (snd t). split; [apply in_range0; lia |].
    apply coord_mem_In, in_map_iff. exists t. split; [exact Et |].
    apply filter_In. split; [exact Ht | apply Z.eqb_refl].
Qed.

(** X24.  The arrays [measure_objects] stores for the display, for two
    listings that are not empty, with ground-truth labels at least 1 and
    every coordinate inside the image.  A pixel counts as ground truth
    when some ground-truth triple lies on it, and as test when some test
    triple with a label below the largest test label lies on it: the
    test object with the largest label is never drawn.  The array stored
    as true positives holds the pixels that are both, the one stored as
    false positives those that are test only; the array stored as true
    negatives holds the pixels that are ground truth only (the false
    negatives) and the one stored as false negatives those that are
    neither (the true negatives). *)
Theorem objects_display_arrays
        (gt_ijv test_ijv : list triple) (x y : nat) :
  gt_ijv <> [] -> test_ijv <> [] ->
  Forall (fun l => 1 <= l) (labels_of gt_ijv) ->
  Forall (inside x y) gt_ijv -> Forall (inside x y) test_ijv ->
  exists (d : object_display) (ID_obj : Z),
    py_max (labels_of test_ijv) = Ok ID_obj
    /\ objects_display gt_ijv test_ijv x y x y = Ok d
    /\ forall r c : nat, (r < x)%nat -> (c < y)%nat ->
         let G := covers gt_ijv r c in
         let T := covers_below test_ijv ID_obj r c in
         cell (od_true_positives d) r c = b2z (G && T)
         /\ cell (od_false_positives d) r c = b2z (negb G && T)
         /\ cell (od_true_negatives d) r c = b2z (G && negb T)
         /\ cell (od_false_negatives d) r c = b2z (negb G && negb T).
Proof.
  intros Hg Ht Hgl Hgi Hti.
  destruct (py_max_nonempty (labels_of test_ijv)) as [ID_obj HID].
  { destruct test_ijv; [contradiction | discriminate]. }
  destruct (py_max_nonempty (labels_of gt_ijv)) as [GT_obj HGT].
  { destruct gt_ijv; [contradiction | discriminate]. }
  destruct (py_max_spec _ _ HGT) as [HGTin _].
  assert (HGT1 : 1 <= GT_obj).
  { rewrite Forall_forall in Hgl. apply Hgl. exact HGTin. }
  assert (Hin : forall l : list triple,
             Forall (inside x y) l ->
             Forall (fun p : Z * Z => 0 <= fst p < Z.of_nat x
                                      /\ 0 <= snd p < Z.of_nat y)
                    (map t_coord l)).
  { intros l Hl. apply Forall_forall. intros p Hp. apply in_map_iff in Hp.
    destruct Hp as [t [<- Ht']]. rewrite Forall_forall in Hl.
    apply (Hl t Ht'). }
  unfold objects_display. fold (labels_of test_ijv). fold (labels_of gt_ijv).
  rewrite HID, HGT. cbn [bind]. rewrite !zeros_tab.
  rewrite mark_loop_tab by (intros l _; apply Hin; exact Hgi).
  cbn [bind].
  rewrite mark_loop_tab.
  2:{ intros l _. apply Hin. apply Forall_forall. intros t Ht'.
      apply filter_In in Ht'. destruct Ht' as [Ht' _].
      rewrite Forall_forall in Hti. apply Hti. exact Ht'. }
  cbn [bind]. rewrite <- !zeros_tab. rewrite !maskimg_tab. cbn [bind].
  eexists. exists ID_obj. split; [reflexivity |]. split; [reflexivity |].
  intros r c Hr Hc. cbv zeta.
  cbn [od_true_positives od_false_positives od_true_negatives
       od_false_negatives].
  rewrite !cell_tab by assumption.
  rewrite (marked_gt gt_ijv GT_obj r c HGT1), (marked_test test_ijv ID_obj r c).
  destruct (covers gt_ijv r c), (covers_below test_ijv ID_obj r c);
    repeat split.
Qed.

Lemma objects_display_arrays_witness :
  exists (d : object_display) (ID_obj : Z),
    py_max (labels_of two_objects_test) = Ok ID_obj
    /\ objects_display two_objects_gt two_objects_test 2 2 2 2 = Ok d
    /\ forall r c : nat, (r < 2)%nat -> (c < 2)%nat ->
         let G := covers two_objects_gt r c in
         let T := covers_below two_objects_test ID_obj r c in
         cell (od_true_positives d) r c = b2z (G && T)
         /\ cell (od_false_positives d) r c = b2z (negb G && T)
         /\ cell (od_true_negatives d) r c = b2z (G && negb T)
         /\ cell (od_false_negatives d) r c = b2z (negb G && negb T).
Proof.
  apply (objects_display_arrays two_objects_gt two_objects_test 2 2).
  - discriminate.
  - discriminate.
  - repeat constructor; discriminate.
  - repeat constructor; cbn; lia.
  - repeat constructor; cbn; lia.
Defined.

(* ------------------------------------------------------------------ *)
(** ** Pixel mode without a valid pixel                                 *)
(* ------------------------------------------------------------------ *)

Lemma zip_with_in {A B C : Type} (f : A -> B -> C) (l : list A) (m : list B)
      (x : C) :
  In x (zip_with f l m) -> exists a b, In a l /\ In b m /\ x = f a b.
Proof.
  revert m. induction l as [|a l IH]; intros [|b m] H; try contradiction.
  cbn [zip_with] in H. destruct H as [<- | H].
  - exists a, b. repeat split; left; reflexivity.
  - destruct (IH m H) as [a' [b' [Ha [Hb E]]]].
    exists a', b'. repeat split; [right | right |]; assumption.
Qed.

Lemma cells3_valid (test gt mask : grid bool) (c : bool * bool * bool) :
  In c (cells3 test gt mask) -> snd c = true -> 0 < count_true mask.
Proof.
  unfold cells3. intros Hin Hc. apply in_concat in Hin.
  destruct Hin as [row [Hrow Hin]].
  apply zip_with_in in Hrow. destruct Hrow as [tg [rm [_ [Hrm ->]]]].
  apply zip_with_in in Hin. destruct Hin as [p [m [_ [Hm ->]]]].
  cbn [snd] in Hc. subst m.
  apply (count_true_true mask rm Hrm Hm).
Qed.

Lemma confusion_count_no_valid (t g : bool) (test gt mask : grid bool) :
  count_true mask = 0 -> confusion_count t g test gt mask = 0.
Proof.
  intros H. unfold confusion_count. rewrite filter_none; [reflexivity |].
  intros c Hc. destruct (snd c) eqn:E; [| apply andb_false_r].
  pose proof (cells3_valid test gt mask c Hc E). lia.
Qed.

(** X25.  Without a valid pixel (the mask is false everywhere, or the
    images are empty) [measure_image] raises nothing and reports the
    fallbacks: precision, recall and F-factor 1, false positive and
    false negative rates 0, and NaN for both Rand indices. *)
Theorem no_valid_pixel_stats
        (label : grid bool -> grid Z) (test gt mask : grid bool) :
  count_true mask = 0 ->
  exists s : overlap_stats,
    measure_image label test gt mask = Ok s
    /\ precision s = Fin 1 /\ recall s = Fin 1 /\ f_factor s = Fin 1
    /\ false_positive_rate s = Fin 0 /\ false_negative_rate s = Fin 0
    /\ rand_index s = NaN /\ adjusted_rand_index s = NaN.
Proof.
  intros H.
  destruct (measure_image_returns label test gt mask)
    as [s [Hs [H1 [H2 [H3 [H4 [H5 H6]]]]]]].
  rewrite !(confusion_count_no_valid _ _ test gt mask H) in *.
  unfold compute_rand_index in H6. rewrite !select_no_valid in H6 by exact H.
  cbn [map length Nat.ltb Nat.leb] in H6. injection H6 as Hr Ha.
  exists s. split; [exact Hs |].
  repeat split; try assumption.
Qed.

Lemma no_valid_pixel_stats_witness :
  exists s : overlap_stats,
    measure_image (fun g => grid_map (fun b : bool => if b then 1 else 0) g)
                  [[true; false]] [[false; true]] [[false; false]] = Ok s
    /\ precision s = Fin 1 /\ recall s = Fin 1 /\ f_factor s = Fin 1
    /\ false_positive_rate s = Fin 0 /\ false_negative_rate s = Fin 0
    /\ rand_index s = NaN /\ adjusted_rand_index s = NaN.
Proof.
  apply (no_valid_pixel_stats
           (fun g => grid_map (fun b : bool => if b then 1 else 0) g)
           [[true; false]] [[false; true]] [[false; false]]).
  reflexivity.
Defined.

(* ------------------------------------------------------------------ *)
(** ** Sparse labelings: only the set of triples matters                *)
(* ------------------------------------------------------------------ *)

Lemma clear_at_perm (bkgd b1 : grid bool) (cs cs' : list (Z * Z)) :
  Permutation cs cs' -> clear_at bkgd cs = Ok b1 -> clear_at bkgd cs' = Ok b1.
Proof.
  intros H. revert bkgd.
  induction H as [| [i j] cs cs' H IH | [i j] [i' j'] cs | cs cs' cs'' H1 IH1 H2 IH2];
    intros bkgd Hc.
  - exact Hc.
  - cbn [clear_at] in *.
    destruct (np_index (length bkgd) i) as [r | e]; [| discriminate].
    destruct (np_index (length (hd [] bkgd)) j) as [c | e]; [| discriminate].
    cbn [bind] in *. apply IH. exact Hc.
  - cbn [clear_at] in *.
    destruct (np_index (length bkgd) i') as [r' | e] eqn:Er'; [| discriminate].
    destruct (np_index (length (hd [] bkgd)) j') as [c' | e] eqn:Ec';
      [| discriminate].
    cbn [bind] in Hc.
    destruct (grid_set_dims bkgd r' c' false) as [D1 D2].
    rewrite D1, D2 in Hc.
    destruct (np_index (length bkgd) i) as [r | e] eqn:Er; [| discriminate].
    destruct (np_index (length (hd [] bkgd)) j) as [c | e] eqn:Ec;
      [| discriminate].
    cbn [bind] in *.
    destruct (grid_set_dims bkgd r c false) as [D3 D4].
    rewrite D3, D4, Er', Ec'. cbn [bind].
    rewrite grid_set_comm. exact Hc.
  - apply IH2, IH1. exact Hc.
Qed.

Lemma clear_at_absorbs (bkgd b1 : grid bool) (cs cs' : list (Z * Z)) :
  clear_at bkgd cs = Ok b1 -> (forall p, In p cs' -> In p cs) ->
  clear_at b1 cs' = Ok b1.
Proof.
  intros Hc Hin. destruct (clear_at_dims _ _ _ Hc) as [D1 D2].
  induction cs' as [|[i j] cs' IH]; [reflexivity |].
  destruct (clear_at_member _ _ _ i j Hc (Hin _ (or_introl eq_refl)))
    as [r [c [Hr [Hcc Hset]]]].
  cbn [clear_at]. rewrite D1, Hr, D2, Hcc. cbn [bind]. rewrite Hset.
  apply IH. intros p Hp. apply Hin. right. exact Hp.
Qed.

(** The background left by a listing depends on the set of its
    coordinates only. *)
Lemma clear_at_set (bkgd : grid bool) (cs cs' : list (Z * Z)) :
  (forall p, In p cs <-> In p cs') -> clear_at bkgd cs = clear_at bkgd cs'.
Proof.
  intros Hin.
  destruct (clear_at_inv bkgd cs) as [Hok Hraise].
  destruct (clear_at_inv bkgd cs') as [Hok' Hraise'].
  destruct (clear_at bkgd cs) as [b1 | e] eqn:E,
           (clear_at bkgd cs') as [b2 | e'] eqn:E'.
  - assert (H1 : clear_at bkgd (cs ++ cs') = Ok b1).
    { rewrite clear_at_app, E. cbn [bind].
      apply (clear_at_absorbs bkgd b1 cs cs' E). intros p Hp.
      apply Hin. exact Hp. }
    assert (H2 : clear_at bkgd (cs' ++ cs) = Ok b2).
    { rewrite clear_at_app, E'. cbn [bind].
      apply (clear_at_absorbs bkgd b2 cs' cs E'). intros p Hp.
      apply Hin. exact Hp. }
    rewrite (clear_at_perm _ _ _ _ (Permutation_app_comm cs cs') H1) in H2.
    exact H2.
  - exfalso. specialize (Hok b1 eq_refl).
    destruct (clear_at_ok bkgd cs') as [b Hb]; [| congruence].
    apply Forall_forall. intros p Hp. rewrite Forall_forall in Hok.
    apply Hok, Hin. exact Hp.
  - exfalso. specialize (Hok' b2 eq_refl).
    destruct (clear_at_ok bkgd cs) as [b Hb]; [| congruence].
    apply Forall_forall. intros p Hp. rewrite Forall_forall in Hok'.
    apply Hok', Hin. exact Hp.
  - rewrite (Hraise e eq_refl), (Hraise' e' eq_refl). reflexivity.
Qed.

Lemma with_background_set (ijv ijv' : list triple) (mask : grid bool) :
  (forall x, In x ijv <-> In x ijv') ->
  match with_background ijv mask, with_background ijv' mask with
  | Ok a, Ok b => forall x, In x a <-> In x b
  | Raise e, Raise e' => e = e'
  | _, _ => False
  end.
Proof.
  intros Hin. unfold with_background.
  rewrite (clear_at_set mask (map t_coord ijv) (map t_coord ijv')).
  - destruct (clear_at mask (map t_coord ijv')) as [b | e]; cbn [bind];
      [| reflexivity].
    intros x. rewrite !in_app_iff, Hin. reflexivity.
  - intros p. rewrite !in_map_iff. split; intros [t [E Ht]]; exists t;
      (split; [exact E | apply Hin; exact Ht]).
Qed.

(** X26.  [compute_rand_index_ijv] depends on the two listings as sets
    of triples only: neither the order of the triples nor a repeated
    triple changes what it returns or raises. *)
Theorem ijv_listing_as_set
        (gt_ijv gt_ijv' test_ijv test_ijv' : list triple) (mask : grid bool) :
  (forall x, In x gt_ijv <-> In x gt_ijv') ->
  (forall x, In x test_ijv <-> In x test_ijv') ->
  compute_rand_index_ijv gt_ijv test_ijv mask
  = compute_rand_index_ijv gt_ijv' test_ijv' mask.
Proof.
  intros Hg Ht. unfold compute_rand_index_ijv. rewrite !ijv_classes_unfold.
  pose proof (with_background_set gt_ijv gt_ijv' mask Hg) as Hbg.
  pose proof (with_background_set test_ijv test_ijv' mask Ht) as Hbt.
  destruct (with_background gt_ijv mask) as [a | e],
           (with_background gt_ijv' mask) as [a' | e'];
    try contradiction; [| subst; reflexivity].
  cbn [bind].
  destruct (with_background test_ijv mask) as [b | e],
           (with_background test_ijv' mask) as [b' | e'];
    try contradiction; [| subst; reflexivity].
  cbn [bind].
  rewrite (classes_of_rows_ext (unified a b) (unified a' b'));
    [reflexivity |].
  intros x. rewrite !unified_in, Hbg, Hbt. reflexivity.
Qed.

Lemma ijv_listing_as_set_witness :
  compute_rand_index_ijv [((0, 0), 1); ((0, 1), 1); ((1, 1), 2)]
                         [((0, 0), 1); ((1, 0), 2)]
                         [[true; true]; [true; true]]
  = compute_rand_index_ijv [((1, 1), 2); ((0, 0), 1); ((0, 1), 1); ((0, 0), 1)]
                           [((1, 0), 2); ((0, 0), 1); ((1, 0), 2)]
                           [[true; true]; [true; true]].
Proof.
  apply (ijv_listing_as_set
           [((0, 0), 1); ((0, 1), 1); ((1, 1), 2)]
           [((1, 1), 2); ((0, 0), 1); ((0, 1), 1); ((0, 0), 1)]
           [((0, 0), 1); ((1, 0), 2)]
           [((1, 0), 2); ((0, 0), 1); ((1, 0), 2)]
           [[true; true]; [true; true]]).
  - intros x. simpl. tauto.
  - intros x. simpl. tauto.
Defined.

(* ------------------------------------------------------------------ *)
(** ** Object mode returns on labelled listings                         *)
(* ------------------------------------------------------------------ *)

Lemma Forall_upd_nth {A : Type} (P : A -> Prop) (n : nat) (f : A -> A)
      (l : list A) :
  Forall P l -> (forall x, P x -> P (f x)) -> Forall P (upd_nth n f l).
Proof.
  intros H Hf. revert n. induction H as [|a l Ha Hl IH]; intros [|n]; simpl;
    try constructor; auto.
Qed.

Lemma grid_set_rows (m : grid Z) (r c : nat) (v : Z) (w : nat) :
  Forall (fun row => length row = w) m ->
  Forall (fun row => length row = w) (grid_set m r c v).
Proof.
  intros H. unfold grid_set. apply Forall_upd_nth; [exact H |].
  intros row Hrow. rewrite length_upd_nth. exact Hrow.
Qed.

Lemma resolve_collisions_rows (dom_ID : list Z) (m : grid Z) (ncols w : nat) :
  Forall (fun row => length row = w) m ->
  Forall (fun row => length row = w) (resolve_collisions dom_ID m ncols).
Proof.
  unfold resolve_collisions. generalize (seq 0 ncols). intros cols.
  revert m. induction cols as [|i cols IH]; intros m H; [exact H |].
  cbn [fold_left]. apply IH. unfold resolve_column.
  destruct (1 <? length (where_eq dom_ID (Z.of_nat i)))%nat; [| exact H].
  generalize (filter (fun x => negb (x =? first_argmax (column m i))%nat)
                     (where_eq dom_ID (Z.of_nat i))).
  intros ns. revert m H. induction ns as [|n ns IHn]; intros m H; [exact H |].
  cbn [fold_left]. apply IHn. apply grid_set_rows. exact H.
Qed.

Lemma length_resolve_collisions (dom_ID : list Z) (m : grid Z) (ncols : nat) :
  length (resolve_collisions dom_ID m ncols) = length m.
Proof. unfold resolve_collisions. apply resolve_prefix. Qed.

Lemma match_objects_FN_area (gt_ijv test_ijv : list triple)
      (xGT yGT xID yID : nat) (mt : matching) :
  match_objects gt_ijv test_ijv xGT yGT xID yID = Ok mt ->
  mt_FN_area mt = FN_area_of gt_ijv test_ijv (mt_ID_obj mt) (mt_GT_obj mt).
Proof.
  intros H. apply match_objects_parts in H.
  destruct H as [_ [_ [_ [_ [_ [H _]]]]]]. exact H.
Qed.

Lemma FN_area_rows (gt_ijv test_ijv : list triple) (ID_obj GT_obj : Z) :
  Forall (fun row => length row = Z.to_nat GT_obj)
         (FN_area_of gt_ijv test_ijv ID_obj GT_obj).
Proof.
  apply Forall_forall. intros row H. unfold FN_area_of in H.
  apply in_map_iff in H. destruct H as [jj [<- _]].
  rewrite length_map, length_range0. reflexivity.
Qed.

Lemma entries_in_range (R F : grid Z) (D : list Z) (w : nat) :
  (0 < w)%nat ->
  Forall (fun row => length row = w) R ->
  Forall (fun row => length row = w) F ->
  Forall (fun d => -1 <= d < Z.of_nat w) D ->
  Forall entry_in_range (combine (combine R F) D).
Proof.
  intros Hw HR. revert F D.
  induction HR as [|row R Hrow HR IH]; intros F D HF HD; [constructor |].
  destruct HF as [|frow F Hfrow HF]; [constructor |].
  destruct HD as [|d D Hd HD]; [constructor |].
  cbn [combine]. constructor; [| apply IH; assumption].
  unfold entry_in_range. cbn [fst snd]. repeat split; try lia.
  intros ->. simpl in Hrow. lia.
Qed.

Lemma inside_in_image (x y : nat) (mask : grid bool) (t : triple) :
  length mask = x -> length (hd [] mask) = y ->
  inside x y t -> in_image mask t.
Proof.
  intros Hx Hy [H1 H2]. unfold in_image. rewrite Hx, Hy. lia.
Qed.

Lemma inside_valid (x y : nat) (t : triple) :
  inside x y t -> valid_index x y t.
Proof. unfold inside, valid_index. lia. Qed.

(** X27.  Object mode returns on well-formed input: for two listings
    that are not empty, with labels at least 1 and every coordinate
    inside the image, and a mask of the shape of the image,
    [measure_objects] raises no exception. *)
Theorem measure_objects_returns
        (gt_ijv test_ijv : list triple) (x y : nat) (mask : grid bool) :
  gt_ijv <> [] -> test_ijv <> [] ->
  Forall (fun l => 1 <= l) (labels_of gt_ijv) ->
  Forall (fun l => 1 <= l) (labels_of test_ijv) ->
  Forall (inside x y) gt_ijv -> Forall (inside x y) test_ijv ->
  length mask = x -> length (hd [] mask) = y ->
  exists s : overlap_stats,
    measure_objects gt_ijv test_ijv x y x y mask = Ok s.
Proof.
  intros Hg Ht Hgl Htl Hgi Hti Hx Hy.
  destruct (match_objects_returns gt_ijv test_ijv x y x y Hg Ht Hgl Htl)
    as [mt [Hmt [_ [_ [HGTin [_ [HlenM [HrowsM [HlenD [HD _]]]]]]]]]].
  { apply Forall_forall. intros t Ht'. rewrite Forall_forall in Hgi.
    apply inside_valid. auto. }
  { apply Forall_forall. intros t Ht'. rewrite Forall_forall in Hti.
    apply inside_valid. auto. }
  assert (HGT1 : 1 <= mt_GT_obj mt).
  { rewrite Forall_forall in Hgl. apply Hgl. exact HGTin. }
  destruct (match_objects_inv _ _ _ _ _ _ _ Hmt) as [_ Hres].
  pose proof (match_objects_FN_area _ _ _ _ _ _ _ Hmt) as HFN.
  assert (Hentries : Forall entry_in_range
                       (combine (combine (mt_resolved mt) (mt_FN_area mt))
                                (mt_dom_ID mt))).
  { apply (entries_in_range _ _ _ (Z.to_nat (mt_GT_obj mt))).
    - lia.
    - rewrite Hres. apply resolve_collisions_rows. exact HrowsM.
    - rewrite HFN. apply FN_area_rows.
    - apply Forall_forall. intros d Hd. rewrite Forall_forall in HD.
      specialize (HD d Hd). cbv beta in HD. lia. }
  assert (Hgm : Forall (in_image mask) gt_ijv).
  { apply Forall_forall. intros t Ht'. rewrite Forall_forall in Hgi.
    apply (inside_in_image x y); auto. }
  assert (Htm : Forall (in_image mask) test_ijv).
  { apply Forall_forall. intros t Ht'. rewrite Forall_forall in Hti.
    apply (inside_in_image x y); auto. }
  destruct (compute_rand_index_ijv_returns gt_ijv test_ijv mask) as [[_ Hri] _].
  destruct Hri as [ri Hri].
  { split; [exact Hgm |]. split; [exact Htm |]. left. exact Hg. }
  assert (Hc : exists counts,
             object_counts_of mt (Z.of_nat x * Z.of_nat y) = Ok counts).
  { unfold object_counts_of, aggregate_counts.
    rewrite (tp_tn_fn_closed _ _ Hentries). cbn [bind].
    eexists. reflexivity. }
  destruct Hc as [counts Hc].
  destruct (measure_objects_from_parts _ _ _ _ _ _ _ _ _ _ Hmt Hc Hgm Htm Hri)
    as [s [Hs _]].
  exists s. exact Hs.
Qed.

Lemma measure_objects_returns_witness :
  exists s : overlap_stats,
    measure_objects two_objects_gt two_objects_test 2 2 2 2
                    [[true; true]; [true; true]] = Ok s.
Proof.
  apply (measure_objects_returns two_objects_gt two_objects_test 2 2
                                 [[true; true]; [true; true]]).
  - discriminate.
  - discriminate.
  - repeat constructor; discriminate.
  - repeat constructor; discriminate.
  - repeat constructor; cbn; lia.
  - repeat constructor; cbn; lia.
  - reflexivity.
  - reflexivity.
Defined.
